(** * Spack spec literals: tokenizer, token cursor, parser, legacy rewriter

    A shallow embedding of [lib/spack/spack/spec_parser.py] and of the
    legacy spec-string rewriter of [lib/spack/spack/cmd/style.py], with the
    properties of the specification stated and settled against it.

    Conventions.
    - A Python [str] is a [string]; a character is one of the code points
      0..255 ([ascii]).  Character classes ([\s], [\b], [.]) follow CPython's
      tables on that range.
    - Python tuples and lists of strings are both [list string]; a
      sequence handed to a collaborator keeps its kind ([pyseq]).
    - Code that can raise runs in a state-and-exception monad: the state
      survives an exception, as a mutated Python object does. *)

From Stdlib Require Import Bool Arith ZArith Lia List String Ascii.
From Stdlib Require Import Permutation.
Import ListNotations.
Open Scope string_scope.
Open Scope list_scope.
Open Scope nat_scope.

Set Implicit Arguments.

(** ** Python string primitives *)

Module Py.

Definition code (c : ascii) : nat := nat_of_ascii c.

Definition in_range (lo hi : ascii) (c : ascii) : bool :=
  (code lo <=? code c) && (code c <=? code hi).

(** [str.isspace] on one character: CPython's whitespace table restricted to
    the code points 0..255. *)
Definition is_space (c : ascii) : bool :=
  let n := code c in
  ((9 <=? n) && (n <=? 13)) || ((28 <=? n) && (n <=? 32))
  || (n =? 133) || (n =? 160).

(** Alphanumeric or underscore: what [\w] matches in a [str] pattern. *)
Definition is_word (c : ascii) : bool :=
  let n := code c in
  in_range "a" "z" c || in_range "A" "Z" c || in_range "0" "9" c
  || (n =? 95)
  || (n =? 170) || (n =? 178) || (n =? 179) || (n =? 181)
  || (n =? 185) || (n =? 186) || ((188 <=? n) && (n <=? 190))
  || ((192 <=? n) && (n <=? 214)) || ((216 <=? n) && (n <=? 246))
  || (248 <=? n).

Definition newline : ascii := ascii_of_nat 10.

Fixpoint mem_char (c : ascii) (s : string) : bool :=
  match s with
  | EmptyString => false
  | String a s' => Ascii.eqb a c || mem_char c s'
  end.

Fixpoint starts_with (p s : string) : bool :=
  match p, s with
  | EmptyString, _ => true
  | String a p', String b s' => Ascii.eqb a b && starts_with p' s'
  | String _ _, EmptyString => false
  end.

Fixpoint drop (n : nat) (s : string) : string :=
  match n, s with
  | S n', String _ s' => drop n' s'
  | _, _ => s
  end.

Fixpoint take (n : nat) (s : string) : string :=
  match n, s with
  | S n', String a s' => String a (take n' s')
  | _, _ => EmptyString
  end.

(** [sub in s] *)
Fixpoint contains (sub s : string) : bool :=
  starts_with sub s ||
  match s with
  | EmptyString => false
  | String _ s' => contains sub s'
  end.

(** [s.index(sub)]; [None] stands for the ValueError of a missing [sub]. *)
Fixpoint index (sub s : string) : option nat :=
  if starts_with sub s then Some 0
  else match s with
       | EmptyString => None
       | String _ s' => option_map S (index sub s')
       end.

(** [s.endswith(p)] *)
Definition ends_with (p s : string) : bool :=
  (String.length p <=? String.length s)
  && String.eqb (drop (String.length s - String.length p) s) p.

(** [s[:-1]] *)
Definition drop_last (s : string) : string := take (String.length s - 1) s.

(** [s.split(sep, maxsplit=1)] for a non-empty [sep]: the text before the
    first occurrence and the text after it, or [None] when [sep] does not
    occur (the result is then the one-element list [[s]]). *)
Fixpoint split_once (sep s : string) : option (string * string) :=
  if starts_with sep s then Some (EmptyString, drop (String.length sep) s)
  else match s with
       | EmptyString => None
       | String a s' =>
           match split_once sep s' with
           | Some (l, r) => Some (String a l, r)
           | None => None
           end
       end.

(** [s.split(c)] for a one-character separator. *)
Fixpoint split_char (c : ascii) (s : string) : list string :=
  match s with
  | EmptyString => [EmptyString]
  | String a s' =>
      if Ascii.eqb a c then EmptyString :: split_char c s'
      else match split_char c s' with
           | p :: ps => String a p :: ps
           | [] => [String a EmptyString]
           end
  end.

(** [sep.join(parts)] *)
Fixpoint join (sep : string) (parts : list string) : string :=
  match parts with
  | [] => EmptyString
  | [p] => p
  | p :: ps => p ++ sep ++ join sep ps
  end.

Fixpoint lstrip_by (f : ascii -> bool) (s : string) : string :=
  match s with
  | String a s' => if f a then lstrip_by f s' else s
  | EmptyString => EmptyString
  end.

(** Drops the trailing characters satisfying [f]. *)
Fixpoint rstrip_by (f : ascii -> bool) (s : string) : string :=
  match s with
  | EmptyString => EmptyString
  | String a s' =>
      match rstrip_by f s' with
      | EmptyString => if f a then EmptyString else String a EmptyString
      | t => String a t
      end
  end.

(** [s.strip(chars)] and [s.strip()] *)
Definition strip_chars (chars s : string) : string :=
  rstrip_by (fun c => mem_char c chars) (lstrip_by (fun c => mem_char c chars) s).

Definition strip (s : string) : string :=
  rstrip_by is_space (lstrip_by is_space s).

(** [s.replace(old, new)] for a non-empty [old]: occurrences are replaced
    from the left and do not overlap.  [n] bounds the characters left. *)
Fixpoint replace_fuel (n : nat) (old new s : string) : string :=
  match n with
  | 0 => s
  | S n' =>
      match s with
      | EmptyString => EmptyString
      | String a s' =>
          if starts_with old s
          then new ++ replace_fuel (n' - (String.length old - 1)) old new
                                   (drop (String.length old) s)
          else String a (replace_fuel n' old new s')
      end
  end.

Definition replace (old new s : string) : string :=
  replace_fuel (String.length s) old new s.

(** [c * n] *)
Fixpoint repeat_char (c : ascii) (n : nat) : string :=
  match n with
  | 0 => EmptyString
  | S n' => String c (repeat_char c n')
  end.

End Py.

(** ** Regular expressions

    The patterns of the source are [re] patterns.  [regex] is their syntax
    and [Re.run] Python's matching discipline: alternatives are tried from
    the left, quantifiers are greedy, and the first way through that lets
    the rest of the pattern succeed is the match. *)

Module Re.

(** One item of a bracketed character set. *)
Inductive item : Type :=
| Ch (c : ascii)             (* a literal character *)
| Rg (lo hi : ascii)         (* lo-hi *)
| Sp.                        (* \s *)

Inductive regex : Type :=
| Eps                                   (* the empty pattern *)
| Lit (s : string)                      (* literal text *)
| Set_ (items : list item)              (* [...] *)
| NSet (items : list item)              (* [^...] *)
| Dot                                   (* .  : any character but a newline *)
| Seq (r1 r2 : regex)
| Alt (r1 r2 : regex)                   (* r1|r2 *)
| Star (r : regex)                      (* r*, greedy *)
| Rep (n : nat) (r : regex)             (* r{n} *)
| Group (name : string) (r : regex)     (* (?P<name>r), or a numbered group *)
| Backref (name : string)               (* \1 *)
| Bol                                   (* ^ *)
| Eol                                   (* $ *)
| WordB                                 (* \b *)
| Behind (c : ascii)                    (* (?<=c) *)
| NotAhead (r : regex).                 (* (?!r) *)

Definition Opt (r : regex) : regex := Alt r Eps.       (* r? *)
Definition Plus (r : regex) : regex := Seq r (Star r). (* r+ *)

(** The state of a match in progress: the character before the cursor, the
    text from the cursor on, the cursor's offset and the groups set so far. *)
Record mstate : Type := MState {
  prev : option ascii;
  rest : string;
  pos : nat;
  caps : list (string * string)
}.

Definition item_matches (c : ascii) (i : item) : bool :=
  match i with
  | Ch a => Ascii.eqb a c
  | Rg lo hi => Py.in_range lo hi c
  | Sp => Py.is_space c
  end.

Definition in_set (items : list item) (c : ascii) : bool :=
  existsb (item_matches c) items.

(** Consume one character satisfying [f]. *)
Definition eat (f : ascii -> bool) (st : mstate) (k : mstate -> option mstate)
  : option mstate :=
  match rest st with
  | String a s' =>
      if f a then k (MState (Some a) s' (S (pos st)) (caps st)) else None
  | EmptyString => None
  end.

(** Consume the literal [s]. *)
Fixpoint eat_lit (s : string) (st : mstate) (k : mstate -> option mstate)
  : option mstate :=
  match s with
  | EmptyString => k st
  | String c s' => eat (Ascii.eqb c) st (fun st1 => eat_lit s' st1 k)
  end.

Fixpoint lookup (name : string) (l : list (string * string)) : option string :=
  match l with
  | [] => None
  | (n, v) :: l' => if String.eqb n name then Some v else lookup name l'
  end.

Definition set_cap (name v : string) (st : mstate) : mstate :=
  MState (prev st) (rest st) (pos st) ((name, v) :: caps st).

Definition word_opt (o : option ascii) : bool :=
  match o with Some c => Py.is_word c | None => false end.

Definition next_char (st : mstate) : option ascii :=
  match rest st with String a _ => Some a | EmptyString => None end.

(** [$] holds at the end of the text and just before a final newline. *)
Definition at_eol (st : mstate) : bool :=
  match rest st with
  | EmptyString => true
  | String a EmptyString => Ascii.eqb a Py.newline
  | _ => false
  end.

(** The greedy loop of a starred pattern, [body] being one iteration: as
    many iterations as possible are tried first, and an iteration has to
    consume text.  [n] bounds the characters left. *)
Fixpoint star_loop (body : mstate -> (mstate -> option mstate) -> option mstate)
  (k : mstate -> option mstate) (n : nat) (st : mstate) {struct n}
  : option mstate :=
  match n with
  | 0 => k st
  | S n' =>
      match body st (fun st1 => if pos st <? pos st1
                                then star_loop body k n' st1 else None) with
      | Some m => Some m
      | None => k st
      end
  end.

(** Exactly [n] iterations of [body]. *)
Fixpoint rep_loop (body : mstate -> (mstate -> option mstate) -> option mstate)
  (k : mstate -> option mstate) (n : nat) (st : mstate) {struct n}
  : option mstate :=
  match n with
  | 0 => k st
  | S n' => body st (rep_loop body k n')
  end.

(** [run r st k]: match [r] at [st], then continue with [k]; the result is
    that of the first way of matching [r] that [k] accepts. *)
Fixpoint run (r : regex) (st : mstate) (k : mstate -> option mstate)
  {struct r} : option mstate :=
  match r with
  | Eps => k st
  | Lit s => eat_lit s st k
  | Set_ items => eat (in_set items) st k
  | NSet items => eat (fun c => negb (in_set items c)) st k
  | Dot => eat (fun c => negb (Ascii.eqb c Py.newline)) st k
  | Seq r1 r2 => run r1 st (fun st1 => run r2 st1 k)
  | Alt r1 r2 =>
      match run r1 st k with
      | Some m => Some m
      | None => run r2 st k
      end
  | Star r1 => star_loop (run r1) k (String.length (rest st)) st
  | Rep n r1 => rep_loop (run r1) k n st
  | Group name r1 =>
      run r1 st (fun st1 =>
        k (set_cap name (Py.take (pos st1 - pos st) (rest st)) st1))
  | Backref name =>
      match lookup name (caps st) with
      | Some v => eat_lit v st k
      | None => None
      end
  | Bol => if pos st =? 0 then k st else None
  | Eol => if at_eol st then k st else None
  | WordB =>
      if xorb (word_opt (prev st)) (word_opt (next_char st)) then k st else None
  | Behind c =>
      match prev st with
      | Some a => if Ascii.eqb a c then k st else None
      | None => None
      end
  | NotAhead r1 =>
      match run r1 st (fun st1 => Some st1) with
      | Some _ => None
      | None => k st
      end
  end.

(** [pattern.match(text)]: a match anchored at the start of [text]. *)
Definition match_ (r : regex) (text : string) : option mstate :=
  run r (MState None text 0 []) (fun st => Some st).

(** The state after the text [a] was consumed. *)
Fixpoint skip (a : string) (st : mstate) : mstate :=
  match a with
  | EmptyString => st
  | String c a' =>
      skip a' (MState (Some c) (Py.drop 1 (rest st)) (S (pos st)) (caps st))
  end.

(** Every character of [s] satisfies [f]. *)
Fixpoint all_chars (f : ascii -> bool) (s : string) : bool :=
  match s with
  | EmptyString => true
  | String c s' => f c && all_chars f s'
  end.

Definition not_newline (c : ascii) : bool := negb (Ascii.eqb c Py.newline).

(** A lower bound on the characters a match of [r] consumes. *)
Fixpoint min_len (r : regex) : nat :=
  match r with
  | Lit s => String.length s
  | Set_ _ | NSet _ | Dot => 1
  | Seq r1 r2 => min_len r1 + min_len r2
  | Alt r1 r2 => Nat.min (min_len r1) (min_len r2)
  | Rep n r1 => n * min_len r1
  | Group _ r1 => min_len r1
  | _ => 0
  end.

(** [follows n st st']: [st'] is [st] after at least [n] characters. *)
Definition follows (n : nat) (st st' : mstate) : Prop :=
  exists a, rest st = (a ++ rest st')%string
            /\ pos st' = pos st + String.length a
            /\ n <= String.length a.

(** Whatever [body] matches, it hands to its continuation a state that
    follows the one it started from by [n] characters or more. *)
Definition sound (n : nat)
  (body : mstate -> (mstate -> option mstate) -> option mstate) : Prop :=
  forall st k m, body st k = Some m ->
                 exists st', follows n st st' /\ k st' = Some m.

End Re.

(** ** The patterns of [spec_parser.py]

    Each definition quotes the pattern of the source; in these quotations
    a blank is put between a star and a closing parenthesis. *)

Module Pat.
Import Re.

Definition cat (rs : list regex) : regex := fold_right Seq Eps rs.

Definition s_star : regex := Star (Set_ [Sp]).                (* \s* *)

(** [[a-zA-Z_0-9]] *)
Definition word_items : list item :=
  [Rg "a" "z"; Rg "A" "Z"; Ch "_"; Rg "0" "9"].

(** IDENTIFIER = [(?:[a-zA-Z_0-9][a-zA-Z_0-9\-]* )] *)
Definition IDENTIFIER : regex :=
  Seq (Set_ word_items) (Star (Set_ (word_items ++ [Ch "-"]))).

(** DOTTED_IDENTIFIER = [(?:{IDENTIFIER}(?:\.{IDENTIFIER})+)] *)
Definition DOTTED_IDENTIFIER : regex :=
  Seq IDENTIFIER (Plus (Seq (Lit ".") IDENTIFIER)).

(** GIT_HASH = [(?:[A-Fa-f0-9]{40})] *)
Definition GIT_HASH : regex := Rep 40 (Set_ [Rg "A" "F"; Rg "a" "f"; Rg "0" "9"]).

(** GIT_REF = [(?:[a-zA-Z_0-9][a-zA-Z_0-9./\-]* )] *)
Definition GIT_REF : regex :=
  Seq (Set_ word_items) (Star (Set_ (word_items ++ [Ch "."; Ch "/"; Ch "-"]))).

(** GIT_VERSION_PATTERN = [(?:(?:git\.(?:{GIT_REF}))|(?:{GIT_HASH}))] *)
Definition GIT_VERSION_PATTERN : regex :=
  Alt (Seq (Lit "git.") GIT_REF) GIT_HASH.

(** VIRTUAL_ASSIGNMENT =
    [(?:(?P<virtuals>{IDENTIFIER}(?:,{IDENTIFIER})* )=(?P<substitute>{DOTTED_IDENTIFIER}|{IDENTIFIER}))] *)
Definition VIRTUAL_ASSIGNMENT : regex :=
  cat [Group "virtuals" (Seq IDENTIFIER (Star (Seq (Lit ",") IDENTIFIER)));
       Lit "=";
       Group "substitute" (Alt DOTTED_IDENTIFIER IDENTIFIER)].

(** STAR = [\*] *)
Definition STAR : regex := Lit "*".

(** NAME = [[a-zA-Z_0-9][a-zA-Z_0-9\-.]*] *)
Definition NAME : regex :=
  Seq (Set_ word_items) (Star (Set_ (word_items ++ [Ch "-"; Ch "."]))).

(** HASH = [[a-zA-Z_0-9]+] *)
Definition HASH : regex := Plus (Set_ word_items).

(** VALUE = [(?:[a-zA-Z_0-9\-+\*.,:=%^\~\/\\]+)] *)
Definition VALUE : regex :=
  Plus (Set_ (word_items ++
              [Ch "-"; Ch "+"; Ch "*"; Ch "."; Ch ","; Ch ":"; Ch "="; Ch "%";
               Ch "^"; Ch "~"; Ch "/"; Ch "\"])).

Definition squote : ascii := "'".
Definition dquote : ascii := ascii_of_nat 34.
Definition backslash : ascii := "\".

(** QUOTED_VALUE = [(?:'(?:[^']|(?<=\\)')*'|Q(?:[^Q]|(?<=\\)Q)*Q)], with Q
    the double quote *)
Definition quoted_by (q : ascii) : regex :=
  let qs := String q EmptyString in
  cat [Lit qs; Star (Alt (NSet [Ch q]) (Seq (Behind backslash) (Lit qs))); Lit qs].

Definition QUOTED_VALUE : regex := Alt (quoted_by squote) (quoted_by dquote).

(** VERSION = [=?(?:[a-zA-Z0-9_][a-zA-Z_0-9\-\.]*\b)] *)
Definition VERSION : regex :=
  cat [Opt (Lit "=");
       Set_ [Rg "a" "z"; Rg "A" "Z"; Rg "0" "9"; Ch "_"];
       Star (Set_ (word_items ++ [Ch "-"; Ch "."]));
       WordB].

(** VERSION_RANGE = [(?:(?:{VERSION})?:(?:{VERSION}(?!\s*=))?)] *)
Definition VERSION_RANGE : regex :=
  cat [Opt VERSION; Lit ":";
       Opt (Seq VERSION (NotAhead (Seq s_star (Lit "="))))].

(** VERSION_LIST =
    [(?:{VERSION_RANGE}|{VERSION})(?:\s*,\s*(?:{VERSION_RANGE}|{VERSION}))*] *)
Definition VERSION_LIST : regex :=
  Seq (Alt VERSION_RANGE VERSION)
      (Star (cat [s_star; Lit ","; s_star; Alt VERSION_RANGE VERSION])).

(** UNIX_FILENAME =
    [(?:\.|\/|[a-zA-Z0-9-_]*\/)(?:[a-zA-Z0-9-_\.\/]* )(?:\.json|\.yaml)];
    [FILENAME] is this pattern when [sys.platform] is not ["win32"]. *)
Definition file_items : list item :=
  [Rg "a" "z"; Rg "A" "Z"; Rg "0" "9"; Ch "-"; Ch "_"].

Definition UNIX_FILENAME : regex :=
  cat [Alt (Lit ".") (Alt (Lit "/") (Seq (Star (Set_ file_items)) (Lit "/")));
       Star (Set_ (file_items ++ [Ch "."; Ch "/"]));
       Alt (Lit ".json") (Lit ".yaml")].

Definition FILENAME : regex := UNIX_FILENAME.

(** STRIP_QUOTES = [^(['Q])(.* )\1$], with Q the double quote *)
Definition STRIP_QUOTES : regex :=
  cat [Bol; Group "1" (Set_ [Ch squote; Ch dquote]); Group "2" (Star Dot);
       Backref "1"; Eol].

(** NO_QUOTES_NEEDED = [^[a-zA-Z0-9,/_.\-\[\]]+$] *)
Definition safe_items : list item :=
  [Rg "a" "z"; Rg "A" "Z"; Rg "0" "9"; Ch ","; Ch "/"; Ch "_"; Ch "."; Ch "-";
   Ch "["; Ch "]"].

Definition NO_QUOTES_NEEDED : regex := cat [Bol; Plus (Set_ safe_items); Eol].

End Pat.

(** ** Token kinds

    [SpecTokens]: the order of the constructors is the order of declaration
    in the source, which is the order in which the kinds are tried. *)

Inductive SpecTokens : Type :=
| START_EDGE_PROPERTIES
| END_EDGE_PROPERTIES
| DEPENDENCY
| VERSION_HASH_PAIR
| GIT_VERSION
| VERSION
| PROPAGATED_BOOL_VARIANT
| BOOL_VARIANT
| PROPAGATED_KEY_VALUE_PAIR
| KEY_VALUE_PAIR
| FILENAME
| FULLY_QUALIFIED_PACKAGE_NAME
| UNQUALIFIED_PACKAGE_NAME
| DAG_HASH
| WS
| UNEXPECTED.

Definition SpecTokens_eqb (a b : SpecTokens) : bool :=
  match a, b with
  | START_EDGE_PROPERTIES, START_EDGE_PROPERTIES
  | END_EDGE_PROPERTIES, END_EDGE_PROPERTIES
  | DEPENDENCY, DEPENDENCY
  | VERSION_HASH_PAIR, VERSION_HASH_PAIR
  | GIT_VERSION, GIT_VERSION
  | VERSION, VERSION
  | PROPAGATED_BOOL_VARIANT, PROPAGATED_BOOL_VARIANT
  | BOOL_VARIANT, BOOL_VARIANT
  | PROPAGATED_KEY_VALUE_PAIR, PROPAGATED_KEY_VALUE_PAIR
  | KEY_VALUE_PAIR, KEY_VALUE_PAIR
  | FILENAME, FILENAME
  | FULLY_QUALIFIED_PACKAGE_NAME, FULLY_QUALIFIED_PACKAGE_NAME
  | UNQUALIFIED_PACKAGE_NAME, UNQUALIFIED_PACKAGE_NAME
  | DAG_HASH, DAG_HASH
  | WS, WS
  | UNEXPECTED, UNEXPECTED => true
  | _, _ => false
  end.

(** The pattern of each kind ([SpecTokens.X.regex]). *)
Definition SpecTokens_regex (k : SpecTokens) : Re.regex :=
  let opt_assignment := Re.Opt (Re.Seq Pat.s_star Pat.VIRTUAL_ASSIGNMENT) in
  match k with
  | START_EDGE_PROPERTIES =>                                (* (?:[\^%]\[) *)
      Re.Seq (Re.Set_ [Re.Ch "^"; Re.Ch "%"]) (Re.Lit "[")
  | END_EDGE_PROPERTIES =>         (* (?:\](?:\s*{VIRTUAL_ASSIGNMENT})?) *)
      Re.Seq (Re.Lit "]") opt_assignment
  | DEPENDENCY =>              (* (?:[\^\%](?:\s*{VIRTUAL_ASSIGNMENT})?) *)
      Re.Seq (Re.Set_ [Re.Ch "^"; Re.Ch "%"]) opt_assignment
  | VERSION_HASH_PAIR =>   (* (?:@(?:{GIT_VERSION_PATTERN})=(?:{VERSION})) *)
      Pat.cat [Re.Lit "@"; Pat.GIT_VERSION_PATTERN; Re.Lit "="; Pat.VERSION]
  | GIT_VERSION =>                       (* @(?:{GIT_VERSION_PATTERN}) *)
      Re.Seq (Re.Lit "@") Pat.GIT_VERSION_PATTERN
  | VERSION =>                             (* (?:@\s*(?:{VERSION_LIST})) *)
      Pat.cat [Re.Lit "@"; Pat.s_star; Pat.VERSION_LIST]
  | PROPAGATED_BOOL_VARIANT =>          (* (?:(?:\+\+|~~|--)\s*{NAME}) *)
      Pat.cat [Re.Alt (Re.Lit "++") (Re.Alt (Re.Lit "~~") (Re.Lit "--"));
               Pat.s_star; Pat.NAME]
  | BOOL_VARIANT =>                              (* (?:[~+-]\s*{NAME}) *)
      Pat.cat [Re.Set_ [Re.Ch "~"; Re.Ch "+"; Re.Ch "-"]; Pat.s_star; Pat.NAME]
  | PROPAGATED_KEY_VALUE_PAIR => (* (?:{NAME}:?==(?:{VALUE}|{QUOTED_VALUE})) *)
      Pat.cat [Pat.NAME; Re.Opt (Re.Lit ":"); Re.Lit "==";
               Re.Alt Pat.VALUE Pat.QUOTED_VALUE]
  | KEY_VALUE_PAIR =>             (* (?:{NAME}:?=(?:{VALUE}|{QUOTED_VALUE})) *)
      Pat.cat [Pat.NAME; Re.Opt (Re.Lit ":"); Re.Lit "=";
               Re.Alt Pat.VALUE Pat.QUOTED_VALUE]
  | FILENAME => Pat.FILENAME                            (* (?:{FILENAME}) *)
  | FULLY_QUALIFIED_PACKAGE_NAME => Pat.DOTTED_IDENTIFIER
  | UNQUALIFIED_PACKAGE_NAME =>                 (* (?:{IDENTIFIER}|{STAR}) *)
      Re.Alt Pat.IDENTIFIER Pat.STAR
  | DAG_HASH => Re.Seq (Re.Lit "/") Pat.HASH             (* (?:/(?:{HASH})) *)
  | WS => Re.Plus (Re.Set_ [Re.Sp])                              (* (?:\s+) *)
  | UNEXPECTED => Re.Seq Re.Dot (Re.Star (Re.Set_ [Re.Sp]))    (* (?:.[\s]* ) *)
  end.

Definition SpecTokens_members : list SpecTokens :=
  [START_EDGE_PROPERTIES; END_EDGE_PROPERTIES; DEPENDENCY; VERSION_HASH_PAIR;
   GIT_VERSION; VERSION; PROPAGATED_BOOL_VARIANT; BOOL_VARIANT;
   PROPAGATED_KEY_VALUE_PAIR; KEY_VALUE_PAIR; FILENAME;
   FULLY_QUALIFIED_PACKAGE_NAME; UNQUALIFIED_PACKAGE_NAME; DAG_HASH; WS;
   UNEXPECTED].

(** ** Tokens and the tokenizer *)

(** [Token(kind, value, start, end, **subvalues)].  [subvalues] holds the
    named groups of the token's pattern that took part in the match, and is
    [None] when there is none.  [start] and [end] default to [0]. *)
Record Token (K : Type) : Type := mkToken {
  kind : K;
  value : string;
  start : nat;
  end_ : nat;
  subvalues : option (list (string * string))
}.

Arguments mkToken {K} _ _ _ _ _.
Arguments kind {K} _.
Arguments value {K} _.
Arguments start {K} _.
Arguments end_ {K} _.
Arguments subvalues {K} _.

(** Modelled from the spec: the [Tokenizer] class of [spack.tokenize], which
    is not among the sources.  It joins the patterns of the kinds, in their
    order of declaration, into one alternation and scans the text with it:
    at each offset the first kind whose pattern matches gives the token, and
    the scan goes on where that match ended. *)
Module Tokenizer.
Section Scan.
Variable K : Type.
Variable members : list K.
Variable regex_of : K -> Re.regex.

Definition at_offset (st : Re.mstate) : Re.mstate :=
  Re.MState (Re.prev st) (Re.rest st) (Re.pos st) [].

Fixpoint first_match (ks : list K) (st : Re.mstate)
  : option (K * Re.mstate) :=
  match ks with
  | [] => None
  | k :: ks' =>
      match Re.run (regex_of k) (at_offset st) (fun m => Some m) with
      | Some m => Some (k, m)
      | None => first_match ks' st
      end
  end.

Definition make_token (k : K) (st m : Re.mstate) : Token K :=
  mkToken k (Py.take (Re.pos m - Re.pos st) (Re.rest st)) (Re.pos st) (Re.pos m)
          (match Re.caps m with [] => None | c => Some c end).

(** [n] bounds the characters left; a match that consumed nothing would
    end the scan. *)
Fixpoint scan (n : nat) (st : Re.mstate) : list (Token K) :=
  match n with
  | 0 => []
  | S n' =>
      match first_match members st with
      | None => []
      | Some (k, m) =>
          make_token k st m ::
          (if Re.pos st <? Re.pos m then scan n' m else [])
      end
  end.

Definition tokenize (text : string) : list (Token K) :=
  match text with
  | EmptyString => []
  | _ => scan (String.length text) (Re.MState None text 0 [])
  end.
End Scan.
End Tokenizer.

(** [SPEC_TOKENIZER = Tokenizer(SpecTokens)] *)
Definition SPEC_TOKENIZER_tokenize : string -> list (Token SpecTokens) :=
  Tokenizer.tokenize SpecTokens_members SpecTokens_regex.


(** ** Results and the state-and-exception monad *)

Inductive result (X A : Type) : Type :=
| Ok (a : A)
| Raise (x : X).

Arguments Ok {X A} _.
Arguments Raise {X A} _.

(** A computation over a mutable state [S] that returns an [A] or raises
    an [X]; the state reached when the exception left is kept. *)
Definition M (S X A : Type) : Type := S -> S * result X A.

Definition ret {S X A} (a : A) : M S X A := fun s => (s, Ok a).

Definition raise {S X A} (x : X) : M S X A := fun s => (s, Raise x).

Definition bind {S X A B} (c : M S X A) (k : A -> M S X B) : M S X B :=
  fun s =>
    match c s with
    | (s1, Ok a) => k a s1
    | (s1, Raise x) => (s1, Raise x)
    end.

Definition get {S X} : M S X S := fun s => (s, Ok s).

Definition modify {S X} (f : S -> S) : M S X unit := fun s => (f s, Ok tt).

(** [try: c except ... as e: h e] *)
Definition try_catch {S X A} (c : M S X A) (h : X -> M S X A) : M S X A :=
  fun s =>
    match c s with
    | (s1, Ok a) => (s1, Ok a)
    | (s1, Raise x) => h x s1
    end.

Declare Scope monad_scope.
Delimit Scope monad_scope with monad.
Notation "x <- c ;; k" := (bind c (fun x => k))
  (at level 61, c at next level, right associativity) : monad_scope.
Notation "' p <- c ;; k" := (bind c (fun x => let p := x in k))
  (at level 61, p pattern, c at next level, right associativity) : monad_scope.
Notation "c ;;; k" := (bind c (fun _ => k))
  (at level 61, right associativity) : monad_scope.

(** ** The collaborators of the parser

    The parser builds [spack.spec.Spec] objects and calls into
    [spack.version], [spack.deptypes], [spack.config], the file system and
    the [warnings] module.  None of these is part of the parser: they are
    the operations of a [Collaborators] instance, over a [world] that holds
    the objects they keep.  An operation that can raise returns the world it
    reached and either its result or its exception. *)

(** The value of a flag: [Union[str, bool]]. *)
Inductive flag_value : Type :=
| VBool (b : bool)
| VStr (s : string).

(** A Python sequence of strings, as it reaches a collaborator: a tuple or
    a list. *)
Inductive pyseq : Type :=
| PyTuple (items : list string)
| PyList (items : list string).

Definition seq_items (s : pyseq) : list string :=
  match s with
  | PyTuple l | PyList l => l
  end.

(** [s += t] for a tuple [t]: a list is extended, a tuple is replaced by
    the longer tuple. *)
Definition seq_extend (s : pyseq) (t : list string) : pyseq :=
  match s with
  | PyTuple l => PyTuple (l ++ t)
  | PyList l => PyList (l ++ t)
  end.

(** The keyword arguments of [Spec._add_dependency]. *)
Record edge_properties (spec : Type) : Type := mkEdgeProperties {
  ep_virtuals : pyseq;
  ep_direct : bool;
  ep_depflag : nat;
  ep_when : option spec
}.

Arguments mkEdgeProperties {spec} _ _ _ _.
Arguments ep_virtuals {spec} _.
Arguments ep_direct {spec} _.
Arguments ep_depflag {spec} _.
Arguments ep_when {spec} _.

(** A toolchain of the configuration: one spec string, or a list of
    entries [{spec, when}]. *)
Inductive toolchain_config : Type :=
| ToolchainStr (s : string)
| ToolchainList (entries : list (string * option string)).

(** What [warnings.warn] and [warnings.warn_explicit] were called with. *)
Inductive warning : Type :=
| Warn (message : string)
| WarnExplicit (message filename : string) (lineno : nat).

Class Collaborators : Type := {
  world : Type;
  spec : Type;                 (* a reference to a [Spec] object *)
  edge : Type;                 (* a reference to an edge of a [Spec] *)
  foreign : Type;              (* an exception raised by a collaborator *)
  foreign_str : foreign -> string;                          (* str(e) *)
  foreign_is_SpecError : foreign -> bool;
  (* whether [spack.error.SpecSyntaxError] derives from [SpecError] *)
  SpecSyntaxError_is_SpecError : bool;
  colorize : string -> string;                (* color.colorize *)
  (* spack.spec.Spec *)
  Spec_new : world -> spec * world;                          (* Spec() *)
  set_name : spec -> string -> world -> world;
  get_name : spec -> world -> option string;
  set_namespace : spec -> string -> world -> world;
  (* s.versions = VersionList([spack.version.from_string(text)]) *)
  set_versions : spec -> string -> world -> world * result foreign unit;
  attach_git_version_lookup : spec -> world -> world * result foreign unit;
  _add_flag : spec -> string -> flag_value -> bool -> bool ->
              world -> world * result foreign unit;
  get_abstract_hash : spec -> world -> option string;
  set_abstract_hash : spec -> string -> world -> world;
  concrete : spec -> world -> bool;
  Spec_str : spec -> world -> string;                        (* str(s) *)
  _add_dependency : spec -> spec -> edge_properties spec ->
                    world -> world * result foreign unit;
  constrain : spec -> spec -> world -> world * result foreign unit;
  traverse_edges : bool -> spec -> world -> list edge;
  edge_direct : edge -> world -> bool;
  edge_format : edge -> world -> string;
  edge_when_constrain : edge -> string -> world -> world * result foreign unit;
  _dup : spec -> spec -> world -> world * result foreign unit;
  (* Spec.from_json / Spec.from_yaml on the file at a path *)
  Spec_from_json : string -> world -> world * result foreign spec;
  Spec_from_yaml : string -> world -> world * result foreign spec;
  (* pathlib *)
  Path_str : string -> string;                      (* str(Path(p)) *)
  Path_exists : string -> world -> bool;
  (* spack.deptypes.canonicalize *)
  canonicalize : list string -> result foreign nat;
  (* spack.aliases *)
  LEGACY_COMPILER_TO_BUILTIN : list (string * string);
  (* spack.config.CONFIG.get("toolchains", {}), or {} without CONFIG *)
  config_toolchains : list (string * toolchain_config);
  (* spack.util.spack_yaml.get_mark_from_yaml_data: name and line *)
  get_mark_from_yaml_data : string -> option (string * nat);
  (* the innermost frame of the call stack outside Spack's own code *)
  caller_frame : world -> option (string * nat)
}.

(** ** Exceptions *)

Section Parser.
Context {C : Collaborators}.

Local Open Scope monad_scope.

Definition token := Token SpecTokens.

Inductive exn : Type :=
| SpecTokenizationError (tokens : list token) (text : string)
| SpecParsingError (message : string) (tok : option token) (text : string)
                   (cause : option foreign)
| SpecError (args : list string)
| NoSuchSpecFileError (message : string)
| ValueError (message : string)
| KeyError (key : string)
| IndexError
| AttributeError
| AssertionError
| Foreign (e : foreign)
| OutOfFuel.     (* no Python exception: the model's bound on nesting or
                    on loop iterations was reached *)

(** [SpecTokenizationError.__init__]: one [^] per character of an
    unexpected token, one blank per character of any other token. *)
Fixpoint underline_of (tokens : list token) : string :=
  match tokens with
  | [] => EmptyString
  | t :: ts =>
      let is_error := SpecTokens_eqb (kind t) UNEXPECTED in
      (Py.repeat_char (if is_error then "^" else " ")%char (end_ t - start t)
       ++ underline_of ts)%string
  end.

Definition nl : string := String Py.newline EmptyString.

Definition SpecTokenizationError_message (tokens : list token) (text : string)
  : string :=
  ("unexpected characters in the spec string" ++ nl ++ text ++ nl
   ++ colorize ("@*r{" ++ underline_of tokens ++ "}"))%string.

(** [SpecParsingError.__init__] *)
Definition SpecParsingError_message (message : string) (tok : option token)
  (text : string) : string :=
  let message := (message ++ nl ++ text)%string in
  match tok with
  | Some t =>
      let underline := (nl ++ Py.repeat_char " " (start t)
                           ++ Py.repeat_char "^" (end_ t - start t))%string in
      (message ++ colorize ("@*r{" ++ underline ++ "}"))%string
  | None => message
  end.

(** [str(e)] *)
Definition exn_str (x : exn) : string :=
  match x with
  | SpecTokenizationError tokens text => SpecTokenizationError_message tokens text
  | SpecParsingError m t text _ => SpecParsingError_message m t text
  | SpecError args => Py.join ", " args
  | NoSuchSpecFileError m => m
  | ValueError m => m
  | KeyError k => k
  | Foreign e => foreign_str e
  | IndexError | AttributeError | AssertionError | OutOfFuel => EmptyString
  end.

(** [isinstance(e, spack.error.SpecError)] *)
Definition is_SpecError (x : exn) : bool :=
  match x with
  | SpecTokenizationError _ _ | SpecParsingError _ _ _ _ =>
      SpecSyntaxError_is_SpecError
  | SpecError _ | NoSuchSpecFileError _ => true
  | Foreign e => foreign_is_SpecError e
  | _ => false
  end.

(** ** [tokenize] and [parseable_tokens]

    Both are generators.  [list_tokenize] is [list(tokenize(text))], the
    generator run to its end; [token_stream] is the state of a
    [parseable_tokens(text)] generator that is consumed token by token. *)

Fixpoint tokenize_from (text : string) (raw : list token)
  : result exn (list token) :=
  match raw with
  | [] => Ok []
  | t :: raw' =>
      if SpecTokens_eqb (kind t) UNEXPECTED
      then Raise (SpecTokenizationError (SPEC_TOKENIZER_tokenize text) text)
      else match tokenize_from text raw' with
           | Ok ts => Ok (t :: ts)
           | Raise x => Raise x
           end
  end.

Definition list_tokenize (text : string) : result exn (list token) :=
  tokenize_from text (SPEC_TOKENIZER_tokenize text).

(** The tokens of the text that the generator has not looked at yet. *)
Record token_stream : Type := mkStream {
  stream_text : string;
  remaining : list token
}.

Definition parseable_tokens (text : string) : token_stream :=
  mkStream text (SPEC_TOKENIZER_tokenize text).

(** [next(token_stream, None)]: whitespace is filtered out, an unexpected
    token raises, and a generator that raised or ran out stays exhausted. *)
Fixpoint next_from (text : string) (raw : list token)
  : list token * result exn (option token) :=
  match raw with
  | [] => ([], Ok None)
  | t :: raw' =>
      if SpecTokens_eqb (kind t) UNEXPECTED
      then ([], Raise (SpecTokenizationError (SPEC_TOKENIZER_tokenize text) text))
      else if negb (SpecTokens_eqb (kind t) WS)
           then (raw', Ok (Some t))
           else next_from text raw'
  end.

Definition stream_next : M token_stream exn (option token) :=
  fun s =>
    let (raw', r) := next_from (stream_text s) (remaining s) in
    (mkStream (stream_text s) raw', r).

(** ** [TokenContext]

    [pushed_tokens] is a Python list used as a stack; here its head is the
    back of the Python list, the token served next. *)
Record TokenContext : Type := mkContext {
  token_stream_ : token_stream;
  current_token : option token;
  next_token : option token;
  pushed_tokens : list (option token)
}.

Definition advance : M TokenContext exn unit :=
  fun c =>
    let cur := next_token c in
    match pushed_tokens c with
    | top :: below =>
        (mkContext (token_stream_ c) cur top below, Ok tt)
    | [] =>
        match stream_next (token_stream_ c) with
        | (s', Ok t) => (mkContext s' cur t [], Ok tt)
        | (s', Raise x) => (mkContext s' cur (next_token c) [], Raise x)
        end
    end.

Definition kind_is (k : SpecTokens) (t : option token) : bool :=
  match t with
  | Some t => SpecTokens_eqb (kind t) k
  | None => false
  end.

Definition accept (k : SpecTokens) : M TokenContext exn bool :=
  fun c =>
    if kind_is k (next_token c)
    then (advance ;;; ret true) c
    else (c, Ok false).

Definition push_front (t : token) : M TokenContext exn unit :=
  modify (fun c =>
    mkContext (token_stream_ c) (current_token c) (Some t)
              (next_token c :: pushed_tokens c)).

Definition kind_in (kinds : list SpecTokens) (t : option token) : bool :=
  match t with
  | Some t => existsb (SpecTokens_eqb (kind t)) kinds
  | None => false
  end.

Definition expect (kinds : list SpecTokens) : M TokenContext exn bool :=
  fun c => (c, Ok (kind_in kinds (next_token c))).

(** [TokenContext(token_stream)] *)
Definition TokenContext_init (s : token_stream) : TokenContext * result exn unit :=
  advance (mkContext s None None []).

(** ** The state of a parse *)

(** A [SpecParser] object; its [toolchains] are [config_toolchains]. *)
Record SpecParser : Type := mkParser {
  literal_str : string;
  ctx : TokenContext;
  parsed_toolchains : list (string * spec)
}.

(** The parser at work, the world of the collaborators, and the warnings
    issued so far. *)
Record state : Type := mkState {
  parser : SpecParser;
  wld : world;
  emitted : list warning
}.

Definition P (A : Type) : Type := M state exn A.

Definition set_ctx (c : TokenContext) (s : state) : state :=
  mkState (mkParser (literal_str (parser s)) c (parsed_toolchains (parser s)))
          (wld s) (emitted s).

Definition set_wld (w : world) (s : state) : state :=
  mkState (parser s) w (emitted s).

(** Run a cursor operation on [self.ctx]. *)
Definition on_ctx {A} (c : M TokenContext exn A) : P A :=
  fun s => let (c', r) := c (ctx (parser s)) in (set_ctx c' s, r).

(** Call a collaborator; its exceptions propagate unchanged. *)
Definition on_world {A} (f : world -> world * result foreign A) : P A :=
  fun s =>
    match f (wld s) with
    | (w, Ok a) => (set_wld w s, Ok a)
    | (w, Raise e) => (set_wld w s, Raise (Foreign e))
    end.

Definition upd_world (f : world -> world) : P unit :=
  modify (fun s => set_wld (f (wld s)) s).

Definition ask_world {A} (f : world -> A) : P A :=
  fun s => (s, Ok (f (wld s))).

Definition ask_ctx {A} (f : TokenContext -> A) : P A :=
  fun s => (s, Ok (f (ctx (parser s)))).

(** [self.ctx.current_token.value] *)
Definition current_value : P string :=
  t <- ask_ctx current_token ;;
  match t with
  | Some t => ret (value t)
  | None => raise AttributeError
  end.

(** [s[0]] *)
Definition first_char {S} (s : string) : M S exn ascii :=
  match s with
  | String a _ => ret a
  | EmptyString => raise IndexError
  end.

(** [a or b] on two calls *)
Definition or_else {S X} (a b : M S X bool) : M S X bool :=
  x <- a ;; if x then ret true else b.

(** Truth value of an optional string *)
Definition truthy (o : option string) : bool :=
  match o with
  | Some (String _ _) => true
  | _ => false
  end.

(** ** [strip_quotes_and_unescape] *)

Definition char_str (c : ascii) : string := String c EmptyString.

Definition strip_quotes_and_unescape (s : string) : string :=
  match Re.match_ Pat.STRIP_QUOTES s with
  | None => s
  | Some m =>
      (* quote, result = match.groups() *)
      match Re.lookup "1" (Re.caps m), Re.lookup "2" (Re.caps m) with
      | Some quote, Some result =>
          Py.replace (String Pat.backslash quote) quote result
      | _, _ => s
      end
  end.

(** ** [SpecNodeParser] *)

(** [raise SpecParsingError(string, self.ctx.current_token, self.literal_str)
    from cause] *)
Definition raise_parsing_error {A} (msg : string) (cause : option foreign)
  : P A :=
  fun s =>
    (s, Raise (SpecParsingError msg (current_token (ctx (parser s)))
                                (literal_str (parser s)) cause)).

(** The wrapper around [Spec._add_flag] that adds parser context to the
    errors raised. *)
Definition add_flag (initial_spec : spec) (name : string) (v : flag_value)
  (propagate concrete_ : bool) : P unit :=
  fun s =>
    match _add_flag initial_spec name v propagate concrete_ (wld s) with
    | (w, Ok _) => (set_wld w s, Ok tt)
    | (w, Raise e) => raise_parsing_error (foreign_str e) (Some e) (set_wld w s)
    end.

(** [warn_if_after_compiler]: registers a warning when a compiler was seen. *)
Definition warn_if_after_compiler (last_compiler : option string)
  (tok : string) (parser_warnings : list string) : list string :=
  if truthy last_compiler
  then parser_warnings ++
       [("`" ++ tok ++ "` should go before `"
             ++ match last_compiler with Some c => c | None => EmptyString end
             ++ "`")%string]
  else parser_warnings.

(** [name, value = s.split(sep, maxsplit=1)], then the [:] that marks a
    concrete flag is taken off the name. *)
Definition split_key_value (sep s : string) : P (string * string * bool) :=
  match Py.split_once sep s with
  | None => raise (ValueError "not enough values to unpack (expected 2, got 1)")
  | Some (name, v) =>
      let concrete_ := Py.ends_with ":" name in
      ret (if concrete_ then Py.drop_last name else name, v, concrete_)
  end.

(** The [while True] loop of [SpecNodeParser.parse]; [n] bounds its
    iterations.  The result is [parser_warnings]. *)
Fixpoint node_loop (n : nat) (initial_spec : spec)
  (last_compiler : option string) (has_version : bool)
  (parser_warnings : list string) {struct n} : P (list string) :=
  match n with
  | 0 => raise OutOfFuel
  | S n' =>
      let again := node_loop n' initial_spec last_compiler in
      is_version <- or_else (on_ctx (accept VERSION_HASH_PAIR))
                      (or_else (on_ctx (accept GIT_VERSION))
                               (on_ctx (accept VERSION))) ;;
      if is_version then
        (if has_version
         then raise_parsing_error "Spec cannot have multiple versions" None
         else ret tt) ;;;
        v <- current_value ;;
        on_world (set_versions initial_spec (Py.drop 1 v)) ;;;
        on_world (attach_git_version_lookup initial_spec) ;;;
        again true (warn_if_after_compiler last_compiler v parser_warnings)
      else
      is_bool <- on_ctx (accept BOOL_VARIANT) ;;
      if is_bool then
        v <- current_value ;;
        let name := Py.strip (Py.drop 1 v) in
        c0 <- first_char v ;;
        let variant_value := Ascii.eqb c0 "+" in
        add_flag initial_spec name (VBool variant_value) false true ;;;
        again has_version (warn_if_after_compiler last_compiler v parser_warnings)
      else
      is_pbool <- on_ctx (accept PROPAGATED_BOOL_VARIANT) ;;
      if is_pbool then
        v <- current_value ;;
        let name := Py.strip (Py.drop 2 v) in
        let variant_value := String.eqb (Py.take 2 v) "++" in
        add_flag initial_spec name (VBool variant_value) true true ;;;
        again has_version (warn_if_after_compiler last_compiler v parser_warnings)
      else
      is_kv <- on_ctx (accept KEY_VALUE_PAIR) ;;
      if is_kv then
        v <- current_value ;;
        ' (name, val, concrete_) <- split_key_value "=" v ;;
        add_flag initial_spec name (VStr (strip_quotes_and_unescape val))
                 false concrete_ ;;;
        again has_version (warn_if_after_compiler last_compiler v parser_warnings)
      else
      is_pkv <- on_ctx (accept PROPAGATED_KEY_VALUE_PAIR) ;;
      if is_pkv then
        v <- current_value ;;
        ' (name, val, concrete_) <- split_key_value "==" v ;;
        add_flag initial_spec name (VStr (strip_quotes_and_unescape val))
                 true concrete_ ;;;
        again has_version (warn_if_after_compiler last_compiler v parser_warnings)
      else
      is_hash <- on_ctx (expect [DAG_HASH]) ;;
      if is_hash then
        h <- ask_world (get_abstract_hash initial_spec) ;;
        if truthy h then ret parser_warnings
        else
          on_ctx (accept DAG_HASH) ;;;
          v <- current_value ;;
          upd_world (set_abstract_hash initial_spec (Py.drop 1 v)) ;;;
          again has_version
                (warn_if_after_compiler last_compiler v parser_warnings)
      else ret parser_warnings
  end.

(** The tokens a cursor can still serve, at most: a bound on the iterations
    of a loop that accepts a token each time round. *)
Definition tokens_left (c : TokenContext) : nat :=
  List.length (remaining (token_stream_ c)) + List.length (pushed_tokens c)
  + match next_token c with Some _ => 1 | None => 0 end.

(** [FileParser(ctx).parse(initial_spec)] *)
Definition FileParser_parse (initial_spec : spec) : P spec :=
  v <- current_value ;;
  let file := Path_str v in
  exists_ <- ask_world (Path_exists v) ;;
  if negb exists_
  then raise (NoSuchSpecFileError ("No such spec file: '" ++ file ++ "'"))
  else
    spec_from_file <- (if Py.ends_with ".json" file
                       then on_world (Spec_from_json v)
                       else on_world (Spec_from_yaml v)) ;;
    on_world (_dup initial_spec spec_from_file) ;;;
    ret initial_spec.

(** [SpecNodeParser(ctx, literal_str).parse(initial_spec, root)].  The
    first component of the result is the Python value returned for the
    node, which callers compare with [None]. *)
Definition SpecNodeParser_parse (initial_spec : option spec) (root : bool)
  : P (option spec * list string) :=
  let parser_warnings : list string := [] in
  let last_compiler : option string := None in
  initial_spec <- match initial_spec with
                  | Some s => ret s
                  | None => fun st => let (s, w) := Spec_new (wld st) in
                                      (set_wld w st, Ok s)
                  end ;;
  at_end <- or_else (nt <- ask_ctx next_token ;;
                     ret (match nt with None => true | Some _ => false end))
                    (on_ctx (expect [DEPENDENCY])) ;;
  if at_end
  then ret (Some initial_spec, parser_warnings)
  else
    is_name <- on_ctx (accept UNQUALIFIED_PACKAGE_NAME) ;;
    from_file <-
      (if is_name then
         v <- current_value ;;
         (if negb (String.eqb v "*")
          then upd_world (set_name initial_spec v) else ret tt) ;;;
         ret false
       else
         is_fq <- on_ctx (accept FULLY_QUALIFIED_PACKAGE_NAME) ;;
         if is_fq then
           v <- current_value ;;
           let parts := Py.split_char "." v in
           let name := last parts EmptyString in
           let namespace := Py.join "." (removelast parts) in
           upd_world (set_name initial_spec name) ;;;
           upd_world (set_namespace initial_spec namespace) ;;;
           ret false
         else on_ctx (accept FILENAME)) ;;
    if from_file then
      s <- FileParser_parse initial_spec ;;
      ret (Some s, parser_warnings)
    else
      c <- ask_ctx (fun c => c) ;;
      ws <- node_loop (S (tokens_left c)) initial_spec last_compiler false
                      parser_warnings ;;
      ret (Some initial_spec, ws).

(** ** [parse_virtual_assignment] *)

Definition dict_get {A} (key : string) (d : list (string * A)) : option A :=
  match find (fun kv => String.eqb (fst kv) key) d with
  | Some kv => Some (snd kv)
  | None => None
  end.

Definition parse_virtual_assignment : M TokenContext exn (list string) :=
  c <- get ;;
  match current_token c with
  | None => raise AssertionError
  | Some cur =>
      match subvalues cur with
      | None | Some [] => ret []
      | Some sub =>
          match dict_get "substitute" sub with
          | None => raise (KeyError "substitute")
          | Some pkg =>
              let token_type :=
                if Py.contains "." pkg then FULLY_QUALIFIED_PACKAGE_NAME
                else UNQUALIFIED_PACKAGE_NAME in
              match Py.index pkg (value cur) with
              | None => raise (ValueError "substring not found")
              | Some start_ =>
                  push_front (mkToken token_type pkg start_
                                      (start_ + String.length pkg) None) ;;;
                  match dict_get "virtuals" sub with
                  | None => raise (KeyError "virtuals")
                  | Some vs => ret (Py.split_char "," vs)
                  end
              end
          end
      end
  end.

(** ** [EdgeAttributeParser] *)

(** [attributes[name] = v] *)
Fixpoint dict_set {A} (key : string) (v : A) (d : list (string * A))
  : list (string * A) :=
  match d with
  | [] => [(key, v)]
  | (k, x) :: d' =>
      if String.eqb k key then (k, v) :: d' else (k, x) :: dict_set key v d'
  end.

(** The dictionary that [EdgeAttributeParser.parse] returns. *)
Record edge_attributes : Type := mkEdgeAttributes {
  ea_virtuals : option pyseq;
  ea_depflag : option nat;
  ea_when : option spec
}.

(** [raise SpecParsingError(msg, tok, self.literal_str)] *)
Definition raise_SpecParsingError {A} (msg : string)
  (tok : TokenContext -> option token) : P A :=
  fun s =>
    (s, Raise (SpecParsingError msg (tok (ctx (parser s)))
                                (literal_str (parser s)) None)).

(** A word between double quotes *)
Definition quoted (s : string) : string :=
  (String Pat.dquote s ++ String Pat.dquote EmptyString)%string.

Definition edge_attribute_names : list string := ["deptypes"; "virtuals"; "when"].

(** The [while True] loop of [EdgeAttributeParser.parse]; the result is
    [attributes]. *)
Fixpoint edge_attr_loop (n : nat) (attributes : list (string * pyseq))
  {struct n} : P (list (string * pyseq)) :=
  match n with
  | 0 => raise OutOfFuel
  | S n' =>
      is_kv <- on_ctx (accept KEY_VALUE_PAIR) ;;
      if is_kv then
        v <- current_value ;;
        ' (name, val, _) <- split_key_value "=" v ;;
        (* the quotes and blanks around the value are stripped, then it
           is split at the commas *)
        let val := PyList (Py.split_char ","
                     (Py.strip_chars (String "'" (String Pat.dquote " ")) val)) in
        let attributes := dict_set name val attributes in
        if negb (existsb (String.eqb name) edge_attribute_names)
        then raise_SpecParsingError
               ("the only edge attributes that are currently accepted are "
                ++ quoted "deptypes" ++ ", " ++ quoted "virtuals" ++ ", and "
                ++ quoted "when")
               current_token
        else edge_attr_loop n' attributes
      else
      is_end <- on_ctx (accept END_EDGE_PROPERTIES) ;;
      if is_end then
        let virtuals := match dict_get "virtuals" attributes with
                        | Some vs => vs
                        | None => PyTuple []
                        end in
        extra <- on_ctx parse_virtual_assignment ;;
        ret (dict_set "virtuals" (seq_extend virtuals extra) attributes)
      else raise_SpecParsingError "unexpected token in edge attributes" next_token
  end.

Section Nested.
(** [parse_one_or_raise(text)], which runs a parser of its own. *)
Variable parse_one : string -> P spec.

Definition EdgeAttributeParser_parse : P edge_attributes :=
  c <- ask_ctx (fun c => c) ;;
  attributes <- edge_attr_loop (S (tokens_left c)) [] ;;
  depflag <- match dict_get "deptypes" attributes with
             | Some deptype_string =>
                 d <- on_world (fun w => (w, canonicalize (seq_items deptype_string))) ;;
                 ret (Some d)
             | None => ret None
             end ;;
  when <- match option_map seq_items (dict_get "when" attributes) with
          | Some (w0 :: _) => s <- parse_one w0 ;; ret (Some s)
          | Some [] => raise IndexError
          | None => ret None
          end ;;
  ret (mkEdgeAttributes (dict_get "virtuals" attributes) depflag when).

(** ** [SpecParser] *)

(** The message of the error that [_parse_node] raises for a [None] node. *)
Definition node_expected_msg : string :=
  "the dependency sigil and any optional edge attributes must be "
  ++ "followed by a package name or a node attribute "
  ++ "(version, variant, etc.)".

(** [SpecParser._parse_node] *)
Definition _parse_node (root_spec : spec) (root : bool)
  : P (spec * list string) :=
  ' (dependency, parser_warnings) <- SpecNodeParser_parse None root ;;
  match dependency with
  | None => raise_SpecParsingError node_expected_msg current_token
  | Some dependency =>
      is_concrete <- ask_world (concrete root_spec) ;;
      if is_concrete then
        r <- ask_world (Spec_str root_spec) ;;
        d <- ask_world (Spec_str dependency) ;;
        raise (SpecError [r; ("^" ++ d)%string])
      else ret (dependency, parser_warnings)
  end.

(** [SpecParser._ensure_all_direct_edges] *)
Definition _ensure_all_direct_edges (constraint : spec) : P unit :=
  w <- ask_world (fun w => w) ;;
  match find (fun e => negb (edge_direct e w)) (traverse_edges false constraint w) with
  | Some e =>
      raise (SpecError
               [("cannot use '^' in toolchain definitions, and the current "
                 ++ "toolchain contains '" ++ edge_format e w ++ "'")%string])
  | None => ret tt
  end.

Fixpoint for_each {A} (l : list A) (f : A -> P unit) : P unit :=
  match l with
  | [] => ret tt
  | a :: l' => f a ;;; for_each l' f
  end.

(** [SpecParser._parse_toolchain] *)
Definition _parse_toolchain (name : string) : P spec :=
  match dict_get name config_toolchains with
  | None => raise (KeyError name)
  | Some (ToolchainStr toolchain_config) =>
      toolchain <- parse_one toolchain_config ;;
      _ensure_all_direct_edges toolchain ;;;
      ret toolchain
  | Some (ToolchainList toolchain_config) =>
      toolchain <- (fun st => let (s, w) := Spec_new (wld st) in
                              (set_wld w st, Ok s)) ;;
      for_each toolchain_config (fun entry =>
        toolchain_part <- parse_one (fst entry) ;;
        let when := match snd entry with Some w => w | None => EmptyString end in
        _ensure_all_direct_edges toolchain_part ;;;
        edges <- ask_world (traverse_edges true toolchain_part) ;;
        for_each edges (fun e => on_world (edge_when_constrain e when)) ;;;
        on_world (constrain toolchain toolchain_part)) ;;;
      ret toolchain
  end.

(** [SpecParser._apply_toolchain] *)
Definition _apply_toolchain (s : spec) (name : string) : P unit :=
  memo <- (fun st => (st, Ok (parsed_toolchains (parser st)))) ;;
  toolchain <- match dict_get name memo with
               | Some t => ret t
               | None =>
                   t <- _parse_toolchain name ;;
                   modify (fun st =>
                     mkState (mkParser (literal_str (parser st)) (ctx (parser st))
                                (dict_set name t (parsed_toolchains (parser st))))
                             (wld st) (emitted st)) ;;;
                   ret t
               end ;;
  on_world (constrain s toolchain).

(** The wrapper [add_dependency] of [next_spec] around
    [target_spec._add_dependency]. *)
Definition add_dependency (target_spec dep : spec)
  (props : edge_properties spec) : P unit :=
  fun s =>
    match _add_dependency target_spec dep props (wld s) with
    | (w, Ok _) => (set_wld w s, Ok tt)
    | (w, Raise e) =>
        if foreign_is_SpecError e
        then raise_parsing_error (foreign_str e) (Some e) (set_wld w s)
        else (set_wld w s, Raise (Foreign e))
    end.

(** What follows [dependency, warnings = self._parse_node(root_spec)] in
    both branches of the loop of [next_spec]: the node that the edge starts
    from is chosen, a legacy compiler name is replaced, and the edge is
    added.  The result is the new [current_spec]. *)
Definition attach (root_spec current_spec dependency : spec)
  (is_direct : bool) (props : edge_properties spec) : P spec :=
  ' (current_spec, target_spec) <-
      (if is_direct then
         name <- ask_world (get_name dependency) ;;
         match name with
         | Some n =>
             match dict_get n LEGACY_COMPILER_TO_BUILTIN with
             | Some builtin => upd_world (set_name dependency builtin)
             | None => ret tt
             end
         | None => ret tt
         end ;;;
         ret (current_spec, current_spec)
       else ret (dependency, root_spec)) ;;
  add_dependency target_spec dependency props ;;;
  ret current_spec.

(** The [while True] loop of [SpecParser.next_spec]; the result is
    [parser_warnings]. *)
Fixpoint next_spec_loop (n : nat) (root_spec current_spec : spec)
  (parser_warnings : list string) {struct n} : P (list string) :=
  match n with
  | 0 => raise OutOfFuel
  | S n' =>
      is_start <- on_ctx (accept START_EDGE_PROPERTIES) ;;
      if is_start then
        v <- current_value ;;
        c0 <- first_char v ;;
        let is_direct := Ascii.eqb c0 "%" in
        attrs <- EdgeAttributeParser_parse ;;
        let props :=
          mkEdgeProperties
            (match ea_virtuals attrs with Some vs => vs | None => PyTuple [] end)
            is_direct
            (match ea_depflag attrs with Some d => d | None => 0 end)
            (ea_when attrs) in
        ' (dependency, warnings) <- _parse_node root_spec true ;;
        current_spec <- attach root_spec current_spec dependency is_direct props ;;
        next_spec_loop n' root_spec current_spec (parser_warnings ++ warnings)
      else
      is_dep <- on_ctx (accept DEPENDENCY) ;;
      if is_dep then
        v <- current_value ;;
        c0 <- first_char v ;;
        let is_direct := Ascii.eqb c0 "%" in
        virtuals <- on_ctx parse_virtual_assignment ;;
        is_toolchain <-
          (if match virtuals with [] => is_direct | _ => false end then
             nt <- ask_ctx next_token ;;
             match nt with
             | Some t =>
                 ret (match dict_get (value t) config_toolchains with
                      | Some _ => true | None => false end)
             | None => raise AttributeError
             end
           else ret false) ;;
        if is_toolchain then
          ok <- on_ctx (accept UNQUALIFIED_PACKAGE_NAME) ;;
          (if ok then ret tt else raise AssertionError) ;;;
          try_catch (name <- current_value ;; _apply_toolchain current_spec name)
            (fun x =>
               if is_SpecError x
               then raise_SpecParsingError (exn_str x) current_token
               else raise x) ;;;
          next_spec_loop n' root_spec current_spec parser_warnings
        else
          let props := mkEdgeProperties (PyTuple virtuals) is_direct 0 None in
          ' (dependency, warnings) <- _parse_node root_spec true ;;
          current_spec <- attach root_spec current_spec dependency is_direct props ;;
          next_spec_loop n' root_spec current_spec (parser_warnings ++ warnings)
      else ret parser_warnings
  end.

(** Decimal digits of a number, for [f"{n}"]. *)
Fixpoint digits (fuel n : nat) (acc : string) : string :=
  let d := String (ascii_of_nat (48 + n mod 10)) acc in
  match fuel with
  | 0 => d
  | S fuel' => if n <? 10 then d else digits fuel' (n / 10) d
  end.

Definition str_of_nat (n : nat) : string := digits n n EmptyString.

(** [_warn_about_variant_after_compiler]: the warning is issued for the
    configuration file the literal comes from, or else for the innermost
    caller outside Spack, and not at all without either. *)
Definition _warn_about_variant_after_compiler (literal : string)
  (issues : list string) : P unit :=
  let issue_str := Py.join ", " issues in
  let error := (issue_str ++ " in `" ++ literal ++ "`")%string in
  match get_mark_from_yaml_data literal with
  | Some (name, line) =>
      modify (fun st =>
        mkState (parser st) (wld st)
          (emitted st ++
           [Warn (name ++ ":" ++ str_of_nat (line + 1) ++ ": " ++ error)%string]))
  | None =>
      frame <- ask_world caller_frame ;;
      match frame with
      | Some (filename, lineno) =>
          modify (fun st =>
            mkState (parser st) (wld st)
                    (emitted st ++ [WarnExplicit error filename lineno]))
      | None => ret tt
      end
  end.

(** [SpecParser.next_spec(initial_spec)]; [None] is Python's [None]. *)
Definition next_spec (initial_spec : option spec) : P (option spec) :=
  nt <- ask_ctx next_token ;;
  match nt with
  | None => ret initial_spec
  | Some _ =>
      initial_spec <- match initial_spec with
                      | Some s => ret s
                      | None => fun st => let (s, w) := Spec_new (wld st) in
                                          (set_wld w st, Ok s)
                      end ;;
      ' (root_spec, parser_warnings) <-
          SpecNodeParser_parse (Some initial_spec) true ;;
      match root_spec with
      | None => raise AttributeError
      | Some root_spec =>
          c <- ask_ctx (fun c => c) ;;
          parser_warnings <- next_spec_loop (S (tokens_left c)) root_spec root_spec
                                            parser_warnings ;;
          match parser_warnings with
          | [] => ret tt
          | _ :: _ =>
              literal <- (fun st => (st, Ok (literal_str (parser st)))) ;;
              _warn_about_variant_after_compiler literal parser_warnings
          end ;;;
          ret (Some root_spec)
      end
  end.

(** [SpecParser.all_specs]: [list(iter(self.next_spec, None))]; [n] bounds
    the calls of [next_spec]. *)
Fixpoint all_specs_loop (n : nat) : P (list spec) :=
  match n with
  | 0 => raise OutOfFuel
  | S n' =>
      s <- next_spec None ;;
      match s with
      | None => ret []
      | Some s => ss <- all_specs_loop n' ;; ret (s :: ss)
      end
  end.

Definition all_specs : P (list spec) :=
  c <- ask_ctx (fun c => c) ;;
  all_specs_loop (S (tokens_left c)).

(** Run [body] on a new [SpecParser(text)], then go on with the parser at
    hand; the world and the warnings issued are shared. *)
Definition with_new_parser {A} (text : string) (body : P A) : P A :=
  fun st =>
    match TokenContext_init (parseable_tokens text) with
    | (_, Raise x) => (st, Raise x)
    | (c, Ok _) =>
        let (st1, r) := body (mkState (mkParser text c []) (wld st) (emitted st)) in
        (mkState (parser st) (wld st1) (emitted st1), r)
    end.

(** The body of [parse_one_or_raise], once its parser exists. *)
Definition parse_one_body (initial_spec : option spec) : P spec :=
  r <- next_spec initial_spec ;;
  nt <- ask_ctx next_token ;;
  text <- (fun st => (st, Ok (literal_str (parser st)))) ;;
  match nt with
  | Some t =>
      let message := ("expected a single spec, but got more:" ++ nl ++ text)%string in
      let underline := (nl ++ Py.repeat_char " " (start t)
                           ++ Py.repeat_char "^" (String.length (value t)))%string in
      raise (ValueError (message ++ colorize ("@*r{" ++ underline ++ "}")))
  | None =>
      match r with
      | None => raise (ValueError "expected a single spec, but got none")
      | Some s => ret s
      end
  end.

End Nested.

(** [parse_one_or_raise(text, initial_spec)].  A [when] attribute and a
    toolchain are parsed by the same function, in a parser of their own;
    [depth] bounds that nesting. *)
Fixpoint parse_one_at (depth : nat) (initial_spec : option spec) (text : string)
  : P spec :=
  match depth with
  | 0 => raise OutOfFuel
  | S d =>
      with_new_parser text
        (parse_one_body (parse_one_at d None) initial_spec)
  end.

(** The state before any parser exists. *)
Definition no_parser (w : world) : state :=
  mkState (mkParser EmptyString (mkContext (mkStream EmptyString []) None None []) [])
          w [].

Definition parse_one_or_raise (depth : nat) (text : string)
  (initial_spec : option spec) (w : world) : state * result exn spec :=
  parse_one_at (S depth) initial_spec text (no_parser w).

(** [parse(text)]: [SpecParser(text).all_specs()] *)
Definition parse (depth : nat) (text : string) (w : world)
  : state * result exn (list spec) :=
  with_new_parser text (all_specs (parse_one_at depth None)) (no_parser w).

End Parser.

(** ** A reference world

    Modelled from the spec: the [Spec] node and its edges (the external type
    [spack.spec.Spec], which is not among the sources), as the data model
    describes them.  A node has a name, a namespace, a version constraint,
    an ordered mapping from variant names to (value, propagate, concrete),
    an optional literal hash, and edges to other nodes; an edge carries
    [direct], [virtuals] (a tuple of names, whatever sequence the edge was
    made from), [depflag] and [when].  In this world no operation
    raises, no node is concrete, files do not exist, and there are neither
    aliases nor toolchains. *)
Module Ref.

Record edge_rec : Type := mkEdge {
  e_parent : nat;
  e_child : nat;
  e_virtuals : list string;
  e_direct : bool;
  e_depflag : nat;
  e_when : option nat
}.

Record node : Type := mkNode {
  n_name : option string;
  n_namespace : option string;
  n_versions : option string;
  n_variants : list (string * (flag_value * bool * bool));
  n_abstract_hash : option string;
  n_edges : list edge_rec
}.

Definition empty_node : node := mkNode None None None [] None [].

(** The heap: a [Spec] reference is an index into it. *)
Definition heap : Type := list node.

Fixpoint update (i : nat) (f : node -> node) (h : heap) : heap :=
  match h, i with
  | [], _ => []
  | n :: h', 0 => f n :: h'
  | n :: h', S i' => n :: update i' f h'
  end.

Definition get_node (i : nat) (h : heap) : node := nth i h empty_node.

Definition ok (h : heap) : heap * result Empty_set unit := (h, Ok tt).

#[export] Instance collaborators : Collaborators := {|
  world := heap;
  spec := nat;
  edge := edge_rec;
  foreign := Empty_set;
  foreign_str := fun _ => EmptyString;
  foreign_is_SpecError := fun _ => true;
  SpecSyntaxError_is_SpecError := false;
  colorize := fun s => s;
  Spec_new := fun h => (List.length h, h ++ [empty_node]);
  set_name := fun s v =>
    update s (fun n => mkNode (Some v) (n_namespace n) (n_versions n)
                              (n_variants n) (n_abstract_hash n) (n_edges n));
  get_name := fun s h => n_name (get_node s h);
  set_namespace := fun s v =>
    update s (fun n => mkNode (n_name n) (Some v) (n_versions n)
                              (n_variants n) (n_abstract_hash n) (n_edges n));
  set_versions := fun s v h =>
    ok (update s (fun n => mkNode (n_name n) (n_namespace n) (Some v)
                                  (n_variants n) (n_abstract_hash n) (n_edges n)) h);
  attach_git_version_lookup := fun _ h => ok h;
  _add_flag := fun s name v propagate concrete_ h =>
    ok (update s (fun n => mkNode (n_name n) (n_namespace n) (n_versions n)
                     (dict_set name (v, propagate, concrete_) (n_variants n))
                     (n_abstract_hash n) (n_edges n)) h);
  get_abstract_hash := fun s h => n_abstract_hash (get_node s h);
  set_abstract_hash := fun s v =>
    update s (fun n => mkNode (n_name n) (n_namespace n) (n_versions n)
                              (n_variants n) (Some v) (n_edges n));
  concrete := fun _ _ => false;
  Spec_str := fun s h =>
    match n_name (get_node s h) with Some n => n | None => EmptyString end;
  _add_dependency := fun target dep props h =>
    ok (update target (fun n => mkNode (n_name n) (n_namespace n) (n_versions n)
                         (n_variants n) (n_abstract_hash n)
                         (n_edges n ++ [mkEdge target dep
                                          (seq_items (ep_virtuals props))
                                          (ep_direct props) (ep_depflag props)
                                          (ep_when props)])) h);
  constrain := fun _ _ h => ok h;
  traverse_edges := fun _ s h => n_edges (get_node s h);
  edge_direct := fun e _ => e_direct e;
  edge_format := fun _ _ => EmptyString;
  edge_when_constrain := fun _ _ h => ok h;
  _dup := fun _ _ h => ok h;
  Spec_from_json := fun _ h => (h ++ [empty_node], Ok (List.length h));
  Spec_from_yaml := fun _ h => (h ++ [empty_node], Ok (List.length h));
  Path_str := fun p => p;
  Path_exists := fun _ _ => false;
  canonicalize := fun _ => Ok 0;
  LEGACY_COMPILER_TO_BUILTIN := [];
  config_toolchains := [];
  get_mark_from_yaml_data := fun _ => None;
  caller_frame := fun _ => Some ("package.py", 1)
|}.

(** What a run leaves to look at: the result and the heap. *)
Definition outcome {A} (r : state * result exn A) : result exn A * heap :=
  (snd r, wld (fst r)).

End Ref.

(** ** [quote_if_needed] *)

Definition hex_digit (n : nat) : ascii :=
  if n <? 10 then ascii_of_nat (48 + n) else ascii_of_nat (87 + n).

(** Python's [json.dumps] on a [str], with its default [ensure_ascii]: the
    backslash, the double quote and every character outside the printable
    ASCII range are escaped. *)
Definition json_escape_char (c : ascii) : string :=
  let n := Py.code c in
  if Ascii.eqb c Pat.backslash then "\\"
  else if Ascii.eqb c Pat.dquote then String Pat.backslash (String Pat.dquote EmptyString)
  else if n =? 8 then "\b"
  else if n =? 12 then "\f"
  else if n =? 10 then "\n"
  else if n =? 13 then "\r"
  else if n =? 9 then "\t"
  else if (32 <=? n) && (n <=? 126) then String c EmptyString
  else String Pat.backslash
         (String "u" (String "0" (String "0"
            (String (hex_digit (n / 16)) (String (hex_digit (n mod 16)) EmptyString))))).

Fixpoint json_escape (s : string) : string :=
  match s with
  | EmptyString => EmptyString
  | String c s' => (json_escape_char c ++ json_escape s')%string
  end.

Definition json_dumps (s : string) : string :=
  (String Pat.dquote (json_escape s) ++ String Pat.dquote EmptyString)%string.

Definition quote_if_needed (v : string) : string :=
  match Re.match_ Pat.NO_QUOTES_NEEDED v with
  | Some _ => v
  | None =>
      if Py.contains "'" v then json_dumps v
      else ("'" ++ v ++ "'")%string
  end.

(** A printable ASCII character other than the backslash: what
    [json.dumps] leaves as it is, the double quote apart. *)
Definition plain (c : ascii) : bool :=
  (32 <=? Py.code c) && (Py.code c <=? 126) && negb (Ascii.eqb c Pat.backslash).

(** The values that come back from quoting and unquoting: those that need
    no quotes; those without a single quote and without a newline, which
    are put between single quotes; those with a single quote and made of
    plain characters only, which [json.dumps] puts between double quotes. *)
Definition roundtrips (v : string) : bool :=
  match Re.match_ Pat.NO_QUOTES_NEEDED v with
  | Some _ => true
  | None =>
      if Py.contains "'" v then Re.all_chars plain v
      else Re.all_chars Re.not_newline v
  end.

(** ** The legacy rewriter of [cmd/style.py] *)

(** [SpecTokens.X.regex], for the kinds that [_LegacySpecTokens] takes over
    from [SpecTokens]. *)
Module Current.
Definition VERSION_HASH_PAIR : Re.regex := SpecTokens_regex VERSION_HASH_PAIR.
Definition GIT_VERSION : Re.regex := SpecTokens_regex GIT_VERSION.
Definition VERSION : Re.regex := SpecTokens_regex VERSION.
Definition PROPAGATED_BOOL_VARIANT : Re.regex := SpecTokens_regex PROPAGATED_BOOL_VARIANT.
Definition BOOL_VARIANT : Re.regex := SpecTokens_regex BOOL_VARIANT.
Definition PROPAGATED_KEY_VALUE_PAIR : Re.regex := SpecTokens_regex PROPAGATED_KEY_VALUE_PAIR.
Definition KEY_VALUE_PAIR : Re.regex := SpecTokens_regex KEY_VALUE_PAIR.
Definition FILENAME : Re.regex := SpecTokens_regex FILENAME.
Definition FULLY_QUALIFIED_PACKAGE_NAME : Re.regex := SpecTokens_regex FULLY_QUALIFIED_PACKAGE_NAME.
Definition UNQUALIFIED_PACKAGE_NAME : Re.regex := SpecTokens_regex UNQUALIFIED_PACKAGE_NAME.
Definition DAG_HASH : Re.regex := SpecTokens_regex DAG_HASH.
Definition WS : Re.regex := SpecTokens_regex WS.
Definition UNEXPECTED : Re.regex := SpecTokens_regex UNEXPECTED.
End Current.

Module Legacy.

(** [_LegacySpecTokens], in the order of declaration. *)
Inductive LegacySpecTokens : Type :=
| START_EDGE_PROPERTIES
| END_EDGE_PROPERTIES
| DEPENDENCY
| VERSION_HASH_PAIR
| GIT_VERSION
| VERSION
| PROPAGATED_BOOL_VARIANT
| BOOL_VARIANT
| PROPAGATED_KEY_VALUE_PAIR
| KEY_VALUE_PAIR
| COMPILER_AND_VERSION
| COMPILER
| FILENAME
| FULLY_QUALIFIED_PACKAGE_NAME
| UNQUALIFIED_PACKAGE_NAME
| DAG_HASH
| WS
| UNEXPECTED.

Definition members : list LegacySpecTokens :=
  [START_EDGE_PROPERTIES; END_EDGE_PROPERTIES; DEPENDENCY; VERSION_HASH_PAIR;
   GIT_VERSION; VERSION; PROPAGATED_BOOL_VARIANT; BOOL_VARIANT;
   PROPAGATED_KEY_VALUE_PAIR; KEY_VALUE_PAIR; COMPILER_AND_VERSION; COMPILER;
   FILENAME; FULLY_QUALIFIED_PACKAGE_NAME; UNQUALIFIED_PACKAGE_NAME; DAG_HASH;
   WS; UNEXPECTED].

Definition regex_of (k : LegacySpecTokens) : Re.regex :=
  match k with
  | START_EDGE_PROPERTIES => Re.Lit "^["                        (* (?:\^\[) *)
  | END_EDGE_PROPERTIES => Re.Lit "]"                             (* (?:\]) *)
  | DEPENDENCY => Re.Lit "^"                                      (* (?:\^) *)
  | VERSION_HASH_PAIR => Current.VERSION_HASH_PAIR
  | GIT_VERSION => Current.GIT_VERSION
  | VERSION => Current.VERSION
  | PROPAGATED_BOOL_VARIANT => Current.PROPAGATED_BOOL_VARIANT
  | BOOL_VARIANT => Current.BOOL_VARIANT
  | PROPAGATED_KEY_VALUE_PAIR => Current.PROPAGATED_KEY_VALUE_PAIR
  | KEY_VALUE_PAIR => Current.KEY_VALUE_PAIR
  | COMPILER_AND_VERSION =>
      (* (?:%\s*(?:{NAME})(?:[\s]* )@\s*(?:{VERSION_LIST})) *)
      Pat.cat [Re.Lit "%"; Pat.s_star; Pat.NAME; Re.Star (Re.Set_ [Re.Sp]);
               Re.Lit "@"; Pat.s_star; Pat.VERSION_LIST]
  | COMPILER =>                                      (* (?:%\s*(?:{NAME})) *)
      Pat.cat [Re.Lit "%"; Pat.s_star; Pat.NAME]
  | FILENAME => Current.FILENAME
  | FULLY_QUALIFIED_PACKAGE_NAME => Current.FULLY_QUALIFIED_PACKAGE_NAME
  | UNQUALIFIED_PACKAGE_NAME => Current.UNQUALIFIED_PACKAGE_NAME
  | DAG_HASH => Current.DAG_HASH
  | WS => Current.WS
  | UNEXPECTED => Current.UNEXPECTED
  end.

Definition tok : Type := Token LegacySpecTokens.

(** [Tokenizer(_LegacySpecTokens).tokenize] *)
Definition legacy_tokenize : string -> list tok :=
  Tokenizer.tokenize members regex_of.

Definition is_ws (t : tok) : bool :=
  match kind t with WS => true | _ => false end.

Inductive error : Type :=
| ValueError_unexpected_token (t : tok)   (* ValueError(f"unexpected token {token}") *)
| IndexError.

(** [blocks[0][0].kind == WS] and [blocks[0].pop(0)], as long as it holds. *)
Fixpoint drop_leading_ws (block : list tok) : result error (list tok) :=
  match block with
  | [] => Raise IndexError
  | t :: block' => if is_ws t then drop_leading_ws block' else Ok block
  end.

(** [_spec_str_reorder_compiler(idx, blocks)]; the result is [blocks] as the
    call leaves it. *)
Definition _spec_str_reorder_compiler (idx : Z) (blocks : list (list tok))
  : result error (list (list tok)) :=
  let len := Z.of_nat (List.length blocks) in
  (* only move the compiler to the back if it exists and is not already at
     the end *)
  if negb ((0 <=? idx)%Z && (idx <? len - 1)%Z) then Ok blocks
  (* if there's only whitespace after the compiler, don't move it *)
  else if forallb (forallb is_ws) (skipn (Z.to_nat idx + 1) blocks)
  then Ok blocks
  else
    (* rotate left and always add at least one WS token between compiler
       and previous token *)
    let i := Z.to_nat idx in
    let compiler_block := nth i blocks [] in
    let blocks := firstn i blocks ++ skipn (S i) blocks in
    match compiler_block with
    | [] => Raise IndexError
    | t :: _ =>
        let compiler_block :=
          if negb (is_ws t) then mkToken WS " " 0 0 None :: compiler_block
          else compiler_block in
        (* delete the WS tokens from the new first block if it was at the
           very start, to prevent leading WS tokens *)
        if (idx =? 0)%Z
        then match blocks with
             | [] => Raise IndexError
             | b :: rest =>
                 match drop_leading_ws b with
                 | Ok b' => Ok ((b' :: rest) ++ [compiler_block])
                 | Raise e => Raise e
                 end
             end
        else Ok (blocks ++ [compiler_block])
    end.

(** The local variables of [_spec_str_format]. *)
Record locals : Type := mkLocals {
  current_block : list tok;
  blocks : list (list tok);
  compiler_block_idx : Z;
  in_edge_attr : bool
}.

(** How the body of the [for] loop ends for one token. *)
Inductive flow : Type :=
| Next (l : locals)
| Return_None
| Throw (e : error).

(** [current_block.append(token); blocks.append(current_block);
    current_block = []] *)
Definition close_block (t : tok) (l : locals) (idx : Z) (in_attr : bool)
  : locals :=
  mkLocals [] (blocks l ++ [current_block l ++ [t]]) idx in_attr.

Definition body (t : tok) (l : locals) : flow :=
  match kind t with
  | UNEXPECTED =>
      (* parsing error, we cannot fix this string *)
      Return_None
  | COMPILER | COMPILER_AND_VERSION =>
      (* multiple compilers are not supported in Spack v0.x, so early return *)
      if negb (compiler_block_idx l =? -1)%Z then Return_None
      else Next (close_block t l (Z.of_nat (List.length (blocks l) + 1) - 1)%Z
                             (in_edge_attr l))
  | START_EDGE_PROPERTIES | DEPENDENCY | UNQUALIFIED_PACKAGE_NAME
  | FULLY_QUALIFIED_PACKAGE_NAME =>
      match _spec_str_reorder_compiler (compiler_block_idx l) (blocks l) with
      | Raise e => Throw e
      | Ok bs =>
          let in_attr := match kind t with
                         | START_EDGE_PROPERTIES => true
                         | _ => in_edge_attr l
                         end in
          Next (close_block t (mkLocals (current_block l) bs (-1) in_attr)
                            (-1) in_attr)
      end
  | END_EDGE_PROPERTIES =>
      Next (close_block t l (compiler_block_idx l) false)
  | k =>
      if in_edge_attr l
      then Next (mkLocals (current_block l ++ [t]) (blocks l)
                          (compiler_block_idx l) (in_edge_attr l))
      else match k with
           | VERSION_HASH_PAIR | GIT_VERSION | VERSION
           | PROPAGATED_BOOL_VARIANT | BOOL_VARIANT
           | PROPAGATED_KEY_VALUE_PAIR | KEY_VALUE_PAIR | DAG_HASH =>
               Next (close_block t l (compiler_block_idx l) (in_edge_attr l))
           | WS =>
               Next (mkLocals (current_block l ++ [t]) (blocks l)
                              (compiler_block_idx l) (in_edge_attr l))
           | _ => Throw (ValueError_unexpected_token t)
           end
  end.

(** The [for] loop over the tokens. *)
Fixpoint for_tokens (ts : list tok) (l : locals) : flow :=
  match ts with
  | [] => Next l
  | t :: ts' =>
      match body t l with
      | Next l' => for_tokens ts' l'
      | f => f
      end
  end.

Definition join_values (bs : list (list tok)) : string :=
  fold_right (fun t acc => (value t ++ acc)%string) EmptyString (List.concat bs).

(** [_spec_str_format(spec_str)]: [Ok None] is the [None] of "no change". *)
Definition _spec_str_format (spec_str : string) : result error (option string) :=
  match for_tokens (legacy_tokenize spec_str) (mkLocals [] [] (-1) false) with
  | Return_None => Ok None
  | Throw e => Raise e
  | Next l =>
      let bs := match current_block l with
                | [] => blocks l
                | _ => blocks l ++ [current_block l]
                end in
      match _spec_str_reorder_compiler (compiler_block_idx l) bs with
      | Raise e => Raise e
      | Ok bs =>
          let new_spec_str := join_values bs in
          Ok (if String.eqb spec_str new_spec_str then None
              else Some new_spec_str)
      end
  end.

(** Kinds of tokens that the rewriter tells apart. *)
Definition is_compiler (t : tok) : bool :=
  match kind t with COMPILER | COMPILER_AND_VERSION => true | _ => false end.

Definition is_boundary (t : tok) : bool :=
  match kind t with
  | START_EDGE_PROPERTIES | DEPENDENCY | UNQUALIFIED_PACKAGE_NAME
  | FULLY_QUALIFIED_PACKAGE_NAME => true
  | _ => false
  end.

Definition is_filename (t : tok) : bool :=
  match kind t with FILENAME => true | _ => false end.

Definition is_unexpected (t : tok) : bool :=
  match kind t with UNEXPECTED => true | _ => false end.

(** A block that holds a token other than whitespace. *)
Definition has_token (b : list tok) : bool :=
  existsb (fun t => negb (is_ws t)) b.

Definition full (bs : list (list tok)) : Prop :=
  Forall (fun b => has_token b = true) bs.

(** The kinds that close a block of their own: versions, variants, hashes. *)
Definition is_clause (t : tok) : bool :=
  match kind t with
  | VERSION_HASH_PAIR | GIT_VERSION | VERSION | PROPAGATED_BOOL_VARIANT
  | BOOL_VARIANT | PROPAGATED_KEY_VALUE_PAIR | KEY_VALUE_PAIR | DAG_HASH => true
  | _ => false
  end.

(** A token that the loop takes without returning or raising, whatever
    the state: no compiler, no filename, no unexpected characters. *)
Definition ordinary (t : tok) : bool :=
  negb (is_compiler t) && negb (is_filename t) && negb (is_unexpected t).

(** The values of the tokens [ts], joined: what [join] makes of
    [token.value for token in ts]. *)
Definition values (ts : list tok) : string :=
  fold_right (fun t acc => (value t ++ acc)%string) EmptyString ts.

(** [new_spec_str if spec_str != new_spec_str else None] *)
Definition changed (spec_str new_spec_str : string) : option string :=
  if String.eqb spec_str new_spec_str then None else Some new_spec_str.

(** [in_edge_attr] after the tokens [ts], from [b]. *)
Fixpoint attr_open (ts : list tok) (b : bool) : bool :=
  match ts with
  | [] => b
  | t :: ts' =>
      attr_open ts' (match kind t with
                     | START_EDGE_PROPERTIES => true
                     | END_EDGE_PROPERTIES => false
                     | _ => b
                     end)
  end.

Fixpoint lstrip_ws (ts : list tok) : list tok :=
  match ts with
  | [] => []
  | t :: ts' => if is_ws t then lstrip_ws ts' else ts
  end.

(** The whitespace in front of a moved compiler clause: its own, or one
    blank. *)
Definition lead (ws : list tok) : list tok :=
  match ws with
  | [] => [mkToken WS " " 0 0 None]
  | _ => ws
  end.

(** The last token of [ts] satisfies [f]. *)
Definition ends_with (f : tok -> bool) (ts : list tok) : bool :=
  match rev ts with
  | t :: _ => f t
  | [] => false
  end.

(** No token, or a last token that is no whitespace. *)
Definition ends_closed (ts : list tok) : bool :=
  match rev ts with
  | [] => true
  | t :: _ => negb (is_ws t)
  end.

(** The blocks at the end of the loop: [if current_block:
    blocks.append(current_block)]. *)
Definition closing (l : locals) : list (list tok) :=
  match current_block l with
  | [] => blocks l
  | _ => blocks l ++ [current_block l]
  end.

End Legacy.

(** ** The clauses at the cursor

    What a cursor is about to serve, and the run of clause tokens (version,
    variant, flag, hash) at its front: the clauses that the node at the
    cursor can carry. *)

Fixpoint upcoming (raw : list (Token SpecTokens)) : list (Token SpecTokens) :=
  match raw with
  | [] => []
  | t :: raw' =>
      if SpecTokens_eqb (kind t) UNEXPECTED then []
      else if negb (SpecTokens_eqb (kind t) WS) then t :: upcoming raw'
           else upcoming raw'
  end.

Definition served (c : TokenContext) : list (option (Token SpecTokens)) :=
  next_token c :: pushed_tokens c
  ++ map Some (upcoming (remaining (token_stream_ c))).

Definition is_version_kind (k : SpecTokens) : bool :=
  match k with
  | VERSION_HASH_PAIR | GIT_VERSION | VERSION => true
  | _ => false
  end.

Definition is_clause_kind (k : SpecTokens) : bool :=
  match k with
  | VERSION_HASH_PAIR | GIT_VERSION | VERSION | BOOL_VARIANT
  | PROPAGATED_BOOL_VARIANT | KEY_VALUE_PAIR | PROPAGATED_KEY_VALUE_PAIR
  | DAG_HASH => true
  | _ => false
  end.

Fixpoint clauses_of (l : list (option (Token SpecTokens)))
  : list (Token SpecTokens) :=
  match l with
  | Some t :: l' => if is_clause_kind (kind t) then t :: clauses_of l' else []
  | _ => []
  end.

Definition clause_run (c : TokenContext) : list (Token SpecTokens) :=
  clauses_of (served c).

Definition version_clauses (ts : list (Token SpecTokens)) : nat :=
  List.length (filter (fun t => is_version_kind (kind t)) ts).

Definition is_name_kind (k : SpecTokens) : bool :=
  match k with
  | UNQUALIFIED_PACKAGE_NAME | FULLY_QUALIFIED_PACKAGE_NAME => true
  | _ => false
  end.

(** The clauses of the node at the cursor: those after its name, when it
    starts with one. *)
Definition node_clauses (c : TokenContext) : list (Token SpecTokens) :=
  match served c with
  | Some t :: l => if is_name_kind (kind t) then clauses_of l else clause_run c
  | _ => []
  end.

(** ** What a tokenization is *)

(** [tiles p s toks]: the tokens [toks] cut the text [s], which starts at
    the offset [p], into consecutive non-empty pieces. *)
Fixpoint tiles {K} (p : nat) (s : string) (toks : list (Token K)) : Prop :=
  match toks with
  | [] => s = EmptyString
  | t :: ts =>
      start t = p /\ end_ t = p + String.length (value t)
      /\ 1 <= String.length (value t)
      /\ exists s', s = (value t ++ s')%string /\ tiles (end_ t) s' ts
  end.

Definition unexpected_kind (t : Token SpecTokens) : bool :=
  SpecTokens_eqb (kind t) UNEXPECTED.

Definition in_unexpected_span (raw : list (Token SpecTokens)) (i : nat) : bool :=
  existsb (fun t => unexpected_kind t && (start t <=? i) && (i <? end_ t)) raw.

Fixpoint marks (f : nat -> bool) (p n : nat) : string :=
  match n with
  | 0 => EmptyString
  | S n' => String (if f p then "^" else " ")%char (marks f (S p) n')
  end.

(** ** The two forms of a virtual assignment *)

(** The kinds that [SpecNodeParser.parse] takes as clauses of a node. *)
Definition clause_kinds : list SpecTokens :=
  [VERSION_HASH_PAIR; GIT_VERSION; VERSION; BOOL_VARIANT;
   PROPAGATED_BOOL_VARIANT; KEY_VALUE_PAIR; PROPAGATED_KEY_VALUE_PAIR; DAG_HASH].

(** What [SpecNodeParser.parse] does to the node [s] for a name token of
    kind [k] and value [v]. *)
Definition name_node {C : Collaborators} (k : SpecTokens) (v : string) (s : spec)
  (w : world) : world :=
  match k with
  | UNQUALIFIED_PACKAGE_NAME =>
      if negb (String.eqb v "*") then set_name s v w else w
  | FULLY_QUALIFIED_PACKAGE_NAME =>
      let parts := Py.split_char "." v in
      set_namespace s (Py.join "." (removelast parts))
                    (set_name s (last parts EmptyString) w)
  | _ => w
  end.

(** What [attach] does to the world: a legacy compiler name is replaced
    on a direct edge, and the edge is added. *)
Definition attach_world {C : Collaborators}
  (root_spec current_spec dependency : spec)
  (is_direct : bool) (props : edge_properties spec) (w : world)
  : world * result foreign spec :=
  let w1 :=
    if is_direct then
      match get_name dependency w with
      | Some n =>
          match dict_get n LEGACY_COMPILER_TO_BUILTIN with
          | Some builtin => set_name dependency builtin w
          | None => w
          end
      | None => w
      end
    else w in
  match _add_dependency (if is_direct then current_spec else root_spec)
                        dependency props w1 with
  | (w2, Ok _) => (w2, Ok (if is_direct then current_spec else dependency))
  | (w2, Raise e) => (w2, Raise e)
  end.

(** Modelled from the spec: what the shorthand stands for, "attach a
    dependency on [gcc] providing virtuals [c] and [cxx]".  A root node is
    made and named by the token ([kn], [name]); a node is made for the
    substitute and named by ([ks], [sub]); one edge is added from the root
    to it, with the virtuals of [vs] as a tuple, direct for the sigil [%],
    with no dependency types and no condition.  The result is the world
    reached and the list with the root, or [None] when a collaborator
    refuses (the root is concrete, or the edge cannot be added). *)
Definition virtual_edge {C : Collaborators} (kn : SpecTokens) (name : string)
  (ks : SpecTokens) (sub vs : string) (sigil : ascii) (w : world)
  : world * option (list spec) :=
  let (root, w1) := Spec_new w in
  let w2 := name_node kn name root w1 in
  let (dep, w3) := Spec_new w2 in
  let w4 := name_node ks sub dep w3 in
  if concrete root w4 then (w4, None)
  else
    let is_direct := Ascii.eqb sigil "%" in
    match attach_world root root dep is_direct
            (mkEdgeProperties (PyTuple (Py.split_char "," vs)) is_direct 0 None)
            w4 with
    | (w5, Ok _) => (w5, Some [root])
    | (w5, Raise _) => (w5, None)
    end.

(** A run of the parser that ends in the world of [o], with no warning,
    and with the result of [o] or else an exception. *)
Definition agrees {C : Collaborators} {A} (r : state * result exn A)
  (o : world * option A) : Prop :=
  wld (fst r) = fst o /\ emitted (fst r) = []
  /\ match snd r, snd o with
     | Ok a, Some b => a = b
     | Raise _, None => True
     | _, _ => False
     end.

(** ** A second version clause

    What a cursor serves, and what the clauses of a node do to it, as far
    as the rule of the single version needs them. *)

Section Clauses.
Context {C : Collaborators}.

(** [serves c ts c']: the cursor [c] serves the tokens [ts], one call of
    [advance] each, and is [c'] after the last: the lookahead is refilled
    after every one of them. *)
Fixpoint serves (c : TokenContext) (ts : list token) (c' : TokenContext) : Prop :=
  match ts with
  | [] => c' = c
  | t :: ts' =>
      next_token c = Some t
      /\ exists c1, advance c = (c1, Ok tt) /\ serves c1 ts' c'
  end.

(** What the loop of [SpecNodeParser.parse] does to the node [s] for the
    clause token [t]: the world it leaves, or [None] when the clause is not
    taken, which is when a collaborator raises, when the text of the token
    has no first character or no separator, and when a hash comes for a
    node that has one. *)
Definition clause_world (s : spec) (t : token) (w : world) : option world :=
  let v := value t in
  let flag name val propagate concrete_ :=
    match _add_flag s name val propagate concrete_ w with
    | (w1, Ok _) => Some w1
    | (_, Raise _) => None
    end in
  let pair sep propagate :=
    match Py.split_once sep v with
    | Some (name, val) =>
        let concrete_ := Py.ends_with ":" name in
        flag (if concrete_ then Py.drop_last name else name)
             (VStr (strip_quotes_and_unescape val)) propagate concrete_
    | None => None
    end in
  match kind t with
  | VERSION_HASH_PAIR | GIT_VERSION | VERSION =>
      match set_versions s (Py.drop 1 v) w with
      | (w1, Ok _) =>
          match attach_git_version_lookup s w1 with
          | (w2, Ok _) => Some w2
          | (_, Raise _) => None
          end
      | (_, Raise _) => None
      end
  | BOOL_VARIANT =>
      match v with
      | String c0 _ =>
          flag (Py.strip (Py.drop 1 v)) (VBool (Ascii.eqb c0 "+")) false true
      | EmptyString => None
      end
  | PROPAGATED_BOOL_VARIANT =>
      flag (Py.strip (Py.drop 2 v)) (VBool (String.eqb (Py.take 2 v) "++")) true true
  | KEY_VALUE_PAIR => pair "=" false
  | PROPAGATED_KEY_VALUE_PAIR => pair "==" true
  | DAG_HASH =>
      if truthy (get_abstract_hash s w) then None
      else Some (set_abstract_hash s (Py.drop 1 v) w)
  | _ => None
  end.

(** The clauses [ts] taken one after the other. *)
Fixpoint clauses_world (s : spec) (ts : list token) (w : world) : option world :=
  match ts with
  | [] => Some w
  | t :: ts' =>
      match clause_world s t w with
      | Some w1 => clauses_world s ts' w1
      | None => None
      end
  end.

(** The tokens of a node: its name, when it has one, and its clauses. *)
Definition node_tokens (name : option token) (clauses : list token) : list token :=
  match name with
  | Some t => t :: clauses
  | None => clauses
  end.

(** A name token, if any. *)
Definition is_node_name (name : option token) : bool :=
  match name with
  | Some t => is_name_kind (kind t)
  | None => true
  end.

(** The node that [SpecNodeParser.parse] works on, and the world once the
    name is set. *)
Definition named_node (init : option spec) (name : option token) (w : world)
  : spec * world :=
  let p := match init with
           | Some s => (s, w)
           | None => Spec_new w
           end in
  (fst p, match name with
          | Some t => name_node (kind t) (value t) (fst p) (snd p)
          | None => snd p
          end).

(** The error for a second version clause, at the token [t] of [text]. *)
Definition second_version_error (t : token) (text : string) : exn :=
  SpecParsingError "Spec cannot have multiple versions" (Some t) text None.

End Clauses.

(** ** [SpecParser.tokens] *)

Section Eager.
Context {C : Collaborators}.

(** [SpecParser.tokens]: the whole list of the tokens of the initial text,
    whitespace filtered out. *)
Definition SpecParser_tokens (p : SpecParser) : result exn (list token) :=
  match list_tokenize (literal_str p) with
  | Ok ts => Ok (filter (fun x => negb (SpecTokens_eqb (kind x) WS)) ts)
  | Raise x => Raise x
  end.

(** What a cursor serves until it is exhausted: its [next_token], then
    [advance], and so on; [n] bounds the tokens. *)
Fixpoint drain (n : nat) (c : TokenContext) : result exn (list token) :=
  match n with
  | 0 => Raise OutOfFuel
  | S n' =>
      match next_token c with
      | None => Ok []
      | Some t =>
          match advance c with
          | (c', Ok _) =>
              match drain n' c' with
              | Ok ts => Ok (t :: ts)
              | Raise x => Raise x
              end
          | (_, Raise x) => Raise x
          end
      end
  end.

(** What the cursor of a new [SpecParser(text)] serves. *)
Definition cursor_tokens (text : string) : result exn (list token) :=
  match TokenContext_init (parseable_tokens text) with
  | (c, Ok _) => drain (S (tokens_left c)) c
  | (_, Raise x) => Raise x
  end.

End Eager.

(** A text of whitespace only: every token of it is whitespace. *)
Definition blank_text (text : string) : bool :=
  forallb (fun t => SpecTokens_eqb (kind t) WS) (SPEC_TOKENIZER_tokenize text).

(** ** The tokens that a cursor holds *)

(** The tokens that a cursor still holds: its lookahead, the tokens pushed
    back, and those of the stream. *)
Definition pending (c : TokenContext) : nat :=
  List.length (remaining (token_stream_ c))
  + List.length (filter (fun o => match o with Some _ => true | None => false end)
                        (pushed_tokens c))
  + match next_token c with Some _ => 1 | None => 0 end.

(** No token of the text is a closing bracket. *)
Definition no_closing_bracket (text : string) : bool :=
  forallb (fun t => negb (SpecTokens_eqb (kind t) END_EDGE_PROPERTIES))
          (SPEC_TOKENIZER_tokenize text).

(** A token that a cursor serves, other than a closing bracket. *)
Definition usable (t : token) : bool :=
  negb (kind_in [END_EDGE_PROPERTIES; WS; UNEXPECTED] (Some t)).

Definition usable_opt (o : option token) : Prop :=
  match o with Some t => usable t = true | None => True end.

(** A cursor that holds no closing bracket. *)
Definition proper (c : TokenContext) : Prop :=
  usable_opt (next_token c)
  /\ Forall usable_opt (pushed_tokens c)
  /\ Forall (fun t => SpecTokens_eqb (kind t) END_EDGE_PROPERTIES = false)
            (remaining (token_stream_ c)).

(** ** [_spec_str_fix_handler]

    The handler reads the lines of a file, rewrites one of them and writes
    the lines back.  Here the file is the list of its lines, as [readlines]
    returns them; that the file cannot be opened is left out. *)

Module Fix.

(** [l[i]] on a Python list of [len] elements: the position that is read,
    counted from the end for a negative [i]; [None] stands for the
    IndexError. *)
Definition py_index (len : nat) (i : Z) : option nat :=
  let n := Z.of_nat len in
  if ((0 <=? i) && (i <? n))%Z then Some (Z.to_nat i)
  else if ((i <? 0) && (- n <=? i))%Z then Some (Z.to_nat (n + i))
  else None.

(** [s.replace(old, new)] for the empty [old], which Python finds before
    every character and at the end. *)
Fixpoint between (new s : string) : string :=
  match s with
  | EmptyString => new
  | String a s' => (new ++ String a (between new s'))%string
  end.

(** [s.replace(old, new)] *)
Definition str_replace (old new s : string) : string :=
  match old with
  | EmptyString => between new s
  | _ => Py.replace old new s
  end.

(** What a call leaves: the lines written back to the file and the line
    printed, or the warning issued, with the file as it was. *)
Inductive effect : Type :=
| Fixed (written : list string) (printed : string)
| NotApplied (warned : string).

(** The text that opens both messages: path, line and column, each
    followed by a colon. *)
Definition location (path : string) (line col : nat) : string :=
  (path ++ ":" ++ str_of_nat line ++ ":" ++ str_of_nat col ++ ":")%string.

(** The old and the new string between backquotes, with an arrow. *)
Definition arrow (old new : string) : string :=
  ("`" ++ old ++ "` -> `" ++ new ++ "`")%string.

(** [_spec_str_fix_handler(path, line, col, old, new)] on a file that
    holds [lines]. *)
Definition _spec_str_fix_handler (path : string) (line col : nat)
  (old new : string) (lines : list string) : result Legacy.error effect :=
  match py_index (List.length lines) (Z.of_nat line - 1) with
  | None => Raise Legacy.IndexError
  | Some i =>
      let new_line := str_replace old new (nth i lines EmptyString) in
      if String.eqb new_line (nth i lines EmptyString)
      then Ok (NotApplied (location path line col ++ " could not apply fix: "
                           ++ arrow old new))
      else Ok (Fixed (firstn i lines ++ new_line :: skipn (S i) lines)
                     (location path line col ++ " fixed " ++ arrow old new))
  end.

End Fix.

(** * Properties *)

(** ** The token cursor *)

Section Cursor.
Context {C : Collaborators}.

Lemma advance_pushed (c : TokenContext) (top : option token) (below : list (option token)) :
  pushed_tokens c = top :: below ->
  advance c = (mkContext (token_stream_ c) (next_token c) top below, Ok tt).
Proof.
  intros H. unfold advance. rewrite H. reflexivity.
Qed.

Lemma advance_current (c : TokenContext) :
  current_token (fst (advance c)) = next_token c.
Proof.
  unfold advance.
  destruct (pushed_tokens c) as [|top below]; [|reflexivity].
  destruct (stream_next (token_stream_ c)) as [s' [t|x]]; reflexivity.
Qed.

End Cursor.

(** C9.  After [push_front(s)] the next token is [s]; the first [advance]
    then makes [s] the current token and restores the token that was next
    before, with the pushback stack and the underlying stream as they were
    before the push; the second [advance] makes that restored token the
    current one.  So the two advances yield [s], then [t]. *)
Theorem C9_push_front_then_advance :
  forall (C : Collaborators) (c : TokenContext) (s : token),
    let c1 := fst (push_front s c) in
    let c2 := fst (advance c1) in
    let c3 := fst (advance c2) in
    next_token c1 = Some s
    /\ advance c1 = (mkContext (token_stream_ c) (Some s) (next_token c)
                               (pushed_tokens c), Ok tt)
    /\ current_token c2 = Some s
    /\ next_token c2 = next_token c
    /\ current_token c3 = next_token c.
Proof.
  intros C c s c1 c2 c3.
  assert (E : advance c1 = (mkContext (token_stream_ c) (Some s) (next_token c)
                                      (pushed_tokens c), Ok tt)).
  { apply (@advance_pushed C c1 (next_token c) (pushed_tokens c)). reflexivity. }
  split; [reflexivity|].
  split; [exact E|].
  split; [unfold c2; rewrite E; reflexivity|].
  split; [unfold c2; rewrite E; reflexivity|].
  unfold c3. rewrite advance_current. unfold c2. rewrite E. reflexivity.
Qed.

(** C8, as stated, fails: on the cursor of ["foo $"] the next token is the
    name [foo]; [accept] of a name finds it matching, advances, and the
    refill of the lookahead from the stream meets the unexpected [$]; the
    call raises the tokenization error instead of returning true. *)
Lemma C8_counterexample :
  let c := fst (@TokenContext_init Ref.collaborators (parseable_tokens "foo $")) in
  kind_is UNQUALIFIED_PACKAGE_NAME (next_token c) = true
  /\ snd (@accept Ref.collaborators UNQUALIFIED_PACKAGE_NAME c)
     = Raise (SpecTokenizationError (SPEC_TOKENIZER_tokenize "foo $") "foo $")
  /\ snd (@accept Ref.collaborators UNQUALIFIED_PACKAGE_NAME c) <> Ok true.
Proof.
  vm_compute. repeat split. discriminate.
Qed.

(** C8, amended.  [expect] returns whether the kind of the next token is
    among the given kinds and leaves the cursor as it is.  [accept(kind)]
    with a non-matching or absent next token returns false and leaves the
    cursor as it is.  With a matching next token it advances by one token:
    the next token becomes the current one and the lookahead is refilled
    from the pushback stack, or from the stream when the stack is empty;
    it returns true, unless that refill from the stream raises the
    tokenization error, which [accept] lets through. *)
Theorem C8_expect_accept_frame :
  forall (C : Collaborators) (c : TokenContext) (kinds : list SpecTokens)
         (k : SpecTokens),
    expect kinds c = (c, Ok (kind_in kinds (next_token c)))
    /\ (kind_is k (next_token c) = false -> accept k c = (c, Ok false))
    /\ (kind_is k (next_token c) = true ->
        (forall top below, pushed_tokens c = top :: below ->
           accept k c
           = (mkContext (token_stream_ c) (next_token c) top below, Ok true))
        /\ (pushed_tokens c = [] ->
            match stream_next (token_stream_ c) with
            | (s', Ok t) =>
                accept k c = (mkContext s' (next_token c) t [], Ok true)
            | (s', Raise x) =>
                accept k c
                = (mkContext s' (next_token c) (next_token c) [], Raise x)
                /\ x = SpecTokenizationError
                         (SPEC_TOKENIZER_tokenize (stream_text (token_stream_ c)))
                         (stream_text (token_stream_ c))
            end)).
Proof.
  intros C c kinds k.
  split; [reflexivity|].
  split.
  - intros H. unfold accept. rewrite H. reflexivity.
  - intros H. split.
    + intros top below Hp. unfold accept. rewrite H.
      unfold bind. rewrite (advance_pushed c Hp). reflexivity.
    + intros Hp. unfold accept. rewrite H. unfold bind, advance. rewrite Hp.
      unfold stream_next.
      assert (G : forall text raw,
                 match next_from text raw with
                 | (_, Ok _) => True
                 | (_, Raise x) =>
                     x = SpecTokenizationError (SPEC_TOKENIZER_tokenize text) text
                 end).
      { intros text raw. induction raw as [|t raw IH]; simpl; [exact I|].
        destruct (SpecTokens_eqb (kind t) UNEXPECTED); [reflexivity|].
        destruct (negb (SpecTokens_eqb (kind t) WS)); [exact I|exact IH]. }
      specialize (G (stream_text (token_stream_ c)) (remaining (token_stream_ c))).
      destruct (next_from (stream_text (token_stream_ c))
                          (remaining (token_stream_ c))) as [raw' [t|x]].
      * reflexivity.
      * split; [reflexivity|exact G].
Qed.

(** The amended C8 at work on the cursors of ["foo bar"]: a version is not
    accepted, the name [foo] is; and after a [push_front] the refill comes
    from the pushback stack. *)
Lemma C8_expect_accept_frame_witness :
  let c := fst (@TokenContext_init Ref.collaborators (parseable_tokens "foo bar")) in
  let c' := fst (@push_front Ref.collaborators
                   (mkToken UNQUALIFIED_PACKAGE_NAME "gcc" 0 3 None) c) in
  @accept Ref.collaborators VERSION c = (c, Ok false)
  /\ snd (@accept Ref.collaborators UNQUALIFIED_PACKAGE_NAME c) = Ok true
  /\ @accept Ref.collaborators UNQUALIFIED_PACKAGE_NAME c'
     = (mkContext (token_stream_ c') (next_token c') (next_token c) [], Ok true).
Proof.
  intros c c'.
  destruct (C8_expect_accept_frame Ref.collaborators c [] VERSION) as (_ & Hno & _).
  destruct (C8_expect_accept_frame Ref.collaborators c [] UNQUALIFIED_PACKAGE_NAME)
    as (_ & _ & Hyes).
  destruct (C8_expect_accept_frame Ref.collaborators c' [] UNQUALIFIED_PACKAGE_NAME)
    as (_ & _ & Hyes').
  split; [apply Hno; reflexivity|].
  split.
  - destruct (Hyes eq_refl) as (_ & Hs). specialize (Hs eq_refl).
    exact (f_equal snd Hs).
  - destruct (Hyes' eq_refl) as (Hp & _). apply Hp. reflexivity.
Defined.

(** ** Warnings are never issued

    [quiet Q c]: the command [c] issues no warning, and a value it returns
    satisfies [Q]. *)

Section Quiet.
Context {C : Collaborators}.

Definition quiet {A} (Q : A -> Prop) (c : P A) : Prop :=
  forall st,
    emitted (fst (c st)) = emitted st
    /\ match snd (c st) with Ok a => Q a | Raise _ => True end.

Definition any {A} : A -> Prop := fun _ => True.

Lemma quiet_ret {A} (Q : A -> Prop) (a : A) : Q a -> quiet Q (ret a).
Proof. intros H st. split; [reflexivity|exact H]. Qed.

Lemma quiet_raise {A} (Q : A -> Prop) (x : exn) : quiet Q (raise x).
Proof. intros st. split; [reflexivity|exact I]. Qed.

Lemma quiet_bind {A B} (Q : A -> Prop) (R : B -> Prop) (c : P A) (k : A -> P B) :
  quiet Q c -> (forall a, Q a -> quiet R (k a)) -> quiet R (bind c k).
Proof.
  intros Hc Hk st. unfold bind.
  destruct (Hc st) as [E HQ]. destruct (c st) as [s1 [a|x]]; simpl in *.
  - destruct (Hk a HQ s1) as [E' HR]. split; [congruence|exact HR].
  - split; [exact E|exact I].
Qed.

Lemma quiet_weaken {A} (Q R : A -> Prop) (c : P A) :
  quiet Q c -> (forall a, Q a -> R a) -> quiet R c.
Proof.
  intros Hc H st. destruct (Hc st) as [E HQ]. split; [exact E|].
  destruct (snd (c st)); [apply H; exact HQ|exact I].
Qed.

Lemma quiet_on_ctx {A} (c : M TokenContext exn A) : quiet any (on_ctx c).
Proof.
  intros st. unfold on_ctx. destruct (c (ctx (parser st))) as [c' r].
  split; [reflexivity|]. simpl. destruct r; exact I.
Qed.

Lemma quiet_on_world {A} (f : world -> world * result foreign A) :
  quiet any (on_world f).
Proof.
  intros st. unfold on_world. destruct (f (wld st)) as [w [a|e]];
    split; try reflexivity; exact I.
Qed.

Lemma quiet_upd_world (f : world -> world) : quiet any (upd_world f).
Proof. intros st. split; [reflexivity|exact I]. Qed.

Lemma quiet_ask_world {A} (f : world -> A) : quiet any (ask_world f).
Proof. intros st. split; [reflexivity|exact I]. Qed.

Lemma quiet_ask_ctx {A} (f : TokenContext -> A) : quiet any (ask_ctx f).
Proof. intros st. split; [reflexivity|exact I]. Qed.

Lemma quiet_try_catch {A} (Q : A -> Prop) (c : P A) (h : exn -> P A) :
  quiet Q c -> (forall x, quiet Q (h x)) -> quiet Q (try_catch c h).
Proof.
  intros Hc Hh st. unfold try_catch.
  destruct (Hc st) as [E HQ]. destruct (c st) as [s1 [a|x]]; simpl in *.
  - split; [exact E|exact HQ].
  - destruct (Hh x s1) as [E' HR]. split; [congruence|exact HR].
Qed.

Lemma quiet_raise_parsing_error {A} (Q : A -> Prop) msg cause :
  quiet Q (raise_parsing_error (A := A) msg cause).
Proof. intros st. split; [reflexivity|exact I]. Qed.

Lemma quiet_raise_SpecParsingError {A} (Q : A -> Prop) msg tok :
  quiet Q (raise_SpecParsingError (A := A) msg tok).
Proof. intros st. split; [reflexivity|exact I]. Qed.

Lemma quiet_Spec_new :
  quiet any (fun st => let (s, w) := Spec_new (wld st) in (set_wld w st, Ok s)).
Proof.
  intros st. destruct (Spec_new (wld st)) as [s w]. split; [reflexivity|exact I].
Qed.

Lemma quiet_add_flag s name v p c : quiet any (add_flag s name v p c).
Proof.
  intros st. unfold add_flag.
  destruct (_add_flag s name v p c (wld st)) as [w [u|e]];
    split; try reflexivity; exact I.
Qed.

Lemma quiet_add_dependency t d props : quiet any (add_dependency t d props).
Proof.
  intros st. unfold add_dependency.
  destruct (_add_dependency t d props (wld st)) as [w [u|e]].
  - split; [reflexivity|exact I].
  - destruct (foreign_is_SpecError e); split; try reflexivity; exact I.
Qed.

Lemma quiet_literal :
  quiet any (fun st : state => (st, Ok (literal_str (parser st)))).
Proof. intros st. split; [reflexivity|exact I]. Qed.

Lemma quiet_memo :
  quiet any (fun st : state => (st, Ok (parsed_toolchains (parser st)))).
Proof. intros st. split; [reflexivity|exact I]. Qed.

Lemma quiet_set_memo (f : state -> list (string * spec)) :
  quiet any (modify (fun st =>
    mkState (mkParser (literal_str (parser st)) (ctx (parser st)) (f st))
            (wld st) (emitted st))).
Proof. intros st. split; [reflexivity|exact I]. Qed.

(** One step of a proof that a command is quiet. *)
Ltac quiet_step :=
  match goal with
  | |- quiet _ (ret _) => apply quiet_ret; try exact I
  | |- quiet _ (raise _) => apply quiet_raise
  | |- quiet _ (raise_parsing_error _ _) => apply quiet_raise_parsing_error
  | |- quiet _ (raise_SpecParsingError _ _) => apply quiet_raise_SpecParsingError
  | |- quiet any (on_ctx _) => apply quiet_on_ctx
  | |- quiet any (on_world _) => apply quiet_on_world
  | |- quiet any (upd_world _) => apply quiet_upd_world
  | |- quiet any (ask_world _) => apply quiet_ask_world
  | |- quiet any (ask_ctx _) => apply quiet_ask_ctx
  | |- quiet any (add_flag _ _ _ _ _) => apply quiet_add_flag
  | |- quiet any (add_dependency _ _ _) => apply quiet_add_dependency
  | |- quiet _ (try_catch _ _) => apply quiet_try_catch; [|intros ?]
  | |- quiet _ (bind _ _) =>
      apply quiet_bind with (Q := any); [|intros ? _]
  | |- quiet _ (or_else _ _) => unfold or_else
  | |- quiet _ (if ?b then _ else _) => destruct b
  | |- quiet _ (let (_, _) := ?p in _) => destruct p
  | |- quiet _ (match ?x with _ => _ end) => destruct x
  end.

Ltac quiet_auto := repeat quiet_step.

Lemma quiet_current_value : quiet any current_value.
Proof. unfold current_value. quiet_auto. Qed.

Lemma quiet_first_char s : quiet any (first_char (S := state) s).
Proof. unfold first_char. quiet_auto. Qed.

Lemma quiet_split_key_value sep s : quiet any (split_key_value sep s).
Proof. unfold split_key_value. quiet_auto. Qed.

Ltac quiet_more :=
  first [ apply quiet_current_value
        | apply quiet_first_char
        | apply quiet_split_key_value
        | apply quiet_Spec_new
        | apply quiet_literal
        | quiet_step ].

(** The node parser never registers a warning: [last_compiler] is [None]
    from the first line of [parse] to the last. *)
Lemma quiet_node_loop n s hv ws :
  quiet (fun ws' => ws' = ws) (node_loop n s None hv ws).
Proof.
  revert hv ws. induction n as [|n IH]; intros hv ws; simpl.
  - apply quiet_raise.
  - repeat first [ apply IH | apply quiet_ret; reflexivity | quiet_more ].
Qed.

Lemma quiet_FileParser_parse s : quiet any (FileParser_parse s).
Proof. unfold FileParser_parse. repeat quiet_more. Qed.

Lemma quiet_SpecNodeParser_parse init root :
  quiet (fun r => fst r <> None /\ snd r = [])
        (SpecNodeParser_parse init root).
Proof.
  unfold SpecNodeParser_parse.
  apply quiet_bind with (Q := any); [destruct init; repeat quiet_more|intros s _].
  apply quiet_bind with (Q := any); [repeat quiet_more|intros at_end _].
  destruct at_end.
  - apply quiet_ret. split; [discriminate|reflexivity].
  - apply quiet_bind with (Q := any); [repeat quiet_more|intros is_name _].
    apply quiet_bind with (Q := any); [repeat quiet_more|intros from_file _].
    destruct from_file.
    + apply quiet_bind with (Q := any); [apply quiet_FileParser_parse|intros s' _].
      apply quiet_ret. split; [discriminate|reflexivity].
    + apply quiet_bind with (Q := any); [repeat quiet_more|intros c _].
      eapply quiet_bind; [apply quiet_node_loop|intros ws' Hws].
      apply quiet_ret. split; [discriminate|exact Hws].
Qed.

Lemma quiet__parse_node root_spec root :
  quiet (fun r => snd r = []) (_parse_node root_spec root).
Proof.
  unfold _parse_node.
  eapply quiet_bind; [apply quiet_SpecNodeParser_parse|].
  intros [d ws] [Hd Hws]. simpl in *. subst ws.
  destruct d as [d|]; [|congruence].
  apply quiet_bind with (Q := any); [repeat quiet_more|intros b _].
  destruct b; [repeat quiet_more|apply quiet_ret; reflexivity].
Qed.

Lemma quiet_edge_attr_loop n attrs : quiet any (edge_attr_loop n attrs).
Proof.
  revert attrs. induction n as [|n IH]; intros attrs; simpl.
  - apply quiet_raise.
  - repeat first [ apply IH | quiet_more ].
Qed.

Lemma quiet_for_each {A} (l : list A) (f : A -> P unit) :
  (forall a, quiet any (f a)) -> quiet any (for_each l f).
Proof.
  intros H. induction l as [|a l IH]; simpl.
  - apply quiet_ret. exact I.
  - apply quiet_bind with (Q := any); [apply H|intros _ _; exact IH].
Qed.

Lemma quiet__ensure_all_direct_edges s : quiet any (_ensure_all_direct_edges s).
Proof. unfold _ensure_all_direct_edges. repeat quiet_more. Qed.

Lemma quiet_attach root cur dep is_direct props :
  quiet any (attach root cur dep is_direct props).
Proof. unfold attach. repeat quiet_more. Qed.

Section QuietNested.
Variable parse_one : string -> P spec.
Hypothesis quiet_parse_one : forall text, quiet any (parse_one text).

Lemma quiet_EdgeAttributeParser_parse :
  quiet any (EdgeAttributeParser_parse parse_one).
Proof.
  unfold EdgeAttributeParser_parse.
  repeat first [ apply quiet_edge_attr_loop | apply quiet_parse_one | quiet_more ].
Qed.

Lemma quiet__parse_toolchain name : quiet any (_parse_toolchain parse_one name).
Proof.
  unfold _parse_toolchain.
  repeat first [ apply quiet_parse_one | apply quiet__ensure_all_direct_edges
               | apply quiet_for_each; intros ? | quiet_more ].
Qed.

Lemma quiet__apply_toolchain s name :
  quiet any (_apply_toolchain parse_one s name).
Proof.
  unfold _apply_toolchain.
  repeat first [ apply quiet_memo | apply quiet_set_memo
               | apply quiet__parse_toolchain | quiet_more ].
Qed.

Lemma quiet_next_spec_loop n root cur ws :
  quiet (fun ws' => ws' = ws) (next_spec_loop parse_one n root cur ws).
Proof.
  revert cur ws. induction n as [|n IH]; intros cur ws; simpl.
  - apply quiet_raise.
  - apply quiet_bind with (Q := any); [repeat quiet_more|intros is_start _].
    destruct is_start.
    + apply quiet_bind with (Q := any); [repeat quiet_more|intros v _].
      apply quiet_bind with (Q := any); [repeat quiet_more|intros c0 _].
      apply quiet_bind with (Q := any);
        [apply quiet_EdgeAttributeParser_parse|intros attrs _].
      eapply quiet_bind; [apply quiet__parse_node|intros [d ws'] Hws].
      simpl in Hws. subst ws'.
      apply quiet_bind with (Q := any); [apply quiet_attach|intros cur' _].
      rewrite app_nil_r. apply IH.
    + apply quiet_bind with (Q := any); [repeat quiet_more|intros is_dep _].
      destruct is_dep; [|apply quiet_ret; reflexivity].
      apply quiet_bind with (Q := any); [repeat quiet_more|intros v _].
      apply quiet_bind with (Q := any); [repeat quiet_more|intros c0 _].
      apply quiet_bind with (Q := any); [repeat quiet_more|intros virtuals _].
      apply quiet_bind with (Q := any); [repeat quiet_more|intros is_tc _].
      destruct is_tc.
      * apply quiet_bind with (Q := any); [repeat quiet_more|intros ok _].
        apply quiet_bind with (Q := any); [repeat quiet_more|intros _ _].
        apply quiet_bind with (Q := any); [|intros _ _; apply IH].
        apply quiet_try_catch.
        -- apply quiet_bind with (Q := any); [apply quiet_current_value|intros name _].
           apply quiet__apply_toolchain.
        -- intros x. repeat quiet_more.
      * eapply quiet_bind; [apply quiet__parse_node|intros [d ws'] Hws].
        simpl in Hws. subst ws'.
        apply quiet_bind with (Q := any); [apply quiet_attach|intros cur' _].
        rewrite app_nil_r. apply IH.
Qed.

(** [next_spec] finds [parser_warnings] empty and never calls
    [_warn_about_variant_after_compiler]. *)
Lemma quiet_next_spec init : quiet any (next_spec parse_one init).
Proof.
  unfold next_spec.
  apply quiet_bind with (Q := any); [repeat quiet_more|intros nt _].
  destruct nt as [t|]; [|apply quiet_ret; exact I].
  apply quiet_bind with (Q := any); [destruct init; repeat quiet_more|intros s _].
  eapply quiet_bind; [apply quiet_SpecNodeParser_parse|].
  intros [root ws] [Hroot Hws]. simpl in Hroot, Hws. subst ws.
  destruct root as [root|]; [|congruence].
  apply quiet_bind with (Q := any); [repeat quiet_more|intros c _].
  eapply quiet_bind; [apply quiet_next_spec_loop|intros ws Hws].
  cbv beta in Hws. subst ws.
  repeat quiet_more.
Qed.

Lemma quiet_all_specs_loop n : quiet any (all_specs_loop parse_one n).
Proof.
  induction n as [|n IH]; simpl.
  - apply quiet_raise.
  - repeat first [ apply quiet_next_spec | apply IH | quiet_more ].
Qed.

Lemma quiet_all_specs : quiet any (all_specs parse_one).
Proof.
  unfold all_specs. repeat first [ apply quiet_all_specs_loop | quiet_more ].
Qed.

Lemma quiet_parse_one_body init : quiet any (parse_one_body parse_one init).
Proof.
  unfold parse_one_body. repeat first [ apply quiet_next_spec | quiet_more ].
Qed.

End QuietNested.

Lemma quiet_with_new_parser {A} (Q : A -> Prop) text (body : P A) :
  quiet Q body -> quiet Q (with_new_parser text body).
Proof.
  intros H st. unfold with_new_parser.
  destruct (TokenContext_init (parseable_tokens text)) as [c [u|x]].
  - destruct (H (mkState (mkParser text c []) (wld st) (emitted st))) as [E HQ].
    destruct (body (mkState (mkParser text c []) (wld st) (emitted st)))
      as [st1 r]. simpl in *. split; [exact E|exact HQ].
  - split; [reflexivity|exact I].
Qed.

Lemma quiet_parse_one_at depth init text : quiet any (parse_one_at depth init text).
Proof.
  revert init text. induction depth as [|d IH]; intros init text; simpl.
  - apply quiet_raise.
  - apply quiet_with_new_parser. apply quiet_parse_one_body.
    intros t. apply IH.
Qed.

End Quiet.

(** ** The error for a missing node is never raised

    [throws c]: whatever [c] raises, it is not the parse error that asks
    for a package name or a node attribute after a dependency sigil. *)

Section Throws.
Context {C : Collaborators}.

Definition other_error (x : exn) : Prop :=
  forall tok text, x <> SpecParsingError node_expected_msg tok text None.

Definition throws {A} (c : P A) : Prop :=
  forall st, match snd (c st) with Raise x => other_error x | Ok _ => True end.

Lemma throws_ret {A} (a : A) : throws (ret a).
Proof. intros st. exact I. Qed.

Lemma throws_raise {A} (x : exn) : other_error x -> throws (raise (A := A) x).
Proof. intros H st. exact H. Qed.

Lemma throws_bind {A B} (c : P A) (k : A -> P B) :
  throws c -> (forall a, throws (k a)) -> throws (bind c k).
Proof.
  intros Hc Hk st. unfold bind. specialize (Hc st).
  destruct (c st) as [s1 [a|x]]; simpl in *; [apply Hk|exact Hc].
Qed.

Lemma next_from_raises text raw x :
  snd (next_from text raw) = Raise x ->
  x = SpecTokenizationError (SPEC_TOKENIZER_tokenize text) text.
Proof.
  induction raw as [|t raw IH]; simpl; [discriminate|].
  destruct (SpecTokens_eqb (kind t) UNEXPECTED); simpl; [congruence|].
  destruct (negb (SpecTokens_eqb (kind t) WS)); simpl; [discriminate|exact IH].
Qed.

Lemma advance_raises c x :
  snd (advance c) = Raise x ->
  exists toks text, x = SpecTokenizationError toks text.
Proof.
  unfold advance. destruct (pushed_tokens c); [|discriminate].
  unfold stream_next.
  pose proof (@next_from_raises (stream_text (token_stream_ c))
                                (remaining (token_stream_ c))) as H.
  destruct (next_from (stream_text (token_stream_ c)) (remaining (token_stream_ c)))
    as [raw' [t|y]]; simpl in *; [discriminate|].
  intros E. injection E as <-. eauto.
Qed.

Lemma accept_raises k c x :
  snd (accept k c) = Raise x ->
  exists toks text, x = SpecTokenizationError toks text.
Proof.
  unfold accept. destruct (kind_is k (next_token c)); [|discriminate].
  unfold bind. pose proof (@advance_raises c) as H.
  destruct (advance c) as [c' [u|y]]; simpl in *; [discriminate|].
  intros E. injection E as <-. apply H. reflexivity.
Qed.

Lemma throws_accept k : throws (on_ctx (accept k)).
Proof.
  intros st. unfold on_ctx.
  pose proof (@accept_raises k (ctx (parser st))) as H.
  destruct (accept k (ctx (parser st))) as [c' [b|x]]; simpl in *; [exact I|].
  destruct (H x eq_refl) as (toks & text & ->). intros tok text'. discriminate.
Qed.

Lemma throws_expect ks : throws (on_ctx (expect ks)).
Proof. intros st. exact I. Qed.

Lemma throws_on_world {A} (f : world -> world * result foreign A) :
  throws (on_world f).
Proof.
  intros st. unfold on_world. destruct (f (wld st)) as [w [a|e]]; simpl;
    [exact I|intros tok text; discriminate].
Qed.

Lemma throws_upd_world (f : world -> world) : throws (upd_world f).
Proof. intros st. exact I. Qed.

Lemma throws_ask_world {A} (f : world -> A) : throws (ask_world f).
Proof. intros st. exact I. Qed.

Lemma throws_ask_ctx {A} (f : TokenContext -> A) : throws (ask_ctx f).
Proof. intros st. exact I. Qed.

Lemma throws_Spec_new :
  throws (fun st => let (s, w) := Spec_new (wld st) in (set_wld w st, Ok s)).
Proof. intros st. destruct (Spec_new (wld st)). exact I. Qed.

Lemma throws_add_flag s name v p c : throws (add_flag s name v p c).
Proof.
  intros st. unfold add_flag.
  destruct (_add_flag s name v p c (wld st)) as [w [u|e]]; simpl;
    [exact I|intros tok text; discriminate].
Qed.

Lemma throws_multiple_versions {A} :
  throws (raise_parsing_error (A := A) "Spec cannot have multiple versions" None).
Proof. intros st. simpl. intros tok text. discriminate. Qed.

Ltac other := intros ? ?; discriminate.

Ltac throws_step :=
  match goal with
  | |- throws (ret _) => apply throws_ret
  | |- throws (raise _) => apply throws_raise; other
  | |- throws (raise_parsing_error _ None) => apply throws_multiple_versions
  | |- throws (on_ctx (accept _)) => apply throws_accept
  | |- throws (on_ctx (expect _)) => apply throws_expect
  | |- throws (on_world _) => apply throws_on_world
  | |- throws (upd_world _) => apply throws_upd_world
  | |- throws (ask_world _) => apply throws_ask_world
  | |- throws (ask_ctx _) => apply throws_ask_ctx
  | |- throws (add_flag _ _ _ _ _) => apply throws_add_flag
  | |- throws (fun st => let (_, _) := Spec_new _ in _) => apply throws_Spec_new
  | |- throws (bind _ _) => apply throws_bind; [|intros ?]
  | |- throws (or_else _ _) => unfold or_else
  | |- throws current_value => unfold current_value
  | |- throws (first_char _) => unfold first_char
  | |- throws (split_key_value _ _) => unfold split_key_value
  | |- throws (if ?b then _ else _) => destruct b
  | |- throws (let (_, _) := ?p in _) => destruct p
  | |- throws (match ?x with _ => _ end) => destruct x
  end.

Lemma throws_node_loop n s lc hv ws : throws (node_loop n s lc hv ws).
Proof.
  revert hv ws. induction n as [|n IH]; intros hv ws; simpl.
  - apply throws_raise. other.
  - repeat first [ apply IH | throws_step ].
Qed.

Lemma throws_FileParser_parse s : throws (FileParser_parse s).
Proof. unfold FileParser_parse. repeat throws_step. Qed.

Lemma throws_SpecNodeParser_parse init root :
  throws (SpecNodeParser_parse init root).
Proof.
  unfold SpecNodeParser_parse.
  repeat first [ apply throws_node_loop | apply throws_FileParser_parse
               | throws_step ].
Qed.

(** [SpecNodeParser.parse] hands back its node in every case, so the test
    [dependency is None] of [_parse_node] fails every time. *)
Lemma throws__parse_node root_spec root : throws (_parse_node root_spec root).
Proof.
  unfold _parse_node. intros st. unfold bind.
  pose proof (quiet_SpecNodeParser_parse None root st) as [_ HQ].
  pose proof (throws_SpecNodeParser_parse None root st) as HT.
  destruct (SpecNodeParser_parse None root st) as [s1 [[d ws]|x]]; simpl in *;
    [|exact HT].
  destruct HQ as [Hd _]. destruct d as [d|]; [|congruence].
  destruct (concrete root_spec (wld s1)); simpl; [other|exact I].
Qed.

End Throws.

(** C3.  The code does not do what the claim says.  [SpecNodeParser.parse]
    creates its node before it looks at the tokens and returns it in every
    case, never [None]; so [_parse_node] never raises the parse error that
    names the expectation, whatever the collaborators and the tokens.  On
    ["foo ^"] the parse succeeds and attaches an empty anonymous node to
    [foo]; on ["foo %"] the look at the token after the sigil, for the
    toolchain test, fails on [None] with an [AttributeError]. *)
Theorem C3_sigil_without_node :
  (forall (C : Collaborators) init root st,
      match snd (SpecNodeParser_parse init root st) with
      | Ok (d, _) => d <> None
      | Raise _ => True
      end)
  /\ (forall (C : Collaborators) root_spec root st tok text,
         snd (_parse_node root_spec root st)
         <> Raise (SpecParsingError node_expected_msg tok text None))
  /\ Ref.outcome (@parse Ref.collaborators 0 "foo ^" [])
     = (Ok [0],
        [Ref.mkNode (Some "foo") None None [] None
           [Ref.mkEdge 0 1 [] false 0 None];
         Ref.empty_node])
  /\ Ref.outcome (@parse Ref.collaborators 0 "foo %" [])
     = (Raise AttributeError, [Ref.mkNode (Some "foo") None None [] None []]).
Proof.
  split; [|split; [|split]].
  - intros C init root st.
    destruct (quiet_SpecNodeParser_parse init root st) as [_ H].
    destruct (snd (SpecNodeParser_parse init root st)) as [[d ws]|x];
      [exact (proj1 H)|exact I].
  - intros C root_spec root st tok text E.
    pose proof (throws__parse_node root_spec root st) as H.
    rewrite E in H. exact (H tok text eq_refl).
  - vm_compute. reflexivity.
  - vm_compute. reflexivity.
Qed.

(** C4.  The code does not do what the claim says.  The node parser sets
    [last_compiler] to [None] and never to anything else, so
    [warn_if_after_compiler] registers nothing: the list of warnings that
    [SpecNodeParser.parse] returns is empty, and no parse, of any text and
    with any collaborators, issues a warning.  On ["foo %clang +bar"] the
    parse succeeds, [+bar] goes to the node [clang], and nothing is
    queued. *)
Theorem C4_no_warning_queued :
  (forall (C : Collaborators) init root st,
      match snd (SpecNodeParser_parse init root st) with
      | Ok (_, parser_warnings) => parser_warnings = []
      | Raise _ => True
      end)
  /\ (forall (C : Collaborators) depth text w,
         emitted (fst (parse depth text w)) = []
         /\ emitted (fst (parse_one_or_raise depth text None w)) = [])
  /\ Ref.outcome (@parse Ref.collaborators 0 "foo %clang +bar" [])
     = (Ok [0],
        [Ref.mkNode (Some "foo") None None [] None
           [Ref.mkEdge 0 1 [] true 0 None];
         Ref.mkNode (Some "clang") None None
           [("bar", (VBool true, false, true))] None []])
  /\ emitted (fst (@parse Ref.collaborators 0 "foo %clang +bar" [])) = [].
Proof.
  split; [|split; [|split]].
  - intros C init root st.
    destruct (quiet_SpecNodeParser_parse init root st) as [_ H].
    destruct (snd (SpecNodeParser_parse init root st)) as [[d ws]|x];
      [exact (proj2 H)|exact I].
  - intros C depth text w. split.
    + unfold parse.
      apply (quiet_with_new_parser (Q := any) text).
      apply quiet_all_specs. intros t. apply quiet_parse_one_at.
    + unfold parse_one_or_raise.
      apply (quiet_parse_one_at (S depth) None text).
  - vm_compute. reflexivity.
  - vm_compute. reflexivity.
Qed.

(** ** A second version clause

    [triple c0 cmd Q E]: started on the cursor [c0], the command [cmd]
    returns a value and leaves a cursor that satisfy [Q], or raises an
    exception that satisfies [E]. *)

Section Versions.
Context {C : Collaborators}.

Lemma next_from_upcoming text raw raw' t :
  next_from text raw = (raw', Ok t) ->
  map Some (upcoming raw)
  = match t with
    | Some t' => Some t' :: map Some (upcoming raw')
    | None => []
    end.
Proof.
  revert raw' t. induction raw as [|a raw IH]; intros raw' t; simpl.
  - intros E. injection E as <- <-. reflexivity.
  - destruct (SpecTokens_eqb (kind a) UNEXPECTED); [discriminate|].
    destruct (negb (SpecTokens_eqb (kind a) WS)).
    + intros E. injection E as <- <-. reflexivity.
    + apply IH.
Qed.

Lemma clause_run_advance c c' t :
  next_token c = Some t -> is_clause_kind (kind t) = true ->
  advance c = (c', Ok tt) ->
  clause_run c = t :: clause_run c' /\ current_token c' = Some t.
Proof.
  intros N K. unfold advance, clause_run, served. rewrite N.
  destruct (pushed_tokens c) as [|top below].
  - unfold stream_next.
    destruct (next_from (stream_text (token_stream_ c)) (remaining (token_stream_ c)))
      as [raw' [t'|x]] eqn:E; [|discriminate].
    intros A. injection A as <-. simpl. rewrite K.
    rewrite (next_from_upcoming _ _ E).
    destruct t' as [t'|]; split; reflexivity.
  - intros A. injection A as <-. simpl. rewrite K. split; reflexivity.
Qed.

Definition multiple_versions (x : exn) : Prop :=
  exists tok text,
    x = SpecParsingError "Spec cannot have multiple versions" tok text None.

Definition triple (c0 : TokenContext) {A} (cmd : P A)
  (Q : A -> TokenContext -> Prop) (E : exn -> Prop) : Prop :=
  forall st, ctx (parser st) = c0 ->
    match cmd st with
    | (st', Ok a) => Q a (ctx (parser st'))
    | (_, Raise x) => E x
    end.

Definition same (c0 : TokenContext) {A} : A -> TokenContext -> Prop :=
  fun _ c1 => c1 = c0.

Lemma triple_ret c0 {A} (a : A) (Q : A -> TokenContext -> Prop) E :
  Q a c0 -> triple c0 (ret a) Q E.
Proof. intros H st <-. exact H. Qed.

Lemma triple_raise c0 {A} x (Q : A -> TokenContext -> Prop) (E : exn -> Prop) :
  E x -> triple c0 (raise x) Q E.
Proof. intros H st _. exact H. Qed.

Lemma triple_bind c0 {A B} (c : P A) (k : A -> P B) Q R E :
  triple c0 c Q E -> (forall a c1, Q a c1 -> triple c1 (k a) R E) ->
  triple c0 (bind c k) R E.
Proof.
  intros Hc Hk st H0. unfold bind. specialize (Hc st H0).
  destruct (c st) as [s1 [a|x]]; [|exact Hc].
  apply (Hk a (ctx (parser s1)) Hc s1 eq_refl).
Qed.

Lemma triple_on_world c0 {A} (f : world -> world * result foreign A) E :
  (forall e, E (Foreign e)) -> triple c0 (on_world f) (same c0) E.
Proof.
  intros HE st <-. unfold on_world.
  destruct (f (wld st)) as [w [a|e]]; [reflexivity|apply HE].
Qed.

Lemma triple_upd_world c0 (f : world -> world) E :
  triple c0 (upd_world f) (same c0) E.
Proof. intros st <-. reflexivity. Qed.

Lemma triple_ask_world c0 {A} (f : world -> A) E :
  triple c0 (ask_world f) (same c0) E.
Proof. intros st <-. reflexivity. Qed.

Lemma triple_add_flag c0 s name v p cc (E : exn -> Prop) :
  (forall m tok text e, E (SpecParsingError m tok text (Some e))) ->
  triple c0 (add_flag s name v p cc) (same c0) E.
Proof.
  intros HE st <-. unfold add_flag.
  destruct (_add_flag s name v p cc (wld st)) as [w [u|e]];
    [reflexivity|apply HE].
Qed.

Lemma triple_current_value c0 (E : exn -> Prop) :
  E AttributeError ->
  triple c0 current_value
         (fun v c1 => c1 = c0 /\ exists t, current_token c0 = Some t /\ v = value t) E.
Proof.
  intros HE st <-. unfold current_value, bind, ask_ctx.
  destruct (current_token (ctx (parser st))) as [t|]; simpl; [|exact HE].
  split; [reflexivity|]. exists t. split; reflexivity.
Qed.

Lemma triple_first_char c0 v (E : exn -> Prop) :
  E IndexError -> triple c0 (first_char v) (same c0) E.
Proof. intros HE st <-. destruct v; [exact HE|reflexivity]. Qed.

Lemma triple_split_key_value c0 sep v (E : exn -> Prop) :
  (forall m, E (ValueError m)) -> triple c0 (split_key_value sep v) (same c0) E.
Proof.
  intros HE st <-. unfold split_key_value.
  destruct (Py.split_once sep v) as [[name val]|]; [reflexivity|apply HE].
Qed.

Lemma triple_accept c0 k (E : exn -> Prop) :
  (forall toks text, E (SpecTokenizationError toks text)) ->
  triple c0 (on_ctx (accept k))
    (fun b c1 =>
       if b then kind_is k (next_token c0) = true /\ advance c0 = (c1, Ok tt)
       else kind_is k (next_token c0) = false /\ c1 = c0) E.
Proof.
  intros HE st <-. unfold on_ctx, accept.
  destruct (kind_is k (next_token (ctx (parser st)))).
  - unfold bind. pose proof (@advance_raises _ (ctx (parser st))) as H.
    destruct (advance (ctx (parser st))) as [c' [[]|x]]; simpl.
    + split; reflexivity.
    + destruct (H x eq_refl) as (toks & text & ->). apply HE.
  - simpl. split; reflexivity.
Qed.

Lemma triple_expect c0 ks E :
  triple c0 (on_ctx (expect ks))
         (fun b c1 => c1 = c0 /\ b = kind_in ks (next_token c0)) E.
Proof. intros st <-. split; reflexivity. Qed.

Lemma triple_conseq c0 {A} (cmd : P A) (Q Q' : A -> TokenContext -> Prop)
  (E E' : exn -> Prop) :
  triple c0 cmd Q E -> (forall a c1, Q a c1 -> Q' a c1) ->
  (forall x, E x -> E' x) -> triple c0 cmd Q' E'.
Proof.
  intros H HQ HE st H0. specialize (H st H0).
  destruct (cmd st) as [st' [a|x]]; [apply HQ|apply HE]; exact H.
Qed.

Definition enough (hv : bool) (c : TokenContext) : exn -> Prop :=
  fun x => multiple_versions x ->
           (if hv then 1 else 2) <= version_clauses (clause_run c).

Lemma kind_is_true k c :
  kind_is k (next_token c) = true ->
  exists t, next_token c = Some t /\ kind t = k.
Proof.
  unfold kind_is. destruct (next_token c) as [t|]; [|discriminate].
  intros H. exists t. split; [reflexivity|].
  destruct (kind t), k; simpl in H; congruence.
Qed.

Ltac not_mv :=
  intros;
  first [ intros (? & ? & ?); discriminate
        | match goal with
          | H : multiple_versions _ |- _ => destruct H as (? & ? & ?); discriminate
          end ].

(** One clause accepted: what has to hold for the rest of the iteration. *)
Lemma enough_after hv hv' c0 c1 k x :
  kind_is k (next_token c0) = true -> is_clause_kind k = true ->
  advance c0 = (c1, Ok tt) ->
  (hv = false -> hv' = true -> is_version_kind k = true) ->
  (hv = true -> hv' = true) ->
  enough hv' c1 x -> enough hv c0 x.
Proof.
  intros Hk Hc Ha Hv Hv' H Hx. specialize (H Hx).
  destruct (kind_is_true _ _ Hk) as (t & N & K). subst k.
  destruct (clause_run_advance _ N Hc Ha) as [-> _].
  unfold version_clauses in *. simpl.
  destruct hv, hv'; simpl in *.
  - destruct (is_version_kind (kind t)); simpl; lia.
  - specialize (Hv' eq_refl). discriminate.
  - rewrite (Hv eq_refl eq_refl). simpl. lia.
  - destruct (is_version_kind (kind t)); simpl; lia.
Qed.

Lemma triple_raise_parsing_error c0 {A} msg cause
  (Q : A -> TokenContext -> Prop) (E : exn -> Prop) :
  (forall tok text, E (SpecParsingError msg tok text cause)) ->
  triple c0 (raise_parsing_error msg cause) Q E.
Proof. intros H st _. apply H. Qed.

Lemma triple_accept_version c0 (E : exn -> Prop) :
  (forall toks text, E (SpecTokenizationError toks text)) ->
  triple c0
    (or_else (on_ctx (accept VERSION_HASH_PAIR))
       (or_else (on_ctx (accept GIT_VERSION)) (on_ctx (accept VERSION))))
    (fun b c1 =>
       if b then exists k, is_version_kind k = true
                           /\ kind_is k (next_token c0) = true
                           /\ advance c0 = (c1, Ok tt)
       else c1 = c0) E.
Proof.
  intros HE. unfold or_else.
  eapply triple_bind; [apply triple_accept; exact HE|].
  intros [|] c1 H.
  - apply triple_ret. exists VERSION_HASH_PAIR. split; [reflexivity|exact H].
  - destruct H as [_ ->].
    eapply triple_bind; [apply triple_accept; exact HE|].
    intros [|] c1 H.
    + apply triple_ret. exists GIT_VERSION. split; [reflexivity|exact H].
    + destruct H as [_ ->].
      eapply triple_conseq; [apply triple_accept; exact HE| |intros x Hx; exact Hx].
      intros [|] c1 H.
      * exists VERSION. split; [reflexivity|exact H].
      * exact (proj2 H).
Qed.

Ltac frame_prim :=
  first [ apply triple_on_world; not_mv
        | apply triple_upd_world
        | apply triple_ask_world
        | apply triple_add_flag; not_mv
        | apply triple_first_char; not_mv
        | apply triple_split_key_value; not_mv ].

(** The rest of an iteration, once a clause was accepted. *)
Ltac after_accept IH :=
  repeat first
    [ eapply triple_conseq; [apply IH|intros ? ? ?; exact I|]
    | eapply triple_bind; [frame_prim|intros ? ? ->]
    | eapply triple_bind; [apply triple_current_value; not_mv|intros ? ? [-> _]]
    | match goal with |- triple _ (let (_, _) := ?x in _) _ _ => destruct x end ].

(** An iteration that accepts a clause of the kind [k], other than a
    version, and goes round again. *)
Ltac clause IH hv c0 k :=
  let c1 := fresh "c1" in
  let Hk := fresh "Hk" in
  let Ha := fresh "Ha" in
  intros c1 [Hk Ha]; after_accept IH;
  intros x; apply (@enough_after hv hv c0 c1 k x Hk eq_refl Ha);
  [intros -> ?; discriminate|intros ->; reflexivity].

Lemma node_loop_enough n s lc hv ws c0 :
  triple c0 (node_loop n s lc hv ws) (fun _ _ => True) (enough hv c0).
Proof.
  revert hv ws c0. induction n as [|n IH]; intros hv ws c0.
  - apply triple_raise. not_mv.
  - cbn [node_loop].
    eapply triple_bind; [apply triple_accept_version; not_mv|].
    intros [|] c1 H.
    { destruct H as (k & Hv & Hk & Ha).
      assert (Hc : is_clause_kind k = true)
        by (destruct k; try discriminate; reflexivity).
      eapply triple_bind with (Q := fun _ c2 => c2 = c1 /\ hv = false).
      - destruct hv.
        + apply triple_raise_parsing_error. intros tok text _.
          destruct (kind_is_true _ _ Hk) as (t & N & K). subst k.
          destruct (clause_run_advance _ N Hc Ha) as [-> _].
          unfold version_clauses. simpl. rewrite Hv. simpl. lia.
        + apply triple_ret. split; reflexivity.
      - intros _ c2 [-> ->]. after_accept IH.
        intros x. apply (@enough_after false true c0 c1 k x Hk Hc Ha);
          [intros _ _; exact Hv|discriminate]. }
    subst c1.
    eapply triple_bind; [apply triple_accept; not_mv|].
    intros [|]; [clause IH hv c0 BOOL_VARIANT|intros c1 [_ ->]].
    eapply triple_bind; [apply triple_accept; not_mv|].
    intros [|]; [clause IH hv c0 PROPAGATED_BOOL_VARIANT|intros c1 [_ ->]].
    eapply triple_bind; [apply triple_accept; not_mv|].
    intros [|]; [clause IH hv c0 KEY_VALUE_PAIR|intros c1 [_ ->]].
    eapply triple_bind; [apply triple_accept; not_mv|].
    intros [|]; [clause IH hv c0 PROPAGATED_KEY_VALUE_PAIR|intros c1 [_ ->]].
    eapply triple_bind; [apply triple_expect|]. intros b c1 [-> _].
    destruct b; [|apply triple_ret; exact I].
    eapply triple_bind; [apply triple_ask_world|]. intros h c1 ->.
    destruct (truthy h); [apply triple_ret; exact I|].
    eapply triple_bind; [apply triple_accept; not_mv|].
    intros [|]; [clause IH hv c0 DAG_HASH|intros c1 [_ ->]].
    after_accept IH. intros x Hx. exact Hx.
Qed.

Lemma set_ctx_same st : set_ctx (ctx (parser st)) st = st.
Proof. destruct st as [[l c p] w e]. reflexivity. Qed.

Lemma on_ctx_accept_false k st :
  kind_is k (next_token (ctx (parser st))) = false ->
  on_ctx (accept k) st = (st, Ok false).
Proof.
  intros H. unfold on_ctx, accept. rewrite H. rewrite set_ctx_same. reflexivity.
Qed.

Lemma on_ctx_accept_true k st c' :
  kind_is k (next_token (ctx (parser st))) = true ->
  advance (ctx (parser st)) = (c', Ok tt) ->
  on_ctx (accept k) st = (set_ctx c' st, Ok true).
Proof.
  intros H A. unfold on_ctx, accept. rewrite H. unfold bind. rewrite A. reflexivity.
Qed.

Lemma accept_version_true st t c' :
  next_token (ctx (parser st)) = Some t -> is_version_kind (kind t) = true ->
  advance (ctx (parser st)) = (c', Ok tt) ->
  or_else (on_ctx (accept VERSION_HASH_PAIR))
    (or_else (on_ctx (accept GIT_VERSION)) (on_ctx (accept VERSION))) st
  = (set_ctx c' st, Ok true).
Proof.
  intros N K A. unfold or_else, bind.
  destruct (kind t) eqn:Kt; try discriminate.
  - rewrite (@on_ctx_accept_true VERSION_HASH_PAIR st c'); [reflexivity| |exact A].
    unfold kind_is. rewrite N, Kt. reflexivity.
  - rewrite (@on_ctx_accept_false VERSION_HASH_PAIR st);
      [|unfold kind_is; rewrite N, Kt; reflexivity].
    rewrite (@on_ctx_accept_true GIT_VERSION st c'); [reflexivity| |exact A].
    unfold kind_is. rewrite N, Kt. reflexivity.
  - rewrite (@on_ctx_accept_false VERSION_HASH_PAIR st);
      [|unfold kind_is; rewrite N, Kt; reflexivity].
    rewrite (@on_ctx_accept_false GIT_VERSION st);
      [|unfold kind_is; rewrite N, Kt; reflexivity].
    rewrite (@on_ctx_accept_true VERSION st c'); [reflexivity| |exact A].
    unfold kind_is. rewrite N, Kt. reflexivity.
Qed.

Lemma advance_Ok_current c c' :
  advance c = (c', Ok tt) -> current_token c' = next_token c.
Proof.
  intros A. rewrite <- (@advance_current _ c). rewrite A. reflexivity.
Qed.

Lemma second_version n s lc ws st t c' :
  next_token (ctx (parser st)) = Some t -> is_version_kind (kind t) = true ->
  advance (ctx (parser st)) = (c', Ok tt) ->
  node_loop (S n) s lc true ws st
  = (set_ctx c' st,
     Raise (SpecParsingError "Spec cannot have multiple versions" (Some t)
                             (literal_str (parser st)) None)).
Proof.
  intros N K A. cbn [node_loop]. unfold bind at 1.
  rewrite (accept_version_true _ N K A). unfold bind at 1.
  unfold raise_parsing_error. cbn [ctx parser set_ctx literal_str].
  rewrite (advance_Ok_current _ A), N. reflexivity.
Qed.
Lemma triple_post c0 {A} (cmd : P A) (Q Q' : A -> TokenContext -> Prop)
  (E : exn -> Prop) :
  triple c0 cmd Q E -> (forall a c1, Q a c1 -> Q' a c1) -> triple c0 cmd Q' E.
Proof.
  intros H HQ. eapply triple_conseq; [exact H|exact HQ|intros x Hx; exact Hx].
Qed.

Lemma triple_ask_ctx c0 {A} (f : TokenContext -> A) E :
  triple c0 (ask_ctx f) (fun a c1 => c1 = c0 /\ a = f c0) E.
Proof. intros st <-. split; reflexivity. Qed.

Lemma triple_Spec_new c0 E :
  triple c0 (fun st => let (s, w) := Spec_new (wld st) in (set_wld w st, Ok s))
         (same c0) E.
Proof. intros st <-. destruct (Spec_new (wld st)). reflexivity. Qed.

Lemma triple_FileParser_parse c0 s (E : exn -> Prop) :
  (forall x, ~ multiple_versions x -> E x) ->
  triple c0 (FileParser_parse s) (fun _ _ => True) E.
Proof.
  intros HE. unfold FileParser_parse.
  eapply triple_bind; [apply triple_current_value; apply HE; not_mv|].
  intros v c1 [-> _].
  eapply triple_bind; [apply triple_ask_world|]. intros b c1 ->.
  destruct (negb b); [apply triple_raise; apply HE; not_mv|].
  eapply triple_bind with (Q := same c0).
  { destruct (Py.ends_with ".json" (Path_str v));
      apply triple_on_world; intros e; apply HE; not_mv. }
  intros s' c1 ->.
  eapply triple_bind; [apply triple_on_world; intros e; apply HE; not_mv|].
  intros _ c1 ->. apply triple_ret. exact I.
Qed.

Lemma served_advance c c' t :
  next_token c = Some t -> advance c = (c', Ok tt) ->
  served c = Some t :: served c'
  \/ (served c = [Some t] /\ clause_run c' = []).
Proof.
  intros N. unfold advance, clause_run, served. rewrite N.
  destruct (pushed_tokens c) as [|top below].
  - unfold stream_next.
    destruct (next_from (stream_text (token_stream_ c)) (remaining (token_stream_ c)))
      as [raw' [t'|x]] eqn:E; [|discriminate].
    intros A. injection A as <-. simpl.
    rewrite (next_from_upcoming _ _ E).
    destruct t' as [t'|]; [left|right; split]; reflexivity.
  - intros A. injection A as <-. left. reflexivity.
Qed.

Lemma node_clauses_after_name c c' k :
  kind_is k (next_token c) = true -> is_name_kind k = true ->
  advance c = (c', Ok tt) ->
  node_clauses c = clause_run c'.
Proof.
  intros Hk Hn A. destruct (kind_is_true _ _ Hk) as (t & N & K). subst k.
  unfold node_clauses.
  destruct (served_advance _ N A) as [-> | [-> ->]]; rewrite Hn; reflexivity.
Qed.

Lemma node_clauses_no_name c :
  kind_is UNQUALIFIED_PACKAGE_NAME (next_token c) = false ->
  kind_is FULLY_QUALIFIED_PACKAGE_NAME (next_token c) = false ->
  next_token c <> None ->
  node_clauses c = clause_run c.
Proof.
  unfold node_clauses, clause_run, served, kind_is.
  destruct (next_token c) as [t|]; [|congruence].
  intros H1 H2 _. simpl.
  destruct (kind t); simpl in *; try discriminate; reflexivity.
Qed.

Lemma SpecNodeParser_parse_enough init root c0 :
  triple c0 (SpecNodeParser_parse init root) (fun _ _ => True)
    (fun x => multiple_versions x -> 2 <= version_clauses (node_clauses c0)).
Proof.
  unfold SpecNodeParser_parse.
  eapply triple_bind with (Q := same c0).
  { destruct init; [apply triple_ret; reflexivity|apply triple_Spec_new]. }
  intros s c1 ->.
  eapply triple_bind
    with (Q := fun b c1 => c1 = c0 /\ (b = false -> next_token c0 <> None)).
  { unfold or_else.
    eapply triple_bind
      with (Q := fun b c1 => c1 = c0 /\ (b = false -> next_token c0 <> None)).
    - eapply triple_bind; [apply triple_ask_ctx|]. intros nt c1 [-> ->].
      apply triple_ret. split; [reflexivity|].
      cbv beta. destruct (next_token c0) as [t|]; intros H; [discriminate|discriminate H].
    - intros b c1 [-> Hb]. destruct b.
      + apply triple_ret. split; [reflexivity|discriminate].
      + eapply triple_post; [apply triple_expect|].
        intros b c1 [-> _]. split; [reflexivity|]. intros _. apply Hb. reflexivity. }
  intros at_end c1 [-> Hend]. destruct at_end; [apply triple_ret; exact I|].
  specialize (Hend eq_refl).
  eapply triple_bind; [apply triple_accept; not_mv|].
  intros [|] c1 H.
  - destruct H as [Hk Ha]. rewrite (node_clauses_after_name _ _ Hk eq_refl Ha).
    eapply triple_bind with (Q := fun b c2 => c2 = c1 /\ b = false).
    { eapply triple_bind; [apply triple_current_value; not_mv|].
      intros v c2 [-> _].
      eapply triple_bind with (Q := same c1).
      { destruct (negb (String.eqb v "*")); [apply triple_upd_world|apply triple_ret; reflexivity]. }
      intros _ c2 ->. apply triple_ret. split; reflexivity. }
    intros b c2 [-> ->].
    eapply triple_bind; [apply triple_ask_ctx|]. intros c c2 [-> ->].
    eapply triple_bind; [apply node_loop_enough|].
    intros ws c2 _. apply triple_ret. exact I.
  - destruct H as [Hunq ->].
    eapply triple_bind
      with (Q := fun (b : bool) c1 => if b then True
                             else ((c1 = c0 /\ kind_is FULLY_QUALIFIED_PACKAGE_NAME
                                                         (next_token c0) = false)
                                   \/ node_clauses c0 = clause_run c1)).
    { eapply triple_bind; [apply triple_accept; not_mv|].
      intros [|] c1 H.
      - destruct H as [Hk Ha]. rewrite (node_clauses_after_name _ _ Hk eq_refl Ha).
        eapply triple_bind; [apply triple_current_value; not_mv|].
        intros v c2 [-> _].
        eapply triple_bind; [apply triple_upd_world|]. intros _ c2 ->.
        eapply triple_bind; [apply triple_upd_world|]. intros _ c2 ->.
        apply triple_ret. right. reflexivity.
      - destruct H as [Hfq ->].
        eapply triple_post; [apply triple_accept; not_mv|].
        intros [|] c1 H; [exact I|]. left. split; [exact (proj2 H)|exact Hfq]. }
    intros [|] c1 H.
    + eapply triple_bind; [apply triple_FileParser_parse|].
      * intros x Hx Hmv. contradiction.
      * intros s' c2 _. apply triple_ret. exact I.
    + eapply triple_bind; [apply triple_ask_ctx|]. intros c c2 [-> ->].
      eapply triple_bind with (Q := fun _ _ => True);
        [|intros ws c2 _; apply triple_ret; exact I].
      eapply triple_conseq; [apply node_loop_enough|intros ? ? ?; exact I|].
      intros x Hx Hmv. specialize (Hx Hmv).
      destruct H as [[-> Hfq] | ->]; [|exact Hx].
      rewrite (node_clauses_no_name _ Hunq Hfq Hend). exact Hx.
Qed.
End Versions.

(** ** The legacy rewriter *)

Module LegacyProps.
Import Legacy.

Lemma has_token_app_r b t : is_ws t = false -> has_token (b ++ [t]) = true.
Proof.
  intros H. unfold has_token. rewrite existsb_app. simpl. rewrite H.
  simpl. apply orb_true_r.
Qed.

Lemma drop_leading_ws_ok b :
  has_token b = true ->
  exists b', drop_leading_ws b = Ok b' /\ has_token b' = true.
Proof.
  induction b as [|t b IH]; simpl; [discriminate|].
  destruct (is_ws t) eqn:W; simpl.
  - exact IH.
  - intros _. exists (t :: b). split; [reflexivity|]. simpl. rewrite W. reflexivity.
Qed.

Lemma Forall_firstn {A} (P : A -> Prop) n (l : list A) :
  Forall P l -> Forall P (firstn n l).
Proof.
  intros H. revert n. induction H; intros [|n]; simpl; constructor; auto.
Qed.

Lemma Forall_skipn {A} (P : A -> Prop) n (l : list A) :
  Forall P l -> Forall P (skipn n l).
Proof.
  intros H. revert n. induction H; intros [|n]; simpl; auto.
Qed.

(** Between two tokens [_spec_str_reorder_compiler] does not raise. *)
Lemma reorder_ok idx bs :
  full bs ->
  exists bs', _spec_str_reorder_compiler idx bs = Ok bs' /\ full bs'.
Proof.
  intros F. unfold _spec_str_reorder_compiler.
  destruct (negb ((0 <=? idx)%Z && (idx <? Z.of_nat (List.length bs) - 1)%Z)) eqn:G.
  { exists bs. split; [reflexivity|exact F]. }
  destruct (forallb (forallb is_ws) (skipn (Z.to_nat idx + 1) bs)).
  { exists bs. split; [reflexivity|exact F]. }
  apply negb_false_iff, andb_true_iff in G. destruct G as [G0 G1].
  apply Z.leb_le in G0. apply Z.ltb_lt in G1.
  assert (Hi : S (Z.to_nat idx) < List.length bs) by lia.
  assert (Hc : has_token (nth (Z.to_nat idx) bs []) = true).
  { unfold full in F. rewrite Forall_forall in F. apply F. apply nth_In. lia. }
  destruct (nth (Z.to_nat idx) bs []) as [|t cb] eqn:Ecb; [discriminate|].
  assert (Hcb : has_token (if negb (is_ws t) then mkToken WS " " 0 0 None :: t :: cb
                           else t :: cb) = true).
  { destruct (negb (is_ws t)); [simpl; exact Hc|exact Hc]. }
  assert (Frest : full (firstn (Z.to_nat idx) bs ++ skipn (S (Z.to_nat idx)) bs)).
  { apply Forall_app. split; [apply Forall_firstn|apply Forall_skipn]; exact F. }
  destruct (idx =? 0)%Z eqn:Z0.
  - destruct (firstn (Z.to_nat idx) bs ++ skipn (S (Z.to_nat idx)) bs)
      as [|b rest] eqn:Eb.
    + exfalso. apply (f_equal (@List.length _)) in Eb.
      rewrite length_app, length_firstn, length_skipn in Eb. simpl in Eb. lia.
    + inversion Frest as [|? ? Hb Hrest]; subst.
      destruct (drop_leading_ws_ok b Hb) as (b' & -> & Hb').
      eexists. split; [reflexivity|].
      apply Forall_app. split; [constructor; assumption|].
      constructor; [exact Hcb|constructor].
  - eexists. split; [reflexivity|].
    apply Forall_app. split; [exact Frest|]. constructor; [exact Hcb|constructor].
Qed.

(** One token that is no filename: the loop goes on, with every block
    holding a token, or returns [None]. *)
Lemma body_ok t l :
  full (blocks l) -> is_filename t = false ->
  body t l = Return_None
  \/ exists l', body t l = Next l' /\ full (blocks l')
                /\ (is_boundary t = false -> is_compiler t = false ->
                    compiler_block_idx l' = compiler_block_idx l)
                /\ (is_compiler t = true ->
                    compiler_block_idx l = (-1)%Z
                    /\ compiler_block_idx l' <> (-1)%Z).
Proof.
  intros F Hf. unfold body, is_filename, is_boundary, is_compiler in *.
  assert (Hclose : forall l0 idx a, full (blocks l0) -> is_ws t = false ->
                     full (blocks (close_block t l0 idx a))).
  { intros l0 idx a F0 W. unfold close_block. simpl.
    apply Forall_app. split; [exact F0|].
    constructor; [apply has_token_app_r; exact W|constructor]. }
  destruct (kind t) eqn:K; try discriminate.
  all: try (left; reflexivity).
  all: try (destruct (compiler_block_idx l =? -1)%Z eqn:I1; simpl;
            [|left; reflexivity]).
  all: try (destruct (@reorder_ok (compiler_block_idx l) (blocks l) F) as (bs' & -> & F')).
  all: try (destruct (in_edge_attr l)).
  all: right; eexists; (split; [reflexivity|]).
  all: split; [first [ apply Hclose; [assumption|unfold is_ws; rewrite K; reflexivity]
                     | exact F ]|].
  all: split; [intros; try discriminate; reflexivity|intros; try discriminate].
  all: split; [apply Z.eqb_eq; exact I1|simpl; lia].
Qed.

Lemma for_tokens_app a b l :
  for_tokens (a ++ b) l
  = match for_tokens a l with
    | Next l' => for_tokens b l'
    | f => f
    end.
Proof.
  revert l. induction a as [|t a IH]; intros l; simpl; [reflexivity|].
  destruct (body t l); [apply IH|reflexivity|reflexivity].
Qed.

(** Tokens without a filename: the loop gets through them, or returns
    [None]. *)
Lemma for_tokens_ok ts l :
  full (blocks l) -> forallb (fun t => negb (is_filename t)) ts = true ->
  for_tokens ts l = Return_None
  \/ exists l', for_tokens ts l = Next l' /\ full (blocks l').
Proof.
  revert l. induction ts as [|t ts IH]; intros l F H; simpl.
  - right. exists l. split; [reflexivity|exact F].
  - simpl in H. apply andb_true_iff in H. destruct H as [Ht H].
    apply negb_true_iff in Ht.
    destruct (@body_ok t l F Ht) as [-> | (l' & -> & F' & _)];
      [left; reflexivity|].
    apply IH; assumption.
Qed.

(** After a compiler clause, tokens of the same node: the loop gets through
    them with the compiler clause still pending, or returns [None]. *)
Lemma for_tokens_same_node ts l :
  full (blocks l) -> compiler_block_idx l <> (-1)%Z ->
  forallb (fun t => negb (is_filename t)) ts = true ->
  forallb (fun t => negb (is_boundary t)) ts = true ->
  for_tokens ts l = Return_None
  \/ exists l', for_tokens ts l = Next l' /\ full (blocks l')
                /\ compiler_block_idx l' <> (-1)%Z.
Proof.
  revert l. induction ts as [|t ts IH]; intros l F I Hf Hb; simpl.
  - right. exists l. repeat split; assumption.
  - simpl in Hf, Hb. apply andb_true_iff in Hf, Hb.
    destruct Hf as [Ht Hf]. destruct Hb as [Hbt Hb].
    apply negb_true_iff in Ht, Hbt.
    destruct (@body_ok t l F Ht) as [-> | (l' & -> & F' & Hkeep & Hcomp)];
      [left; reflexivity|].
    destruct (is_compiler t) eqn:Ec.
    + destruct (Hcomp eq_refl) as [I1 _]. contradiction.
    + apply IH; try assumption. rewrite (Hkeep Hbt eq_refl). exact I.
Qed.

Lemma body_second_compiler t l :
  is_compiler t = true -> compiler_block_idx l <> (-1)%Z ->
  body t l = Return_None.
Proof.
  intros Hc I. unfold body, is_compiler in *.
  destruct (kind t); try discriminate.
  all: destruct (compiler_block_idx l =? -1)%Z eqn:E; [|reflexivity].
  all: apply Z.eqb_eq in E; contradiction.
Qed.

Lemma body_unexpected t l : is_unexpected t = true -> body t l = Return_None.
Proof.
  unfold body, is_unexpected. destruct (kind t); try discriminate. reflexivity.
Qed.

Lemma full_nil : full [].
Proof. constructor. Qed.

(** C7, amended.  Two compiler clauses on the same node, that is with no
    package name, dependency sigil or start of edge attributes between
    them, make the legacy rewriter return "no change"; so does an
    unexpected token.  Both hold for a string with no filename token before
    the second compiler clause, respectively before the unexpected token
    (what a filename token does is left out here). *)
Theorem C7_same_node_or_unexpected :
  forall (s : string),
    (forall pre c1 mid c2 post,
        legacy_tokenize s = pre ++ c1 :: mid ++ c2 :: post ->
        is_compiler c1 = true -> is_compiler c2 = true ->
        forallb (fun t => negb (is_boundary t)) mid = true ->
        forallb (fun t => negb (is_filename t)) (pre ++ mid) = true ->
        _spec_str_format s = Ok None)
    /\ (forall pre u post,
           legacy_tokenize s = pre ++ u :: post ->
           is_unexpected u = true ->
           forallb (fun t => negb (is_filename t)) pre = true ->
           _spec_str_format s = Ok None).
Proof.
  intros s. split.
  - intros pre c1 mid c2 post E H1 H2 Hb Hf.
    rewrite forallb_app in Hf. apply andb_true_iff in Hf. destruct Hf as [Hpre Hmid].
    unfold _spec_str_format. rewrite E.
    rewrite for_tokens_app.
    destruct (@for_tokens_ok pre (mkLocals [] [] (-1) false) full_nil Hpre)
      as [-> | (l1 & -> & F1)]; [reflexivity|].
    simpl.
    assert (Hf1 : is_filename c1 = false).
    { unfold is_filename, is_compiler in *. destruct (kind c1); try discriminate; reflexivity. }
    destruct (@body_ok c1 l1 F1 Hf1) as [-> | (l2 & -> & F2 & _ & Hcomp)];
      [reflexivity|].
    destruct (Hcomp H1) as [_ I2].
    rewrite for_tokens_app.
    destruct (@for_tokens_same_node mid l2 F2 I2 Hmid Hb)
      as [-> | (l3 & -> & F3 & I3)]; [reflexivity|].
    simpl. rewrite (@body_second_compiler c2 l3 H2 I3). reflexivity.
  - intros pre u post E Hu Hpre.
    unfold _spec_str_format. rewrite E.
    rewrite for_tokens_app.
    destruct (@for_tokens_ok pre (mkLocals [] [] (-1) false) full_nil Hpre)
      as [-> | (l1 & -> & F1)]; [reflexivity|].
    simpl. rewrite (@body_unexpected u l1 Hu). reflexivity.
Qed.

(** C7, as stated, fails: ["foo %gcc +x ^bar %clang +y"] holds two distinct
    compiler clauses, one for [foo] and one for [bar], and the rewriter
    returns a rewritten string, with each clause moved to the end of its
    node. *)
Lemma C7_counterexample :
  map kind (filter is_compiler (legacy_tokenize "foo %gcc +x ^bar %clang +y"))
  = [COMPILER; COMPILER]
  /\ _spec_str_format "foo %gcc +x ^bar %clang +y"
     = Ok (Some "foo +x %gcc ^bar +y %clang").
Proof.
  split; vm_compute; reflexivity.
Qed.

(** The amended C7 on ["foo %gcc %clang"] and on ["foo $ %gcc"]. *)
Lemma C7_same_node_or_unexpected_witness :
  _spec_str_format "foo %gcc %clang" = Ok None
  /\ _spec_str_format "foo $ %gcc" = Ok None.
Proof.
  split.
  - destruct (C7_same_node_or_unexpected "foo %gcc %clang") as [H _].
    apply (H [mkToken UNQUALIFIED_PACKAGE_NAME "foo" 0 3 None;
              mkToken WS " " 3 4 None]
             (mkToken COMPILER "%gcc" 4 8 None)
             [mkToken WS " " 8 9 None]
             (mkToken COMPILER "%clang" 9 15 None)
             []); vm_compute; reflexivity.
  - destruct (C7_same_node_or_unexpected "foo $ %gcc") as [_ H].
    apply (H [mkToken UNQUALIFIED_PACKAGE_NAME "foo" 0 3 None;
              mkToken WS " " 3 4 None]
             (mkToken UNEXPECTED "$ " 4 6 None)
             [mkToken COMPILER "%gcc" 6 10 None]); vm_compute; reflexivity.
Defined.

End LegacyProps.

(** ** Quoting and unquoting *)

Module ReFacts.
Import Re.

Lemma skip_rest a b st : rest st = (a ++ b)%string -> rest (skip a st) = b.
Proof.
  revert st. induction a as [|c a IH]; intros st H; simpl; [exact H|].
  apply IH. simpl. rewrite H. reflexivity.
Qed.

Lemma skip_pos a st : pos (skip a st) = pos st + String.length a.
Proof.
  revert st. induction a as [|c a IH]; intros st; simpl; [lia|].
  rewrite IH. simpl. lia.
Qed.

Lemma skip_caps a st : caps (skip a st) = caps st.
Proof.
  revert st. induction a as [|c a IH]; intros st; simpl; [reflexivity|].
  rewrite IH. reflexivity.
Qed.

Lemma length_append (a b : string) :
  String.length (a ++ b) = String.length a + String.length b.
Proof. induction a; simpl; [reflexivity|rewrite IHa; reflexivity]. Qed.

(** A greedy loop over single characters goes as deep as the characters
    allow: what it finds after the prefix [a] is what it returns. *)
Lemma star_eat_prefix f k a b :
  forall n st m,
    all_chars f a = true -> rest st = (a ++ b)%string ->
    String.length (a ++ b) <= n ->
    star_loop (eat f) k (n - String.length a) (skip a st) = Some m ->
    star_loop (eat f) k n st = Some m.
Proof.
  induction a as [|c a IH]; intros n st m Ha Hr Hn H; simpl in *.
  - rewrite Nat.sub_0_r in H. exact H.
  - apply andb_true_iff in Ha. destruct Ha as [Hc Ha].
    destruct n as [|n]; [lia|]. simpl.
    unfold eat at 1. rewrite Hr, Hc. simpl.
    assert (L : (pos st <? S (pos st)) = true) by (apply Nat.ltb_lt; lia).
    rewrite L.
    rewrite (IH n _ m Ha); [reflexivity|reflexivity|lia|].
    simpl in H. rewrite Hr in H. simpl in H. exact H.
Qed.

(** At the end of what the loop can consume, it hands over to [k]. *)
Lemma star_eat_stop f k n st :
  match rest st with
  | EmptyString => True
  | String c _ => f c = false
  end ->
  star_loop (eat f) k n st = k st.
Proof.
  intros H. destruct n as [|n]; simpl; [reflexivity|].
  unfold eat. destruct (rest st) as [|c r]; [reflexivity|].
  rewrite H. reflexivity.
Qed.

(** One character before the end: the loop tries the end first and comes
    back when [k] fails there. *)
Lemma star_eat_last f k n st c :
  rest st = String c EmptyString -> 1 <= n ->
  k (MState (Some c) EmptyString (S (pos st)) (caps st)) = None ->
  star_loop (eat f) k n st = k st.
Proof.
  intros Hr Hn Hk. destruct n as [|n]; [lia|]. simpl.
  unfold eat at 1. rewrite Hr. destruct (f c); [|reflexivity].
  assert (L : (pos st <? S (pos st)) = true) by (apply Nat.ltb_lt; lia).
  cbn [pos]. rewrite L. rewrite star_eat_stop; [|exact I]. rewrite Hk. reflexivity.
Qed.


Lemma take_append a b : Py.take (String.length a) (a ++ b)%string = a.
Proof. induction a; simpl; [destruct b; reflexivity|rewrite IHa; reflexivity]. Qed.

Lemma strip_quotes_match q body :
  q = Pat.squote \/ q = Pat.dquote ->
  all_chars not_newline body = true ->
  exists m,
    match_ Pat.STRIP_QUOTES (String q (body ++ String q EmptyString)) = Some m
    /\ lookup "1" (caps m) = Some (String q EmptyString)
    /\ lookup "2" (caps m) = Some body.
Proof.
  intros Hq Hb.
  unfold match_, Pat.STRIP_QUOTES, Pat.cat. cbn [fold_right run pos Nat.eqb].
  unfold eat at 1. cbn [rest].
  assert (Hin : in_set [Ch Pat.squote; Ch Pat.dquote] q = true).
  { destruct Hq as [-> | ->]; reflexivity. }
  rewrite Hin. cbn [pos rest caps prev set_cap Nat.sub Py.take].
  change (fun (st : mstate) (k : mstate -> option mstate) =>
            eat (fun c : ascii => negb (Ascii.eqb c Py.newline)) st k)
    with (eat not_newline).
  match goal with
  | |- exists m, star_loop _ ?k _ ?s = _ /\ _ => set (K := k); set (st1 := s)
  end.
  assert (Hr : rest (skip body st1) = String q "") by (apply skip_rest; reflexivity).
  assert (Hp : pos (skip body st1) = 1 + String.length body) by (apply skip_pos).
  assert (Hc : caps (skip body st1) = [("1", String q "")]) by (apply skip_caps).
  assert (HK : K (skip body st1)
               = Some (MState (Some q) "" (S (1 + String.length body))
                              [("2", body); ("1", String q "")])).
  { unfold K. rewrite Hc, Hp. cbn [lookup String.eqb Ascii.eqb Bool.eqb].
    replace (1 + String.length body - 1) with (String.length body) by lia.
    rewrite take_append. cbn [eat_lit]. unfold eat, set_cap. cbn [rest].
    rewrite Hr, Hp, Hc. rewrite Ascii.eqb_refl. reflexivity. }
  eexists. split.
  { apply star_eat_prefix with (a := body) (b := String q ""); try assumption.
    - reflexivity.
    - unfold st1. cbn [rest set_cap]. lia.
    - rewrite star_eat_last with (c := q); [exact HK|exact Hr| |].
      + unfold st1. cbn [rest set_cap]. rewrite length_append. simpl. lia.
      + unfold K. cbn [caps pos lookup String.eqb Ascii.eqb Bool.eqb]. rewrite Hc.
        cbn [lookup String.eqb Ascii.eqb Bool.eqb eat_lit]. reflexivity. }
  split; reflexivity.
Qed.

Lemma strip_quotes_no_match c s :
  c <> Pat.squote -> c <> Pat.dquote ->
  match_ Pat.STRIP_QUOTES (String c s) = None.
Proof.
  intros H1 H2. unfold match_, Pat.STRIP_QUOTES, Pat.cat.
  cbn [fold_right run pos Nat.eqb]. unfold eat at 1. cbn [rest].
  assert (Hin : in_set [Ch Pat.squote; Ch Pat.dquote] c = false).
  { cbn [in_set existsb item_matches].
    destruct (Ascii.eqb_spec Pat.squote c) as [E|_]; [congruence|].
    destruct (Ascii.eqb_spec Pat.dquote c) as [E|_]; [congruence|].
    reflexivity. }
  rewrite Hin. reflexivity.
Qed.

Lemma safe_not_quote c :
  in_set Pat.safe_items c = true -> c <> Pat.squote /\ c <> Pat.dquote.
Proof.
  intros H. split; intros ->; vm_compute in H; discriminate.
Qed.

Lemma no_quotes_needed_first v m :
  match_ Pat.NO_QUOTES_NEEDED v = Some m ->
  exists c v', v = String c v' /\ in_set Pat.safe_items c = true.
Proof.
  unfold match_, Pat.NO_QUOTES_NEEDED, Pat.cat, Plus.
  cbn [fold_right run pos Nat.eqb]. unfold eat at 1. cbn [rest].
  destruct v as [|c v']; [discriminate|].
  destruct (in_set Pat.safe_items c) eqn:E; [|discriminate].
  intros _. exists c, v'. split; [reflexivity|exact E].
Qed.

Lemma strip_safe v m :
  match_ Pat.NO_QUOTES_NEEDED v = Some m -> strip_quotes_and_unescape v = v.
Proof.
  intros H. destruct (no_quotes_needed_first _ H) as (c & v' & -> & Hs).
  destruct (safe_not_quote _ Hs) as [H1 H2].
  unfold strip_quotes_and_unescape. rewrite (strip_quotes_no_match v' H1 H2).
  reflexivity.
Qed.


Lemma mem_char_contains c v :
  Py.contains (String c EmptyString) v = Py.mem_char c v.
Proof.
  induction v as [|a v IH]; simpl; [reflexivity|].
  rewrite IH. rewrite andb_true_r. rewrite Ascii.eqb_sym. reflexivity.
Qed.

Lemma replace_fuel_absent b q new n s :
  Py.mem_char q s = false ->
  Py.replace_fuel n (String b (String q EmptyString)) new s = s.
Proof.
  revert s. induction n as [|n IH]; intros s H; simpl; [reflexivity|].
  destruct s as [|c s]; [reflexivity|].
  simpl in H. apply orb_false_iff in H. destruct H as [Hc Hs].
  assert (E : (Ascii.eqb b c && match s with
                                | EmptyString => false
                                | String b0 s' => Ascii.eqb q b0 && true
                                end) = false).
  { destruct s as [|d s]; [apply andb_false_r|].
    simpl in Hs. apply orb_false_iff in Hs. destruct Hs as [Hd _].
    rewrite (Ascii.eqb_sym q d), Hd. simpl. apply andb_false_r. }
  rewrite E. rewrite IH; [reflexivity|exact Hs].
Qed.

Lemma json_escape_char_plain c :
  plain c = true ->
  json_escape_char c
  = if Ascii.eqb c Pat.dquote
    then String Pat.backslash (String Pat.dquote EmptyString)
    else String c EmptyString.
Proof.
  destruct c as [[] [] [] [] [] [] [] []]; intros H;
    first [discriminate H|reflexivity].
Qed.

Lemma json_escape_char_not_newline c :
  all_chars not_newline (json_escape_char c) = true.
Proof.
  destruct c as [[] [] [] [] [] [] [] []]; reflexivity.
Qed.

Lemma all_chars_append f a b :
  all_chars f (a ++ b) = all_chars f a && all_chars f b.
Proof.
  induction a as [|c a IH]; simpl; [reflexivity|].
  rewrite IH. apply andb_assoc.
Qed.

Lemma json_escape_not_newline v : all_chars not_newline (json_escape v) = true.
Proof.
  induction v as [|c v IH]; simpl; [reflexivity|].
  rewrite all_chars_append, json_escape_char_not_newline, IH. reflexivity.
Qed.

Lemma plain_not_backslash c : plain c = true -> Ascii.eqb Pat.backslash c = false.
Proof.
  unfold plain. intros H. apply andb_true_iff in H. destruct H as [_ H].
  rewrite Ascii.eqb_sym. apply negb_true_iff. exact H.
Qed.

Lemma replace_json_escape v :
  forall n,
    all_chars plain v = true -> String.length (json_escape v) <= n ->
    Py.replace_fuel n (String Pat.backslash (String Pat.dquote EmptyString))
                    (String Pat.dquote EmptyString) (json_escape v) = v.
Proof.
  induction v as [|c v IH]; intros n Hp Hn.
  - destruct n; reflexivity.
  - simpl in Hp. apply andb_true_iff in Hp. destruct Hp as [Hc Hp].
    simpl in Hn |- *. rewrite (json_escape_char_plain _ Hc) in Hn |- *.
    destruct (Ascii.eqb_spec c Pat.dquote) as [->|Hd].
    + simpl in Hn. destruct n as [|n]; [lia|].
      cbn [append Py.replace_fuel Py.starts_with String.length Py.drop].
      rewrite !Ascii.eqb_refl. cbn [andb append].
      rewrite IH; [reflexivity|exact Hp|lia].
    + simpl in Hn. destruct n as [|n]; [lia|].
      cbn [append Py.replace_fuel Py.starts_with].
      rewrite (plain_not_backslash _ Hc). cbn [andb].
      rewrite IH; [reflexivity|exact Hp|lia].
Qed.

End ReFacts.

(** C10, as stated, fails.  A value with a single quote and a backslash is
    put between double quotes by [json.dumps], which doubles the backslash,
    and stripping only turns escaped double quotes back.  A value with a
    blank and a newline is put between single quotes, and [STRIP_QUOTES],
    whose dot matches no newline, leaves the quotes on. *)
Lemma C10_counterexample :
  strip_quotes_and_unescape (quote_if_needed "a'\") = "a'\\"
  /\ strip_quotes_and_unescape (quote_if_needed "a'\") <> "a'\"
  /\ strip_quotes_and_unescape
       (quote_if_needed (String "a" (String " " (String Py.newline "b"))))
     <> String "a" (String " " (String Py.newline "b")).
Proof.
  split; [vm_compute; reflexivity|].
  split; vm_compute; discriminate.
Qed.

(** C10, amended.  Quoting a value and stripping the quotes gives the value
    back when the value needs no quotes, or holds no single quote and no
    newline, or holds a single quote and otherwise only printable ASCII
    characters other than the backslash. *)
Theorem C10_roundtrip :
  forall v, roundtrips v = true ->
            strip_quotes_and_unescape (quote_if_needed v) = v.
Proof.
  intros v. unfold roundtrips, quote_if_needed.
  destruct (Re.match_ Pat.NO_QUOTES_NEEDED v) as [m|] eqn:E.
  - intros _. apply (ReFacts.strip_safe _ E).
  - destruct (Py.contains "'" v) eqn:Q; intros H.
    + unfold json_dumps. cbn [append].
      destruct (@ReFacts.strip_quotes_match Pat.dquote (json_escape v) (or_intror eq_refl)
                  (ReFacts.json_escape_not_newline v)) as (m & Hm & H1 & H2).
      unfold strip_quotes_and_unescape. rewrite Hm, H1, H2.
      unfold Py.replace. apply ReFacts.replace_json_escape; [exact H|lia].
    + change ("'" ++ v ++ "'")%string
        with (String Pat.squote (v ++ String Pat.squote "")).
      destruct (@ReFacts.strip_quotes_match Pat.squote v (or_introl eq_refl) H)
        as (m & Hm & H1 & H2).
      unfold strip_quotes_and_unescape. rewrite Hm, H1, H2.
      unfold Py.replace. apply ReFacts.replace_fuel_absent.
      rewrite <- ReFacts.mem_char_contains. exact Q.
Qed.


(** The amended C10 on a value that gets single quotes and on one that gets
    double quotes. *)
Lemma C10_roundtrip_witness :
  strip_quotes_and_unescape (quote_if_needed "-O3 -g") = "-O3 -g"
  /\ strip_quotes_and_unescape (quote_if_needed "it's") = "it's".
Proof.
  split; apply C10_roundtrip; reflexivity.
Defined.

(** ** The tokenizer

    The matcher consumes what it reports; so the tokens of a text are
    consecutive non-empty pieces of it, and the underline of a tokenization
    error is as long as the text. *)

Module EngineFacts.
Import Re.

Lemma follows_refl st : follows 0 st st.
Proof. exists EmptyString. simpl. repeat split; lia. Qed.

Lemma append_assoc (a b c : string) : ((a ++ b) ++ c = a ++ (b ++ c))%string.
Proof. induction a; simpl; [reflexivity|rewrite IHa; reflexivity]. Qed.

Lemma follows_trans n1 n2 st1 st2 st3 :
  follows n1 st1 st2 -> follows n2 st2 st3 -> follows (n1 + n2) st1 st3.
Proof.
  intros (a & Ha & Pa & La) (b & Hb & Pb & Lb).
  exists (a ++ b)%string. rewrite Ha, Hb, append_assoc, ReFacts.length_append.
  repeat split; lia.
Qed.

Lemma follows_weaken n n' st st' : follows n st st' -> n' <= n -> follows n' st st'.
Proof. intros (a & Ha & Pa & La) H. exists a. repeat split; try assumption; lia. Qed.

Lemma eat_sound f : sound 1 (eat f).
Proof.
  intros st k m. unfold eat. destruct (rest st) as [|c r] eqn:E; [discriminate|].
  destruct (f c); [|discriminate]. intros H.
  eexists. split; [|exact H].
  exists (String c EmptyString). simpl. rewrite E. repeat split; lia.
Qed.

Lemma eat_lit_sound s : sound (String.length s) (eat_lit s).
Proof.
  induction s as [|c s IH]; intros st k m; simpl.
  - intros H. exists st. split; [apply follows_refl|exact H].
  - intros H. destruct (@eat_sound _ _ _ _ H) as (st1 & F1 & H1).
    destruct (IH _ _ _ H1) as (st2 & F2 & H2).
    exists st2. split; [|exact H2].
    apply (@follows_trans _ _ _ _ _ F1 F2).
Qed.

Lemma star_sound body n0 :
  sound n0 body -> forall n, sound 0 (fun st k => star_loop body k n st).
Proof.
  intros Hb n. induction n as [|n IH]; intros st k m; simpl.
  - intros H. exists st. split; [apply follows_refl|exact H].
  - destruct (body st _) as [m'|] eqn:E.
    + intros H. injection H as ->.
      destruct (Hb _ _ _ E) as (st1 & F1 & H1).
      destruct (pos st <? pos st1); [|discriminate].
      destruct (IH _ _ _ H1) as (st2 & F2 & H2).
      exists st2. split; [|exact H2].
      apply follows_weaken with (n := n0 + 0); [apply (@follows_trans _ _ _ _ _ F1 F2)|lia].
    + intros H. exists st. split; [apply follows_refl|exact H].
Qed.

Lemma rep_sound body n0 :
  sound n0 body -> forall n, sound (n * n0) (fun st k => rep_loop body k n st).
Proof.
  intros Hb n. induction n as [|n IH]; intros st k m; simpl.
  - intros H. exists st. split; [apply follows_refl|exact H].
  - intros H. destruct (Hb _ _ _ H) as (st1 & F1 & H1).
    destruct (IH _ _ _ H1) as (st2 & F2 & H2).
    exists st2. split; [|exact H2]. apply (@follows_trans _ _ _ _ _ F1 F2).
Qed.

Lemma follows_set_cap n st st1 name v :
  follows n st st1 -> follows n st (set_cap name v st1).
Proof. intros H. exact H. Qed.

Theorem run_sound r : sound (min_len r) (run r).
Proof.
  induction r; intros st k m; cbn [run min_len].
  - intros H. exists st. split; [apply follows_refl|exact H].
  - apply eat_lit_sound.
  - apply eat_sound.
  - apply eat_sound.
  - apply eat_sound.
  - intros H. destruct (IHr1 _ _ _ H) as (st1 & F1 & H1).
    destruct (IHr2 _ _ _ H1) as (st2 & F2 & H2).
    exists st2. split; [apply (@follows_trans _ _ _ _ _ F1 F2)|exact H2].
  - destruct (run r1 st k) as [m'|] eqn:E.
    + intros H. injection H as ->. destruct (IHr1 _ _ _ E) as (st1 & F1 & H1).
      exists st1. split; [|exact H1]. apply (@follows_weaken _ _ _ _ F1). apply Nat.le_min_l.
    + intros H. destruct (IHr2 _ _ _ H) as (st1 & F1 & H1).
      exists st1. split; [|exact H1]. apply (@follows_weaken _ _ _ _ F1). apply Nat.le_min_r.
  - apply (@star_sound (run r) (min_len r) IHr (String.length (rest st)) st k m).
  - apply (@rep_sound (run r) (min_len r) IHr n st k m).
  - intros H. destruct (IHr _ _ _ H) as (st1 & F1 & H1).
    eexists. split; [|exact H1]. exact F1.
  - destruct (lookup name (caps st)) as [v|]; [|discriminate].
    intros H. destruct (@eat_lit_sound _ _ _ _ H) as (st1 & F1 & H1).
    exists st1. split; [|exact H1]. apply (@follows_weaken _ _ _ _ F1). lia.
  - destruct (pos st =? 0); [|discriminate].
    intros H. exists st. split; [apply follows_refl|exact H].
  - destruct (at_eol st); [|discriminate].
    intros H. exists st. split; [apply follows_refl|exact H].
  - destruct (xorb _ _); [|discriminate].
    intros H. exists st. split; [apply follows_refl|exact H].
  - destruct (prev st) as [a|]; [|discriminate].
    destruct (Ascii.eqb a c); [|discriminate].
    intros H. exists st. split; [apply follows_refl|exact H].
  - destruct (run r st _); [discriminate|].
    intros H. exists st. split; [apply follows_refl|exact H].
Qed.


Lemma star_loop_total body k n st :
  (forall st', k st' <> None) -> star_loop body k n st <> None.
Proof.
  intros Hk. destruct n as [|n]; simpl; [apply Hk|].
  destruct (body st _); [discriminate|apply Hk].
Qed.

End EngineFacts.

Module TokenizerFacts.
Import Re EngineFacts.
Section Tiling.
Variable K : Type.
Variable members : list K.
Variable regex_of : K -> regex.
Hypothesis members_consume : forall k, In k members -> 1 <= min_len (regex_of k).
Hypothesis members_cover :
  forall st, rest st <> EmptyString ->
             Tokenizer.first_match regex_of members st <> None.

Lemma first_match_follows ks st k m :
  (forall k, In k ks -> 1 <= min_len (regex_of k)) ->
  Tokenizer.first_match regex_of ks st = Some (k, m) ->
  follows 1 st m.
Proof.
  intros Hks. induction ks as [|k0 ks IH]; simpl; [discriminate|].
  destruct (run (regex_of k0) (Tokenizer.at_offset st) _) as [m0|] eqn:E.
  - intros H. injection H as <- <-.
    destruct (@run_sound _ _ _ _ E) as (st' & F & H').
    injection H' as ->.
    apply (@follows_weaken _ 1 _ _ F). apply Hks. left. reflexivity.
  - apply IH. intros k1 H1. apply Hks. right. exact H1.
Qed.

Lemma scan_tiles n st :
  String.length (rest st) <= n ->
  tiles (pos st) (rest st) (Tokenizer.scan members regex_of n st).
Proof.
  revert st. induction n as [|n IH]; intros st Hn; simpl.
  - destruct (rest st); [reflexivity|simpl in Hn; lia].
  - destruct (Tokenizer.first_match regex_of members st) as [[k m]|] eqn:E.
    + destruct (@first_match_follows members st k m members_consume E)
        as (a & Ha & Pa & La).
      assert (Hv : Py.take (pos m - pos st) (rest st) = a).
      { rewrite Ha, Pa. replace (pos st + String.length a - pos st)
          with (String.length a) by lia. apply ReFacts.take_append. }
      cbn [tiles Tokenizer.make_token start end_ value]. rewrite Hv.
      split; [reflexivity|]. split; [exact Pa|]. split; [exact La|].
      exists (rest m). split; [exact Ha|].
      assert (L : (pos st <? pos m) = true) by (apply Nat.ltb_lt; lia).
      rewrite L. apply IH.
      rewrite Ha, ReFacts.length_append in Hn. lia.
    + destruct (rest st) eqn:R; [reflexivity|].
      exfalso. apply (members_cover st); [rewrite R; discriminate|exact E].
Qed.

Theorem tokenize_tiles text :
  tiles 0 text (Tokenizer.tokenize members regex_of text).
Proof.
  unfold Tokenizer.tokenize. destruct text as [|c text]; [reflexivity|].
  apply (@scan_tiles (String.length (String c text)) (MState None (String c text) 0 [])). simpl. lia.
Qed.

End Tiling.

Lemma first_match_In {K} (regex_of : K -> regex) ks k st :
  In k ks -> run (regex_of k) (Tokenizer.at_offset st) (fun m => Some m) <> None ->
  Tokenizer.first_match regex_of ks st <> None.
Proof.
  induction ks as [|k0 ks IH]; simpl; [intros []|].
  intros [-> | Hin] H.
  - destruct (run (regex_of k) (Tokenizer.at_offset st) _); [discriminate|congruence].
  - destruct (run (regex_of k0) (Tokenizer.at_offset st) _); [discriminate|].
    apply IH; assumption.
Qed.

(** Whitespace, or else one unexpected character, matches wherever there is
    text left. *)
Lemma ws_or_unexpected st :
  rest st <> EmptyString ->
  run (SpecTokens_regex WS) st (fun m => Some m) <> None
  \/ run (SpecTokens_regex UNEXPECTED) st (fun m => Some m) <> None.
Proof.
  intros H. destruct (rest st) as [|c r] eqn:R; [congruence|].
  destruct (Py.is_space c) eqn:S.
  - left. cbn [SpecTokens_regex Plus run]. unfold eat at 1. rewrite R.
    cbn [in_set existsb item_matches]. rewrite S. cbn [orb].
    apply star_loop_total. discriminate.
  - right. cbn [SpecTokens_regex run]. unfold eat at 1. rewrite R.
    assert (N : negb (Ascii.eqb c Py.newline) = true).
    { apply negb_true_iff. destruct (Ascii.eqb_spec c Py.newline) as [->|]; [|reflexivity].
      vm_compute in S. discriminate. }
    rewrite N. apply star_loop_total. discriminate.
Qed.

Lemma SpecTokens_cover st :
  rest st <> EmptyString ->
  Tokenizer.first_match SpecTokens_regex SpecTokens_members st <> None.
Proof.
  intros H.
  destruct (@ws_or_unexpected (Tokenizer.at_offset st) H) as [W | U].
  - apply (@first_match_In _ SpecTokens_regex _ WS); [|exact W].
    unfold SpecTokens_members. simpl. tauto.
  - apply (@first_match_In _ SpecTokens_regex _ UNEXPECTED); [|exact U].
    unfold SpecTokens_members. simpl. tauto.
Qed.

Lemma SpecTokens_consume k : In k SpecTokens_members -> 1 <= min_len (SpecTokens_regex k).
Proof. intros _. destruct k; vm_compute; lia. Qed.

Lemma Legacy_cover st :
  rest st <> EmptyString ->
  Tokenizer.first_match Legacy.regex_of Legacy.members st <> None.
Proof.
  intros H.
  destruct (@ws_or_unexpected (Tokenizer.at_offset st) H) as [W | U].
  - apply (@first_match_In _ Legacy.regex_of _ Legacy.WS); [|exact W].
    unfold Legacy.members. simpl. tauto.
  - apply (@first_match_In _ Legacy.regex_of _ Legacy.UNEXPECTED); [|exact U].
    unfold Legacy.members. simpl. tauto.
Qed.

Lemma Legacy_consume k : In k Legacy.members -> 1 <= min_len (Legacy.regex_of k).
Proof. intros _. destruct k; vm_compute; lia. Qed.

Theorem SPEC_TOKENIZER_tiles text : tiles 0 text (SPEC_TOKENIZER_tokenize text).
Proof. apply tokenize_tiles; [apply SpecTokens_consume|apply SpecTokens_cover]. Qed.

Theorem legacy_tokenize_tiles text : tiles 0 text (Legacy.legacy_tokenize text).
Proof. apply tokenize_tiles; [apply Legacy_consume|apply Legacy_cover]. Qed.

End TokenizerFacts.

Module UnderlineFacts.

Lemma marks_ext f g n : forall p,
  (forall i, p <= i < p + n -> f i = g i) -> marks f p n = marks g p n.
Proof.
  induction n as [|n IH]; intros p H; simpl; [reflexivity|].
  rewrite (H p) by lia. f_equal. apply IH. intros i Hi. apply H. lia.
Qed.

Lemma marks_const b n : forall p,
  marks (fun _ => b) p n = Py.repeat_char (if b then "^" else " ")%char n.
Proof. induction n as [|n IH]; intros p; simpl; [reflexivity|]. f_equal. apply IH. Qed.

Lemma marks_app f n m : forall p,
  marks f p (n + m) = (marks f p n ++ marks f (p + n) m)%string.
Proof.
  induction n as [|n IH]; intros p; simpl.
  - rewrite Nat.add_0_r. reflexivity.
  - f_equal. rewrite IH. do 2 f_equal. lia.
Qed.

Lemma span_before ts : forall q s i,
  tiles q s ts -> i < q -> in_unexpected_span ts i = false.
Proof.
  induction ts as [|t ts IH]; intros q s i T Hi; simpl; [reflexivity|].
  destruct T as (Hs & He & Hl & s' & _ & T').
  assert (L : (start t <=? i) = false) by (apply Nat.leb_gt; lia).
  rewrite L, andb_false_r. simpl.
  apply (IH (end_ t) s' i T'). lia.
Qed.

Lemma underline_tiles ts : forall p s,
  tiles p s ts ->
  underline_of ts = marks (in_unexpected_span ts) p (String.length s).
Proof.
  induction ts as [|t ts IH]; intros p s T.
  - simpl in T. subst s. reflexivity.
  - destruct T as (Hs & He & Hl & s' & -> & T').
    cbn [underline_of]. rewrite ReFacts.length_append, marks_app.
    replace (end_ t - start t) with (String.length (value t)) by lia.
    f_equal.
    + rewrite <- (marks_const (SpecTokens_eqb (kind t) UNEXPECTED)
                              (String.length (value t)) p).
      apply marks_ext. intros i Hi.
      change (in_unexpected_span (t :: ts) i)
        with (unexpected_kind t && (start t <=? i) && (i <? end_ t)
              || in_unexpected_span ts i).
      rewrite (@span_before ts (end_ t) s' i T') by lia. unfold unexpected_kind.
      assert (L1 : (start t <=? i) = true) by (apply Nat.leb_le; lia).
      assert (L2 : (i <? end_ t) = true) by (apply Nat.ltb_lt; lia).
      rewrite L1, L2, !andb_true_r, orb_false_r. reflexivity.
    + rewrite (IH (end_ t) s' T'). rewrite He.
      apply marks_ext. intros i Hi.
      change (in_unexpected_span (t :: ts) i)
        with (unexpected_kind t && (start t <=? i) && (i <? end_ t)
              || in_unexpected_span ts i).
      assert (L2 : (i <? end_ t) = false) by (apply Nat.ltb_ge; lia).
      rewrite L2, andb_false_r. reflexivity.
Qed.

End UnderlineFacts.


Lemma tokenize_from_spec {C : Collaborators} text raw :
  tokenize_from text raw =
  if existsb unexpected_kind raw
  then Raise (SpecTokenizationError (SPEC_TOKENIZER_tokenize text) text)
  else Ok raw.
Proof.
  induction raw as [|t raw IH]; simpl; [reflexivity|].
  unfold unexpected_kind at 1.
  destruct (SpecTokens_eqb (kind t) UNEXPECTED); simpl; [reflexivity|].
  rewrite IH. destruct (existsb unexpected_kind raw); reflexivity.
Qed.

(** C5.  The tokenizer is a total function, and its tokens cut the text
    into consecutive non-empty pieces, whatever the text.  [tokenize], run
    to its end, raises the tokenization error exactly when one of these
    tokens is of the unexpected kind, and yields them all otherwise.  The
    underline in the message of the error is as long as the text and has a
    caret exactly at the offsets inside an unexpected token, a blank
    elsewhere. *)
Theorem C5_tokenization :
  forall (C : Collaborators) text,
  let raw := SPEC_TOKENIZER_tokenize text in
  tiles 0 text raw
  /\ list_tokenize text =
       (if existsb unexpected_kind raw
        then Raise (SpecTokenizationError raw text) else Ok raw)
  /\ exn_str (SpecTokenizationError raw text) =
       ("unexpected characters in the spec string" ++ nl ++ text ++ nl
        ++ colorize ("@*r{" ++ marks (in_unexpected_span raw) 0 (String.length text)
                      ++ "}"))%string.
Proof.
  intros C text raw. pose proof (TokenizerFacts.SPEC_TOKENIZER_tiles text) as T.
  split; [exact T|]. split; [apply tokenize_from_spec|].
  cbn [exn_str]. unfold SpecTokenizationError_message.
  fold raw in T. rewrite (@UnderlineFacts.underline_tiles raw 0 text T). reflexivity.
Qed.

(** ** The legacy rewriter and the compiler clause *)

Module LegacyRewrite.
Import Legacy.

Lemma values_app a b : values (a ++ b) = (values a ++ values b)%string.
Proof.
  induction a as [|t a IH]; simpl; [reflexivity|].
  rewrite IH. symmetry. apply EngineFacts.append_assoc.
Qed.

Lemma values_tiles ts : forall p s, tiles p s ts -> values ts = s.
Proof.
  induction ts as [|t ts IH]; intros p s T; simpl in *.
  - symmetry. exact T.
  - destruct T as (_ & _ & _ & s' & -> & T'). rewrite (IH _ _ T'). reflexivity.
Qed.

Lemma values_tokenize s : values (legacy_tokenize s) = s.
Proof. apply (@values_tiles _ 0 s). apply TokenizerFacts.legacy_tokenize_tiles. Qed.

Lemma concat_closing l :
  List.concat (closing l) = List.concat (blocks l) ++ current_block l.
Proof.
  unfold closing. destruct (current_block l) as [|t cb].
  - rewrite app_nil_r. reflexivity.
  - rewrite concat_app. simpl. rewrite app_nil_r. reflexivity.
Qed.

(** The end of [_spec_str_format], once the loop is through. *)
Lemma finish s l bs :
  for_tokens (legacy_tokenize s) (mkLocals [] [] (-1) false) = Next l ->
  _spec_str_reorder_compiler (compiler_block_idx l) (closing l) = Ok bs ->
  _spec_str_format s = Ok (changed s (values (List.concat bs))).
Proof.
  intros H R. unfold _spec_str_format. rewrite H.
  change (match current_block l with
          | [] => blocks l
          | _ :: _ => blocks l ++ [current_block l]
          end) with (closing l).
  rewrite R. reflexivity.
Qed.

Lemma changed_same s : changed s s = None.
Proof. unfold changed. rewrite String.eqb_refl. reflexivity. Qed.

Lemma reorder_none bs : _spec_str_reorder_compiler (-1) bs = Ok bs.
Proof. reflexivity. Qed.

(** *** Tokens that leave the compiler clause alone *)

Lemma body_ws t l :
  is_ws t = true ->
  body t l = Next (mkLocals (current_block l ++ [t]) (blocks l)
                            (compiler_block_idx l) (in_edge_attr l)).
Proof.
  unfold is_ws, body. destruct (kind t); try discriminate.
  intros _. destruct (in_edge_attr l); reflexivity.
Qed.

Lemma for_tokens_ws ws : forall l,
  forallb is_ws ws = true ->
  for_tokens ws l = Next (mkLocals (current_block l ++ ws) (blocks l)
                                   (compiler_block_idx l) (in_edge_attr l)).
Proof.
  induction ws as [|t ws IH]; intros l H; simpl.
  - rewrite app_nil_r. destruct l; reflexivity.
  - simpl in H. apply andb_true_iff in H. destruct H as [Ht H].
    rewrite (@body_ws t l Ht). rewrite (IH _ H). simpl.
    rewrite <- app_assoc. reflexivity.
Qed.

Lemma concat_snoc (bs : list (list tok)) cb :
  List.concat (bs ++ [cb]) = List.concat bs ++ cb.
Proof. rewrite concat_app. simpl. rewrite app_nil_r. reflexivity. Qed.

Lemma body_ordinary t l :
  ordinary t = true -> compiler_block_idx l = (-1)%Z ->
  exists l', body t l = Next l'
             /\ compiler_block_idx l' = (-1)%Z
             /\ List.concat (blocks l') ++ current_block l'
                = (List.concat (blocks l) ++ current_block l) ++ [t]
             /\ in_edge_attr l' = attr_open [t] (in_edge_attr l)
             /\ (is_ws t = false -> in_edge_attr l' = false ->
                 current_block l' = []).
Proof.
  unfold ordinary, is_compiler, is_filename, is_unexpected, is_ws, body.
  intros O I. rewrite I. cbn [attr_open].
  destruct (kind t) eqn:K; try discriminate O.
  all: try rewrite reorder_none.
  all: destruct (in_edge_attr l) eqn:A.
  all: eexists; split; [reflexivity|]; cbn [close_block compiler_block_idx
         blocks current_block in_edge_attr].
  all: rewrite ?concat_snoc, ?app_nil_r, ?app_assoc.
  all: repeat split; try reflexivity; try assumption; try discriminate.
Qed.

Lemma attr_open_app a b x : attr_open (a ++ b) x = attr_open b (attr_open a x).
Proof. revert x. induction a as [|t a IH]; intros x; simpl; [reflexivity|apply IH]. Qed.

Lemma for_tokens_ordinary ts : forall l,
  forallb ordinary ts = true -> compiler_block_idx l = (-1)%Z ->
  exists l', for_tokens ts l = Next l'
             /\ compiler_block_idx l' = (-1)%Z
             /\ List.concat (blocks l') ++ current_block l'
                = (List.concat (blocks l) ++ current_block l) ++ ts
             /\ in_edge_attr l' = attr_open ts (in_edge_attr l).
Proof.
  induction ts as [|t ts IH]; intros l H I.
  - exists l. simpl. rewrite app_nil_r. repeat split; assumption.
  - simpl in H. apply andb_true_iff in H. destruct H as [Ht H].
    destruct (@body_ordinary t l Ht I) as (l1 & B & I1 & C1 & A1 & _).
    destruct (IH l1 H I1) as (l2 & F & I2 & C2 & A2).
    exists l2. simpl for_tokens. rewrite B.
    split; [exact F|]. split; [exact I2|]. split.
    + rewrite C2, C1, <- app_assoc. reflexivity.
    + rewrite A2, A1. reflexivity.
Qed.

(** No compiler clause and no filename: an unexpected token apart, the loop
    goes through and nothing moves. *)
Lemma for_tokens_no_compiler ts : forall l,
  forallb (fun t => negb (is_compiler t) && negb (is_filename t)) ts = true ->
  compiler_block_idx l = (-1)%Z ->
  for_tokens ts l = Return_None
  \/ exists l', for_tokens ts l = Next l'
                /\ compiler_block_idx l' = (-1)%Z
                /\ List.concat (blocks l') ++ current_block l'
                   = (List.concat (blocks l) ++ current_block l) ++ ts.
Proof.
  induction ts as [|t ts IH]; intros l H I.
  - right. exists l. simpl. rewrite app_nil_r. repeat split; assumption.
  - simpl in H. apply andb_true_iff in H. destruct H as [Ht H].
    simpl for_tokens.
    destruct (is_unexpected t) eqn:U.
    + left. rewrite (@LegacyProps.body_unexpected t l U). reflexivity.
    + assert (O : ordinary t = true) by (unfold ordinary; rewrite Ht, U; reflexivity).
      destruct (@body_ordinary t l O I) as (l1 & B & I1 & C1 & _).
      rewrite B. destruct (IH l1 H I1) as [F | (l2 & F & I2 & C2)].
      * left. exact F.
      * right. exists l2. split; [exact F|]. split; [exact I2|].
        rewrite C2, C1, <- app_assoc. reflexivity.
Qed.

Lemma no_compiler_no_change s :
  forallb (fun t => negb (is_compiler t) && negb (is_filename t))
          (legacy_tokenize s) = true ->
  _spec_str_format s = Ok None.
Proof.
  intros H.
  destruct (@for_tokens_no_compiler (legacy_tokenize s) (mkLocals [] [] (-1) false)
              H eq_refl) as [F | (l & F & I & C)].
  - unfold _spec_str_format. rewrite F. reflexivity.
  - rewrite (@finish s l (closing l) F).
    + rewrite concat_closing, C. simpl. rewrite values_tokenize, changed_same.
      reflexivity.
    + rewrite I. apply reorder_none.
Qed.

(** *** A filename token *)

Lemma body_filename f l :
  is_filename f = true -> in_edge_attr l = false ->
  body f l = Throw (ValueError_unexpected_token f).
Proof.
  unfold is_filename, body. destruct (kind f); try discriminate.
  intros _ ->. reflexivity.
Qed.

Lemma filename_raises s pre f post :
  legacy_tokenize s = pre ++ f :: post ->
  forallb ordinary pre = true -> attr_open pre false = false ->
  is_filename f = true ->
  _spec_str_format s = Raise (ValueError_unexpected_token f).
Proof.
  intros E O A Hf. unfold _spec_str_format. rewrite E, LegacyProps.for_tokens_app.
  destruct (@for_tokens_ordinary pre (mkLocals [] [] (-1) false) O eq_refl)
    as (l & -> & _ & _ & A1).
  simpl in A1. rewrite A in A1.
  simpl for_tokens. rewrite (@body_filename f l Hf A1). reflexivity.
Qed.


(** *** The compiler clause *)

Ltac same_list :=
  rewrite <- ?app_assoc; cbn [app]; rewrite <- ?app_assoc; cbn [app];
  reflexivity.

Lemma skipn_mid {A} (B : list A) cb X : skipn (S (List.length B)) (B ++ cb :: X) = X.
Proof. induction B as [|b B IH]; [reflexivity|exact IH]. Qed.

Lemma firstn_mid {A} (B : list A) cb X : firstn (List.length B) (B ++ cb :: X) = B.
Proof. induction B as [|b B IH]; simpl; [reflexivity|rewrite IH; reflexivity]. Qed.

Lemma nth_mid {A} (B : list A) cb X d : nth (List.length B) (B ++ cb :: X) d = cb.
Proof. induction B as [|b B IH]; [reflexivity|exact IH]. Qed.

(** [_spec_str_reorder_compiler] at the block [cb], with the blocks [B]
    before it and [X] after it. *)
Lemma reorder_at B cb X :
  _spec_str_reorder_compiler (Z.of_nat (List.length B)) (B ++ cb :: X)
  = if forallb (forallb is_ws) X then Ok (B ++ cb :: X)
    else match cb with
         | [] => Raise IndexError
         | t :: _ =>
             let cb' := if negb (is_ws t) then mkToken WS " " 0 0 None :: cb
                        else cb in
             match B with
             | [] => match X with
                     | [] => Raise IndexError
                     | b :: rest =>
                         match drop_leading_ws b with
                         | Ok b' => Ok ((b' :: rest) ++ [cb'])
                         | Raise e => Raise e
                         end
                     end
             | _ => Ok ((B ++ X) ++ [cb'])
             end
         end.
Proof.
  unfold _spec_str_reorder_compiler.
  rewrite Nat2Z.id, Nat.add_1_r, skipn_mid, firstn_mid, nth_mid.
  destruct X as [|x X].
  - simpl forallb.
    replace (Z.of_nat (List.length B) <? Z.of_nat (List.length (B ++ [cb])) - 1)%Z
      with false.
    + rewrite andb_false_r. reflexivity.
    + symmetry. apply Z.ltb_ge. rewrite length_app. simpl. lia.
  - replace (Z.of_nat (List.length B)
             <? Z.of_nat (List.length (B ++ cb :: x :: X)) - 1)%Z with true.
    2:{ symmetry. apply Z.ltb_lt. rewrite length_app. simpl. lia. }
    replace (0 <=? Z.of_nat (List.length B))%Z with true.
    2:{ symmetry. apply Z.leb_le. lia. }
    cbn [andb negb].
    destruct (forallb (forallb is_ws) (x :: X)); [reflexivity|].
    destruct cb as [|t cb]; [reflexivity|].
    destruct B as [|b0 B]; [reflexivity|].
    replace (Z.of_nat (List.length (b0 :: B)) =? 0)%Z with false.
    + reflexivity.
    + symmetry. apply Z.eqb_neq. simpl List.length. lia.
Qed.

Lemma body_compiler c l :
  is_compiler c = true -> compiler_block_idx l = (-1)%Z ->
  body c l = Next (close_block c l (Z.of_nat (List.length (blocks l)))
                               (in_edge_attr l)).
Proof.
  unfold is_compiler, body. intros Hc I. rewrite I.
  replace (Z.of_nat (List.length (blocks l) + 1) - 1)%Z
    with (Z.of_nat (List.length (blocks l))) by lia.
  destruct (kind c); try discriminate; reflexivity.
Qed.

Lemma body_boundary b l bs :
  is_boundary b = true ->
  _spec_str_reorder_compiler (compiler_block_idx l) (blocks l) = Ok bs ->
  body b l = Next (mkLocals [] (bs ++ [current_block l ++ [b]]) (-1)
                            (attr_open [b] (in_edge_attr l))).
Proof.
  unfold is_boundary, body. intros Hb R. rewrite R. cbn [attr_open].
  destruct (kind b); try discriminate; reflexivity.
Qed.

Lemma is_compiler_not_ws c : is_compiler c = true -> is_ws c = false.
Proof. unfold is_compiler, is_ws. destruct (kind c); try discriminate; reflexivity. Qed.

Lemma is_boundary_ordinary b : is_boundary b = true -> ordinary b = true.
Proof.
  unfold is_boundary, ordinary, is_compiler, is_filename, is_unexpected.
  destruct (kind b); try discriminate; reflexivity.
Qed.

(** The compiler clause is the last of its node already: whitespace apart,
    the string or the next node follows. *)
Lemma compiler_last_no_change s pre c wt rest :
  legacy_tokenize s = pre ++ c :: wt ++ rest ->
  forallb ordinary pre = true -> is_compiler c = true ->
  forallb is_ws wt = true ->
  match rest with [] => true | b :: _ => is_boundary b end = true ->
  forallb ordinary rest = true ->
  _spec_str_format s = Ok None.
Proof.
  intros E Op Hc Hw Hb Or.
  pose proof (values_tokenize s) as V. rewrite E in V.
  destruct (@for_tokens_ordinary pre (mkLocals [] [] (-1) false) Op eq_refl)
    as (l1 & F1 & I1 & C1 & _).
  simpl in C1.
  assert (F3 : for_tokens (pre ++ c :: wt) (mkLocals [] [] (-1) false)
               = Next (mkLocals wt (blocks l1 ++ [current_block l1 ++ [c]])
                                (Z.of_nat (List.length (blocks l1)))
                                (in_edge_attr l1))).
  { rewrite LegacyProps.for_tokens_app, F1. simpl for_tokens.
    rewrite (@body_compiler c l1 Hc I1).
    rewrite (@for_tokens_ws wt _ Hw). reflexivity. }
  destruct rest as [|b rest].
  - rewrite app_nil_r in E, V.
    rewrite <- E in F3.
    rewrite (@finish s _ (closing (mkLocals wt (blocks l1 ++ [current_block l1 ++ [c]])
                                (Z.of_nat (List.length (blocks l1)))
                                (in_edge_attr l1))) F3).
    + rewrite concat_closing. cbn [blocks current_block].
      rewrite concat_snoc, (app_assoc (List.concat (blocks l1))), C1.
      replace ((pre ++ [c]) ++ wt) with (pre ++ c :: wt)
        by same_list.
      rewrite V, changed_same. reflexivity.
    + cbn [compiler_block_idx]. unfold closing. cbn [blocks current_block].
      destruct wt as [|w wt].
      * rewrite reorder_at. reflexivity.
      * rewrite <- app_assoc. cbn [app]. rewrite reorder_at.
        change (forallb (forallb is_ws) [w :: wt])
          with (forallb is_ws (w :: wt) && true).
        rewrite Hw. reflexivity.
  - simpl in Or. apply andb_true_iff in Or. destruct Or as [_ Or].
    assert (F4 : for_tokens (pre ++ c :: wt ++ [b]) (mkLocals [] [] (-1) false)
                 = Next (mkLocals [] ((blocks l1 ++ [current_block l1 ++ [c]])
                                       ++ [wt ++ [b]]) (-1)
                                  (attr_open [b] (in_edge_attr l1)))).
    { replace (pre ++ c :: wt ++ [b]) with ((pre ++ c :: wt) ++ [b])
        by same_list.
      rewrite LegacyProps.for_tokens_app, F3. simpl for_tokens.
      rewrite (@body_boundary b _ (blocks l1 ++ [current_block l1 ++ [c]]) Hb);
        [reflexivity|].
      cbn [compiler_block_idx blocks]. rewrite reorder_at. reflexivity. }
    destruct (@for_tokens_ordinary rest _ Or
                (eq_refl : compiler_block_idx
                             (mkLocals [] ((blocks l1 ++ [current_block l1 ++ [c]])
                                            ++ [wt ++ [b]]) (-1)
                                       (attr_open [b] (in_edge_attr l1)))
                           = (-1)%Z))
      as (l5 & F5 & I5 & C5 & _).
    cbn [blocks current_block] in C5.
    assert (F : for_tokens (legacy_tokenize s) (mkLocals [] [] (-1) false) = Next l5).
    { rewrite E.
      replace (pre ++ c :: wt ++ b :: rest) with ((pre ++ c :: wt ++ [b]) ++ rest)
        by same_list.
      rewrite LegacyProps.for_tokens_app, F4. exact F5. }
    rewrite (@finish s l5 (closing l5) F).
    + rewrite concat_closing, C5, !concat_snoc, app_nil_r,
        (app_assoc (List.concat (blocks l1))), C1.
      replace ((((pre ++ [c]) ++ wt ++ [b])) ++ rest) with (pre ++ c :: wt ++ b :: rest)
        by same_list.
      rewrite V, changed_same. reflexivity.
    + rewrite I5. apply reorder_none.
Qed.


(** *** Moving the compiler clause *)

Lemma rev_cons_inv {A} (ts : list A) t r : rev ts = t :: r -> ts = rev r ++ [t].
Proof. intros H. rewrite <- (rev_involutive ts), H. reflexivity. Qed.

Lemma after_closed pre0 :
  forallb ordinary pre0 = true -> attr_open pre0 false = false ->
  ends_closed pre0 = true ->
  exists B0, for_tokens pre0 (mkLocals [] [] (-1) false)
             = Next (mkLocals [] B0 (-1) false)
             /\ List.concat B0 = pre0 /\ (pre0 = [] -> B0 = []).
Proof.
  intros O A Cl. unfold ends_closed in Cl.
  destruct (rev pre0) as [|t r] eqn:R.
  - destruct pre0 as [|t0 pre0]; [exists []; repeat split; reflexivity|].
    apply (f_equal (@List.length _)) in R. rewrite length_rev in R. discriminate.
  - apply rev_cons_inv in R. subst pre0.
    rewrite forallb_app in O. apply andb_true_iff in O. destruct O as [O Ot].
    simpl in Ot. rewrite andb_true_r in Ot.
    destruct (@for_tokens_ordinary (rev r) (mkLocals [] [] (-1) false) O eq_refl)
      as (l1 & F1 & I1 & C1 & A1).
    destruct (@body_ordinary t l1 Ot I1) as (l2 & B2 & I2 & C2 & A2 & Cur).
    rewrite attr_open_app in A. cbn [in_edge_attr] in A1. rewrite <- A1, <- A2 in A.
    apply negb_true_iff in Cl. specialize (Cur Cl A).
    exists (blocks l2). rewrite LegacyProps.for_tokens_app, F1.
    simpl for_tokens. rewrite B2. split; [|split].
    + destruct l2; simpl in *. subst. reflexivity.
    + rewrite Cur, app_nil_r in C2. rewrite C2, C1. reflexivity.
    + intros N. destruct (rev r); discriminate.
Qed.

Lemma body_clause t l :
  is_clause t = true -> in_edge_attr l = false ->
  body t l = Next (close_block t l (compiler_block_idx l) false).
Proof.
  unfold is_clause, body. intros Ht A. rewrite A.
  destruct (kind t); try discriminate; reflexivity.
Qed.

Lemma is_clause_not_ws t : is_clause t = true -> is_ws t = false.
Proof. unfold is_clause, is_ws. destruct (kind t); try discriminate; reflexivity. Qed.

(** Clauses and whitespace after the compiler clause: each clause closes a
    block, the whitespace before it in front. *)
Lemma post_loop ts : forall l,
  forallb (fun t => is_clause t || is_ws t) ts = true ->
  in_edge_attr l = false ->
  exists Bp cur,
    for_tokens ts l = Next (mkLocals cur (blocks l ++ Bp) (compiler_block_idx l) false)
    /\ List.concat Bp ++ cur = current_block l ++ ts
    /\ full Bp.
Proof.
  induction ts as [|t ts IH]; intros l H A.
  - exists [], (current_block l). simpl. rewrite !app_nil_r.
    split; [destruct l; simpl in *; subst; reflexivity|].
    split; [reflexivity|constructor].
  - simpl in H. apply andb_true_iff in H. destruct H as [Ht H].
    simpl for_tokens. destruct (is_clause t) eqn:Ct.
    + rewrite (@body_clause t l Ct A).
      destruct (IH (close_block t l (compiler_block_idx l) false) H eq_refl)
        as (Bp & cur & F & C & Fu).
      exists ((current_block l ++ [t]) :: Bp), cur.
      rewrite F. unfold close_block in *; cbn [blocks compiler_block_idx current_block] in *.
      split; [rewrite <- app_assoc; reflexivity|]. split.
      * cbn [List.concat]. rewrite <- !app_assoc. rewrite C. reflexivity.
      * constructor; [|exact Fu].
        apply LegacyProps.has_token_app_r. apply is_clause_not_ws. exact Ct.
    + simpl in Ht. rewrite (@body_ws t l Ht).
      destruct (IH (mkLocals (current_block l ++ [t]) (blocks l)
                             (compiler_block_idx l) (in_edge_attr l)) H A)
        as (Bp & cur & F & C & Fu).
      exists Bp, cur. rewrite F.
      cbn [blocks compiler_block_idx current_block] in *.
      split; [reflexivity|]. split; [|exact Fu].
      rewrite C, <- app_assoc. reflexivity.
Qed.

Lemma post_closed ts l :
  forallb (fun t => is_clause t || is_ws t) ts = true ->
  ends_with is_clause ts = true ->
  in_edge_attr l = false ->
  exists b Bp,
    for_tokens ts l
    = Next (mkLocals [] (blocks l ++ b :: Bp) (compiler_block_idx l) false)
    /\ List.concat (b :: Bp) = current_block l ++ ts
    /\ full (b :: Bp).
Proof.
  intros H E A. unfold ends_with in E.
  destruct (rev ts) as [|t r] eqn:R; [discriminate|].
  apply rev_cons_inv in R. subst ts.
  rewrite forallb_app in H. apply andb_true_iff in H. destruct H as [H _].
  destruct (@post_loop (rev r) l H A) as (Bp & cur & F & C & Fu).
  assert (Fu' : full (Bp ++ [cur ++ [t]])).
  { apply Forall_app. split; [exact Fu|]. constructor; [|constructor].
    apply LegacyProps.has_token_app_r. apply is_clause_not_ws. exact E. }
  assert (C' : List.concat (Bp ++ [cur ++ [t]]) = current_block l ++ rev r ++ [t]).
  { rewrite concat_snoc, app_assoc, C, <- app_assoc. reflexivity. }
  assert (F' : for_tokens (rev r ++ [t]) l
               = Next (mkLocals [] (blocks l ++ Bp ++ [cur ++ [t]])
                                (compiler_block_idx l) false)).
  { rewrite LegacyProps.for_tokens_app, F. simpl for_tokens.
    rewrite (@body_clause t (mkLocals cur (blocks l ++ Bp) (compiler_block_idx l) false) E eq_refl).
    unfold close_block; cbn [blocks compiler_block_idx current_block].
    rewrite <- ?app_assoc. reflexivity. }
  destruct (Bp ++ [cur ++ [t]]) as [|b Bq] eqn:Eb.
  - destruct Bp; discriminate.
  - exists b, Bq. repeat split; assumption.
Qed.

(** The loop up to the end of the clauses of the node with the compiler
    clause. *)
Lemma through_node pre0 ws c post :
  forallb ordinary pre0 = true -> attr_open pre0 false = false ->
  ends_closed pre0 = true ->
  forallb is_ws ws = true -> is_compiler c = true ->
  forallb (fun t => is_clause t || is_ws t) post = true ->
  ends_with is_clause post = true ->
  exists B0 b Bp,
    for_tokens (pre0 ++ ws ++ c :: post) (mkLocals [] [] (-1) false)
    = Next (mkLocals [] (B0 ++ (ws ++ [c]) :: b :: Bp)
                     (Z.of_nat (List.length B0)) false)
    /\ List.concat B0 = pre0 /\ (pre0 = [] -> B0 = [])
    /\ List.concat (b :: Bp) = post /\ full (b :: Bp).
Proof.
  intros O A Cl Hw Hc Hp Ep.
  destruct (@after_closed pre0 O A Cl) as (B0 & F0 & C0 & N0).
  destruct (@post_closed post (mkLocals [] (B0 ++ [ws ++ [c]])
                                        (Z.of_nat (List.length B0)) false)
              Hp Ep eq_refl) as (b & Bp & Fp & Cp & Fu).
  exists B0, b, Bp. split; [|repeat split; assumption].
  rewrite LegacyProps.for_tokens_app, F0, LegacyProps.for_tokens_app.
  rewrite (@for_tokens_ws ws _ Hw). simpl for_tokens.
  cbn [current_block blocks compiler_block_idx in_edge_attr app].
  rewrite (@body_compiler c (mkLocals ws B0 (-1) false) Hc eq_refl).
  unfold close_block; cbn [blocks compiler_block_idx current_block in_edge_attr app].
  cbn [blocks compiler_block_idx] in Fp. rewrite Fp.
  rewrite <- app_assoc. reflexivity.
Qed.

Lemma drop_leading_ws_lstrip b :
  has_token b = true -> drop_leading_ws b = Ok (lstrip_ws b).
Proof.
  induction b as [|t b IH]; simpl; [discriminate|].
  destruct (is_ws t); simpl; [exact IH|reflexivity].
Qed.

Lemma lstrip_ws_app b r : has_token b = true -> lstrip_ws (b ++ r) = lstrip_ws b ++ r.
Proof.
  induction b as [|t b IH]; simpl; [discriminate|].
  destruct (is_ws t); simpl; [exact IH|reflexivity].
Qed.

Lemma has_token_not_all_ws b X :
  has_token b = true -> forallb (forallb is_ws) (b :: X) = false.
Proof.
  intros H. simpl. replace (forallb is_ws b) with false; [reflexivity|].
  symmetry. induction b as [|t b IH]; simpl in *; [discriminate|].
  destruct (is_ws t); simpl in *; [apply IH; exact H|reflexivity].
Qed.

(** Where [_spec_str_reorder_compiler] puts the compiler clause. *)
Lemma reorder_moves B0 ws c b Bp Y :
  forallb is_ws ws = true -> is_compiler c = true -> full (b :: Bp) ->
  exists R,
    _spec_str_reorder_compiler (Z.of_nat (List.length B0))
                               (B0 ++ (ws ++ [c]) :: (b :: Bp) ++ Y) = Ok R
    /\ List.concat R
       = List.concat B0
         ++ match B0 with
            | [] => lstrip_ws (List.concat (b :: Bp))
            | _ => List.concat (b :: Bp)
            end
         ++ List.concat Y ++ lead ws ++ [c].
Proof.
  intros Hw Hc Fu. inversion Fu as [|? ? Hb Fr]; subst.
  rewrite reorder_at. cbn [app]. rewrite (@has_token_not_all_ws b (Bp ++ Y) Hb).
  assert (Hcb : exists t cb, ws ++ [c] = t :: cb
                /\ (if negb (is_ws t) then mkToken WS " " 0 0 None :: t :: cb
                    else t :: cb) = lead ws ++ [c]).
  { destruct ws as [|w ws].
    - exists c, []. split; [reflexivity|].
      rewrite (is_compiler_not_ws c Hc). reflexivity.
    - exists w, (ws ++ [c]). split; [reflexivity|].
      simpl in Hw. apply andb_true_iff in Hw. destruct Hw as [-> _]. reflexivity. }
  destruct Hcb as (t & cb & -> & Ecb). cbv zeta. rewrite Ecb.
  destruct B0 as [|b0 B0].
  - rewrite (drop_leading_ws_lstrip b Hb). eexists. split; [reflexivity|].
    cbn [List.concat app].
    rewrite (@lstrip_ws_app b (List.concat Bp) Hb), concat_snoc, concat_app.
    same_list.
  - eexists. split; [reflexivity|].
    rewrite concat_snoc, !concat_app. cbn [List.concat app].
    rewrite ?concat_app. same_list.
Qed.

(** The compiler clause moves behind the clauses of its node, at the end
    of the string. *)
Lemma compiler_moves_at_end s pre0 ws c post wt :
  legacy_tokenize s = pre0 ++ ws ++ c :: post ++ wt ->
  forallb ordinary pre0 = true -> attr_open pre0 false = false ->
  ends_closed pre0 = true ->
  forallb is_ws ws = true -> is_compiler c = true ->
  forallb (fun t => is_clause t || is_ws t) post = true ->
  ends_with is_clause post = true ->
  forallb is_ws wt = true ->
  _spec_str_format s
  = Ok (changed s (values (pre0
                           ++ match pre0 with [] => lstrip_ws post | _ => post end
                           ++ wt ++ lead ws ++ [c]))).
Proof.
  intros E O A Cl Hw Hc Hp Ep Ht.
  destruct (@through_node pre0 ws c post O A Cl Hw Hc Hp Ep)
    as (B0 & b & Bp & F & C0 & N0 & Cp & Fu).
  set (l := mkLocals wt (B0 ++ (ws ++ [c]) :: b :: Bp)
                     (Z.of_nat (List.length B0)) false).
  assert (Fl : for_tokens (legacy_tokenize s) (mkLocals [] [] (-1) false) = Next l).
  { rewrite E.
    replace (pre0 ++ ws ++ c :: post ++ wt) with ((pre0 ++ ws ++ c :: post) ++ wt)
      by same_list.
    rewrite LegacyProps.for_tokens_app, F. rewrite (@for_tokens_ws wt _ Ht).
    reflexivity. }
  assert (Ey : exists Y, closing l = B0 ++ (ws ++ [c]) :: (b :: Bp) ++ Y
                         /\ List.concat Y = wt).
  { unfold closing, l. cbn [current_block blocks]. destruct wt as [|w wt].
    - exists []. rewrite app_nil_r. split; reflexivity.
    - exists [w :: wt]. split; [same_list|]. simpl. rewrite app_nil_r. reflexivity. }
  destruct Ey as (Y & Ecl & Cy).
  destruct (@reorder_moves B0 ws c b Bp Y Hw Hc Fu) as (R & Er & Cr).
  rewrite (@finish s l R Fl).
  2:{ rewrite Ecl. exact Er. }
  rewrite Cr, Cy, Cp, C0.
  destruct B0 as [|b0 B0].
  - simpl in C0. subst pre0. reflexivity.
  - destruct pre0 as [|p pre0]; [|reflexivity].
    discriminate (N0 eq_refl).
Qed.


(** The compiler clause moves behind the clauses of its node, in front of
    the whitespace and the sigil or name that starts the next node. *)
Lemma compiler_moves_before_next s pre0 ws c post wt b rest :
  legacy_tokenize s = pre0 ++ ws ++ c :: post ++ wt ++ b :: rest ->
  forallb ordinary pre0 = true -> attr_open pre0 false = false ->
  ends_closed pre0 = true ->
  forallb is_ws ws = true -> is_compiler c = true ->
  forallb (fun t => is_clause t || is_ws t) post = true ->
  ends_with is_clause post = true ->
  forallb is_ws wt = true ->
  is_boundary b = true -> forallb ordinary rest = true ->
  _spec_str_format s
  = Ok (changed s (values (pre0
                           ++ match pre0 with [] => lstrip_ws post | _ => post end
                           ++ lead ws ++ [c] ++ wt ++ b :: rest))).
Proof.
  intros E O A Cl Hw Hc Hp Ep Ht Hb Or.
  destruct (@through_node pre0 ws c post O A Cl Hw Hc Hp Ep)
    as (B0 & b1 & Bp & F & C0 & N0 & Cp & Fu).
  destruct (@reorder_moves B0 ws c b1 Bp [] Hw Hc Fu) as (R & Er & Cr).
  rewrite app_nil_r in Er.
  set (l4 := mkLocals [] (R ++ [wt ++ [b]]) (-1) (attr_open [b] false)).
  assert (F4 : for_tokens (pre0 ++ ws ++ c :: post ++ wt ++ [b])
                          (mkLocals [] [] (-1) false) = Next l4).
  { replace (pre0 ++ ws ++ c :: post ++ wt ++ [b])
      with ((pre0 ++ ws ++ c :: post) ++ wt ++ [b]) by same_list.
    rewrite LegacyProps.for_tokens_app, F, LegacyProps.for_tokens_app.
    rewrite (@for_tokens_ws wt _ Ht). simpl for_tokens.
    cbn [current_block blocks compiler_block_idx in_edge_attr app].
    rewrite (@body_boundary b (mkLocals wt (B0 ++ (ws ++ [c]) :: b1 :: Bp)
                                        (Z.of_nat (List.length B0)) false) R Hb Er).
    reflexivity. }
  destruct (@for_tokens_ordinary rest l4 Or eq_refl) as (l5 & F5 & I5 & C5 & _).
  assert (Fl : for_tokens (legacy_tokenize s) (mkLocals [] [] (-1) false) = Next l5).
  { rewrite E.
    replace (pre0 ++ ws ++ c :: post ++ wt ++ b :: rest)
      with ((pre0 ++ ws ++ c :: post ++ wt ++ [b]) ++ rest) by same_list.
    rewrite LegacyProps.for_tokens_app, F4. exact F5. }
  rewrite (@finish s l5 (closing l5) Fl).
  2:{ rewrite I5. apply reorder_none. }
  rewrite concat_closing, C5. unfold l4. cbn [blocks current_block].
  rewrite concat_snoc, Cr, Cp, C0, app_nil_r. cbn [List.concat].
  do 3 f_equal.
  destruct B0 as [|b0 B0].
  - simpl in C0. subst pre0. same_list.
  - destruct pre0 as [|p pre0]; [discriminate (N0 eq_refl)|]. same_list.
Qed.

(** C6.  The code does not do what the claim says on every string.  A
    filename token outside edge attributes, with the loop still running,
    reaches the last branch of the loop and [_spec_str_format] raises
    [ValueError] for it, whether the string holds a compiler clause or not;
    it returns neither the rewritten string nor [None].  On the strings with
    no such token the claim holds: with no compiler clause the result is
    [None]; so it is when whitespace apart the compiler clause is followed
    by the end of the string or by the start of the next node; and a
    compiler clause followed by clauses of its node is moved behind them,
    with its leading whitespace (one blank when it has none), in front of
    the whitespace and the sigil or name that starts the next node, or
    behind the trailing whitespace at the end of the string.  The string
    built this way is returned when it differs from the input. *)
Theorem C6_compiler_clause_to_end :
  forall s,
    (forall pre f post,
        legacy_tokenize s = pre ++ f :: post ->
        forallb ordinary pre = true -> attr_open pre false = false ->
        is_filename f = true ->
        _spec_str_format s = Raise (ValueError_unexpected_token f))
    /\ (forallb (fun t => negb (is_compiler t) && negb (is_filename t))
                (legacy_tokenize s) = true ->
        _spec_str_format s = Ok None)
    /\ (forall pre c wt rest,
           legacy_tokenize s = pre ++ c :: wt ++ rest ->
           forallb ordinary pre = true -> is_compiler c = true ->
           forallb is_ws wt = true ->
           match rest with [] => true | b :: _ => is_boundary b end = true ->
           forallb ordinary rest = true ->
           _spec_str_format s = Ok None)
    /\ (forall pre0 ws c post wt,
           legacy_tokenize s = pre0 ++ ws ++ c :: post ++ wt ->
           forallb ordinary pre0 = true -> attr_open pre0 false = false ->
           ends_closed pre0 = true ->
           forallb is_ws ws = true -> is_compiler c = true ->
           forallb (fun t => is_clause t || is_ws t) post = true ->
           ends_with is_clause post = true ->
           forallb is_ws wt = true ->
           _spec_str_format s
           = Ok (changed s
                   (values (pre0
                            ++ match pre0 with [] => lstrip_ws post | _ => post end
                            ++ wt ++ lead ws ++ [c]))))
    /\ (forall pre0 ws c post wt b rest,
           legacy_tokenize s = pre0 ++ ws ++ c :: post ++ wt ++ b :: rest ->
           forallb ordinary pre0 = true -> attr_open pre0 false = false ->
           ends_closed pre0 = true ->
           forallb is_ws ws = true -> is_compiler c = true ->
           forallb (fun t => is_clause t || is_ws t) post = true ->
           ends_with is_clause post = true ->
           forallb is_ws wt = true ->
           is_boundary b = true -> forallb ordinary rest = true ->
           _spec_str_format s
           = Ok (changed s
                   (values (pre0
                            ++ match pre0 with [] => lstrip_ws post | _ => post end
                            ++ lead ws ++ [c] ++ wt ++ b :: rest)))).
Proof.
  intros s. split; [|split; [|split; [|split]]].
  - intros pre f post. apply filename_raises.
  - apply no_compiler_no_change.
  - intros pre c wt rest. apply compiler_last_no_change.
  - intros pre0 ws c post wt. apply compiler_moves_at_end.
  - intros pre0 ws c post wt b rest. apply compiler_moves_before_next.
Qed.

(** C6 on [./a.yaml %gcc], which raises, and on the strings of the claim:
    one with no compiler clause, one with the compiler clause last, and
    [foo @3.1 +foo %gcc@3.1 +baz], whose compiler clause moves to the end;
    in [%gcc +x ^bar +y] it moves in front of the dependency. *)
Lemma C6_compiler_clause_to_end_witness :
  _spec_str_format "./a.yaml %gcc"
  = Raise (ValueError_unexpected_token (mkToken FILENAME "./a.yaml" 0 8 None))
  /\ _spec_str_format "foo @3.1 +foo" = Ok None
  /\ _spec_str_format "foo @3.1 +foo +baz %gcc@3.1" = Ok None
  /\ _spec_str_format "foo @3.1 +foo %gcc@3.1 +baz"
     = Ok (Some "foo @3.1 +foo +baz %gcc@3.1")
  /\ _spec_str_format "%gcc +x ^bar +y" = Ok (Some "+x %gcc ^bar +y").
Proof.
  split; [|split; [|split; [|split]]].
  - destruct (C6_compiler_clause_to_end "./a.yaml %gcc") as (H & _).
    apply (H [] (mkToken FILENAME "./a.yaml" 0 8 None)
             [mkToken WS " " 8 9 None; mkToken COMPILER "%gcc" 9 13 None]);
      vm_compute; reflexivity.
  - destruct (C6_compiler_clause_to_end "foo @3.1 +foo") as (_ & H & _).
    apply H. vm_compute. reflexivity.
  - destruct (C6_compiler_clause_to_end "foo @3.1 +foo +baz %gcc@3.1")
      as (_ & _ & H & _).
    apply (H [mkToken UNQUALIFIED_PACKAGE_NAME "foo" 0 3 None;
              mkToken WS " " 3 4 None; mkToken VERSION "@3.1" 4 8 None;
              mkToken WS " " 8 9 None; mkToken BOOL_VARIANT "+foo" 9 13 None;
              mkToken WS " " 13 14 None; mkToken BOOL_VARIANT "+baz" 14 18 None;
              mkToken WS " " 18 19 None]
             (mkToken COMPILER_AND_VERSION "%gcc@3.1" 19 27 None) [] []);
      vm_compute; reflexivity.
  - destruct (C6_compiler_clause_to_end "foo @3.1 +foo %gcc@3.1 +baz")
      as (_ & _ & _ & H & _).
    rewrite (H [mkToken UNQUALIFIED_PACKAGE_NAME "foo" 0 3 None;
                mkToken WS " " 3 4 None; mkToken VERSION "@3.1" 4 8 None;
                mkToken WS " " 8 9 None; mkToken BOOL_VARIANT "+foo" 9 13 None]
               [mkToken WS " " 13 14 None]
               (mkToken COMPILER_AND_VERSION "%gcc@3.1" 14 22 None)
               [mkToken WS " " 22 23 None; mkToken BOOL_VARIANT "+baz" 23 27 None]
               []); vm_compute; reflexivity.
  - destruct (C6_compiler_clause_to_end "%gcc +x ^bar +y")
      as (_ & _ & _ & _ & H).
    rewrite (H [] [] (mkToken COMPILER "%gcc" 0 4 None)
               [mkToken WS " " 4 5 None; mkToken BOOL_VARIANT "+x" 5 7 None]
               [mkToken WS " " 7 8 None]
               (mkToken DEPENDENCY "^" 8 9 None)
               [mkToken UNQUALIFIED_PACKAGE_NAME "bar" 9 12 None;
                mkToken WS " " 12 13 None; mkToken BOOL_VARIANT "+y" 13 15 None]);
      vm_compute; reflexivity.
Defined.

End LegacyRewrite.

(** ** The two forms of a virtual assignment

    Both parses are run symbolically, for any collaborators: each command
    is evaluated on the state at hand and the result is passed to the
    rest. *)

Section Run.
Context {C : Collaborators}.

Lemma bind_run {S X A B} (c : M S X A) (k : A -> M S X B) st s1 r1 s2 r :
  c st = (s1, r1) ->
  match r1 with Ok a => k a s1 | Raise x => (s1, Raise x) end = (s2, r) ->
  bind c k st = (s2, r).
Proof. intros H1 H2. unfold bind. rewrite H1. destruct r1; exact H2. Qed.

Lemma node_loop_stop n s lc hv pw st :
  kind_in clause_kinds (next_token (ctx (parser st))) = false ->
  node_loop (S n) s lc hv pw st = (st, Ok pw).
Proof.
  destruct st as [[lit [strm cur nt pushed] memo] w em]. cbn [ctx parser next_token].
  intros H. destruct nt as [t|].
  - destruct t as [k v a b sv]. destruct k; try discriminate H; reflexivity.
  - reflexivity.
Qed.

Lemma next_spec_loop_stop parse_one n root cur pw st :
  next_token (ctx (parser st)) = None ->
  next_spec_loop parse_one (S n) root cur pw st = (st, Ok pw).
Proof.
  destruct st as [[lit [strm c nt pushed] memo] w em]. cbn [ctx parser next_token].
  intros ->. reflexivity.
Qed.

Lemma next_spec_end parse_one st :
  next_token (ctx (parser st)) = None ->
  next_spec parse_one None st = (st, Ok None).
Proof.
  destruct st as [[lit [strm c nt pushed] memo] w em]. cbn [ctx parser next_token].
  intros ->. reflexivity.
Qed.

Lemma all_specs_loop_end parse_one n st :
  next_token (ctx (parser st)) = None ->
  all_specs_loop parse_one (S n) st = (st, Ok []).
Proof.
  intros H. cbn [all_specs_loop]. unfold bind. rewrite (@next_spec_end parse_one st H).
  reflexivity.
Qed.

End Run.

Ltac norm :=
  cbv beta iota zeta; unfold set_ctx, set_wld;
  cbn [parser wld emitted literal_str ctx parsed_toolchains token_stream_
       current_token next_token pushed_tokens stream_text remaining
       kind value start end_ subvalues fst snd tokens_left List.length Nat.add].

Ltac use_known :=
  repeat match goal with
  | H : Spec_new _ = _ |- _ => rewrite H
  | H : concrete _ _ = _ |- _ => rewrite H
  | H : get_name _ _ = _ |- _ => rewrite H
  | H : dict_get _ _ = _ |- _ => rewrite H
  | H : _add_dependency _ _ _ _ = _ |- _ => rewrite H
  | H : foreign_is_SpecError _ = _ |- _ => rewrite H
  | H : String.eqb _ _ = _ |- _ => rewrite H
  | H : Ascii.eqb _ _ = _ |- _ => rewrite H
  | H : Py.index _ _ = _ |- _ => rewrite H
  | H : Py.split_char _ _ = _ |- _ => rewrite H
  | H : Py.strip_chars _ _ = _ |- _ => rewrite H
  | H : Py.contains _ _ = _ |- _ => rewrite H
  | H : advance _ = _ |- _ => rewrite H
  | H : kind_in _ _ = _ |- _ => rewrite H
  | H : kind_is _ _ = _ |- _ => rewrite H
  | H : attach_world _ _ _ _ _ _ = _ |- _ => rewrite H
  | H : SpecTokens_eqb _ _ = _ |- _ => rewrite H
  | H : (if Py.contains _ _ then _ else _) = _ |- _ => rewrite H
  end.

Ltac prim_unfold :=
  unfold on_ctx, accept, expect, ask_ctx, ask_world, on_world, upd_world,
    current_value, first_char, push_front, modify, get, ret, raise, bind,
    set_ctx, set_wld, raise_parsing_error, raise_SpecParsingError, kind_is,
    kind_in;
  cbn [parser wld emitted literal_str ctx parsed_toolchains token_stream_
       current_token next_token pushed_tokens stream_text remaining
       kind value start end_ subvalues fst snd existsb SpecTokens_eqb
       negb orb andb].

Ltac prim :=
  prim_unfold; use_known; prim_unfold;
  unfold advance, stream_next; cbn [next_from pushed_tokens token_stream_
       stream_text remaining kind SpecTokens_eqb negb];
  prim_unfold; use_known;
  cbn [next_from pushed_tokens token_stream_
       stream_text remaining kind SpecTokens_eqb negb];
  prim_unfold; reflexivity.

Ltac ev0 :=
  norm;
  lazymatch goal with
  | |- bind _ _ _ = _ => eapply bind_run; [ev0 | ev0]
  | |- (_, _) = _ => reflexivity
  | |- node_loop (S _) _ _ _ _ _ = _ =>
      rewrite node_loop_stop by (norm; use_known; reflexivity); reflexivity
  | |- or_else _ _ _ = _ => unfold or_else; ev0
  | |- _ => prim
  end.

Section RunNode.
Context {C : Collaborators}.

(** [SpecNodeParser.parse] at a name token with no clause after it. *)
Lemma SpecNodeParser_parse_name init root st t c' :
  next_token (ctx (parser st)) = Some t ->
  is_name_kind (kind t) = true ->
  advance (ctx (parser st)) = (c', Ok tt) ->
  kind_in clause_kinds (next_token c') = false ->
  SpecNodeParser_parse init root st
  = let p := match init with
             | Some s => (s, wld st)
             | None => Spec_new (wld st)
             end in
    (mkState (mkParser (literal_str (parser st)) c' (parsed_toolchains (parser st)))
             (name_node (kind t) (value t) (fst p) (snd p)) (emitted st),
     Ok (Some (fst p), [])).
Proof.
  intros Hn Hk Ha Hc.
  pose proof (@advance_Ok_current _ _ _ Ha) as Hcur. rewrite Hn in Hcur.
  destruct st as [[lit c memo] w em].
  cbn [ctx parser literal_str parsed_toolchains wld emitted] in *.
  destruct c as [strm cur nt pushed]. cbn [next_token] in Hn. subst nt.
  destruct c' as [strm' cur' nt' pushed']. cbn [next_token current_token] in *.
  subst cur'.
  assert (P : exists s w1, match init with
                           | Some s => (s, w)
                           | None => Spec_new w
                           end = (s, w1)).
  { destruct init; [eauto|]. destruct (Spec_new w); eauto. }
  destruct P as (s & w1 & P). rewrite P. cbn [fst snd].
  destruct t as [k v a b sv]. cbn [kind value] in *.
  unfold SpecNodeParser_parse.
  destruct k; try discriminate Hk; cbn [name_node].
  - destruct init as [s'|]; [injection P as -> ->|].
    + ev0.
    + ev0.
  - destruct (String.eqb v "*") eqn:Ev; destruct init as [s'|]; try injection P as -> ->.
    all: ev0.
Qed.

Lemma _parse_node_name root_spec root st t c' :
  next_token (ctx (parser st)) = Some t ->
  is_name_kind (kind t) = true ->
  advance (ctx (parser st)) = (c', Ok tt) ->
  kind_in clause_kinds (next_token c') = false ->
  _parse_node root_spec root st
  = let p := Spec_new (wld st) in
    let w := name_node (kind t) (value t) (fst p) (snd p) in
    let st' := mkState (mkParser (literal_str (parser st)) c'
                                 (parsed_toolchains (parser st))) w (emitted st) in
    if concrete root_spec w
    then (st', Raise (SpecError [Spec_str root_spec w;
                                 ("^" ++ Spec_str (fst p) w)%string]))
    else (st', Ok (fst p, [])).
Proof.
  intros Hn Hk Ha Hc. unfold _parse_node. unfold bind at 1.
  rewrite (@SpecNodeParser_parse_name None root st t c' Hn Hk Ha Hc).
  cbv zeta. destruct (Spec_new (wld st)) as [s w1]. cbn [fst snd].
  unfold bind, ask_world, ret, raise. cbn [wld].
  destruct (concrete root_spec _); reflexivity.
Qed.

Lemma attach_eq root_spec current_spec dependency is_direct props st :
  attach root_spec current_spec dependency is_direct props st
  = match attach_world root_spec current_spec dependency is_direct props (wld st) with
    | (w, Ok c) => (set_wld w st, Ok c)
    | (w, Raise e) =>
        (set_wld w st,
         if foreign_is_SpecError e
         then Raise (SpecParsingError (foreign_str e)
                       (current_token (ctx (parser st)))
                       (literal_str (parser st)) (Some e))
         else Raise (Foreign e))
    end.
Proof.
  destruct st as [p w em]. unfold attach, attach_world, add_dependency.
  destruct is_direct.
  - unfold bind, ask_world, upd_world, modify, ret, set_wld, raise_parsing_error.
    cbn [wld parser emitted].
    destruct (get_name dependency w) as [n|].
    + destruct (dict_get n LEGACY_COMPILER_TO_BUILTIN) as [b|]; cbn [wld parser emitted].
      * destruct (_add_dependency _ _ _ _) as [w2 [u|e]]; [reflexivity|].
        destruct (foreign_is_SpecError e); reflexivity.
      * destruct (_add_dependency _ _ _ _) as [w2 [u|e]]; [reflexivity|].
        destruct (foreign_is_SpecError e); reflexivity.
    + cbn [wld parser emitted].
      destruct (_add_dependency _ _ _ _) as [w2 [u|e]]; [reflexivity|].
      destruct (foreign_is_SpecError e); reflexivity.
  - unfold bind, ret, set_wld, raise_parsing_error. cbn [wld parser emitted].
    destruct (_add_dependency _ _ _ _) as [w2 [u|e]]; [reflexivity|].
    destruct (foreign_is_SpecError e); reflexivity.
Qed.

Lemma split_virtuals vs st :
  split_key_value "=" ("virtuals=" ++ vs) st = (st, Ok ("virtuals", vs, false)).
Proof. reflexivity. Qed.

Lemma split_char_cons c s : exists p ps, Py.split_char c s = p :: ps.
Proof.
  induction s as [|a s IH]; simpl; [eauto|].
  destruct (Ascii.eqb a c); [eauto|].
  destruct IH as (p & ps & ->). eauto.
Qed.

Section AnySequence.
Hypothesis add_dependency_any_sequence :
  forall t d vs dr df wh w,
    _add_dependency t d (mkEdgeProperties (PyList vs) dr df wh) w
    = _add_dependency t d (mkEdgeProperties (PyTuple vs) dr df wh) w.

Lemma attach_world_list root_spec current_spec dependency is_direct l dr df wh w :
  attach_world root_spec current_spec dependency is_direct
               (mkEdgeProperties (PyList l) dr df wh) w
  = attach_world root_spec current_spec dependency is_direct
                 (mkEdgeProperties (PyTuple l) dr df wh) w.
Proof. unfold attach_world. rewrite add_dependency_any_sequence. reflexivity. Qed.
End AnySequence.

End RunNode.

Ltac compute_dict :=
  repeat match goal with
  | |- context [dict_get ?k ?d] =>
      let r := eval vm_compute in (dict_get k d) in
      lazymatch r with Some _ => idtac | None => idtac end;
      change (dict_get k d) with r
  | |- context [dict_set ?k ?v ?d] =>
      let r := eval vm_compute in (dict_set k v d) in
      lazymatch r with _ :: _ => idtac end;
      change (dict_set k v d) with r
  end.

Ltac settle :=
  norm; use_known; rewrite ?app_nil_r;
  cbn [seq_extend seq_items option_map app ea_virtuals ea_depflag ea_when];
  rewrite ?app_nil_r; compute_dict; norm;
  repeat (progress (use_known; norm)).

Ltac adv := norm; unfold advance, stream_next;
  cbn [next_from pushed_tokens token_stream_ stream_text remaining kind
       SpecTokens_eqb negb]; use_known;
  cbn [next_from pushed_tokens token_stream_ stream_text remaining kind
       SpecTokens_eqb negb]; reflexivity.

Ltac ev :=
  settle;
  lazymatch goal with
  | |- bind _ _ _ = _ => eapply bind_run; [ev | ev]
  | |- (_, _) = _ => reflexivity
  | |- node_loop (S _) _ _ _ _ _ = _ =>
      rewrite node_loop_stop by (norm; use_known; reflexivity); reflexivity
  | |- next_spec_loop _ (S _) _ _ _ _ = _ =>
      first [ rewrite next_spec_loop_stop by (norm; reflexivity); reflexivity
            | lazymatch goal with
              | |- next_spec_loop _ (S ?n) _ _ _ _ = _ =>
                  let x := fresh "fuel" in
                  set (x := n); cbn [next_spec_loop]; subst x; ev
              end ]
  | |- all_specs_loop _ (S _) _ = _ =>
      first [ rewrite all_specs_loop_end by (norm; reflexivity); reflexivity
            | lazymatch goal with
              | |- all_specs_loop _ (S ?n) _ = _ =>
                  let x := fresh "fuel" in
                  set (x := n); cbn [all_specs_loop]; subst x; ev
              end ]
  | |- all_specs _ _ = _ => unfold all_specs; ev
  | |- next_spec _ _ _ = _ =>
      first [ rewrite next_spec_end by (norm; reflexivity); reflexivity
            | unfold next_spec; ev ]
  | |- edge_attr_loop (S ?n) _ _ = _ =>
      let x := fresh "fuel" in
      set (x := n); cbn [edge_attr_loop]; subst x; ev
  | |- EdgeAttributeParser_parse _ _ = _ => unfold EdgeAttributeParser_parse; ev
  | |- SpecNodeParser_parse _ _ _ = _ =>
      eapply eq_trans;
      [ eapply SpecNodeParser_parse_name;
        [ norm; reflexivity | first [reflexivity | assumption] | adv
        | norm; reflexivity ]
      | settle; reflexivity ]
  | |- _parse_node _ _ _ = _ =>
      eapply eq_trans;
      [ eapply _parse_node_name;
        [ norm; reflexivity | first [reflexivity | assumption] | adv
        | norm; reflexivity ]
      | settle; reflexivity ]
  | |- attach _ _ _ _ _ _ = _ =>
      rewrite attach_eq; rewrite ?attach_world_list by assumption;
      settle; reflexivity
  | |- or_else _ _ _ = _ => unfold or_else; ev
  | |- split_key_value _ _ _ = _ => rewrite split_virtuals; reflexivity
  | |- on_ctx parse_virtual_assignment _ = _ =>
      unfold parse_virtual_assignment;
      repeat (progress (prim_unfold; use_known)); reflexivity
  | |- (if negb (existsb (String.eqb ?n) edge_attribute_names) then _ else _) _ = _ =>
      let b := eval vm_compute in (negb (existsb (String.eqb n) edge_attribute_names)) in
      change (negb (existsb (String.eqb n) edge_attribute_names)) with b; ev
  | |- _ => prim
  end.

Ltac run_side a :=
  let s := fresh "s" in
  let r := fresh "r" in
  let E := fresh "E" in
  evar (s : state); evar (r : result exn (list spec));
  assert (E : a = (s, r)) by (subst s r; ev);
  subst s r; rewrite E; clear E.


(** C1.  The inline form of a virtual assignment and the bracketed form
    parse to the same result.  For a name token, a sigil token that carries
    the virtuals [vs] and the substitute [sub], and on the other side the
    same name, the opening bracket with the same sigil, the pair
    [virtuals=vs], the closing bracket and the name [sub], both parses do
    what the shorthand stands for: the root node and the node of the
    substitute are made and named, and one edge is added from the root to
    the substitute, with the virtuals of [vs], split at the commas, direct
    for the sigil [%], without dependency types or condition.  So both end
    in the same world, with no warning and with the same list of nodes, or
    both with an exception.  The inline form hands the virtuals to
    [_add_dependency] as a tuple and the bracketed form as a list; the edge
    that [Spec] makes of either is assumed to be the same. *)
Theorem C1_virtual_assignment_forms :
  forall (C : Collaborators) text1 text2 kn name vs sub sigil dv ev_ cv svs i
    a0 a1 sv0 wv b0 b1 sv1 d0 d1 e0 e1 sv2 k0 k1 sv3 c0 c1 wv2 f0 f1 sv4
    g0 g1 sv5 w depth,
  (forall t d vs dr df wh w,
      _add_dependency t d (mkEdgeProperties (PyList vs) dr df wh) w
      = _add_dependency t d (mkEdgeProperties (PyTuple vs) dr df wh) w) ->
  let ks := if Py.contains "." sub then FULLY_QUALIFIED_PACKAGE_NAME
            else UNQUALIFIED_PACKAGE_NAME in
  is_name_kind kn = true ->
  SPEC_TOKENIZER_tokenize text1
  = [mkToken kn name a0 a1 sv0;
     mkToken WS wv b0 b1 sv1;
     mkToken DEPENDENCY (String sigil dv) d0 d1 (Some svs)] ->
  SPEC_TOKENIZER_tokenize text2
  = [mkToken kn name a0 a1 sv0;
     mkToken WS wv b0 b1 sv1;
     mkToken START_EDGE_PROPERTIES (String sigil ev_) e0 e1 sv2;
     mkToken KEY_VALUE_PAIR ("virtuals=" ++ vs) k0 k1 sv3;
     mkToken END_EDGE_PROPERTIES cv c0 c1 None;
     mkToken WS wv2 f0 f1 sv4;
     mkToken ks sub g0 g1 sv5] ->
  dict_get "substitute" svs = Some sub ->
  dict_get "virtuals" svs = Some vs ->
  Py.index sub (String sigil dv) = Some i ->
  Py.strip_chars (String "'" (String Pat.dquote " ")) vs = vs ->
  agrees (parse depth text1 w) (virtual_edge kn name ks sub vs sigil w)
  /\ agrees (parse depth text2 w) (virtual_edge kn name ks sub vs sigil w).
Proof.
  intros C text1 text2 kn name vs sub sigil dv ev_ cv svs i
    a0 a1 sv0 wv b0 b1 sv1 d0 d1 e0 e1 sv2 k0 k1 sv3 c0 c1 wv2 f0 f1 sv4
    g0 g1 sv5 w depth Hadd ks Hkn H1 H2 Hs Hv Hi Hst.
  assert (Hks : is_name_kind ks = true).
  { unfold ks. destruct (Py.contains "." sub); reflexivity. }
  assert (Eks : (if Py.contains "." sub then FULLY_QUALIFIED_PACKAGE_NAME
                 else UNQUALIFIED_PACKAGE_NAME) = ks) by reflexivity.
  clearbody ks.
  destruct (split_char_cons "," vs) as (v0 & vl & Hsp).
  assert (Hsvs : exists p q, svs = p :: q).
  { destruct svs; [discriminate|eauto]. }
  destruct Hsvs as (p & q & ->).
  assert (HnU : SpecTokens_eqb kn UNEXPECTED = false)
    by (destruct kn; try discriminate; reflexivity).
  assert (HnW : SpecTokens_eqb kn WS = false)
    by (destruct kn; try discriminate; reflexivity).
  assert (HsU : SpecTokens_eqb ks UNEXPECTED = false)
    by (destruct ks; try discriminate; reflexivity).
  assert (HsW : SpecTokens_eqb ks WS = false)
    by (destruct ks; try discriminate; reflexivity).
  unfold parse, with_new_parser, parseable_tokens, no_parser, virtual_edge.
  rewrite H1, H2, Hsp.
  unfold TokenContext_init, advance, stream_next.
  cbn [next_from pushed_tokens token_stream_ stream_text remaining kind
       SpecTokens_eqb negb]. rewrite HnU, HnW. cbn [negb].
  destruct (Spec_new w) as [s0 w1] eqn:N0.
  destruct (Spec_new (name_node kn name s0 w1)) as [s1 w3] eqn:N1.
  destruct (concrete s0 (name_node ks sub s1 w3)) eqn:Cc.
  2: destruct (attach_world s0 s0 s1 (Ascii.eqb sigil "%")
                 (mkEdgeProperties (PyTuple (v0 :: vl)) (Ascii.eqb sigil "%") 0 None)
                 (name_node ks sub s1 w3)) as [w6 [c6|e]] eqn:At.
  3: destruct (foreign_is_SpecError e) eqn:Fe.
  all: split.
  all: match goal with
       | |- agrees (let (_, _) := ?a in _) _ => run_side a
       end.
  all: unfold agrees; cbn [fst snd wld emitted].
  all: repeat split; reflexivity.
Qed.

(** C1 on [foo ^c,cxx=gcc] and [foo ^[virtuals=c,cxx] gcc], in the
    reference world: both leave the node [foo] with one edge to the node
    [gcc], with the virtuals [c] and [cxx], not direct.  And on
    [builtin.foo %mpi=builtin.mpich] and its bracketed form: the edge to
    [mpich] is direct. *)
Lemma C1_virtual_assignment_forms_witness :
  let o := @virtual_edge Ref.collaborators UNQUALIFIED_PACKAGE_NAME "foo"
             UNQUALIFIED_PACKAGE_NAME "gcc" "c,cxx" "^" [] in
  let o' := @virtual_edge Ref.collaborators FULLY_QUALIFIED_PACKAGE_NAME
              "builtin.foo" FULLY_QUALIFIED_PACKAGE_NAME "builtin.mpich"
              "mpi" "%" [] in
  (agrees (@parse Ref.collaborators 1 "foo ^c,cxx=gcc" []) o
   /\ agrees (@parse Ref.collaborators 1 "foo ^[virtuals=c,cxx] gcc" []) o
   /\ o = ([Ref.mkNode (Some "foo") None None [] None
              [Ref.mkEdge 0 1 ["c"; "cxx"] false 0 None];
            Ref.mkNode (Some "gcc") None None [] None []],
           Some [0]))
  /\ (agrees (@parse Ref.collaborators 1 "builtin.foo %mpi=builtin.mpich" []) o'
      /\ agrees (@parse Ref.collaborators 1
                   "builtin.foo %[virtuals=mpi] builtin.mpich" []) o'
      /\ o' = ([Ref.mkNode (Some "foo") (Some "builtin") None [] None
                  [Ref.mkEdge 0 1 ["mpi"] true 0 None];
                Ref.mkNode (Some "mpich") (Some "builtin") None [] None []],
               Some [0])).
Proof.
  cbv zeta.
  pose proof (@C1_virtual_assignment_forms Ref.collaborators
    "foo ^c,cxx=gcc" "foo ^[virtuals=c,cxx] gcc"
    UNQUALIFIED_PACKAGE_NAME "foo" "c,cxx" "gcc" "^" "c,cxx=gcc" "[" "]"
    [("substitute", "gcc"); ("virtuals", "c,cxx")] 7
    0 3 None " " 3 4 None 4 14 4 6 None 6 20 None 20 21 " " 21 22 None
    22 25 None [] 1) as H.
  pose proof (@C1_virtual_assignment_forms Ref.collaborators
    "builtin.foo %mpi=builtin.mpich" "builtin.foo %[virtuals=mpi] builtin.mpich"
    FULLY_QUALIFIED_PACKAGE_NAME "builtin.foo" "mpi" "builtin.mpich" "%"
    "mpi=builtin.mpich" "[" "]"
    [("substitute", "builtin.mpich"); ("virtuals", "mpi")] 5
    0 11 None " " 11 12 None 12 30 12 14 None 14 26 None 26 27 " " 27 28 None
    28 41 None [] 1) as H'.
  cbv zeta in H, H'.
  split; (split; [|split]).
  - apply H; intros; reflexivity.
  - apply H; intros; reflexivity.
  - vm_compute. reflexivity.
  - apply H'; intros; reflexivity.
  - apply H'; intros; reflexivity.
  - vm_compute. reflexivity.
Defined.

(** * Further properties

    Properties of the code that the claims leave aside: how [parse] and
    [parse_one_or_raise] relate, where the parser ends and where it does
    not, what the legacy rewriter keeps, and what the fix handler writes. *)

(** ** What a command that returned has run *)

Section Inversion.
Context {C : Collaborators}.

Lemma bind_Ok {S X A B} (c : M S X A) (k : A -> M S X B) st st' b :
  bind c k st = (st', Ok b) ->
  exists s1 a, c st = (s1, Ok a) /\ k a s1 = (st', Ok b).
Proof.
  unfold bind. destruct (c st) as [s1 [a|x]]; [|discriminate].
  intros H. exists s1, a. split; [reflexivity|exact H].
Qed.

Variable parse_one : string -> P spec.

Lemma next_spec_None st st' :
  next_spec parse_one None st = (st', Ok None) ->
  next_token (ctx (parser st)) = None /\ st' = st.
Proof.
  unfold next_spec. intros H.
  apply bind_Ok in H as (s1 & nt & H1 & H).
  unfold ask_ctx in H1. injection H1 as <- <-.
  destruct (next_token (ctx (parser st))) as [t|].
  - exfalso.
    apply bind_Ok in H as (s2 & i & _ & H).
    apply bind_Ok in H as (s3 & [root pw] & _ & H).
    destruct root as [root|]; [|discriminate H].
    apply bind_Ok in H as (s4 & c & _ & H).
    apply bind_Ok in H as (s5 & pw' & _ & H).
    apply bind_Ok in H as (s6 & u & _ & H).
    discriminate H.
  - injection H as <-. split; reflexivity.
Qed.

Lemma next_spec_Some st st' s :
  next_spec parse_one None st = (st', Ok (Some s)) ->
  exists t, next_token (ctx (parser st)) = Some t.
Proof.
  unfold next_spec. intros H.
  apply bind_Ok in H as (s1 & nt & H1 & H).
  unfold ask_ctx in H1. injection H1 as <- <-.
  destruct (next_token (ctx (parser st))) as [t|]; [exists t; reflexivity|].
  discriminate H.
Qed.

End Inversion.


(** ** One spec or a list of specs *)

Section SingleSpec.
Context {C : Collaborators}.
Variable parse_one : string -> P spec.

Definition got_none : exn := ValueError "expected a single spec, but got none".

(** On one parser, [parse_one_or_raise] returns a node exactly when
    [all_specs] returns that node alone. *)
Lemma single_body st st1 s :
  parse_one_body parse_one None st = (st1, Ok s)
  <-> all_specs parse_one st = (st1, Ok [s]).
Proof.
  unfold parse_one_body, all_specs. split.
  - intros H.
    apply bind_Ok in H as (sA & r & HA & H).
    apply bind_Ok in H as (sB & nt & HB & H).
    unfold ask_ctx in HB. injection HB as <- <-.
    apply bind_Ok in H as (sC & txt & HC & H).
    injection HC as <- <-.
    destruct (next_token (ctx (parser sA))) as [t|] eqn:N; [discriminate H|].
    destruct r as [r|]; [|discriminate H].
    injection H as <- <-.
    destruct (next_spec_Some _ _ HA) as [t Ht].
    unfold bind at 1. unfold ask_ctx at 1.
    unfold tokens_left. rewrite Ht.
    rewrite Nat.add_1_r.
    cbn [all_specs_loop]. unfold bind at 1. rewrite HA.
    unfold bind. rewrite (next_spec_end parse_one sA N). reflexivity.
  - intros H.
    apply bind_Ok in H as (s0 & c & H0 & H).
    unfold ask_ctx in H0. injection H0 as <- <-.
    cbn [all_specs_loop] in H.
    apply bind_Ok in H as (sA & r & HA & H).
    destruct r as [r|]; [|discriminate H].
    apply bind_Ok in H as (sB & ss & HB & H).
    injection H as E1 E2 E3. subst sB r ss.
    destruct (tokens_left (ctx (parser st))) as [|k]; [discriminate HB|].
    cbn [all_specs_loop] in HB.
    apply bind_Ok in HB as (sC & r2 & HC & HB).
    destruct r2 as [r2|].
    + apply bind_Ok in HB as (sD & ss & _ & HB). discriminate HB.
    + injection HB as <-.
      apply next_spec_None in HC as [N ->].
      unfold bind at 1. rewrite HA.
      unfold bind, ask_ctx. rewrite N. reflexivity.
Qed.

Lemma none_body st st1 :
  all_specs parse_one st = (st1, Ok []) ->
  parse_one_body parse_one None st = (st1, Raise got_none).
Proof.
  unfold parse_one_body, all_specs. intros H.
  apply bind_Ok in H as (s0 & c & H0 & H).
  unfold ask_ctx in H0. injection H0 as <- <-.
  cbn [all_specs_loop] in H.
  apply bind_Ok in H as (sA & r & HA & H).
  destruct r as [r|].
  - apply bind_Ok in H as (sD & ss & _ & H). discriminate H.
  - injection H as <-.
    apply next_spec_None in HA as [N ->].
    unfold bind at 1. rewrite (next_spec_end parse_one st N).
    unfold bind, ask_ctx. rewrite N. reflexivity.
Qed.

End SingleSpec.

(** X1.  [parse_one_or_raise(text)] returns a node exactly when
    [parse(text)] returns the list of that node alone, and both leave the
    same world and the same warnings; and when [parse(text)] returns the
    empty list, [parse_one_or_raise(text)] raises the ValueError "expected
    a single spec, but got none", in the same state. *)
Theorem X1_parse_single (C : Collaborators) (depth : nat) (text : string) (w : world) :
  (forall st' s,
      parse_one_or_raise depth text None w = (st', Ok s)
      <-> parse depth text w = (st', Ok [s]))
  /\ (forall st',
         parse depth text w = (st', Ok []) ->
         parse_one_or_raise depth text None w
         = (st', Raise (ValueError "expected a single spec, but got none"))).
Proof.
  unfold parse_one_or_raise, parse. cbn [parse_one_at]. unfold with_new_parser.
  destruct (TokenContext_init (parseable_tokens text)) as [c [u|x]].
  2:{ split; [intros st' s; split; discriminate|discriminate]. }
  set (st0 := mkState (mkParser text c []) (wld (no_parser w)) (emitted (no_parser w))).
  split.
  - intros st' s.
    pose proof (single_body (parse_one_at depth None) st0) as B.
    destruct (parse_one_body (parse_one_at depth None) None st0) as [s1 r1].
    destruct (all_specs (parse_one_at depth None) st0) as [s2 r2].
    split; intros H; injection H as <- ->.
    + pose proof (proj1 (B s1 s) eq_refl) as E. injection E as -> ->. reflexivity.
    + pose proof (proj2 (B s2 s) eq_refl) as E. injection E as -> ->. reflexivity.
  - intros st'.
    pose proof (none_body (parse_one_at depth None) st0) as B.
    destruct (all_specs (parse_one_at depth None) st0) as [s2 r2].
    intros H. injection H as <- ->.
    rewrite (B s2 eq_refl). reflexivity.
Qed.

(** X1 on ["foo@1.2 +bar"]: the list that [parse] returns holds the node
    that [parse_one_or_raise] returns. *)
Lemma X1_parse_single_witness :
  @parse Ref.collaborators 0 "foo@1.2 +bar" []
  = (fst (@parse_one_or_raise Ref.collaborators 0 "foo@1.2 +bar" None []), Ok [0]).
Proof.
  apply (proj1 (proj1 (@X1_parse_single Ref.collaborators 0 "foo@1.2 +bar" [])
                  (fst (@parse_one_or_raise Ref.collaborators 0 "foo@1.2 +bar" None []))
                  0)).
  vm_compute. reflexivity.
Defined.


(** ** A closing bracket outside edge attributes *)

Section Stray.
Context {C : Collaborators}.
Variable parse_one : string -> P spec.

Lemma SpecNodeParser_parse_at_bracket s root st t :
  next_token (ctx (parser st)) = Some t -> kind t = END_EDGE_PROPERTIES ->
  SpecNodeParser_parse (Some s) root st = (st, Ok (Some s, [])).
Proof.
  destruct st as [[lit [strm cur nt pushed] memo] w em].
  cbn [ctx parser next_token]. intros -> K.
  destruct t as [k v a b sv]. cbn [kind] in K. subst k.
  unfold SpecNodeParser_parse. ev.
Qed.

(** With a closing bracket next, [next_spec] takes no token: it returns the
    node it was given, or a new one, and leaves the cursor where it was. *)
Lemma next_spec_at_bracket init st t :
  next_token (ctx (parser st)) = Some t -> kind t = END_EDGE_PROPERTIES ->
  next_spec parse_one init st
  = match init with
    | Some s => (st, Ok (Some s))
    | None => (set_wld (snd (Spec_new (wld st))) st, Ok (Some (fst (Spec_new (wld st)))))
    end.
Proof.
  intros N K. unfold next_spec. unfold bind at 1. unfold ask_ctx at 1. rewrite N.
  assert (L : forall n root cur pw st', next_token (ctx (parser st')) = Some t ->
             next_spec_loop parse_one (S n) root cur pw st' = (st', Ok pw)).
  { intros n root cur pw [[lit [strm c nt pushed] memo] w em].
    cbn [ctx parser next_token]. intros ->.
    destruct t as [k v a b sv]. cbn [kind] in K. subst k. reflexivity. }
  destruct init as [s|].
  - unfold bind at 1. unfold ret at 1.
    unfold bind at 1. rewrite (@SpecNodeParser_parse_at_bracket s true st t N K).
    unfold bind at 1. unfold ask_ctx at 1.
    unfold bind at 1. rewrite (L _ _ _ _ _ N). reflexivity.
  - unfold bind at 1. destruct (Spec_new (wld st)) as [s w'].
    cbn [fst snd].
    assert (N' : next_token (ctx (parser (set_wld w' st))) = Some t) by exact N.
    unfold bind at 1. rewrite (@SpecNodeParser_parse_at_bracket s true _ t N' K).
    unfold bind at 1. unfold ask_ctx at 1.
    unfold bind at 1. rewrite (L _ _ _ _ _ N'). reflexivity.
Qed.

Lemma all_specs_loop_at_bracket n st t :
  next_token (ctx (parser st)) = Some t -> kind t = END_EDGE_PROPERTIES ->
  snd (all_specs_loop parse_one n st) = Raise OutOfFuel.
Proof.
  revert st. induction n as [|n IH]; intros st N K; [reflexivity|].
  cbn [all_specs_loop]. unfold bind at 1.
  rewrite (@next_spec_at_bracket None st t N K).
  assert (N' : next_token (ctx (parser (set_wld (snd (Spec_new (wld st))) st))) = Some t)
    by exact N.
  pose proof (IH _ N' K) as E1.
  unfold bind.
  destruct (all_specs_loop parse_one n (set_wld (snd (Spec_new (wld st))) st))
    as [s1 [ss|x]]; cbn [fst snd] in *; [discriminate E1|exact E1].
Qed.

End Stray.

(** X2.  A closing bracket outside edge attributes is never taken: with
    such a token next, [next_spec] returns a node and leaves the cursor
    where it was.  So the iteration of [all_specs] over [next_spec] does not
    end, whatever the number of rounds it is given, and [parse_one_or_raise]
    raises the ValueError "expected a single spec, but got more", with the
    carets under that token. *)
Theorem X2_stray_bracket :
  forall (C : Collaborators) (parse_one : string -> P spec) (st : state)
         (t : Token SpecTokens),
    next_token (ctx (parser st)) = Some t -> kind t = END_EDGE_PROPERTIES ->
    (forall n, snd (all_specs_loop parse_one n st) = Raise OutOfFuel)
    /\ (forall initial_spec,
           snd (parse_one_body parse_one initial_spec st)
           = Raise (ValueError
                      (("expected a single spec, but got more:" ++ nl
                        ++ literal_str (parser st))
                       ++ colorize ("@*r{"
                                    ++ (nl ++ Py.repeat_char " " (start t)
                                        ++ Py.repeat_char "^" (String.length (value t)))
                                    ++ "}")))).
Proof.
  intros C parse_one st t N K. split.
  - intros n. exact (all_specs_loop_at_bracket parse_one n st N K).
  - intros init. unfold parse_one_body. unfold bind at 1.
    rewrite (next_spec_at_bracket parse_one init st N K).
    destruct init as [s|].
    + unfold bind, ask_ctx. rewrite N. reflexivity.
    + unfold bind, ask_ctx. 
      change (next_token (ctx (parser (set_wld (snd (Spec_new (wld st))) st))))
        with (next_token (ctx (parser st))).
      rewrite N. reflexivity.
Qed.

(** X2 on the text ["]"]: five rounds, or any other number, do not end the
    iteration, and [parse_one_or_raise] raises. *)
Lemma X2_stray_bracket_witness :
  let st := @mkState Ref.collaborators
              (@mkParser Ref.collaborators "]"
                 (fst (@TokenContext_init Ref.collaborators (parseable_tokens "]"))) [])
              [] [] in
  snd (all_specs_loop (@parse_one_at Ref.collaborators 0 None) 5 st) = Raise OutOfFuel
  /\ snd (parse_one_body (@parse_one_at Ref.collaborators 0 None) None st)
     = Raise (ValueError ("expected a single spec, but got more:" ++ nl ++ "]"
                          ++ "@*r{" ++ nl ++ "^}")).
Proof.
  cbv zeta.
  pose proof (@X2_stray_bracket Ref.collaborators (@parse_one_at Ref.collaborators 0 None)
                (@mkState Ref.collaborators
                   (@mkParser Ref.collaborators "]"
                      (fst (@TokenContext_init Ref.collaborators (parseable_tokens "]"))) [])
                   [] [])
                (mkToken END_EDGE_PROPERTIES "]" 0 1 None) eq_refl eq_refl) as [H1 H2].
  split; [exact (H1 5)|exact (H2 None)].
Defined.


(** ** The node parser ends

    [tokens_left] goes down with every token accepted; the loop of the node
    parser, which is given one turn more than there are tokens left, stops
    before its turns are used up. *)

Section Ends.
Context {C : Collaborators}.

(** An exception of the code, not the bound of the model. *)
Definition ends (x : exn) : Prop := x <> OutOfFuel.

Lemma next_from_shorter text raw raw' t :
  next_from text raw = (raw', Ok t) ->
  match t with
  | Some _ => List.length raw' < List.length raw
  | None => raw' = []
  end.
Proof.
  revert raw' t. induction raw as [|a raw IH]; intros raw' t; simpl.
  - intros E. injection E as <- <-. reflexivity.
  - destruct (SpecTokens_eqb (kind a) UNEXPECTED); [discriminate|].
    destruct (negb (SpecTokens_eqb (kind a) WS)).
    + intros E. injection E as <- <-. simpl. lia.
    + intros E. specialize (IH _ _ E). destruct t; [lia|exact IH].
Qed.

Lemma advance_left c c' t :
  next_token c = Some t -> advance c = (c', Ok tt) ->
  tokens_left c' < tokens_left c.
Proof.
  intros N. unfold advance, tokens_left. rewrite N.
  destruct (pushed_tokens c) as [|top below].
  - unfold stream_next.
    destruct (next_from (stream_text (token_stream_ c)) (remaining (token_stream_ c)))
      as [raw' [t'|x]] eqn:E; [|discriminate].
    intros A. injection A as <-. simpl.
    pose proof (next_from_shorter _ _ E) as H.
    destruct t' as [t'|]; [lia|]. subst raw'. simpl. lia.
  - intros A. injection A as <-. simpl. destruct top; lia.
Qed.

Lemma accepted_left k c0 c1 :
  kind_is k (next_token c0) = true -> advance c0 = (c1, Ok tt) ->
  tokens_left c1 < tokens_left c0.
Proof.
  intros Hk Ha. destruct (kind_is_true _ _ Hk) as (t & N & _).
  exact (advance_left _ N Ha).
Qed.

Ltac no_bound := intros; unfold ends; discriminate.

Ltac frame :=
  first [ apply triple_on_world; no_bound
        | apply triple_upd_world
        | apply triple_ask_world
        | apply triple_add_flag; no_bound
        | apply triple_first_char; no_bound
        | apply triple_split_key_value; no_bound ].

Ltac rest_of_turn IH :=
  repeat first
    [ apply IH; lia
    | eapply triple_bind; [frame|intros ? ? ->]
    | eapply triple_bind; [apply triple_current_value; no_bound|intros ? ? [-> _]]
    | match goal with |- triple _ (let (_, _) := ?x in _) _ _ => destruct x end ].

Ltac turn IH :=
  let c1 := fresh "c1" in
  let Hk := fresh "Hk" in
  let Ha := fresh "Ha" in
  intros c1 [Hk Ha]; pose proof (accepted_left _ _ Hk Ha); rest_of_turn IH.

Lemma node_loop_ends n s lc hv ws c0 :
  tokens_left c0 < n ->
  triple c0 (node_loop n s lc hv ws) (fun _ _ => True) ends.
Proof.
  revert hv ws c0. induction n as [|n IH]; intros hv ws c0 Hn; [lia|].
  cbn [node_loop].
  eapply triple_bind; [apply triple_accept_version; no_bound|].
  intros [|] c1 H.
  { destruct H as (k & Hv & Hk & Ha).
    pose proof (accepted_left _ _ Hk Ha).
    eapply triple_bind with (Q := fun _ c2 => c2 = c1).
    - destruct hv; [apply triple_raise_parsing_error; no_bound|].
      apply triple_ret. reflexivity.
    - intros _ c2 ->. rest_of_turn IH. }
  subst c1.
  eapply triple_bind; [apply triple_accept; no_bound|].
  intros [|]; [turn IH|intros c1 [_ ->]].
  eapply triple_bind; [apply triple_accept; no_bound|].
  intros [|]; [turn IH|intros c1 [_ ->]].
  eapply triple_bind; [apply triple_accept; no_bound|].
  intros [|]; [turn IH|intros c1 [_ ->]].
  eapply triple_bind; [apply triple_accept; no_bound|].
  intros [|]; [turn IH|intros c1 [_ ->]].
  eapply triple_bind; [apply triple_expect|]. intros b c1 [-> Hb].
  destruct b; [|apply triple_ret; exact I].
  eapply triple_bind; [apply triple_ask_world|]. intros h c1 ->.
  destruct (truthy h); [apply triple_ret; exact I|].
  eapply triple_bind; [apply triple_accept; no_bound|].
  intros [|]; [turn IH|intros c1 [Hk ->]].
  exfalso. unfold kind_in, kind_is in *.
  destruct (next_token c0) as [t|]; [|discriminate].
  simpl in Hb. rewrite Hk in Hb. discriminate.
Qed.


Lemma FileParser_parse_ends c0 s :
  triple c0 (FileParser_parse s) (fun _ _ => True) ends.
Proof.
  unfold FileParser_parse.
  eapply triple_bind; [apply triple_current_value; no_bound|].
  intros v c1 [-> _].
  eapply triple_bind; [apply triple_ask_world|]. intros b c1 ->.
  destruct (negb b); [apply triple_raise; no_bound|].
  eapply triple_bind with (Q := same c0).
  { destruct (Py.ends_with ".json" (Path_str v)); apply triple_on_world; no_bound. }
  intros s' c1 ->.
  eapply triple_bind; [apply triple_on_world; no_bound|].
  intros _ c1 ->. apply triple_ret. exact I.
Qed.

Lemma SpecNodeParser_parse_ends init root c0 :
  triple c0 (SpecNodeParser_parse init root) (fun _ _ => True) ends.
Proof.
  unfold SpecNodeParser_parse.
  eapply triple_bind with (Q := same c0).
  { destruct init; [apply triple_ret; reflexivity|apply triple_Spec_new]. }
  intros s c1 ->.
  eapply triple_bind with (Q := same c0).
  { unfold or_else.
    eapply triple_bind with (Q := same c0).
    - eapply triple_bind; [apply triple_ask_ctx|]. intros nt c1 [-> _].
      apply triple_ret. reflexivity.
    - intros b c1 ->. destruct b; [apply triple_ret; reflexivity|].
      eapply triple_post; [apply triple_expect|]. intros b c1 [-> _]. reflexivity. }
  intros at_end c1 ->. destruct at_end; [apply triple_ret; exact I|].
  eapply triple_bind; [apply triple_accept; no_bound|].
  intros is_name c1 _.
  eapply triple_bind with (Q := fun (_ : bool) (_ : TokenContext) => True).
  { destruct is_name.
    - eapply triple_bind; [apply triple_current_value; no_bound|].
      intros v c2 [-> _].
      eapply triple_bind with (Q := same c1).
      { destruct (negb (String.eqb v "*")); [apply triple_upd_world|apply triple_ret; reflexivity]. }
      intros _ c2 ->. apply triple_ret. exact I.
    - eapply triple_bind; [apply triple_accept; no_bound|].
      intros [|] c2 H2.
      + eapply triple_bind; [apply triple_current_value; no_bound|].
        intros v c3 [-> _].
        eapply triple_bind; [apply triple_upd_world|]. intros _ c3 ->.
        eapply triple_bind; [apply triple_upd_world|]. intros _ c3 ->.
        apply triple_ret. exact I.
      + eapply triple_post; [apply triple_accept; no_bound|].
        intros b c3 _. exact I. }
  clear c1.
  intros [|] c1 _.
  - eapply triple_bind; [apply FileParser_parse_ends|].
    intros s' c2 _. apply triple_ret. exact I.
  - eapply triple_bind; [apply triple_ask_ctx|]. intros c c2 [-> ->].
    eapply triple_bind; [apply node_loop_ends; lia|].
    intros ws c2 _. apply triple_ret. exact I.
Qed.

End Ends.

(** X3.  [SpecNodeParser.parse] ends: every turn of its loop that goes
    round again has taken a token, so the turns are at most the tokens that
    the cursor can still serve, plus one.  With that bound the model never
    runs out, for any node, cursor and collaborators. *)
Theorem X3_node_parser_ends :
  forall (C : Collaborators) (initial_spec : option spec) (root : bool) (st : state),
    snd (SpecNodeParser_parse initial_spec root st) <> Raise OutOfFuel.
Proof.
  intros C init root st.
  pose proof (@SpecNodeParser_parse_ends C init root (ctx (parser st)) st eq_refl) as H.
  destruct (SpecNodeParser_parse init root st) as [st' [a|x]]; [discriminate|].
  simpl. intros E. injection E as ->. apply H. reflexivity.
Qed.


(** ** The list of tokens and the cursor *)

Section EagerFacts.
Context {C : Collaborators}.

(** The tokens of [raw] as [tokenize] yields them, whitespace filtered
    out. *)
Definition not_ws (x : token) : bool := negb (SpecTokens_eqb (kind x) WS).

Definition eager (text : string) (raw : list token) : result exn (list token) :=
  match tokenize_from text raw with
  | Ok ts => Ok (filter not_ws ts)
  | Raise x => Raise x
  end.

Lemma eager_cons text a raw :
  SpecTokens_eqb (kind a) UNEXPECTED = false ->
  eager text (a :: raw)
  = if not_ws a
    then match eager text raw with
         | Ok ts => Ok (a :: ts)
         | Raise x => Raise x
         end
    else eager text raw.
Proof.
  intros U. unfold eager. cbn [tokenize_from]. rewrite U.
  destruct (tokenize_from text raw) as [ts|x].
  - cbn [filter]. destruct (not_ws a); reflexivity.
  - destruct (not_ws a); reflexivity.
Qed.

Lemma eager_next text raw :
  match next_from text raw with
  | (raw', Ok (Some t)) =>
      eager text raw = match eager text raw' with
                       | Ok ts => Ok (t :: ts)
                       | Raise x => Raise x
                       end
      /\ List.length raw' < List.length raw
  | (raw', Ok None) => eager text raw = Ok [] /\ raw' = []
  | (_, Raise x) => eager text raw = Raise x
  end.
Proof.
  induction raw as [|a raw IH]; cbn [next_from].
  - split; reflexivity.
  - destruct (SpecTokens_eqb (kind a) UNEXPECTED) eqn:U.
    { unfold eager. cbn [tokenize_from]. rewrite U. reflexivity. }
    pose proof (@eager_cons text a raw U) as EC. unfold not_ws in EC.
    destruct (negb (SpecTokens_eqb (kind a) WS)).
    + split; [exact EC|simpl; lia].
    + destruct (next_from text raw) as [raw' [[t|]|x]].
      * destruct IH as [IH L]. split; [exact (eq_trans EC IH)|simpl; lia].
      * destruct IH as [IH E]. split; [exact (eq_trans EC IH)|exact E].
      * exact (eq_trans EC IH).
Qed.

Lemma drain_stream text : forall n raw cur t,
  List.length raw + 2 <= n ->
  drain n (mkContext (mkStream text raw) cur (Some t) [])
  = match eager text raw with
    | Ok ts => Ok (t :: ts)
    | Raise x => Raise x
    end.
Proof.
  induction n as [|n IH]; intros raw cur t Hn; [lia|].
  cbn [drain next_token]. unfold advance, stream_next.
  cbn [pushed_tokens token_stream_ stream_text remaining next_token].
  pose proof (eager_next text raw) as E.
  destruct (next_from text raw) as [raw' [[t'|]|x]].
  - destruct E as [-> L]. rewrite IH by lia. reflexivity.
  - destruct E as [-> ->]. destruct n as [|n]; [simpl in Hn; lia|]. reflexivity.
  - rewrite E. reflexivity.
Qed.

End EagerFacts.

(** X4.  [SpecParser.tokens()] returns exactly the tokens that the cursor
    of the parser serves, in their order, when it is advanced until it is
    exhausted; and when the text holds an unexpected token, [tokens()]
    raises the tokenization error that the cursor raises, when it is made
    or on the way. *)
Theorem X4_tokens_as_served :
  forall (C : Collaborators) (p : SpecParser),
    SpecParser_tokens p = cursor_tokens (literal_str p).
Proof.
  intros C p.
  change (SpecParser_tokens p)
    with (eager (literal_str p) (SPEC_TOKENIZER_tokenize (literal_str p))).
  unfold cursor_tokens, TokenContext_init, parseable_tokens, advance, stream_next.
  cbn [pushed_tokens token_stream_ stream_text remaining next_token].
  generalize (SPEC_TOKENIZER_tokenize (literal_str p)). intros raw.
  pose proof (eager_next (literal_str p) raw) as E.
  destruct (next_from (literal_str p) raw) as [raw' [[t|]|x]].
  - destruct E as [E L]. unfold tokens_left.
    cbn [pushed_tokens token_stream_ remaining next_token List.length].
    rewrite drain_stream by lia. exact E.
  - destruct E as [E _]. exact E.
  - exact E.
Qed.


(** ** A blank text *)

Section Blank.
Context {C : Collaborators}.

Lemma next_from_blank text raw :
  forallb (fun t => SpecTokens_eqb (kind t) WS) raw = true ->
  next_from text raw = ([], Ok None).
Proof.
  induction raw as [|a raw IH]; cbn [forallb next_from]; [reflexivity|].
  intros H. apply andb_true_iff in H. destruct H as [Ha H].
  destruct (kind a); try discriminate Ha. cbn. exact (IH H).
Qed.

Lemma next_from_None text raw raw' :
  next_from text raw = (raw', Ok None) ->
  forallb (fun t => SpecTokens_eqb (kind t) WS) raw = true.
Proof.
  induction raw as [|a raw IH]; cbn [forallb next_from]; [reflexivity|].
  destruct (SpecTokens_eqb (kind a) UNEXPECTED); [discriminate|].
  destruct (SpecTokens_eqb (kind a) WS); cbn [negb andb]; [exact IH|discriminate].
Qed.

Lemma init_next text :
  match TokenContext_init (parseable_tokens text) with
  | (c, Ok _) => (next_token c = None <-> blank_text text = true)
  | (_, Raise _) => blank_text text = false
  end.
Proof.
  unfold TokenContext_init, parseable_tokens, advance, stream_next, blank_text.
  cbn [pushed_tokens token_stream_ stream_text remaining next_token].
  generalize (SPEC_TOKENIZER_tokenize text). intros raw.
  destruct (next_from text raw) as [raw' [[t|]|x]] eqn:E; cbn [next_token].
  - split; [discriminate|]. intros B. rewrite (next_from_blank text raw B) in E.
    discriminate E.
  - split; [intros _; exact (next_from_None _ _ E)|reflexivity].
  - destruct (forallb (fun t => SpecTokens_eqb (kind t) WS) raw) eqn:B; [|reflexivity].
    rewrite (next_from_blank text raw B) in E. discriminate E.
Qed.

End Blank.

(** X5.  [parse(text)] returns the empty list exactly when the text is
    blank, that is when it has no token but whitespace; the parse then
    leaves the world as it was and issues no warning. *)
Theorem X5_blank_text :
  forall (C : Collaborators) (depth : nat) (text : string) (w : world),
    ((exists st', parse depth text w = (st', Ok [])) <-> blank_text text = true)
    /\ (blank_text text = true -> parse depth text w = (no_parser w, Ok [])).
Proof.
  intros C depth text w.
  assert (B : blank_text text = true -> parse depth text w = (no_parser w, Ok [])).
  { intros H. unfold parse, with_new_parser.
    pose proof (init_next text) as I.
    destruct (TokenContext_init (parseable_tokens text)) as [c [u|x]];
      [|rewrite H in I; discriminate I].
    apply I in H. unfold all_specs.
    unfold bind at 1. unfold ask_ctx at 1.
    rewrite all_specs_loop_end by exact H. reflexivity. }
  split; [|exact B]. split; [|intros H; eexists; exact (B H)].
  intros [st' H]. unfold parse, with_new_parser in H.
  pose proof (init_next text) as I.
  destruct (TokenContext_init (parseable_tokens text)) as [c [u|x]]; [|discriminate H].
  apply I.
  set (st0 := mkState (mkParser text c []) (wld (no_parser w)) (emitted (no_parser w))) in *.
  destruct (all_specs (parse_one_at depth None) st0) as [s1 r] eqn:E.
  injection H as _ ->.
  unfold all_specs in E.
  apply bind_Ok in E as (s0 & c' & H0 & E).
  unfold ask_ctx in H0. injection H0 as <- <-.
  cbn [all_specs_loop] in E.
  apply bind_Ok in E as (sA & r & HA & E).
  destruct r as [r|].
  - apply bind_Ok in E as (sD & ss & _ & E). discriminate E.
  - apply next_spec_None in HA as [N _]. exact N.
Qed.

(** X5 on a text of two blanks. *)
Lemma X5_blank_text_witness :
  @parse Ref.collaborators 0 "  " [Ref.empty_node]
  = (@no_parser Ref.collaborators [Ref.empty_node], Ok []).
Proof.
  apply (proj2 (@X5_blank_text Ref.collaborators 0 "  " [Ref.empty_node])).
  vm_compute. reflexivity.
Defined.


(** ** A second hash *)

(** Runs a command of the node parser on the state at hand. *)
Ltac walk :=
  norm;
  lazymatch goal with
  | |- bind _ _ _ = _ => eapply bind_run; [walk | walk]
  | |- or_else _ _ _ = _ => unfold or_else; walk
  | |- (_, _) = _ => reflexivity
  | |- (if truthy _ then _ else _) _ = _ =>
      match goal with
      | H : truthy _ = _ |- _ => rewrite H; walk
      end
  | |- node_loop (S ?n) _ _ _ _ _ = _ =>
      let x := fresh "fuel" in
      set (x := n); cbn [node_loop]; subst x; walk
  | |- _ => prim
  end.

Section Hash.
Context {C : Collaborators}.

Lemma node_loop_second_hash n s lc hv pw st t1 t2 c1 :
  next_token (ctx (parser st)) = Some t1 -> kind t1 = DAG_HASH ->
  advance (ctx (parser st)) = (c1, Ok tt) ->
  next_token c1 = Some t2 -> kind t2 = DAG_HASH ->
  truthy (get_abstract_hash s (wld st)) = false ->
  truthy (get_abstract_hash s (set_abstract_hash s (Py.drop 1 (value t1)) (wld st)))
  = true ->
  node_loop (S (S n)) s lc hv pw st
  = (mkState (mkParser (literal_str (parser st)) c1 (parsed_toolchains (parser st)))
             (set_abstract_hash s (Py.drop 1 (value t1)) (wld st)) (emitted st),
     Ok (warn_if_after_compiler lc (value t1) pw)).
Proof.
  destruct st as [[lit c memo] w em]. cbn [ctx parser wld literal_str parsed_toolchains emitted].
  destruct c as [strm cur nt pushed]. cbn [next_token]. intros -> K1 A N2 K2 H1 H2.
  destruct t1 as [k1 v1 a1 b1 sv1]. cbn [kind value] in *. subst k1.
  destruct c1 as [strm1 cur1 nt1 pushed1]. cbn [next_token] in N2. subst nt1.
  destruct t2 as [k2 v2 a2 b2 sv2]. cbn [kind] in K2. subst k2.
  assert (Ecur : cur1 = Some (mkToken DAG_HASH v1 a1 b1 sv1)).
  { exact (advance_Ok_current _ A). }
  subst cur1.
  walk.
Qed.


Lemma SpecNodeParser_parse_at_hash s root st t :
  next_token (ctx (parser st)) = Some t -> kind t = DAG_HASH ->
  SpecNodeParser_parse (Some s) root st
  = bind (node_loop (S (tokens_left (ctx (parser st)))) s None false [])
         (fun ws => ret (Some s, ws)) st.
Proof.
  destruct st as [[lit c memo] w em]. cbn [ctx parser].
  destruct c as [strm cur nt pushed]. cbn [next_token]. intros -> K.
  destruct t as [k v a b sv]. cbn [kind] in K. subst k.
  unfold SpecNodeParser_parse. unfold or_else. prim_unfold. norm. reflexivity.
Qed.

End Hash.

(** X6.  A node takes one hash.  When the node parser meets a hash token
    and its node has no hash yet, it takes the token and sets the hash; when
    the token after it is a hash token again, the parser returns and leaves
    that token as the next one: no error is raised, and the second hash
    goes to whatever is parsed next.  (That the node reads as having a hash
    once it was set is the collaborator's part, and a hypothesis.) *)
Theorem X6_second_hash :
  forall (C : Collaborators) (s : spec) (root : bool) (st : state)
         (t1 t2 : Token SpecTokens) (c1 : TokenContext),
    next_token (ctx (parser st)) = Some t1 -> kind t1 = DAG_HASH ->
    advance (ctx (parser st)) = (c1, Ok tt) ->
    next_token c1 = Some t2 -> kind t2 = DAG_HASH ->
    truthy (get_abstract_hash s (wld st)) = false ->
    truthy (get_abstract_hash s (set_abstract_hash s (Py.drop 1 (value t1)) (wld st)))
    = true ->
    SpecNodeParser_parse (Some s) root st
    = (mkState (mkParser (literal_str (parser st)) c1 (parsed_toolchains (parser st)))
               (set_abstract_hash s (Py.drop 1 (value t1)) (wld st)) (emitted st),
       Ok (Some s, [])).
Proof.
  intros C s root st t1 t2 c1 N1 K1 A N2 K2 H1 H2.
  rewrite (@SpecNodeParser_parse_at_hash C s root st t1 N1 K1).
  unfold tokens_left. rewrite N1, Nat.add_1_r.
  unfold bind.
  rewrite (@node_loop_second_hash C _ s None false [] st t1 t2 c1 N1 K1 A N2 K2 H1 H2).
  reflexivity.
Qed.

(** X6 on ["/abc/def"]: the node gets the hash [abc]. *)
Lemma X6_second_hash_witness :
  Ref.outcome (@SpecNodeParser_parse Ref.collaborators (Some 0) true
                 (@mkState Ref.collaborators
                    (@mkParser Ref.collaborators "/abc/def"
                       (fst (@TokenContext_init Ref.collaborators
                               (parseable_tokens "/abc/def"))) [])
                    [Ref.empty_node] []))
  = (Ok (Some 0, []), [Ref.mkNode None None None [] (Some "abc") []]).
Proof.
  unfold Ref.outcome.
  rewrite (@X6_second_hash Ref.collaborators 0 true _
             (mkToken DAG_HASH "/abc" 0 4 None) (mkToken DAG_HASH "/def" 4 8 None)
             (mkContext (mkStream "/abc/def" []) (Some (mkToken DAG_HASH "/abc" 0 4 None))
                        (Some (mkToken DAG_HASH "/def" 4 8 None)) []));
    vm_compute; reflexivity.
Defined.


(** ** Namespace and name *)

Module SplitFacts.

Lemma join_cons sep p q qs :
  Py.join sep (p :: q :: qs) = (p ++ sep ++ Py.join sep (q :: qs))%string.
Proof. reflexivity. Qed.

(** [c.join(s.split(c)) == s] *)
Lemma join_split c s : Py.join (String c EmptyString) (Py.split_char c s) = s.
Proof.
  induction s as [|a s IH]; [reflexivity|].
  cbn [Py.split_char]. destruct (Ascii.eqb a c) eqn:E.
  - apply Ascii.eqb_eq in E. subst a.
    destruct (split_char_cons c s) as (p & ps & Hp). rewrite Hp in *.
    rewrite join_cons, IH. reflexivity.
  - destruct (split_char_cons c s) as (p & ps & Hp). rewrite Hp in *.
    destruct ps as [|q qs].
    + cbn [Py.join] in *. rewrite IH. reflexivity.
    + rewrite join_cons in *. cbn [append]. f_equal. exact IH.
Qed.

(** No piece of [s.split(c)] holds [c]. *)
Lemma split_pieces c s :
  Forall (fun p => Py.mem_char c p = false) (Py.split_char c s).
Proof.
  induction s as [|a s IH]; [repeat constructor|].
  cbn [Py.split_char]. destruct (Ascii.eqb a c) eqn:E.
  - constructor; [reflexivity|exact IH].
  - destruct (Py.split_char c s) as [|p ps]; [repeat constructor; simpl; rewrite E; reflexivity|].
    inversion IH as [|? ? Hp Hps]; subst.
    constructor; [|exact Hps]. simpl. rewrite E. exact Hp.
Qed.

(** One piece only when [c] does not occur. *)
Lemma split_single c s p :
  Py.split_char c s = [p] -> Py.mem_char c s = false.
Proof.
  intros H. pose proof (join_split c s) as J. rewrite H in J. cbn [Py.join] in J.
  subst p. pose proof (split_pieces c s) as F. rewrite H in F.
  inversion F; assumption.
Qed.

Lemma join_snoc sep l x :
  l <> [] -> Py.join sep (l ++ [x]) = (Py.join sep l ++ sep ++ x)%string.
Proof.
  induction l as [|p l IH]; [congruence|]. intros _.
  destruct l as [|q l]; [reflexivity|].
  change ((p :: q :: l) ++ [x]) with (p :: (q :: l) ++ [x]).
  change ((q :: l) ++ [x]) with (q :: l ++ [x]) at 1.
  rewrite join_cons.
  change (q :: l ++ [x]) with ((q :: l) ++ [x]).
  rewrite IH by discriminate. rewrite join_cons.
  rewrite <- !EngineFacts.append_assoc. reflexivity.
Qed.

(** [parts = s.split(c)], [c.join(parts[:-1])] and [parts[-1]]: the text
    before the last [c] and the text after it. *)
Lemma split_last c s :
  Py.mem_char c s = true ->
  s = (Py.join (String c EmptyString) (removelast (Py.split_char c s))
       ++ String c EmptyString ++ last (Py.split_char c s) EmptyString)%string
  /\ Py.mem_char c (last (Py.split_char c s) EmptyString) = false.
Proof.
  intros H.
  pose proof (join_split c s) as J. pose proof (split_pieces c s) as F.
  destruct (split_char_cons c s) as (p & ps & Hp).
  assert (Hne : Py.split_char c s <> []) by (rewrite Hp; discriminate).
  pose proof (app_removelast_last EmptyString Hne) as D.
  split.
  - rewrite <- J at 1. rewrite D at 1.
    apply join_snoc.
    rewrite Hp. destruct ps as [|q qs]; [|discriminate].
    rewrite (split_single _ _ Hp) in H. discriminate H.
  - rewrite Forall_forall in F. apply F.
    rewrite D at 2. apply in_or_app. right. left. reflexivity.
Qed.

End SplitFacts.

(** X7.  A fully qualified name is cut at its last dot: for a token
    [namespace.name] the node parser sets the name to the part after the
    last dot, which holds no dot, and the namespace to the part before it,
    so that namespace, dot and name make up the token again.  Stated for a
    node that is the name alone. *)
Theorem X7_qualified_name :
  forall (C : Collaborators) (initial_spec : option spec) (root : bool) (st : state)
         (t : Token SpecTokens) (c' : TokenContext),
    next_token (ctx (parser st)) = Some t ->
    kind t = FULLY_QUALIFIED_PACKAGE_NAME ->
    Py.contains "." (value t) = true ->
    advance (ctx (parser st)) = (c', Ok tt) ->
    kind_in clause_kinds (next_token c') = false ->
    exists namespace name,
      value t = (namespace ++ "." ++ name)%string
      /\ Py.contains "." name = false
      /\ SpecNodeParser_parse initial_spec root st
         = let p := match initial_spec with
                    | Some s => (s, wld st)
                    | None => Spec_new (wld st)
                    end in
           (mkState (mkParser (literal_str (parser st)) c' (parsed_toolchains (parser st)))
                    (set_namespace (fst p) namespace (set_name (fst p) name (snd p)))
                    (emitted st),
            Ok (Some (fst p), [])).
Proof.
  intros C init root st t c' N K D A Hc.
  rewrite ReFacts.mem_char_contains in D.
  destruct (SplitFacts.split_last _ _ D) as [E1 E2].
  eexists. eexists. split; [exact E1|]. split.
  { rewrite ReFacts.mem_char_contains. exact E2. }
  rewrite (@SpecNodeParser_parse_name C init root st t c' N); [|rewrite K; reflexivity|exact A|exact Hc].
  unfold name_node. rewrite K. reflexivity.
Qed.

(** X7 on ["builtin.mock.zlib"]. *)
Lemma X7_qualified_name_witness :
  exists namespace name,
    "builtin.mock.zlib" = (namespace ++ "." ++ name)%string
    /\ Py.contains "." name = false
    /\ @SpecNodeParser_parse Ref.collaborators (Some 0) true
         (@mkState Ref.collaborators
            (@mkParser Ref.collaborators "builtin.mock.zlib"
               (fst (@TokenContext_init Ref.collaborators
                       (parseable_tokens "builtin.mock.zlib"))) [])
            [Ref.empty_node] [])
       = (@mkState Ref.collaborators
            (@mkParser Ref.collaborators "builtin.mock.zlib"
               (mkContext (mkStream "builtin.mock.zlib" [])
                  (Some (mkToken FULLY_QUALIFIED_PACKAGE_NAME "builtin.mock.zlib" 0 17 None))
                  None []) [])
            (@set_namespace Ref.collaborators 0 namespace
               (@set_name Ref.collaborators 0 name [Ref.empty_node])) [],
          Ok (Some 0, [])).
Proof.
  apply (@X7_qualified_name Ref.collaborators (Some 0) true
           (@mkState Ref.collaborators
              (@mkParser Ref.collaborators "builtin.mock.zlib"
                 (fst (@TokenContext_init Ref.collaborators
                         (parseable_tokens "builtin.mock.zlib"))) [])
              [Ref.empty_node] [])
           (mkToken FULLY_QUALIFIED_PACKAGE_NAME "builtin.mock.zlib" 0 17 None)
           (mkContext (mkStream "builtin.mock.zlib" [])
              (Some (mkToken FULLY_QUALIFIED_PACKAGE_NAME "builtin.mock.zlib" 0 17 None))
              None []));
    vm_compute; reflexivity.
Defined.


(** ** Toolchains are kept *)

Lemma dict_get_set {A} key (v : A) d : dict_get key (dict_set key v d) = Some v.
Proof.
  unfold dict_get. induction d as [|[k x] d IH]; cbn [dict_set find fst snd].
  - rewrite String.eqb_refl. reflexivity.
  - destruct (String.eqb k key) eqn:E; cbn [find fst snd]; rewrite E; [reflexivity|exact IH].
Qed.

Section Memo.
Context {C : Collaborators}.
Variable parse_one : string -> P spec.

Lemma on_world_parser {A} (f : world -> world * result foreign A) st st' r :
  on_world f st = (st', r) -> parser st' = parser st.
Proof.
  unfold on_world. destruct (f (wld st)) as [w [a|e]]; intros H; injection H as <- _;
    reflexivity.
Qed.

End Memo.

(** X8.  A toolchain is parsed once for each parser.  After
    [_apply_toolchain] returned for a name, [parsed_toolchains] holds a node
    for that name, and applying the toolchain of that name again, to any
    node, only constrains that node with the one kept: the definition is
    not parsed again. *)
Theorem X8_toolchain_memo :
  forall (C : Collaborators) (parse_one : string -> P spec) (s1 s2 : spec)
         (name : string) (st st' : state),
    _apply_toolchain parse_one s1 name st = (st', Ok tt) ->
    exists toolchain,
      dict_get name (parsed_toolchains (parser st')) = Some toolchain
      /\ _apply_toolchain parse_one s2 name st'
         = on_world (constrain s2 toolchain) st'.
Proof.
  intros C parse_one s1 s2 name st st' H.
  assert (G : exists t, dict_get name (parsed_toolchains (parser st')) = Some t).
  { unfold _apply_toolchain in H.
    apply bind_Ok in H as (sA & memo & HA & H). injection HA as <- <-.
    apply bind_Ok in H as (sB & t & HB & H).
    apply on_world_parser in H. rewrite H.
    destruct (dict_get name (parsed_toolchains (parser st))) as [t0|] eqn:D.
    - injection HB as <- <-. exists t0. exact D.
    - apply bind_Ok in HB as (sC & t1 & _ & HB).
      apply bind_Ok in HB as (sD & u & HD & HB).
      injection HB as <- <-. injection HD as <-.
      exists t1. cbn [parser parsed_toolchains]. apply dict_get_set. }
  destruct G as [t G]. exists t. split; [exact G|].
  unfold _apply_toolchain. unfold bind at 1. rewrite G. reflexivity.
Qed.

(** X8 on a parser that holds the toolchain [tc]. *)
Lemma X8_toolchain_memo_witness :
  let st := @mkState Ref.collaborators
              (@mkParser Ref.collaborators EmptyString
                 (mkContext (mkStream EmptyString []) None None []) [("tc", 1)])
              [Ref.empty_node; Ref.empty_node] [] in
  exists toolchain,
    dict_get "tc" (parsed_toolchains (parser st)) = Some toolchain
    /\ _apply_toolchain (@parse_one_at Ref.collaborators 0 None) 0 "tc" st
       = on_world (@constrain Ref.collaborators 0 toolchain) st.
Proof.
  cbv zeta.
  apply (@X8_toolchain_memo Ref.collaborators (@parse_one_at Ref.collaborators 0 None) 0 0
           "tc"
           (@mkState Ref.collaborators
              (@mkParser Ref.collaborators EmptyString
                 (mkContext (mkStream EmptyString []) None None []) [("tc", 1)])
              [Ref.empty_node; Ref.empty_node] [])).
  vm_compute. reflexivity.
Defined.


(** ** What the legacy rewriter keeps and what it raises *)

Module LegacyMoves.
Import Legacy.

(** The tokens of [ts] other than whitespace. *)
Definition nonws (ts : list tok) : list tok :=
  filter (fun t => negb (is_ws t)) ts.

(** [Token(_LegacySpecTokens.WS, " ")] *)
Definition blank : tok := mkToken WS " " 0 0 None.

(** [new] holds the tokens of [old] other than whitespace, each as often,
    and as whitespace only that of [old] or the blank. *)
Definition rearranged (old new : list tok) : Prop :=
  Permutation (nonws new) (nonws old) /\ incl new (blank :: old).

Lemma nonws_app a b : nonws (a ++ b) = nonws a ++ nonws b.
Proof. apply filter_app. Qed.

Lemma rearranged_refl ts : rearranged ts ts.
Proof. split; [apply Permutation_refl|apply incl_tl, incl_refl]. Qed.

Lemma rearranged_trans a b c : rearranged a b -> rearranged b c -> rearranged a c.
Proof.
  intros [P1 I1] [P2 I2]. split.
  - eapply Permutation_trans; eassumption.
  - intros t Ht. destruct (I2 t Ht) as [<- | Hb]; [left; reflexivity|].
    apply I1. exact Hb.
Qed.

Lemma rearranged_app a b c : rearranged a b -> rearranged (a ++ c) (b ++ c).
Proof.
  intros [P1 I1]. split.
  - rewrite !nonws_app. apply Permutation_app_tail. exact P1.
  - intros t Ht. apply in_app_or in Ht. destruct Ht as [Ht | Ht].
    + destruct (I1 t Ht) as [<- | H]; [left; reflexivity|].
      right. apply in_or_app. left. exact H.
    + right. apply in_or_app. right. exact Ht.
Qed.

Lemma drop_leading_ws_rearranged b b' :
  drop_leading_ws b = Ok b' -> nonws b' = nonws b /\ incl b' b.
Proof.
  induction b as [|t b IH]; cbn [drop_leading_ws]; [discriminate|].
  unfold nonws. cbn [filter].
  destruct (is_ws t) eqn:W; cbn [negb].
  - intros H. destruct (IH H) as [E I].
    split; [exact E|apply incl_tl; exact I].
  - intros H. injection H as <-. cbn [filter]. rewrite W.
    split; [reflexivity|apply incl_refl].
Qed.

Lemma reorder_cases idx bs :
  _spec_str_reorder_compiler idx bs = Ok bs
  \/ exists B cb X, bs = B ++ cb :: X /\ idx = Z.of_nat (List.length B).
Proof.
  unfold _spec_str_reorder_compiler.
  destruct (negb ((0 <=? idx)%Z && (idx <? Z.of_nat (List.length bs) - 1)%Z)) eqn:G;
    [left; reflexivity|].
  right. apply negb_false_iff, andb_true_iff in G. destruct G as [G0 G1].
  apply Z.leb_le in G0. apply Z.ltb_lt in G1.
  exists (firstn (Z.to_nat idx) bs), (nth (Z.to_nat idx) bs []),
         (skipn (S (Z.to_nat idx)) bs).
  split.
  - assert (H : Z.to_nat idx < List.length bs) by lia.
    revert H. generalize (Z.to_nat idx). clear.
    induction bs as [|b bs IH]; intros [|n] H; simpl in *; try lia; [reflexivity|].
    rewrite <- IH by lia. reflexivity.
  - rewrite length_firstn. lia.
Qed.

Lemma move_rearranged (B X : list (list tok)) cb cb' :
  nonws cb' = nonws cb -> incl cb' (blank :: cb) ->
  rearranged (List.concat (B ++ cb :: X)) (List.concat ((B ++ X) ++ [cb'])).
Proof.
  intros N I. rewrite !concat_app.
  change (List.concat (cb :: X)) with (cb ++ List.concat X).
  change (List.concat [cb']) with (cb' ++ []). rewrite app_nil_r.
  split.
  - rewrite !nonws_app, N.
    rewrite <- app_assoc. apply Permutation_app_head. apply Permutation_app_comm.
  - intros x Hx. repeat (apply in_app_or in Hx; destruct Hx as [Hx|Hx]).
    + right. apply in_or_app. left. exact Hx.
    + right. apply in_or_app. right. apply in_or_app. right. exact Hx.
    + destruct (I x Hx) as [<-|H]; [left; reflexivity|].
      right. apply in_or_app. right. apply in_or_app. left. exact H.
Qed.

Lemma strip_rearranged b b' (Y : list tok) :
  nonws b' = nonws b -> incl b' b -> rearranged (b ++ Y) (b' ++ Y).
Proof.
  intros N I. split.
  - rewrite !nonws_app, N. apply Permutation_refl.
  - intros x Hx. right. apply in_or_app.
    apply in_app_or in Hx. destruct Hx as [Hx|Hx]; [left; apply I|right]; exact Hx.
Qed.

(** Whatever [_spec_str_reorder_compiler] returns holds the tokens it was
    given. *)
Lemma reorder_rearranged idx bs bs' :
  _spec_str_reorder_compiler idx bs = Ok bs' ->
  rearranged (List.concat bs) (List.concat bs').
Proof.
  destruct (reorder_cases idx bs) as [-> | (B & cb & X & -> & ->)].
  { intros H. injection H as <-. apply rearranged_refl. }
  rewrite LegacyRewrite.reorder_at.
  destruct (forallb (forallb is_ws) X).
  { intros H. injection H as <-. apply rearranged_refl. }
  destruct cb as [|t cb]; [discriminate|].
  set (cb' := if negb (is_ws t) then mkToken WS " " 0 0 None :: t :: cb else t :: cb).
  assert (Hcb : nonws cb' = nonws (t :: cb) /\ incl cb' (blank :: t :: cb)).
  { subst cb'. destruct (negb (is_ws t)).
    - split; [reflexivity|apply incl_refl].
    - split; [reflexivity|apply incl_tl, incl_refl]. }
  destruct Hcb as [Ncb Icb]. clearbody cb'.
  pose proof (@move_rearranged B X (t :: cb) cb' Ncb Icb) as M.
  destruct B as [|b0 B].
  - destruct X as [|b rest]; [discriminate|].
    destruct (drop_leading_ws b) as [b'|e] eqn:D; [|discriminate].
    intros H. injection H as <-.
    destruct (@drop_leading_ws_rearranged _ _ D) as [Nb Ib].
    eapply rearranged_trans; [exact M|].
    exact (@strip_rearranged b b' (List.concat (rest ++ [cb'])) Nb Ib).
  - intros H. injection H as <-. exact M.
Qed.

Lemma close_block_content t l idx a :
  List.concat (blocks (close_block t l idx a)) ++ current_block (close_block t l idx a)
  = (List.concat (blocks l) ++ current_block l) ++ [t].
Proof.
  unfold close_block. cbn [blocks current_block].
  rewrite LegacyRewrite.concat_snoc, app_nil_r, app_assoc. reflexivity.
Qed.

Lemma close_block_full t l idx a :
  full (blocks l) -> is_ws t = false -> full (blocks (close_block t l idx a)).
Proof.
  intros F W. unfold close_block. cbn [blocks].
  apply Forall_app. split; [exact F|].
  constructor; [apply LegacyProps.has_token_app_r; exact W|constructor].
Qed.

(** One turn of the loop: it returns, or goes on with the token taken into
    the blocks, or raises at a filename token. *)
Lemma body_step t l :
  full (blocks l) ->
  body t l = Return_None
  \/ (exists l', body t l = Next l' /\ full (blocks l')
                 /\ rearranged ((List.concat (blocks l) ++ current_block l) ++ [t])
                                (List.concat (blocks l') ++ current_block l'))
  \/ (body t l = Throw (ValueError_unexpected_token t) /\ is_filename t = true).
Proof.
  intros F.
  destruct (@LegacyProps.reorder_ok (compiler_block_idx l) (blocks l) F) as (bs' & R & F').
  pose proof (@reorder_rearranged _ _ _ R) as RR.
  assert (Hb : forall a, is_ws t = false ->
             let l' := close_block t (mkLocals (current_block l) bs' (-1) a) (-1) a in
             full (blocks l')
             /\ rearranged ((List.concat (blocks l) ++ current_block l) ++ [t])
                            (List.concat (blocks l') ++ current_block l')).
  { intros a W l'. split; [apply close_block_full; [exact F'|exact W]|].
    subst l'. rewrite close_block_content. cbn [blocks current_block].
    rewrite <- !app_assoc. apply rearranged_app. exact RR. }
  assert (Hc : forall idx a, is_ws t = false ->
             let l' := close_block t l idx a in
             full (blocks l')
             /\ rearranged ((List.concat (blocks l) ++ current_block l) ++ [t])
                            (List.concat (blocks l') ++ current_block l')).
  { intros idx a W l'. split; [apply close_block_full; assumption|].
    subst l'. rewrite close_block_content. apply rearranged_refl. }
  assert (Ha : let l' := mkLocals (current_block l ++ [t]) (blocks l)
                                  (compiler_block_idx l) (in_edge_attr l) in
               full (blocks l')
               /\ rearranged ((List.concat (blocks l) ++ current_block l) ++ [t])
                              (List.concat (blocks l') ++ current_block l')).
  { cbn [blocks current_block]. split; [exact F|].
    rewrite app_assoc. apply rearranged_refl. }
  unfold body, is_filename, is_ws in *. rewrite R.
  destruct (kind t) eqn:K.
  all: try (left; reflexivity).
  all: try (destruct (negb (compiler_block_idx l =? -1)%Z); [left; reflexivity|]).
  all: try (destruct (in_edge_attr l) eqn:A).
  all: try (right; right; split; reflexivity).
  all: right; left; eexists; (split; [reflexivity|]).
  all: first [ exact Ha | apply Hb; reflexivity | apply Hc; reflexivity ].
Qed.

Lemma for_tokens_inv ts : forall l,
  full (blocks l) ->
  for_tokens ts l = Return_None
  \/ (exists l', for_tokens ts l = Next l' /\ full (blocks l')
                 /\ rearranged ((List.concat (blocks l) ++ current_block l) ++ ts)
                                (List.concat (blocks l') ++ current_block l'))
  \/ (exists t, In t ts /\ is_filename t = true
                /\ for_tokens ts l = Throw (ValueError_unexpected_token t)).
Proof.
  induction ts as [|t ts IH]; intros l F.
  - right. left. exists l. split; [reflexivity|]. split; [exact F|].
    rewrite app_nil_r. apply rearranged_refl.
  - cbn [for_tokens].
    destruct (@body_step t l F) as [-> | [(l1 & -> & F1 & R1) | [-> Hf]]].
    + left. reflexivity.
    + destruct (IH l1 F1) as [-> | [(l2 & -> & F2 & R2) | (u & Hu & Hf & ->)]].
      * left. reflexivity.
      * right. left. exists l2. split; [reflexivity|]. split; [exact F2|].
        eapply rearranged_trans; [|exact R2].
        change (t :: ts) with ([t] ++ ts). rewrite app_assoc.
        apply rearranged_app. exact R1.
      * right. right. exists u. split; [right; exact Hu|]. split; [exact Hf|reflexivity].
    + right. right. exists t. split; [left; reflexivity|]. split; [exact Hf|reflexivity].
Qed.

Lemma Forall_removelast {A} (P : A -> Prop) (l : list A) :
  Forall P l -> Forall P (removelast l).
Proof.
  induction 1 as [|a l Ha Hl IH]; [constructor|].
  destruct l as [|b l]; [constructor|].
  change (removelast (a :: b :: l)) with (a :: removelast (b :: l)).
  constructor; assumption.
Qed.

(** At the end of the loop, too, [_spec_str_reorder_compiler] does not
    raise: only the last block can be all whitespace. *)
Lemma reorder_safe idx bs :
  full (removelast bs) -> exists bs', _spec_str_reorder_compiler idx bs = Ok bs'.
Proof.
  intros F.
  destruct (reorder_cases idx bs) as [-> | (B & cb & X & -> & ->)];
    [eexists; reflexivity|].
  rewrite LegacyRewrite.reorder_at.
  destruct (forallb (forallb is_ws) X) eqn:W; [eexists; reflexivity|].
  destruct X as [|b rest]; [discriminate W|].
  assert (E : removelast (B ++ cb :: b :: rest) = B ++ cb :: removelast (b :: rest)).
  { rewrite removelast_app by discriminate. reflexivity. }
  rewrite E in F. apply Forall_app in F. destruct F as [_ F].
  inversion F as [|? ? Hcb Hrest]; subst.
  destruct cb as [|t cb]; [discriminate Hcb|].
  destruct B as [|b0 B]; [|eexists; reflexivity].
  assert (Hb : has_token b = true).
  { destruct rest as [|b1 rest].
    - cbn [forallb] in W. rewrite andb_true_r in W.
      unfold has_token. clear -W. induction b as [|x b IH]; [discriminate|].
      cbn [forallb existsb] in *. destruct (is_ws x); [exact (IH W)|reflexivity].
    - change (removelast (b :: b1 :: rest)) with (b :: removelast (b1 :: rest)) in Hrest.
      inversion Hrest; assumption. }
  destruct (@LegacyProps.drop_leading_ws_ok b Hb) as (b' & -> & _).
  eexists. reflexivity.
Qed.

Lemma closing_safe l :
  full (blocks l) -> full (removelast (closing l)).
Proof.
  intros F. unfold closing. destruct (current_block l) as [|t cb].
  - apply Forall_removelast. exact F.
  - rewrite removelast_last. exact F.
Qed.

(** What [_spec_str_format] does, for any string. *)
Lemma format_cases s :
  _spec_str_format s = Ok None
  \/ (exists ts', _spec_str_format s = Ok (changed s (values ts'))
                  /\ rearranged (legacy_tokenize s) ts')
  \/ (exists t, In t (legacy_tokenize s) /\ is_filename t = true
                /\ _spec_str_format s = Raise (ValueError_unexpected_token t)).
Proof.
  destruct (@for_tokens_inv (legacy_tokenize s) (mkLocals [] [] (-1) false)
              LegacyProps.full_nil)
    as [H | [(l & H & F & R) | (t & Ht & Hf & H)]].
  - left. unfold _spec_str_format. rewrite H. reflexivity.
  - right. left.
    destruct (@reorder_safe (compiler_block_idx l) (closing l) (@closing_safe l F)) as [bs E].
    exists (List.concat bs). split; [exact (@LegacyRewrite.finish s l bs H E)|].
    cbn [blocks current_block List.concat app] in R.
    eapply rearranged_trans; [exact R|].
    rewrite <- LegacyRewrite.concat_closing.
    exact (@reorder_rearranged _ _ _ E).
  - right. right. exists t. split; [exact Ht|]. split; [exact Hf|].
    unfold _spec_str_format. rewrite H. reflexivity.
Qed.

End LegacyMoves.

(** X9.  [_spec_str_format] raises nothing but the ValueError of its last
    branch, and that only at a filename token of the string; the indexing
    of [_spec_str_reorder_compiler] never goes out of range. *)
Theorem X9_format_raises :
  forall (s : string) (e : Legacy.error),
    Legacy._spec_str_format s = Raise e ->
    exists t, In t (Legacy.legacy_tokenize s) /\ kind t = Legacy.FILENAME
              /\ e = Legacy.ValueError_unexpected_token t.
Proof.
  intros s e H.
  destruct (LegacyMoves.format_cases s) as [E | [(ts' & E & R) | (t & Ht & Hf & E)]];
    rewrite E in H; try discriminate.
  injection H as <-. exists t. split; [exact Ht|]. split; [|reflexivity].
  unfold Legacy.is_filename in Hf. destruct (kind t); try discriminate. reflexivity.
Qed.

(** X9 on ["./a.yaml %gcc"]. *)
Lemma X9_format_raises_witness :
  exists t, In t (Legacy.legacy_tokenize "./a.yaml %gcc")
            /\ kind t = Legacy.FILENAME
            /\ Legacy.ValueError_unexpected_token
                 (mkToken Legacy.FILENAME "./a.yaml" 0 8 None)
               = Legacy.ValueError_unexpected_token t.
Proof.
  apply (@X9_format_raises "./a.yaml %gcc"). vm_compute. reflexivity.
Defined.

(** X10.  The rewriter only moves tokens.  A string that
    [_spec_str_format] returns differs from its input and is made of the
    tokens of the input: every token other than whitespace is in it as often
    as in the input, and its whitespace is whitespace of the input or the
    one blank that is put in front of a moved compiler clause. *)
Theorem X10_format_only_moves :
  forall (s new : string),
    Legacy._spec_str_format s = Ok (Some new) ->
    exists ts', new <> s /\ new = Legacy.values ts'
                /\ LegacyMoves.rearranged (Legacy.legacy_tokenize s) ts'.
Proof.
  intros s new H.
  destruct (LegacyMoves.format_cases s) as [E | [(ts' & E & R) | (t & _ & _ & E)]];
    rewrite E in H; try discriminate.
  exists ts'. unfold Legacy.changed in H.
  destruct (String.eqb s (Legacy.values ts')) eqn:E'; [discriminate|].
  injection H as <-. apply String.eqb_neq in E'.
  split; [congruence|]. split; [reflexivity|exact R].
Qed.

(** X10 on ["foo %gcc +x"], which is rewritten to ["foo +x %gcc"]. *)
Lemma X10_format_only_moves_witness :
  exists ts', "foo +x %gcc" <> "foo %gcc +x"
              /\ "foo +x %gcc" = Legacy.values ts'
              /\ LegacyMoves.rearranged (Legacy.legacy_tokenize "foo %gcc +x") ts'.
Proof.
  apply (@X10_format_only_moves "foo %gcc +x" "foo +x %gcc"). vm_compute. reflexivity.
Defined.


(** ** The fix handler *)

Module FixFacts.
Import Fix.

Lemma starts_with_split old s :
  Py.starts_with old s = true -> s = (old ++ Py.drop (String.length old) s)%string.
Proof.
  revert s. induction old as [|a old IH]; intros s H; [destruct s; reflexivity|].
  destruct s as [|b s]; [discriminate H|].
  cbn [Py.starts_with] in H. apply andb_true_iff in H. destruct H as [E H].
  apply Ascii.eqb_eq in E. subst b.
  cbn [String.length Py.drop append]. f_equal. exact (IH s H).
Qed.

Lemma replace_absent old new n s :
  Py.contains old s = false -> Py.replace_fuel n old new s = s.
Proof.
  revert s. induction n as [|n IH]; intros s H; [reflexivity|].
  destruct s as [|c s]; [reflexivity|].
  cbn [Py.contains] in H. apply orb_false_iff in H. destruct H as [H1 H2].
  cbn [Py.replace_fuel]. rewrite H1. rewrite (IH s H2). reflexivity.
Qed.

(** How the length changes: it grows, shrinks or stays with the length of
    [new] against that of [old]. *)
Lemma replace_length old new : forall n s,
  String.length s <= n -> 1 <= String.length old ->
  (String.length old <= String.length new ->
   String.length s <= String.length (Py.replace_fuel n old new s))
  /\ (String.length new <= String.length old ->
      String.length (Py.replace_fuel n old new s) <= String.length s).
Proof.
  induction n as [n IH] using lt_wf_ind. intros s Hn Ho.
  destruct n as [|n]; [split; intros; reflexivity|].
  destruct s as [|c s]; [split; intros; reflexivity|].
  cbn [Py.replace_fuel].
  destruct (Py.starts_with old (String c s)) eqn:W.
  - pose proof (starts_with_split _ _ W) as E.
    assert (L : String.length (String c s)
                = String.length old + String.length (Py.drop (String.length old) (String c s))).
    { rewrite E at 1. apply ReFacts.length_append. }
    assert (Hf : String.length (Py.drop (String.length old) (String c s))
                 <= n - (String.length old - 1)) by lia.
    destruct (IH (n - (String.length old - 1)) ltac:(lia) _ Hf Ho) as [G1 G2].
    rewrite ReFacts.length_append. split; intros H; [specialize (G1 H)|specialize (G2 H)]; lia.
  - cbn [String.length] in *.
    destruct (IH n ltac:(lia) s ltac:(lia) Ho) as [G1 G2].
    split; intros H; [specialize (G1 H)|specialize (G2 H)]; lia.
Qed.

Lemma append_same_length a b x y :
  String.length a = String.length b -> (a ++ x)%string = (b ++ y)%string -> a = b.
Proof.
  revert b. induction a as [|c a IH]; intros [|d b] L E; try discriminate L.
  - reflexivity.
  - cbn [append] in E. injection E as -> E. f_equal. apply IH; [|exact E].
    simpl in L. lia.
Qed.

(** A line in which [old] occurs does not stay as it is. *)
Lemma replace_changes old new : forall n s,
  String.length s <= n -> 1 <= String.length old -> old <> new ->
  Py.contains old s = true -> Py.replace_fuel n old new s <> s.
Proof.
  induction n as [|n IH]; intros s Hn Ho Hd Hc.
  - destruct s; [|simpl in Hn; lia].
    destruct old; [simpl in Ho; lia|discriminate Hc].
  - destruct s as [|c s].
    { destruct old; [simpl in Ho; lia|discriminate Hc]. }
    cbn [Py.replace_fuel].
    destruct (Py.starts_with old (String c s)) eqn:W.
    + pose proof (starts_with_split _ _ W) as E.
      set (rest := Py.drop (String.length old) (String c s)) in *.
      assert (L : String.length (String c s) = String.length old + String.length rest).
      { rewrite E at 1. apply ReFacts.length_append. }
      assert (Hf : String.length rest <= n - (String.length old - 1)) by lia.
      destruct (@replace_length old new _ rest Hf Ho) as [G1 G2].
      intros X0.
      assert (X : (new ++ Py.replace_fuel (n - (String.length old - 1)) old new rest)%string
                  = (old ++ rest)%string) by (rewrite <- E; exact X0).
      pose proof (f_equal String.length X) as XL. rewrite !ReFacts.length_append in XL.
      assert (LL : String.length new = String.length old).
      { destruct (Nat.le_ge_cases (String.length old) (String.length new)) as [H|H];
          [specialize (G1 H)|specialize (G2 H)]; lia. }
      apply Hd. symmetry. exact (append_same_length _ _ _ _ LL X).
    + cbn [Py.contains] in Hc. rewrite W in Hc. cbn [orb] in Hc.
      intros X. injection X as X.
      apply (IH s); try assumption. simpl in Hn. lia.
Qed.

Lemma str_replace_same old new s :
  old <> EmptyString -> old <> new ->
  (str_replace old new s = s <-> Py.contains old s = false).
Proof.
  intros Ho Hd. destruct old as [|a old]; [congruence|].
  unfold str_replace, Py.replace. split.
  - intros E. destruct (Py.contains (String a old) s) eqn:Hc; [|reflexivity].
    exfalso. revert E. apply replace_changes; try assumption; [reflexivity|simpl; lia].
  - apply replace_absent.
Qed.

End FixFacts.

(** X11.  The fix handler rewrites the line it is sent to exactly when
    the old string occurs in that line (the strings being distinct and the
    old one not empty).  It then writes the file back with as many lines,
    that line with every occurrence of the old string replaced, whatever
    the column, and every other line as it was; otherwise it warns and
    writes nothing. *)
Theorem X11_fix_applied :
  forall (path : string) (line col : nat) (old new : string) (lines : list string)
         (i : nat),
    Fix.py_index (List.length lines) (Z.of_nat line - 1) = Some i ->
    old <> EmptyString -> old <> new ->
    match Fix._spec_str_fix_handler path line col old new lines with
    | Ok (Fix.Fixed written _) =>
        Py.contains old (nth i lines EmptyString) = true
        /\ List.length written = List.length lines
        /\ nth i written EmptyString = Py.replace old new (nth i lines EmptyString)
        /\ (forall j, j <> i -> nth j written EmptyString = nth j lines EmptyString)
    | Ok (Fix.NotApplied _) => Py.contains old (nth i lines EmptyString) = false
    | Raise _ => False
    end.
Proof.
  intros path line col old new lines i Hi Ho Hd.
  assert (Hlt : i < List.length lines).
  { unfold Fix.py_index in Hi.
    destruct ((0 <=? Z.of_nat line - 1) && (Z.of_nat line - 1 <? Z.of_nat (List.length lines)))%Z eqn:E1.
    - injection Hi as <-. apply andb_true_iff in E1. destruct E1 as [A B].
      apply Z.leb_le in A. apply Z.ltb_lt in B. lia.
    - destruct ((Z.of_nat line - 1 <? 0) && (- Z.of_nat (List.length lines) <=? Z.of_nat line - 1))%Z eqn:E2;
        [|discriminate].
      injection Hi as <-. apply andb_true_iff in E2. destruct E2 as [A B].
      apply Z.ltb_lt in A. apply Z.leb_le in B. lia. }
  unfold Fix._spec_str_fix_handler. rewrite Hi. cbv zeta.
  pose proof (@FixFacts.str_replace_same old new (nth i lines EmptyString) Ho Hd) as S.
  destruct (String.eqb (Fix.str_replace old new (nth i lines EmptyString))
                       (nth i lines EmptyString)) eqn:E.
  - apply String.eqb_eq in E. apply S. exact E.
  - apply String.eqb_neq in E.
    assert (Hc : Py.contains old (nth i lines EmptyString) = true).
    { destruct (Py.contains old (nth i lines EmptyString)); [reflexivity|].
      exfalso. apply E. apply S. reflexivity. }
    assert (Hf : List.length (firstn i lines) = i) by (rewrite length_firstn; lia).
    split; [exact Hc|]. split; [|split].
    + rewrite length_app. cbn [List.length]. rewrite Hf, length_skipn. lia.
    + rewrite app_nth2 by lia. rewrite Hf, Nat.sub_diag. cbn [nth].
      destruct old; [congruence|reflexivity].
    + intros j Hj. destruct (Nat.lt_ge_cases j i) as [Hlt'|Hge].
      * rewrite app_nth1 by lia. rewrite nth_firstn.
        apply Nat.ltb_lt in Hlt'. rewrite Hlt'. reflexivity.
      * rewrite app_nth2 by lia. rewrite Hf.
        destruct (j - i) as [|k] eqn:Ek; [lia|]. cbn [nth].
        rewrite nth_skipn. f_equal. lia.
Qed.

(** X11 on a file of two lines, for the second line. *)
Lemma X11_fix_applied_witness :
  match Fix._spec_str_fix_handler "p.py" 2 11 "x %gcc +y" "x +y %gcc"
          ["import a"; "depends_on('x %gcc +y')"] with
  | Ok (Fix.Fixed written _) =>
      Py.contains "x %gcc +y" (nth 1 ["import a"; "depends_on('x %gcc +y')"] EmptyString)
      = true
      /\ List.length written = List.length ["import a"; "depends_on('x %gcc +y')"]
      /\ nth 1 written EmptyString
         = Py.replace "x %gcc +y" "x +y %gcc"
             (nth 1 ["import a"; "depends_on('x %gcc +y')"] EmptyString)
      /\ (forall j, j <> 1 ->
          nth j written EmptyString
          = nth j ["import a"; "depends_on('x %gcc +y')"] EmptyString)
  | Ok (Fix.NotApplied _) =>
      Py.contains "x %gcc +y" (nth 1 ["import a"; "depends_on('x %gcc +y')"] EmptyString)
      = false
  | Raise _ => False
  end.
Proof.
  apply (@X11_fix_applied "p.py" 2 11 "x %gcc +y" "x +y %gcc"
           ["import a"; "depends_on('x %gcc +y')"] 1);
    [vm_compute; reflexivity|discriminate|discriminate].
Defined.

(** X12.  Sent to the line 0, as [_spec_str_json_and_yaml] does for a
    string that carries no mark, the fix handler reads [lines[-1]]: it
    rewrites the last line of the file, and raises IndexError on a file
    without lines. *)
Theorem X12_fix_unmarked :
  forall (path : string) (col : nat) (old new : string),
    Fix._spec_str_fix_handler path 0 col old new [] = Raise Legacy.IndexError
    /\ forall (lines : list string) (l : string),
         Fix._spec_str_fix_handler path 0 col old new (lines ++ [l])
         = if String.eqb (Fix.str_replace old new l) l
           then Ok (Fix.NotApplied (Fix.location path 0 col ++ " could not apply fix: "
                                    ++ Fix.arrow old new))
           else Ok (Fix.Fixed (lines ++ [Fix.str_replace old new l])
                              (Fix.location path 0 col ++ " fixed "
                               ++ Fix.arrow old new)).
Proof.
  intros path col old new. split; [reflexivity|].
  intros lines l. unfold Fix._spec_str_fix_handler.
  assert (E : Fix.py_index (List.length (lines ++ [l])) (Z.of_nat 0 - 1)
              = Some (List.length lines)).
  { unfold Fix.py_index. rewrite length_app. cbn [List.length].
    replace (Z.of_nat 0 - 1)%Z with (-1)%Z by reflexivity.
    cbn [Z.leb Z.compare andb].
    replace ((-1 <? 0)%Z) with true by reflexivity.
    replace ((- Z.of_nat (List.length lines + 1) <=? -1)%Z) with true
      by (symmetry; apply Z.leb_le; lia).
    cbn [andb]. f_equal. lia. }
  rewrite E. cbv zeta.
  rewrite nth_middle.
  rewrite firstn_app, Nat.sub_diag, firstn_all. cbn [firstn]. rewrite app_nil_r.
  replace (skipn (S (List.length lines)) (lines ++ [l])) with (@nil string).
  - reflexivity.
  - symmetry. apply skipn_all2. rewrite length_app. simpl. lia.
Qed.


(** ** The buffer is the result *)

Section Buffer.
Context {C : Collaborators}.

(** One step of a proof about the value a command returns. *)
Ltac calm :=
  first [ apply quiet_current_value
        | apply quiet_first_char
        | apply quiet_split_key_value
        | apply quiet_Spec_new
        | apply quiet_literal
        | match goal with
          | |- quiet _ (ret _) => apply quiet_ret; try exact I
          | |- quiet _ (raise _) => apply quiet_raise
          | |- quiet any (on_ctx _) => apply quiet_on_ctx
          | |- quiet any (on_world _) => apply quiet_on_world
          | |- quiet any (upd_world _) => apply quiet_upd_world
          | |- quiet any (ask_world _) => apply quiet_ask_world
          | |- quiet any (ask_ctx _) => apply quiet_ask_ctx
          | |- quiet _ (bind _ _) => apply quiet_bind with (Q := any); [|intros ? _]
          | |- quiet _ (or_else _ _) => unfold or_else
          | |- quiet _ (if ?b then _ else _) => destruct b
          | |- quiet _ (match ?x with _ => _ end) => destruct x
          end ].

Lemma FileParser_parse_returns s : quiet (fun r => r = s) (FileParser_parse s).
Proof.
  unfold FileParser_parse.
  apply quiet_bind with (Q := any); [repeat calm|intros v _].
  apply quiet_bind with (Q := any); [repeat calm|intros e _].
  destruct (negb e); [apply quiet_raise|].
  apply quiet_bind with (Q := any); [repeat calm|intros f _].
  apply quiet_bind with (Q := any); [repeat calm|intros _ _].
  apply quiet_ret. reflexivity.
Qed.

Lemma SpecNodeParser_parse_returns s root :
  quiet (fun r => fst r = Some s /\ snd r = [])
        (SpecNodeParser_parse (Some s) root).
Proof.
  unfold SpecNodeParser_parse.
  apply quiet_bind with (Q := fun x => x = s); [apply quiet_ret; reflexivity|].
  intros s' ->.
  apply quiet_bind with (Q := any); [repeat calm|intros at_end _].
  destruct at_end; [apply quiet_ret; split; reflexivity|].
  apply quiet_bind with (Q := any); [repeat calm|intros is_name _].
  apply quiet_bind with (Q := any); [repeat calm|intros from_file _].
  destruct from_file.
  - eapply quiet_bind; [apply FileParser_parse_returns|]. intros s' ->.
    apply quiet_ret. split; reflexivity.
  - apply quiet_bind with (Q := any); [repeat calm|intros c _].
    eapply quiet_bind; [apply quiet_node_loop|intros ws Hws].
    apply quiet_ret. split; [reflexivity|exact Hws].
Qed.

Variable parse_one : string -> P spec.
Hypothesis quiet_parse_one : forall text, quiet any (parse_one text).

Lemma next_spec_returns s :
  quiet (fun r => r = Some s) (next_spec parse_one (Some s)).
Proof.
  unfold next_spec.
  apply quiet_bind with (Q := any); [repeat calm|intros nt _].
  destruct nt as [t|]; [|apply quiet_ret; reflexivity].
  apply quiet_bind with (Q := fun x => x = s); [apply quiet_ret; reflexivity|].
  intros s' ->.
  eapply quiet_bind; [apply SpecNodeParser_parse_returns|].
  intros [root ws] [Hroot Hws]. simpl in Hroot, Hws. subst root ws.
  apply quiet_bind with (Q := any); [repeat calm|intros c _].
  eapply quiet_bind; [apply quiet_next_spec_loop; exact quiet_parse_one|].
  intros ws' Hws. cbv beta in Hws. subst ws'.
  apply quiet_bind with (Q := any); [apply quiet_ret; exact I|intros _ _].
  apply quiet_ret. reflexivity.
Qed.

Lemma parse_one_body_returns s :
  quiet (fun r => r = s) (parse_one_body parse_one (Some s)).
Proof.
  unfold parse_one_body.
  eapply quiet_bind; [apply next_spec_returns|]. intros r ->.
  apply quiet_bind with (Q := any); [repeat calm|intros nt _].
  apply quiet_bind with (Q := any); [apply quiet_literal|intros text _].
  destruct nt as [t|]; [apply quiet_raise|apply quiet_ret; reflexivity].
Qed.

End Buffer.

(** X13.  The node that is handed in is the node that comes back:
    [SpecNodeParser.parse(initial_spec)] returns [initial_spec] itself,
    also from a spec file, and [parse_one_or_raise(text, initial_spec)]
    returns [initial_spec] whenever it returns. *)
Theorem X13_returns_buffer :
  forall (C : Collaborators) (s : spec),
    (forall root st,
        match snd (SpecNodeParser_parse (Some s) root st) with
        | Ok (node, _) => node = Some s
        | Raise _ => True
        end)
    /\ (forall depth text w,
           match snd (parse_one_or_raise depth text (Some s) w) with
           | Ok r => r = s
           | Raise _ => True
           end).
Proof.
  intros C s. split.
  - intros root st. destruct (SpecNodeParser_parse_returns s root st) as [_ H].
    destruct (snd (SpecNodeParser_parse (Some s) root st)) as [[node ws]|x];
      [exact (proj1 H)|exact I].
  - intros depth text w. unfold parse_one_or_raise. cbn [parse_one_at].
    assert (Q : quiet (fun r => r = s)
                  (with_new_parser text
                     (parse_one_body (parse_one_at depth None) (Some s)))).
    { apply quiet_with_new_parser. apply parse_one_body_returns.
      intros t. apply quiet_parse_one_at. }
    exact (proj2 (Q (no_parser w))).
Qed.


(** ** Texts that are parsed to the end

    Every call of [next_spec] takes a token or raises, as long as the
    cursor holds no closing bracket; the tokens that the cursor holds
    bound the calls. *)

Section Progress.
Context {C : Collaborators}.

Lemma pending_le_left c : pending c <= tokens_left c.
Proof.
  unfold pending, tokens_left.
  pose proof (filter_length_le
                (fun o : option token => match o with Some _ => true | None => false end)
                (pushed_tokens c)).
  lia.
Qed.

Lemma advance_pending c c' t :
  next_token c = Some t -> advance c = (c', Ok tt) -> S (pending c') <= pending c.
Proof.
  intros N. unfold advance, pending. rewrite N.
  destruct (pushed_tokens c) as [|top below].
  - unfold stream_next.
    destruct (next_from (stream_text (token_stream_ c)) (remaining (token_stream_ c)))
      as [raw' [t'|x]] eqn:E; [|discriminate].
    intros A. injection A as <-. cbn [token_stream_ remaining pushed_tokens next_token filter List.length].
    pose proof (next_from_shorter _ _ E) as H.
    destruct t' as [t'|]; [lia|]. subst raw'. simpl. lia.
  - intros A. injection A as <-.
    cbn [token_stream_ remaining pushed_tokens next_token filter].
    destruct top; cbn [List.length]; lia.
Qed.

Lemma accepted_pending k c0 c1 :
  kind_is k (next_token c0) = true -> advance c0 = (c1, Ok tt) ->
  S (pending c1) <= pending c0.
Proof.
  intros Hk Ha. destruct (kind_is_true _ _ Hk) as (t & N & _).
  exact (advance_pending _ N Ha).
Qed.

(** A property of cursors that taking a token keeps. *)
Variable Inv : TokenContext -> Prop.
Hypothesis Inv_advance :
  forall c c', Inv c -> advance c = (c', Ok tt) -> Inv c'.

(** The cursor keeps [Inv] and holds no more tokens than [c0]. *)
Definition keeps (c0 : TokenContext) {A} : A -> TokenContext -> Prop :=
  fun _ c1 => Inv c1 /\ pending c1 <= pending c0.

Ltac no_bound := intros; unfold ends; discriminate.

Ltac frame :=
  first [ apply triple_on_world; no_bound
        | apply triple_upd_world
        | apply triple_ask_world
        | apply triple_add_flag; no_bound
        | apply triple_first_char; no_bound
        | apply triple_split_key_value; no_bound ].

Ltac again IH :=
  eapply triple_post;
  [ apply IH; [eapply Inv_advance; eassumption|lia]
  | intros ? ? [? ?]; split; [assumption|lia] ].

Ltac rest_of_turn IH :=
  repeat first
    [ again IH
    | eapply triple_bind; [frame|intros ? ? ->]
    | eapply triple_bind; [apply triple_current_value; no_bound|intros ? ? [-> _]]
    | match goal with |- triple _ (let (_, _) := ?x in _) _ _ => destruct x end ].

Ltac turn IH :=
  let c1 := fresh "c1" in
  let Hk := fresh "Hk" in
  let Ha := fresh "Ha" in
  intros c1 [Hk Ha]; pose proof (accepted_pending _ _ Hk Ha); rest_of_turn IH.

Lemma node_loop_keeps n s lc hv ws c0 :
  Inv c0 -> pending c0 < n ->
  triple c0 (node_loop n s lc hv ws) (keeps c0) ends.
Proof.
  revert hv ws c0. induction n as [|n IH]; intros hv ws c0 HI Hn; [lia|].
  assert (Here : forall (a : list string), keeps c0 a c0) by (intros; split; [exact HI|lia]).
  cbn [node_loop].
  eapply triple_bind; [apply triple_accept_version; no_bound|].
  intros [|] c1 H.
  { destruct H as (k & Hv & Hk & Ha).
    pose proof (accepted_pending _ _ Hk Ha).
    eapply triple_bind with (Q := fun _ c2 => c2 = c1).
    - destruct hv; [apply triple_raise_parsing_error; no_bound|].
      apply triple_ret. reflexivity.
    - intros _ c2 ->. rest_of_turn IH. }
  subst c1.
  eapply triple_bind; [apply triple_accept; no_bound|].
  intros [|]; [turn IH|intros c1 [_ ->]].
  eapply triple_bind; [apply triple_accept; no_bound|].
  intros [|]; [turn IH|intros c1 [_ ->]].
  eapply triple_bind; [apply triple_accept; no_bound|].
  intros [|]; [turn IH|intros c1 [_ ->]].
  eapply triple_bind; [apply triple_accept; no_bound|].
  intros [|]; [turn IH|intros c1 [_ ->]].
  eapply triple_bind; [apply triple_expect|]. intros b c1 [-> Hb].
  destruct b; [|apply triple_ret; apply Here].
  eapply triple_bind; [apply triple_ask_world|]. intros h c1 ->.
  destruct (truthy h); [apply triple_ret; apply Here|].
  eapply triple_bind; [apply triple_accept; no_bound|].
  intros [|]; [turn IH|intros c1 [Hk ->]].
  exfalso. unfold kind_in, kind_is in *.
  destruct (next_token c0) as [t|]; [|discriminate].
  simpl in Hb. rewrite Hk in Hb. discriminate.
Qed.


(** The first token of a node, when the node parser takes it whatever the
    node: a name, a file, or a clause other than a hash. *)
Definition first_taken (nt : option token) : bool :=
  kind_in [UNQUALIFIED_PACKAGE_NAME; FULLY_QUALIFIED_PACKAGE_NAME; FILENAME;
           VERSION_HASH_PAIR; GIT_VERSION; VERSION; BOOL_VARIANT;
           PROPAGATED_BOOL_VARIANT; KEY_VALUE_PAIR; PROPAGATED_KEY_VALUE_PAIR] nt.

(** The cursor keeps [Inv] and holds fewer tokens than [c0]. *)
Definition takes (c0 : TokenContext) {A} : A -> TokenContext -> Prop :=
  fun _ c1 => Inv c1 /\ pending c1 < pending c0.

Ltac onward :=
  eapply triple_post;
  [ apply node_loop_keeps; [eapply Inv_advance; eassumption|lia]
  | intros ? ? [? ?]; split; [assumption|lia] ].

Ltac rest_of_first :=
  repeat first
    [ onward
    | eapply triple_bind; [frame|intros ? ? ->]
    | eapply triple_bind; [apply triple_current_value; no_bound|intros ? ? [-> _]]
    | match goal with |- triple _ (let (_, _) := ?x in _) _ _ => destruct x end ].

Ltac first_turn :=
  let c1 := fresh "c1" in
  let Hk := fresh "Hk" in
  let Ha := fresh "Ha" in
  intros c1 [Hk Ha]; pose proof (accepted_pending _ _ Hk Ha); rest_of_first.

Lemma kind_is_in k ks nt : kind_is k nt = true -> In k ks -> kind_in ks nt = true.
Proof.
  unfold kind_is, kind_in. destruct nt as [t|]; [|discriminate].
  intros H Hin. apply existsb_exists. exists k. split; [exact Hin|exact H].
Qed.

Lemma kind_in_is ks nt :
  kind_in ks nt = true -> exists k, In k ks /\ kind_is k nt = true.
Proof.
  unfold kind_is, kind_in. destruct nt as [t|]; [|discriminate].
  intros H. apply existsb_exists in H. exact H.
Qed.

Lemma accept_version_kinds c0 :
  triple c0
    (or_else (on_ctx (accept VERSION_HASH_PAIR))
       (or_else (on_ctx (accept GIT_VERSION)) (on_ctx (accept VERSION))))
    (fun (b : bool) c1 =>
       if b then exists k, kind_is k (next_token c0) = true
                           /\ advance c0 = (c1, Ok tt)
       else c1 = c0 /\ kind_is VERSION_HASH_PAIR (next_token c0) = false
            /\ kind_is GIT_VERSION (next_token c0) = false
            /\ kind_is VERSION (next_token c0) = false) ends.
Proof.
  unfold or_else.
  eapply triple_bind; [apply triple_accept; no_bound|].
  intros [|] c1 H.
  - apply triple_ret. exists VERSION_HASH_PAIR. exact H.
  - destruct H as [K1 ->].
    eapply triple_bind; [apply triple_accept; no_bound|].
    intros [|] c1 H.
    + apply triple_ret. exists GIT_VERSION. exact H.
    + destruct H as [K2 ->].
      eapply triple_post; [apply triple_accept; no_bound|].
      intros [|] c1 H.
      * exists VERSION. exact H.
      * destruct H as [K3 ->]. repeat split; assumption.
Qed.

(** With a clause other than a hash next, the loop takes a token. *)
Lemma node_loop_takes n s lc hv ws c0 :
  Inv c0 -> pending c0 < n ->
  kind_in [VERSION_HASH_PAIR; GIT_VERSION; VERSION; BOOL_VARIANT;
           PROPAGATED_BOOL_VARIANT; KEY_VALUE_PAIR; PROPAGATED_KEY_VALUE_PAIR]
          (next_token c0) = true ->
  triple c0 (node_loop n s lc hv ws) (takes c0) ends.
Proof.
  intros HI Hn Hfirst. destruct n as [|n]; [lia|].
  cbn [node_loop].
  eapply triple_bind; [apply accept_version_kinds|].
  intros [|] c1 H2.
  { destruct H2 as (k & Hk & Ha). pose proof (accepted_pending _ _ Hk Ha).
    eapply triple_bind with (Q := fun _ c2 => c2 = c1).
    - destruct hv; [apply triple_raise_parsing_error; no_bound|].
      apply triple_ret. reflexivity.
    - intros _ c2 ->. rest_of_first. }
  destruct H2 as (-> & K1 & K2 & K3).
  eapply triple_bind; [apply triple_accept; no_bound|].
  intros [|]; [first_turn|intros c1 [K4 ->]].
  eapply triple_bind; [apply triple_accept; no_bound|].
  intros [|]; [first_turn|intros c1 [K5 ->]].
  eapply triple_bind; [apply triple_accept; no_bound|].
  intros [|]; [first_turn|intros c1 [K6 ->]].
  eapply triple_bind; [apply triple_accept; no_bound|].
  intros [|]; [first_turn|intros c1 [K7 ->]].
  exfalso. destruct (kind_in_is _ _ Hfirst) as (k & Hin & Hk).
  cbn [In] in Hin.
  repeat (destruct Hin as [<-|Hin]; [congruence|]). exact Hin.
Qed.


(** What the node parser leaves: no more tokens than it found, and fewer
    when the first one is taken whatever the node. *)
Definition node_post (c0 : TokenContext) {A} : A -> TokenContext -> Prop :=
  fun _ c1 => Inv c1 /\ pending c1 <= pending c0
              /\ (first_taken (next_token c0) = true -> pending c1 < pending c0).

Lemma FileParser_parse_same c0 s :
  triple c0 (FileParser_parse s) (same c0) ends.
Proof.
  unfold FileParser_parse.
  eapply triple_bind; [apply triple_current_value; no_bound|].
  intros v c1 [-> _].
  eapply triple_bind; [apply triple_ask_world|]. intros b c1 ->.
  destruct (negb b); [apply triple_raise; no_bound|].
  eapply triple_bind with (Q := same c0).
  { destruct (Py.ends_with ".json" (Path_str v)); apply triple_on_world; no_bound. }
  intros s' c1 ->.
  eapply triple_bind; [apply triple_on_world; no_bound|].
  intros _ c1 ->. apply triple_ret. reflexivity.
Qed.

Lemma SpecNodeParser_parse_keeps init root c0 :
  Inv c0 -> triple c0 (SpecNodeParser_parse init root) (node_post c0) ends.
Proof.
  intros HI. unfold SpecNodeParser_parse.
  eapply triple_bind with (Q := same c0).
  { destruct init; [apply triple_ret; reflexivity|apply triple_Spec_new]. }
  intros s c1 ->.
  eapply triple_bind with
    (Q := fun (b : bool) c1 =>
            c1 = c0 /\ (b = true -> first_taken (next_token c0) = false)).
  { unfold or_else.
    eapply triple_bind with
      (Q := fun (b : bool) c1 => c1 = c0 /\ (b = true -> next_token c0 = None)).
    - eapply triple_bind; [apply triple_ask_ctx|]. intros nt c1 [-> ->].
      apply triple_ret. split; [reflexivity|].
      destruct (next_token c0); [discriminate|reflexivity].
    - intros b c1 [-> Hb]. destruct b.
      + apply triple_ret. split; [reflexivity|]. intros _. rewrite (Hb eq_refl). reflexivity.
      + eapply triple_post; [apply triple_expect|]. intros b c1 [-> ->].
        split; [reflexivity|]. unfold first_taken, kind_in.
        destruct (next_token c0) as [t|]; [|reflexivity].
        destruct (kind t); simpl; congruence. }
  intros at_end c1 [-> Hend]. destruct at_end.
  { apply triple_ret. split; [exact HI|]. split; [lia|].
    intros H. rewrite (Hend eq_refl) in H. discriminate H. }
  clear Hend.
  eapply triple_bind; [apply triple_accept; no_bound|].
  intros is_name c1 H1.
  eapply triple_bind with
    (Q := fun (from_file : bool) c2 =>
            (Inv c2 /\ pending c2 < pending c0)
            \/ (from_file = false /\ c2 = c0
                /\ kind_is UNQUALIFIED_PACKAGE_NAME (next_token c0) = false
                /\ kind_is FULLY_QUALIFIED_PACKAGE_NAME (next_token c0) = false
                /\ kind_is FILENAME (next_token c0) = false)).
  { destruct is_name.
    - destruct H1 as [Hk Ha]. pose proof (accepted_pending _ _ Hk Ha).
      eapply triple_bind; [apply triple_current_value; no_bound|].
      intros v c2 [-> _].
      eapply triple_bind with (Q := same c1).
      { destruct (negb (String.eqb v "*")); [apply triple_upd_world|apply triple_ret; reflexivity]. }
      intros _ c2 ->. apply triple_ret. left.
      split; [eapply Inv_advance; eassumption|lia].
    - destruct H1 as [K1 ->].
      eapply triple_bind; [apply triple_accept; no_bound|].
      intros [|] c2 H2.
      + destruct H2 as [Hk Ha]. pose proof (accepted_pending _ _ Hk Ha).
        eapply triple_bind; [apply triple_current_value; no_bound|].
        intros v c3 [-> _].
        eapply triple_bind; [apply triple_upd_world|]. intros _ c3 ->.
        eapply triple_bind; [apply triple_upd_world|]. intros _ c3 ->.
        apply triple_ret. left. split; [eapply Inv_advance; eassumption|lia].
      + destruct H2 as [K2 ->].
        eapply triple_post; [apply triple_accept; no_bound|].
        intros [|] c3 [Hk Ha].
        * left. pose proof (accepted_pending _ _ Hk Ha).
          split; [eapply Inv_advance; eassumption|lia].
        * right. subst c3. repeat split; assumption. }
  clear c1 H1.
  intros from_file c1 H.
  destruct from_file.
  - destruct H as [[HI1 Hp]|[Hff _]]; [|discriminate Hff].
    eapply triple_bind; [apply FileParser_parse_same|].
    intros s' c2 ->. apply triple_ret.
    split; [exact HI1|]. split; [lia|intros _; exact Hp].
  - eapply triple_bind; [apply triple_ask_ctx|]. intros c c2 [-> ->].
    destruct H as [[HI1 Hp]|(_ & -> & K1 & K2 & K3)].
    + eapply triple_bind with (Q := keeps c1).
      * apply node_loop_keeps; [exact HI1|]. pose proof (pending_le_left c1). lia.
      * intros ws c2 [HI2 Hp2]. apply triple_ret.
        split; [exact HI2|]. split; [lia|intros _; lia].
    + destruct (first_taken (next_token c0)) eqn:F.
      * eapply triple_bind with (Q := takes c0).
        -- apply node_loop_takes; [exact HI|pose proof (pending_le_left c0); lia|].
           unfold first_taken, kind_in, kind_is in *.
           destruct (next_token c0) as [t|]; [|discriminate].
           destruct (kind t); simpl in *; congruence.
        -- intros ws c2 [HI2 Hp2]. apply triple_ret.
           split; [exact HI2|]. split; [lia|intros _; exact Hp2].
      * eapply triple_bind with (Q := keeps c0).
        -- apply node_loop_keeps; [exact HI|pose proof (pending_le_left c0); lia].
        -- intros ws c2 [HI2 Hp2]. apply triple_ret.
           split; [exact HI2|]. split; [exact Hp2|intros F'; congruence].
Qed.

Lemma _parse_node_keeps root_spec root c0 :
  Inv c0 -> triple c0 (_parse_node root_spec root) (node_post c0) ends.
Proof.
  intros HI. unfold _parse_node.
  eapply triple_bind; [apply SpecNodeParser_parse_keeps; exact HI|].
  intros [d ws] c1 H1.
  destruct d as [d|]; [|intros st _; cbv [raise_SpecParsingError ends]; discriminate].
  eapply triple_bind; [apply triple_ask_world|]. intros b c2 ->.
  destruct b.
  - eapply triple_bind; [apply triple_ask_world|]. intros r c2 ->.
    eapply triple_bind; [apply triple_ask_world|]. intros r' c2 ->.
    apply triple_raise. no_bound.
  - apply triple_ret. exact H1.
Qed.


(** The cursor [c] after [push_front(t)]. *)
Definition pushed_on (c : TokenContext) (t : token) : TokenContext :=
  mkContext (token_stream_ c) (current_token c) (Some t)
            (next_token c :: pushed_tokens c).

Lemma pending_pushed_on c t : pending (pushed_on c t) = S (pending c).
Proof.
  unfold pending, pushed_on.
  cbn [token_stream_ pushed_tokens next_token filter].
  destruct (next_token c); cbn [List.length]; lia.
Qed.

Hypothesis Inv_push :
  forall c t, Inv c -> is_name_kind (kind t) = true -> Inv (pushed_on c t).

(** [parse_virtual_assignment] returns no virtuals and leaves the cursor,
    or returns some and pushes a name. *)
Lemma parse_virtual_assignment_post c0 :
  triple c0 (on_ctx parse_virtual_assignment)
    (fun vs c1 =>
       (vs = [] /\ c1 = c0)
       \/ (vs <> [] /\ exists t, is_name_kind (kind t) = true /\ c1 = pushed_on c0 t))
    ends.
Proof.
  intros st <-. unfold on_ctx, parse_virtual_assignment, bind, get.
  destruct (ctx (parser st)) as [strm cur nt pushed].
  cbn [current_token].
  destruct cur as [cur|]; [|cbn; no_bound].
  destruct (subvalues cur) as [[|kv sub]|]; try (cbn; left; split; reflexivity).
  destruct (dict_get "substitute" (kv :: sub)) as [pkg|]; [|cbn; no_bound].
  destruct (Py.index pkg (value cur)) as [start_|]; [|cbn; no_bound].
  unfold push_front, modify.
  destruct (dict_get "virtuals" (kv :: sub)) as [vs|]; [|cbn; no_bound].
  cbn. right. split.
  - destruct (split_char_cons "," vs) as (p & ps & ->). discriminate.
  - eexists. split; [|reflexivity]. cbn [kind].
    destruct (Py.contains "." pkg); reflexivity.
Qed.

Lemma add_dependency_same c0 target dep props :
  triple c0 (add_dependency target dep props) (same c0) ends.
Proof.
  intros st <-. unfold add_dependency.
  destruct (_add_dependency target dep props (wld st)) as [w [u|e]]; [reflexivity|].
  destruct (foreign_is_SpecError e); cbv [raise_parsing_error ends]; discriminate.
Qed.

Lemma attach_same c0 root cur dep is_direct props :
  triple c0 (attach root cur dep is_direct props) (same c0) ends.
Proof.
  unfold attach.
  eapply triple_bind with (Q := same c0).
  { destruct is_direct; [|apply triple_ret; reflexivity].
    eapply triple_bind; [apply triple_ask_world|]. intros name c1 ->.
    eapply triple_bind with (Q := same c0); [|intros u c1 ->; apply triple_ret; reflexivity].
    destruct name as [n|]; [|apply triple_ret; reflexivity].
    destruct (dict_get n LEGACY_COMPILER_TO_BUILTIN);
      [apply triple_upd_world|apply triple_ret; reflexivity]. }
  intros [cur' target] c1 ->.
  eapply triple_bind; [apply add_dependency_same|]. intros _ c1 ->.
  apply triple_ret. reflexivity.
Qed.

(** A handler that only raises again. *)
Lemma triple_try_catch c0 {A} (c : P A) (h : exn -> P A) Q :
  triple c0 c Q ends ->
  (forall x st, ends x -> exists y, snd (h x st) = Raise y /\ ends y) ->
  triple c0 (try_catch c h) Q ends.
Proof.
  intros Hc Hh st H0. unfold try_catch. specialize (Hc st H0).
  destruct (c st) as [s1 [a|x]]; [exact Hc|].
  destruct (Hh x s1 Hc) as (y & E & Hy).
  destruct (h x s1) as [s2 r]. simpl in E. subst r. exact Hy.
Qed.

Lemma warn_same c0 literal issues :
  triple c0 (_warn_about_variant_after_compiler literal issues) (same c0) ends.
Proof.
  unfold _warn_about_variant_after_compiler.
  destruct (get_mark_from_yaml_data literal) as [[name line]|].
  - intros st <-. reflexivity.
  - eapply triple_bind; [apply triple_ask_world|]. intros frame c1 ->.
    destruct frame as [[filename lineno]|]; [intros st <-; reflexivity|].
    apply triple_ret. reflexivity.
Qed.

Variable parse_one : string -> P spec.

(** What the parse of edge attributes and the use of a toolchain are
    asked for: they end, the first with no more tokens than it found, the
    second with the cursor as it was. *)
Hypothesis edge_attributes_keep :
  forall c0, Inv c0 ->
    triple c0 (EdgeAttributeParser_parse parse_one) (keeps c0) ends.
Hypothesis toolchain_same :
  forall s name c0,
    triple c0 (_apply_toolchain parse_one s name) (same c0) ends.

(** What the loop of [next_spec] leaves: no more tokens than it found, and
    fewer when a sigil is next. *)
Definition loop_post (c0 : TokenContext) {A} : A -> TokenContext -> Prop :=
  fun _ c1 => Inv c1 /\ pending c1 <= pending c0
              /\ (kind_in [START_EDGE_PROPERTIES; DEPENDENCY] (next_token c0) = true ->
                  pending c1 < pending c0).

Lemma next_spec_loop_keeps n root cur ws c0 :
  Inv c0 -> pending c0 < n ->
  triple c0 (next_spec_loop parse_one n root cur ws) (loop_post c0) ends.
Proof.
  revert cur ws c0. induction n as [|n IH]; intros cur ws c0 HI Hn; [lia|].
  cbn [next_spec_loop].
  assert (Round : forall cur' ws' c3, Inv c3 -> pending c3 < pending c0 ->
            triple c3 (next_spec_loop parse_one n root cur' ws') (loop_post c0) ends).
  { intros cur' ws' c3 HI3 Hp3.
    eapply triple_post; [apply IH; [exact HI3|lia]|].
    intros a c4 (HI4 & Hp4 & _). split; [exact HI4|]. split; [lia|intros _; lia]. }
  eapply triple_bind; [apply triple_accept; no_bound|].
  intros [|] c1 H1.
  { destruct H1 as [Hk Ha]. pose proof (accepted_pending _ _ Hk Ha) as Hp1.
    pose proof (Inv_advance HI Ha) as HI1.
    eapply triple_bind; [apply triple_current_value; no_bound|]. intros v c2 [-> _].
    eapply triple_bind; [apply triple_first_char; no_bound|]. intros ch c2 ->.
    eapply triple_bind; [apply edge_attributes_keep; exact HI1|].
    intros attrs c2 [HI2 Hp2].
    eapply triple_bind; [apply _parse_node_keeps; exact HI2|].
    intros [dep warnings] c3 (HI3 & Hp3 & _).
    eapply triple_bind; [apply attach_same|]. intros cur' c4 ->.
    apply Round; [exact HI3|lia]. }
  destruct H1 as [K1 ->].
  eapply triple_bind; [apply triple_accept; no_bound|].
  intros [|] c1 H1.
  { destruct H1 as [Hk Ha]. pose proof (accepted_pending _ _ Hk Ha) as Hp1.
    pose proof (Inv_advance HI Ha) as HI1.
    eapply triple_bind; [apply triple_current_value; no_bound|]. intros v c2 [-> _].
    eapply triple_bind; [apply triple_first_char; no_bound|]. intros ch c2 ->.
    eapply triple_bind; [apply parse_virtual_assignment_post|].
    intros virtuals c2 [[-> ->]|(Hvs & t & Ht & ->)].
    - eapply triple_bind with (Q := same c1).
      { destruct (Ascii.eqb ch "%"); [|apply triple_ret; reflexivity].
        eapply triple_bind; [apply triple_ask_ctx|]. intros nt c2 [-> ->].
        destruct (next_token c1); [apply triple_ret; reflexivity|apply triple_raise; no_bound]. }
      intros is_toolchain c2 ->. destruct is_toolchain.
      + eapply triple_bind; [apply triple_accept; no_bound|].
        intros ok c2 H2.
        destruct ok.
        * destruct H2 as [Hk2 Ha2]. pose proof (accepted_pending _ _ Hk2 Ha2) as Hp2.
          pose proof (Inv_advance HI1 Ha2) as HI2.
          eapply triple_bind with (Q := same c2); [apply triple_ret; reflexivity|].
          intros _ c3 ->.
          eapply triple_bind with (Q := same c2).
          { apply triple_try_catch.
            - eapply triple_bind; [apply triple_current_value; no_bound|].
              intros name c3 [-> _]. apply toolchain_same.
            - intros x st Hx. destruct (is_SpecError x).
              + eexists. split; [reflexivity|]. unfold ends. discriminate.
              + exists x. split; [reflexivity|exact Hx]. }
          intros _ c3 ->. apply Round; [exact HI2|lia].
        * eapply triple_bind with (Q := fun _ _ => False);
            [apply triple_raise; no_bound|intros ? ? []].
      + eapply triple_bind; [apply _parse_node_keeps; exact HI1|].
        intros [dep warnings] c3 (HI3 & Hp3 & _).
        eapply triple_bind; [apply attach_same|]. intros cur' c4 ->.
        apply Round; [exact HI3|lia].
    - assert (Efalse : (if match virtuals with [] => Ascii.eqb ch "%" | _ :: _ => false end
                        then (nt <- ask_ctx next_token ;;
                              match nt with
                              | Some t0 => ret match dict_get (value t0) config_toolchains with
                                               | Some _ => true | None => false end
                              | None => raise AttributeError
                              end)%monad
                        else ret false) = ret (S := state) (X := exn) false).
      { destruct virtuals; [congruence|reflexivity]. }
      rewrite Efalse.
      eapply triple_bind with (Q := fun b c2 => c2 = pushed_on c1 t /\ b = false);
        [apply triple_ret; split; reflexivity|].
      intros b c2 [-> ->].
      pose proof (Inv_push t HI1 Ht) as HI2.
      eapply triple_bind; [apply _parse_node_keeps; exact HI2|].
      intros [dep warnings] c3 (HI3 & Hp3 & Hs3).
      assert (F : first_taken (next_token (pushed_on c1 t)) = true).
      { unfold first_taken, pushed_on, kind_in. cbn [next_token].
        destruct (kind t); try discriminate Ht; reflexivity. }
      specialize (Hs3 F). rewrite pending_pushed_on in Hs3.
      eapply triple_bind; [apply attach_same|]. intros cur' c4 ->.
      apply Round; [exact HI3|lia]. }
  destruct H1 as [K2 ->].
  apply triple_ret. split; [exact HI|]. split; [lia|].
  intros H. exfalso. destruct (kind_in_is _ _ H) as (k & Hin & Hk).
  cbn [In] in Hin. destruct Hin as [<-|[<-|[]]]; congruence.
Qed.


(** With a sigil next, the node parser leaves the cursor as it is. *)
Lemma SpecNodeParser_parse_sigil init root c0 :
  kind_in [START_EDGE_PROPERTIES; DEPENDENCY] (next_token c0) = true ->
  triple c0 (SpecNodeParser_parse init root) (same c0) ends.
Proof.
  intros Hs st <-.
  assert (E : exists s w, SpecNodeParser_parse init root st
                          = (set_wld w st, Ok (Some s, []))).
  { destruct st as [[lit [strm cur nt pushed] memo] w em].
    cbn [ctx parser next_token] in Hs.
    destruct nt as [t|]; [|discriminate Hs].
    destruct t as [k v a b sv]. cbn [kind_in kind] in Hs.
    unfold SpecNodeParser_parse.
    destruct init as [s|].
    - exists s, w. destruct k; try discriminate Hs; ev0.
    - destruct (Spec_new w) as [s w'] eqn:En. exists s, w'.
      destruct k; try discriminate Hs; ev0. }
  destruct E as (s & w & ->). reflexivity.
Qed.

(** What [next_spec] leaves: no more tokens than it found, and fewer when
    the first one is a sigil or is taken by the node parser whatever the
    node. *)
Definition spec_post (c0 : TokenContext) {A} : A -> TokenContext -> Prop :=
  fun _ c1 => Inv c1 /\ pending c1 <= pending c0
              /\ (first_taken (next_token c0) = true
                  \/ kind_in [START_EDGE_PROPERTIES; DEPENDENCY] (next_token c0) = true ->
                  pending c1 < pending c0).

Lemma after_node root (ws : list string) c0 c1 :
  Inv c1 -> pending c1 <= pending c0 ->
  (kind_in [START_EDGE_PROPERTIES; DEPENDENCY] (next_token c1) = true
   \/ pending c1 < pending c0) ->
  triple c1
    (bind (ask_ctx (fun c => c)) (fun c =>
     bind (next_spec_loop parse_one (S (tokens_left c)) root root ws) (fun pw =>
     bind (match pw with
           | [] => ret tt
           | _ :: _ =>
               bind (fun st : state => (st, Ok (literal_str (parser st))))
                    (fun literal => _warn_about_variant_after_compiler literal pw)
           end) (fun _ => ret (Some root)))))
    (takes c0) ends.
Proof.
  intros HI1 Hp1 Hs.
  eapply triple_bind; [apply triple_ask_ctx|]. intros c c2 [-> ->].
  eapply triple_bind.
  { apply next_spec_loop_keeps; [exact HI1|]. pose proof (pending_le_left c1). lia. }
  intros pw c2 (HI2 & Hp2 & Hs2).
  eapply triple_bind with (Q := same c2).
  { destruct pw; [apply triple_ret; reflexivity|].
    eapply triple_bind with (Q := same c2); [intros st <-; reflexivity|].
    intros lit c3 ->. apply warn_same. }
  intros _ c3 ->. apply triple_ret. split; [exact HI2|].
  destruct Hs as [Hs|Hs]; [specialize (Hs2 Hs)|]; lia.
Qed.

Lemma next_spec_keeps init c0 :
  Inv c0 -> triple c0 (next_spec parse_one init) (spec_post c0) ends.
Proof.
  intros HI. unfold next_spec.
  eapply triple_bind; [apply triple_ask_ctx|]. intros nt c1 [-> ->].
  destruct (next_token c0) as [t|] eqn:N.
  2:{ apply triple_ret. split; [exact HI|]. split; [lia|].
      intros [H|H]; rewrite N in H; discriminate H. }
  eapply triple_bind with (Q := same c0).
  { destruct init; [apply triple_ret; reflexivity|apply triple_Spec_new]. }
  intros s c1 ->.
  destruct (kind_in [START_EDGE_PROPERTIES; DEPENDENCY] (next_token c0)) eqn:Hs.
  - eapply triple_bind; [apply SpecNodeParser_parse_sigil; exact Hs|].
    intros [root ws] c1 ->.
    destruct root as [root|]; [|apply triple_raise; no_bound].
    eapply triple_post.
    + apply (@after_node root ws c0 c0); [exact HI|lia|left; exact Hs].
    + intros a c2 [HI2 Hp2]. split; [exact HI2|]. split; [lia|intros _; exact Hp2].
  - eapply triple_bind; [apply SpecNodeParser_parse_keeps; exact HI|].
    intros [root ws] c1 (HI1 & Hp1 & Hs1).
    destruct root as [root|]; [|apply triple_raise; no_bound].
    eapply triple_bind; [apply triple_ask_ctx|]. intros c c2 [-> ->].
    eapply triple_bind.
    { apply next_spec_loop_keeps; [exact HI1|]. pose proof (pending_le_left c1). lia. }
    intros pw c2 (HI2 & Hp2 & _).
    eapply triple_bind with (Q := same c2).
    { destruct pw; [apply triple_ret; reflexivity|].
      eapply triple_bind with (Q := same c2); [intros st <-; reflexivity|].
      intros lit c3 ->. apply warn_same. }
    intros _ c3 ->. apply triple_ret. split; [exact HI2|]. split; [lia|].
    rewrite N in *. intros [F|F]; [specialize (Hs1 F); lia|congruence].
Qed.


Ltac walk_to E :=
  norm;
  lazymatch goal with
  | |- bind _ _ _ = _ => eapply bind_run; [walk_to E | walk_to E]
  | |- or_else _ _ _ = _ => unfold or_else; walk_to E
  | |- (_, _) = _ => reflexivity
  | |- (if truthy _ then _ else _) _ = _ =>
      match goal with
      | H : truthy _ = _ |- _ => rewrite H; walk_to E
      end
  | |- node_loop _ _ _ _ _ _ = _ => exact E
  | |- _ => prim
  end.

(** One turn of the node loop at a hash, for a node without one. *)
Lemma node_loop_hash_step n s lc hv pw st t :
  next_token (ctx (parser st)) = Some t -> kind t = DAG_HASH ->
  truthy (get_abstract_hash s (wld st)) = false ->
  node_loop (S n) s lc hv pw st
  = match advance (ctx (parser st)) with
    | (c1, Ok _) =>
        node_loop n s lc hv (warn_if_after_compiler lc (value t) pw)
          (mkState (mkParser (literal_str (parser st)) c1 (parsed_toolchains (parser st)))
                   (set_abstract_hash s (Py.drop 1 (value t)) (wld st)) (emitted st))
    | (c1, Raise x) => (set_ctx c1 st, Raise x)
    end.
Proof.
  destruct st as [[lit c memo] w em].
  cbn [ctx parser wld literal_str parsed_toolchains emitted].
  destruct c as [strm cur nt pushed]. cbn [next_token]. intros -> K H.
  destruct t as [k v a b sv]. cbn [kind value] in *. subst k.
  match goal with |- context [advance ?c] => destruct (advance c) as [c1 [[]|x]] eqn:A end.
  - pose proof (advance_Ok_current _ A) as Ecur. cbn [next_token] in Ecur.
    destruct c1 as [strm1 cur1 nt1 pushed1]. cbn [current_token] in Ecur. subst cur1.
    destruct (node_loop n s lc hv (warn_if_after_compiler lc v pw)
                (mkState (mkParser lit (mkContext strm1 (Some (mkToken DAG_HASH v a b sv)) nt1 pushed1) memo)
                         (set_abstract_hash s (Py.drop 1 v) w) em)) as [s2 r2] eqn:E2.
    eapply eq_trans; [cbn [node_loop]; walk_to E2|symmetry; exact E2].
  - eapply eq_trans; [cbn [node_loop]; walk|reflexivity].
Qed.


(** A run that ends with fewer tokens held, or with an exception of the
    code. *)
Definition progress (st : state) {A} (r : state * result exn A) : Prop :=
  match r with
  | (st', Ok _) => Inv (ctx (parser st'))
                   /\ pending (ctx (parser st')) < pending (ctx (parser st))
  | (_, Raise x) => ends x
  end.

Lemma bind_at {A B} (c : P A) (k : A -> P B) st st1 a :
  c st = (st1, Ok a) -> bind c k st = k a st1.
Proof. intros E. unfold bind. rewrite E. reflexivity. Qed.

Lemma SpecNodeParser_parse_hash s root st t :
  Inv (ctx (parser st)) ->
  next_token (ctx (parser st)) = Some t -> kind t = DAG_HASH ->
  truthy (get_abstract_hash s (wld st)) = false ->
  progress st (SpecNodeParser_parse (Some s) root st).
Proof.
  intros HI N K H.
  rewrite (@SpecNodeParser_parse_at_hash C s root st t N K).
  unfold bind. rewrite (@node_loop_hash_step _ s None false [] st t N K H).
  pose proof (@advance_raises _ (ctx (parser st))) as R.
  destruct (advance (ctx (parser st))) as [c1 [[]|x]] eqn:A.
  - pose proof (advance_pending _ N A) as Hp. pose proof (Inv_advance HI A) as HI1.
    pose proof (pending_le_left (ctx (parser st))) as Hl.
    assert (Hn : pending c1 < tokens_left (ctx (parser st))) by lia.
    pose proof (@node_loop_keeps (tokens_left (ctx (parser st))) s None false
                  (warn_if_after_compiler None (value t) []) c1 HI1 Hn
                  (mkState (mkParser (literal_str (parser st)) c1
                                     (parsed_toolchains (parser st)))
                           (set_abstract_hash s (Py.drop 1 (value t)) (wld st))
                           (emitted st)) eq_refl) as L.
    destruct (node_loop _ _ _ _ _ _) as [st2 [ws|x]]; [|exact L].
    destruct L as [HI2 Hp2]. cbn [progress ret]. split; [exact HI2|].
    cbn [ctx parser] in Hp2. lia.
  - destruct (R x eq_refl) as (toks & text & ->). cbn [progress]. no_bound.
Qed.

(** A new [Spec] has no hash. *)
Hypothesis new_has_no_hash :
  forall w, truthy (get_abstract_hash (fst (Spec_new w)) (snd (Spec_new w))) = false.

Lemma next_spec_hash st t :
  Inv (ctx (parser st)) ->
  next_token (ctx (parser st)) = Some t -> kind t = DAG_HASH ->
  progress st (next_spec parse_one None st).
Proof.
  intros HI N K. unfold next_spec.
  rewrite (@bind_at _ _ (ask_ctx next_token) _ st st (Some t))
    by (unfold ask_ctx; rewrite N; reflexivity).
  pose proof (new_has_no_hash (wld st)) as H.
  destruct (Spec_new (wld st)) as [s w'] eqn:En. cbn [fst snd] in H.
  rewrite (@bind_at _ _ _ _ st (set_wld w' st) s) by (rewrite En; reflexivity).
  pose proof (@SpecNodeParser_parse_hash s true (set_wld w' st) t HI N K H) as Hn.
  unfold bind at 1.
  destruct (SpecNodeParser_parse (Some s) true (set_wld w' st)) as [st2 [[root ws]|x]];
    [|exact Hn].
  destruct Hn as [HI2 Hp2]. cbn [set_wld ctx parser] in Hp2.
  destruct root as [root|]; [|cbn [progress raise]; no_bound].
  exact (@after_node root ws (ctx (parser st)) (ctx (parser st2)) HI2
           (Nat.lt_le_incl _ _ Hp2) (or_intror Hp2) st2 eq_refl).
Qed.

(** The kinds of the tokens of a cursor that has [Inv]. *)
Hypothesis Inv_next :
  forall c t, Inv c -> next_token c = Some t ->
    first_taken (Some t) = true
    \/ kind_in [START_EDGE_PROPERTIES; DEPENDENCY] (Some t) = true
    \/ kind t = DAG_HASH.

Lemma next_spec_progress st :
  Inv (ctx (parser st)) ->
  match next_spec parse_one None st with
  | (st', Ok (Some _)) =>
      Inv (ctx (parser st')) /\ pending (ctx (parser st')) < pending (ctx (parser st))
  | (_, Ok None) => True
  | (_, Raise x) => ends x
  end.
Proof.
  intros HI. destruct (next_token (ctx (parser st))) as [t|] eqn:N.
  - destruct (Inv_next HI N) as [F|[F|K]].
    + pose proof (@next_spec_keeps None (ctx (parser st)) HI st eq_refl) as H.
      destruct (next_spec parse_one None st) as [st' [[r|]|x]]; [|exact I|exact H].
      destruct H as (HI' & _ & Hp). split; [exact HI'|].
      apply Hp. left. rewrite N. exact F.
    + pose proof (@next_spec_keeps None (ctx (parser st)) HI st eq_refl) as H.
      destruct (next_spec parse_one None st) as [st' [[r|]|x]]; [|exact I|exact H].
      destruct H as (HI' & _ & Hp). split; [exact HI'|].
      apply Hp. right. rewrite N. exact F.
    + pose proof (@next_spec_hash st t HI N K) as H.
      destruct (next_spec parse_one None st) as [st' [[r|]|x]]; [exact H|exact I|exact H].
  - unfold next_spec, bind, ask_ctx. rewrite N. exact I.
Qed.

Lemma all_specs_loop_ends n st :
  Inv (ctx (parser st)) -> pending (ctx (parser st)) < n ->
  snd (all_specs_loop parse_one n st) <> Raise OutOfFuel.
Proof.
  revert st. induction n as [|n IH]; intros st HI Hn; [lia|].
  cbn [all_specs_loop]. unfold bind at 1.
  pose proof (@next_spec_progress st HI) as H.
  destruct (next_spec parse_one None st) as [st1 [[r|]|x]].
  - destruct H as [HI1 Hp1]. unfold bind.
    assert (Hn1 : pending (ctx (parser st1)) < n) by lia.
    pose proof (IH st1 HI1 Hn1) as H1.
    destruct (all_specs_loop parse_one n st1) as [st2 [ss|y]]; [discriminate|exact H1].
  - discriminate.
  - simpl. intros E. injection E as ->. apply H. reflexivity.
Qed.

Lemma all_specs_ends st :
  Inv (ctx (parser st)) -> snd (all_specs parse_one st) <> Raise OutOfFuel.
Proof.
  intros HI. unfold all_specs, bind, ask_ctx.
  apply all_specs_loop_ends; [exact HI|].
  pose proof (pending_le_left (ctx (parser st))). lia.
Qed.

End Progress.

(** *** Texts without a closing bracket *)

Section NoBracket.
Context {C : Collaborators}.
Local Open Scope monad_scope.

Lemma next_from_usable text raw raw' t :
  Forall (fun t => SpecTokens_eqb (kind t) END_EDGE_PROPERTIES = false) raw ->
  next_from text raw = (raw', Ok t) ->
  usable_opt t
  /\ Forall (fun t => SpecTokens_eqb (kind t) END_EDGE_PROPERTIES = false) raw'.
Proof.
  revert raw' t. induction raw as [|a raw IH]; intros raw' t F; simpl.
  - intros E. injection E as <- <-. split; [exact I|constructor].
  - inversion F as [|? ? Ha Fr]; subst.
    destruct (SpecTokens_eqb (kind a) UNEXPECTED) eqn:U; [discriminate|].
    destruct (SpecTokens_eqb (kind a) WS) eqn:W; simpl.
    + apply IH. exact Fr.
    + intros E. injection E as <- <-. split; [|exact Fr].
      unfold usable_opt, usable, kind_in. cbn [existsb].
      rewrite Ha, W, U. reflexivity.
Qed.

Lemma proper_advance c c' : proper c -> advance c = (c', Ok tt) -> proper c'.
Proof.
  intros (Hn & Hp & Hr). unfold advance.
  destruct (pushed_tokens c) as [|top below].
  - unfold stream_next.
    destruct (next_from (stream_text (token_stream_ c)) (remaining (token_stream_ c)))
      as [raw' [t'|x]] eqn:E; [|discriminate].
    intros A. injection A as <-.
    destruct (next_from_usable _ Hr E) as [Ht Hr'].
    split; [exact Ht|]. split; [constructor|exact Hr'].
  - intros A. injection A as <-. inversion Hp; subst.
    split; [assumption|]. split; assumption.
Qed.

Lemma proper_push c t :
  proper c -> is_name_kind (kind t) = true -> proper (pushed_on c t).
Proof.
  intros (Hn & Hp & Hr) K. unfold proper, pushed_on. cbn.
  split; [|split; [constructor; assumption|exact Hr]].
  unfold usable, kind_in. destruct (kind t); try discriminate K; reflexivity.
Qed.

Lemma proper_next c t :
  proper c -> next_token c = Some t ->
  first_taken (Some t) = true
  \/ kind_in [START_EDGE_PROPERTIES; DEPENDENCY] (Some t) = true
  \/ kind t = DAG_HASH.
Proof.
  intros (Hn & _) N. rewrite N in Hn. unfold usable_opt, usable in Hn.
  unfold first_taken, kind_in in *.
  destruct (kind t); cbn in *; try discriminate Hn; auto.
Qed.

Ltac no_bound := intros; unfold ends; discriminate.

(** Without a closing bracket the loop of the edge attributes only ends
    with an error. *)
Lemma edge_attr_loop_raises n attributes c0 :
  proper c0 -> pending c0 < n ->
  triple c0 (edge_attr_loop n attributes) (fun _ _ => False) ends.
Proof.
  revert attributes c0. induction n as [|n IH]; intros attributes c0 HI Hn; [lia|].
  cbn [edge_attr_loop].
  eapply triple_bind; [apply triple_accept; no_bound|].
  intros [|] c1 [Hk Ha].
  - pose proof (accepted_pending _ _ Hk Ha) as Hp.
    pose proof (proper_advance HI Ha) as HI1.
    eapply triple_bind; [apply triple_current_value; no_bound|]. intros v c2 [-> _].
    eapply triple_bind; [apply triple_split_key_value; no_bound|].
    intros [[name val] b] c2 ->.
    destruct (negb _).
    + intros st _. cbv [raise_SpecParsingError ends]. discriminate.
    + apply IH; [exact HI1|lia].
  - subst c1.
    eapply triple_bind; [apply triple_accept; no_bound|].
    intros [|] c1 [Hk2 Ha2].
    + exfalso. destruct HI as (Hn0 & _).
      destruct (kind_is_true _ _ Hk2) as (t & N & K).
      rewrite N in Hn0. unfold usable_opt, usable, kind_in in Hn0.
      rewrite K in Hn0. discriminate Hn0.
    + intros st _. cbv [raise_SpecParsingError ends]. discriminate.
Qed.

Lemma EdgeAttributeParser_parse_raises parse_one c0 :
  proper c0 ->
  triple c0 (EdgeAttributeParser_parse parse_one)
         (fun _ c1 => proper c1 /\ pending c1 <= pending c0) ends.
Proof.
  intros HI. unfold EdgeAttributeParser_parse.
  eapply triple_bind; [apply triple_ask_ctx|]. intros c c1 [-> ->].
  eapply triple_bind.
  - apply edge_attr_loop_raises; [exact HI|]. pose proof (pending_le_left c0). lia.
  - intros a c1 [].
Qed.

(** Without toolchains in the configuration only a toolchain in the memo
    is applied. *)
Lemma _apply_toolchain_same parse_one s name c0 :
  config_toolchains = [] ->
  triple c0 (_apply_toolchain parse_one s name) (same c0) ends.
Proof.
  intros Hc. unfold _apply_toolchain.
  eapply triple_bind with (Q := same c0); [intros st <-; reflexivity|].
  intros memo c1 ->.
  eapply triple_bind with (Q := same c0).
  - destruct (dict_get name memo); [apply triple_ret; reflexivity|].
    eapply triple_bind with (Q := fun _ _ => False); [|intros ? ? []].
    unfold _parse_toolchain. rewrite Hc. cbn [dict_get].
    apply triple_raise. no_bound.
  - intros t c1 ->. apply triple_on_world. no_bound.
Qed.

End NoBracket.

(** X14.  A text without a closing bracket is parsed to the end.  When no
    toolchains are configured and a new [Spec] has no hash, [parse(text)] on
    a text none of whose tokens is a closing bracket returns its list or
    raises an exception of the code: every call of [next_spec] takes a token
    or raises, so that [all_specs] ends after at most as many calls as the
    text has tokens. *)
Theorem X14_parse_ends :
  forall (C : Collaborators) (depth : nat) (text : string) (w : world),
    config_toolchains = [] ->
    (forall w', truthy (get_abstract_hash (fst (Spec_new w')) (snd (Spec_new w')))
                = false) ->
    no_closing_bracket text = true ->
    snd (parse depth text w) <> Raise OutOfFuel.
Proof.
  intros C depth text w Hc Hnew Hb.
  unfold parse, with_new_parser.
  pose proof (@advance_raises _ (mkContext (parseable_tokens text) None None [])) as R.
  assert (P0 : proper (mkContext (parseable_tokens text) None None [])).
  { split; [exact I|]. split; [constructor|].
    apply Forall_forall. intros t Ht. unfold no_closing_bracket in Hb.
    rewrite forallb_forall in Hb. specialize (Hb t Ht).
    destruct (SpecTokens_eqb (kind t) END_EDGE_PROPERTIES); [discriminate Hb|reflexivity]. }
  unfold TokenContext_init.
  destruct (advance (mkContext (parseable_tokens text) None None [])) as [c [[]|x]] eqn:A.
  - pose proof (proper_advance P0 A) as P1.
    assert (H : snd (all_specs (parse_one_at depth None)
                       (mkState (mkParser text c []) (wld (no_parser w))
                                (emitted (no_parser w))))
                <> Raise OutOfFuel).
    { apply all_specs_ends with (Inv := proper).
      - intros c0 c1 H0 H1. eapply proper_advance; eassumption.
      - intros c0 t H0 H1. apply proper_push; assumption.
      - intros c0 H0. apply EdgeAttributeParser_parse_raises. exact H0.
      - intros s name c0. apply _apply_toolchain_same. exact Hc.
      - exact Hnew.
      - intros c0 t H0 H1. eapply proper_next; eassumption.
      - exact P1. }
    destruct (all_specs _ _) as [st1 r]. exact H.
  - destruct (R x eq_refl) as (toks & text' & ->). simpl. discriminate.
Qed.

(** In the reference world a new node has no hash. *)
Lemma Ref_new_has_no_hash (h : Ref.heap) :
  @truthy
    (@get_abstract_hash Ref.collaborators
       (fst (@Spec_new Ref.collaborators h)) (snd (@Spec_new Ref.collaborators h)))
  = false.
Proof.
  cbn. unfold Ref.get_node. rewrite nth_middle. reflexivity.
Qed.

(** X14 on a text with a dependency given by its hash and a compiler. *)
Lemma X14_parse_ends_witness :
  snd (@parse Ref.collaborators 0 "zlib@1.2 +shared ^/abc %gcc" [])
  <> Raise OutOfFuel.
Proof.
  apply (@X14_parse_ends Ref.collaborators 0 "zlib@1.2 +shared ^/abc %gcc" []).
  - reflexivity.
  - exact Ref_new_has_no_hash.
  - vm_compute. reflexivity.
Defined.


(** ** The second version clause of a node

    The loop of the node parser is run over the clauses of a node, one
    turn for each clause that is taken, up to the version clause that is
    one too many. *)

Ltac known_clause :=
  repeat match goal with
  | H : set_versions _ _ _ = _ |- _ => rewrite H
  | H : attach_git_version_lookup _ _ = _ |- _ => rewrite H
  | H : _add_flag _ _ _ _ _ _ = _ |- _ => rewrite H
  | H : Py.split_once _ _ = _ |- _ => rewrite H
  | H : Py.ends_with _ _ = _ |- _ => rewrite H
  | H : truthy _ = _ |- _ => rewrite H
  end.

Ltac prim_clause :=
  unfold add_flag, split_key_value;
  prim_unfold; use_known; known_clause; prim_unfold; known_clause;
  cbn [parser wld emitted literal_str ctx parsed_toolchains fst snd];
  reflexivity.

(** Runs one turn of the node loop, up to the next turn, which is [E]. *)
Ltac turn_to E :=
  norm;
  lazymatch goal with
  | |- bind _ _ _ = _ => eapply bind_run; [turn_to E | turn_to E]
  | |- or_else _ _ _ = _ => unfold or_else; turn_to E
  | |- (_, _) = _ => reflexivity
  | |- (if truthy _ then _ else _) _ = _ =>
      match goal with
      | H : truthy _ = _ |- _ => rewrite H; turn_to E
      end
  | |- node_loop _ _ _ _ _ _ = _ => exact E
  | |- _ => prim_clause
  end.

(** Runs [SpecNodeParser.parse] up to its loop, which is [E]. *)
Ltac turn_to' E :=
  norm;
  lazymatch goal with
  | |- bind (node_loop _ _ _ _ _) _ _ = _ => exact E
  | |- bind _ _ _ = _ => eapply bind_run; [turn_to' E | turn_to' E]
  | |- or_else _ _ _ = _ => unfold or_else; turn_to' E
  | |- (_, _) = _ => reflexivity
  | |- _ => prim
  end.

Section SecondVersion.
Context {C : Collaborators}.

Lemma serves_app c ts us c' :
  serves c (ts ++ us) c' <-> exists c1, serves c ts c1 /\ serves c1 us c'.
Proof.
  revert c. induction ts as [|t ts IH]; intros c; cbn [app serves].
  - split.
    + intros H. exists c. split; [reflexivity|exact H].
    + intros (c1 & -> & H). exact H.
  - split.
    + intros (N & c1 & A & H). apply IH in H as (c2 & H1 & H2).
      exists c2. split; [|exact H2]. split; [exact N|]. exists c1. split; assumption.
    + intros (c2 & (N & c1 & A & H1) & H2). split; [exact N|].
      exists c1. split; [exact A|]. apply IH. exists c2. split; assumption.
Qed.

Lemma serves_left c ts c' :
  serves c ts c' -> List.length ts + tokens_left c' <= tokens_left c.
Proof.
  revert c. induction ts as [|t ts IH]; intros c; cbn [serves List.length].
  - intros ->. lia.
  - intros (N & c1 & A & H). specialize (IH _ H).
    pose proof (advance_left _ N A). lia.
Qed.

(** One turn of the loop at a clause that is taken. *)
Lemma node_loop_clause n s lc hv ws st t c1 w1 :
  next_token (ctx (parser st)) = Some t ->
  advance (ctx (parser st)) = (c1, Ok tt) ->
  clause_world s t (wld st) = Some w1 ->
  (is_version_kind (kind t) = true -> hv = false) ->
  node_loop (S n) s lc hv ws st
  = node_loop n s lc (hv || is_version_kind (kind t))
      (warn_if_after_compiler lc (value t) ws)
      (mkState (mkParser (literal_str (parser st)) c1 (parsed_toolchains (parser st)))
               w1 (emitted st)).
Proof.
  intros N A W V.
  pose proof (advance_Ok_current _ A) as Ecur. rewrite N in Ecur.
  destruct st as [[lit c memo] w em].
  cbn [ctx parser wld literal_str parsed_toolchains emitted] in *.
  destruct c as [strm cur nt pushed]. cbn [next_token] in N. subst nt.
  destruct c1 as [strm1 cur1 nt1 pushed1]. cbn [current_token] in Ecur. subst cur1.
  destruct t as [k v a b sv]. cbn [kind value] in *.
  unfold clause_world in W. cbn [kind value] in W.
  match goal with
  | |- _ = ?rhs => destruct rhs as [s2 r2] eqn:E2
  end.
  destruct k; try discriminate W; cbn [is_version_kind orb] in *;
    rewrite ?orb_false_r in E2.
  all: try (specialize (V eq_refl); subst hv).
  - (* VERSION_HASH_PAIR *)
    destruct (set_versions s (Py.drop 1 v) w) as [wa [[]|e]] eqn:E1; [|discriminate W].
    destruct (attach_git_version_lookup s wa) as [wb [[]|e]] eqn:E3; [|discriminate W].
    injection W as <-.
    cbn [node_loop]. turn_to E2.
  - destruct (set_versions s (Py.drop 1 v) w) as [wa [[]|e]] eqn:E1; [|discriminate W].
    destruct (attach_git_version_lookup s wa) as [wb [[]|e]] eqn:E3; [|discriminate W].
    injection W as <-.
    cbn [node_loop]. turn_to E2.
  - destruct (set_versions s (Py.drop 1 v) w) as [wa [[]|e]] eqn:E1; [|discriminate W].
    destruct (attach_git_version_lookup s wa) as [wb [[]|e]] eqn:E3; [|discriminate W].
    injection W as <-.
    cbn [node_loop]. turn_to E2.
  - (* PROPAGATED_BOOL_VARIANT *)
    destruct (_add_flag _ _ _ _ _ _) as [wa [[]|e]] eqn:E1; [|discriminate W].
    injection W as <-.
    cbn [node_loop]. turn_to E2.
  - (* BOOL_VARIANT *)
    destruct v as [|c0 v']; [discriminate W|].
    destruct (_add_flag _ _ _ _ _ _) as [wa [[]|e]] eqn:E1; [|discriminate W].
    injection W as <-.
    cbn [node_loop]. turn_to E2.
  - (* PROPAGATED_KEY_VALUE_PAIR *)
    destruct (Py.split_once "==" v) as [[name val]|] eqn:Es; [|discriminate W].
    destruct (_add_flag _ _ _ _ _ _) as [wa [[]|e]] eqn:E1; [|discriminate W].
    injection W as <-.
    cbn [node_loop]. turn_to E2.
  - (* KEY_VALUE_PAIR *)
    destruct (Py.split_once "=" v) as [[name val]|] eqn:Es; [|discriminate W].
    destruct (_add_flag _ _ _ _ _ _) as [wa [[]|e]] eqn:E1; [|discriminate W].
    injection W as <-.
    cbn [node_loop]. turn_to E2.
  - (* DAG_HASH *)
    destruct (truthy (get_abstract_hash s w)) eqn:H; [discriminate W|].
    injection W as <-.
    cbn [node_loop]. turn_to E2.
Qed.


Lemma version_clauses_cons t ts :
  version_clauses (t :: ts)
  = (if is_version_kind (kind t) then 1 else 0) + version_clauses ts.
Proof.
  unfold version_clauses. cbn [filter].
  destruct (is_version_kind (kind t)); reflexivity.
Qed.

(** The loop over the clauses [pre], all taken, and then a version token
    [v2] that is one too many. *)
Lemma node_loop_second_version pre :
  forall n (s : spec) lc (hv : bool) ws (st : state) v2 c' w',
  serves (ctx (parser st)) (pre ++ [v2]) c' ->
  clauses_world s pre (wld st) = Some w' ->
  version_clauses pre = (if hv then 0 else 1) ->
  is_version_kind (kind v2) = true ->
  List.length pre < n ->
  node_loop n s lc hv ws st
  = (mkState (mkParser (literal_str (parser st)) c' (parsed_toolchains (parser st)))
             w' (emitted st),
     Raise (second_version_error v2 (literal_str (parser st)))).
Proof.
  induction pre as [|t pre IH]; intros n s lc hv ws st v2 c' w' Hs Hw Hv K2 Hn.
  - cbn [app serves] in Hs. destruct Hs as (N & c1 & A & ->).
    cbn [clauses_world] in Hw. injection Hw as <-.
    destruct hv; [|discriminate Hv].
    destruct n as [|n]; [inversion Hn|].
    rewrite (second_version n s lc ws st N K2 A).
    destruct st as [[lit c memo] w em]. reflexivity.
  - cbn [app serves] in Hs. destruct Hs as (N & c1 & A & Hs).
    cbn [clauses_world] in Hw.
    destruct (clause_world s t (wld st)) as [w1|] eqn:W; [|discriminate Hw].
    rewrite version_clauses_cons in Hv.
    destruct n as [|n]; [inversion Hn|]. cbn [List.length] in Hn.
    assert (V : is_version_kind (kind t) = true -> hv = false).
    { intros E. rewrite E in Hv. destruct hv; [discriminate Hv|reflexivity]. }
    rewrite (node_loop_clause n s lc ws st N A W V).
    rewrite (IH n s lc (hv || is_version_kind (kind t))
               (warn_if_after_compiler lc (value t) ws)
               (mkState (mkParser (literal_str (parser st)) c1
                                  (parsed_toolchains (parser st))) w1 (emitted st))
               v2 c' w');
      [reflexivity|exact Hs|exact Hw| |exact K2|lia].
    destruct (is_version_kind (kind t)), hv; cbn [orb]; cbn in Hv; lia.
Qed.

(** [SpecNodeParser.parse] up to its loop, at a name or a clause. *)
Lemma SpecNodeParser_parse_to_loop init root st name t c1 :
  is_node_name name = true ->
  serves (ctx (parser st)) (node_tokens name []) c1 ->
  next_token c1 = Some t -> is_clause_kind (kind t) = true ->
  SpecNodeParser_parse init root st
  = let p := named_node init name (wld st) in
    bind (node_loop (S (tokens_left c1)) (fst p) None false [])
         (fun ws => ret (Some (fst p), ws))
         (mkState (mkParser (literal_str (parser st)) c1 (parsed_toolchains (parser st)))
                  (snd p) (emitted st)).
Proof.
  intros Hname Hs N K.
  destruct st as [[lit c memo] w em].
  cbn [ctx parser literal_str parsed_toolchains wld emitted] in *.
  assert (P : exists s w1, match init with
                           | Some s => (s, w)
                           | None => Spec_new w
                           end = (s, w1)).
  { destruct init; [eauto|]. destruct (Spec_new w); eauto. }
  destruct P as (s & w1 & P).
  unfold named_node. rewrite P. cbn [fst snd]. cbv zeta.
  destruct name as [nm|]; cbn [node_tokens serves is_node_name] in *.
  - destruct Hs as (Nn & c2 & A & ->).
    pose proof (advance_Ok_current _ A) as Ecur. rewrite Nn in Ecur.
    destruct c as [strm cur nt pushed]. cbn [next_token] in Nn. subst nt.
    destruct c2 as [strm' cur' nt' pushed']. cbn [next_token current_token] in *.
    subst cur' nt'.
    destruct nm as [k v a b sv]. cbn [kind value] in *.
    destruct t as [kt vt at_ bt svt]. cbn [kind] in K.
    match goal with
    | |- _ = ?rhs => destruct rhs as [s2 r2] eqn:E2
    end.
    unfold SpecNodeParser_parse.
    destruct k; try discriminate Hname; cbn [name_node] in E2.
    + destruct init as [s'|]; [injection P as -> ->|]; turn_to' E2.
    + destruct (String.eqb v "*") eqn:Ev; destruct init as [s'|];
        try injection P as -> ->; turn_to' E2.
  - subst c1.
    destruct c as [strm cur nt pushed]. cbn [next_token] in N. subst nt.
    destruct t as [kt vt at_ bt svt]. cbn [kind] in K.
    match goal with
    | |- _ = ?rhs => destruct rhs as [s2 r2] eqn:E2
    end.
    unfold SpecNodeParser_parse.
    destruct kt; try discriminate K;
      (destruct init as [s'|]; [injection P as -> ->|]); turn_to' E2.
Qed.


Lemma clause_world_kind s t w w1 :
  clause_world s t w = Some w1 -> is_clause_kind (kind t) = true.
Proof.
  unfold clause_world. destruct (kind t); try discriminate; reflexivity.
Qed.

Lemma node_tokens_app name ts : node_tokens name ts = node_tokens name [] ++ ts.
Proof. destruct name; reflexivity. Qed.

(** [SpecNodeParser.parse] on a node whose clauses hold a second version
    clause. *)
Lemma SpecNodeParser_parse_second_version init root st name pre v2 c' w' :
  is_node_name name = true ->
  serves (ctx (parser st)) (node_tokens name (pre ++ [v2])) c' ->
  clauses_world (fst (named_node init name (wld st))) pre
                (snd (named_node init name (wld st))) = Some w' ->
  version_clauses pre = 1 ->
  is_version_kind (kind v2) = true ->
  SpecNodeParser_parse init root st
  = (mkState (mkParser (literal_str (parser st)) c' (parsed_toolchains (parser st)))
             w' (emitted st),
     Raise (second_version_error v2 (literal_str (parser st)))).
Proof.
  intros Hname Hs Hw Hv K2.
  rewrite node_tokens_app in Hs. apply serves_app in Hs as (c1 & Hs0 & Hs).
  destruct pre as [|t pre]; [discriminate Hv|].
  assert (N : next_token c1 = Some t) by (destruct Hs as [N _]; exact N).
  assert (K : is_clause_kind (kind t) = true).
  { cbn [clauses_world] in Hw.
    destruct (clause_world _ t _) as [w1|] eqn:W; [|discriminate Hw].
    exact (@clause_world_kind _ _ _ _ W). }
  rewrite (@SpecNodeParser_parse_to_loop init root st name t c1 Hname Hs0 N K).
  cbv zeta. unfold bind.
  pose proof (@serves_left _ _ _ Hs) as Hl. rewrite length_app in Hl. cbn [List.length] in Hl.
  rewrite (@node_loop_second_version (t :: pre) (S (tokens_left c1))
             (fst (named_node init name (wld st))) None false []
             (mkState (mkParser (literal_str (parser st)) c1
                                (parsed_toolchains (parser st)))
                      (snd (named_node init name (wld st))) (emitted st))
             v2 c' w' Hs Hw Hv K2);
    [reflexivity|cbn [List.length] in *; lia].
Qed.

(** [parse] on a text whose first node holds a second version clause. *)
Lemma parse_second_version depth text w c0 name pre v2 c' w' :
  TokenContext_init (parseable_tokens text) = (c0, Ok tt) ->
  is_node_name name = true ->
  serves c0 (node_tokens name (pre ++ [v2])) c' ->
  clauses_world (fst (named_node None name w)) pre
                (snd (named_node None name w)) = Some w' ->
  version_clauses pre = 1 ->
  is_version_kind (kind v2) = true ->
  parse depth text w
  = (mkState (parser (no_parser w)) w' [], Raise (second_version_error v2 text)).
Proof.
  intros Hinit Hname Hs Hw Hv K2.
  assert (N0 : exists t0, next_token c0 = Some t0).
  { destruct name as [nm|]; cbn [node_tokens] in Hs.
    - destruct Hs as [N _]. eauto.
    - destruct pre as [|t pre]; [discriminate Hv|]. destruct Hs as [N _]. eauto. }
  destruct N0 as (t0 & N0).
  unfold parse, with_new_parser. rewrite Hinit.
  cbn [wld emitted no_parser].
  unfold named_node in Hw. destruct (Spec_new w) as [s w1] eqn:En. cbn [fst snd] in Hw.
  pose proof (@SpecNodeParser_parse_second_version (Some s) true
                (mkState (mkParser text c0 []) w1 []) name pre v2 c' w'
                Hname Hs Hw Hv K2) as E.
  cbn [literal_str parser parsed_toolchains emitted] in E.
  unfold all_specs. unfold bind at 1. unfold ask_ctx at 1.
  cbn [all_specs_loop]. unfold bind at 1.
  unfold next_spec. unfold bind at 1. unfold ask_ctx at 1.
  cbn [ctx parser]. rewrite N0.
  unfold bind at 1. cbn [wld]. rewrite En. unfold set_wld. cbn [parser emitted].
  unfold bind at 1. rewrite E. reflexivity.
Qed.

End SecondVersion.

(** C2, as stated, fails: in ["foo@1@2$"] the node [foo] carries two version
    clauses, and the parse raises the tokenization error.  Accepting [@2]
    refills the lookahead, and the generator under the cursor raises at the
    unexpected [$] before the number of versions is looked at. *)
Lemma C2_counterexample :
  map (fun t => (kind t, value t)) (SPEC_TOKENIZER_tokenize "foo@1@2$")
  = [(UNQUALIFIED_PACKAGE_NAME, "foo"); (VERSION, "@1"); (VERSION, "@2");
     (UNEXPECTED, "$")]
  /\ snd (@parse Ref.collaborators 0 "foo@1@2$" [])
     = Raise (SpecTokenizationError (SPEC_TOKENIZER_tokenize "foo@1@2$") "foo@1@2$").
Proof.
  split; vm_compute; reflexivity.
Qed.

(** C2, amended.  A second version clause is a parse error when the parser
    gets to it.  [SpecNodeParser.parse] is run at a cursor that serves the
    tokens of a node: its name if it has one, clauses [pre] that hold one
    version clause, and then a version token [v2]; each clause of [pre] is
    taken (no collaborator raises on it, its text can be split, and no hash
    comes for a node that has one), and the lookahead is refilled after
    each token, [v2] included (the refill raises the tokenization error
    when the token that follows is an unexpected one).  Then

    - the node parser raises the parse error anchored at [v2], whose
      message starts with "Spec cannot have multiple versions", with the
      cursor after [v2] and the world as the clauses of [pre] left it;
    - so does [parse(text)] when the node is the first one of the text;
    - so does the loop of the node parser, started with [has_version] set
      and no version clause in [pre], or unset and one version clause.

    Conversely the error comes only from a second version clause: when the
    loop raises it, the run of clauses at the cursor holds a version
    clause, and two of them if none was taken yet; and when
    [SpecNodeParser.parse] raises it, the clauses of its node hold two
    version clauses. *)
Theorem C2_multiple_versions :
  forall (C : Collaborators),
    (forall (init : option spec) (root : bool) (st : state)
            (name : option token) (pre : list token) (v2 : token)
            (c' : TokenContext) (w' : world),
        is_node_name name = true ->
        serves (ctx (parser st)) (node_tokens name (pre ++ [v2])) c' ->
        clauses_world (fst (named_node init name (wld st))) pre
                      (snd (named_node init name (wld st))) = Some w' ->
        version_clauses pre = 1 ->
        is_version_kind (kind v2) = true ->
        SpecNodeParser_parse init root st
        = (mkState (mkParser (literal_str (parser st)) c'
                             (parsed_toolchains (parser st))) w' (emitted st),
           Raise (second_version_error v2 (literal_str (parser st))))
        /\ Py.starts_with "Spec cannot have multiple versions"
             (exn_str (second_version_error v2 (literal_str (parser st)))) = true)
    /\ (forall (depth : nat) (text : string) (w : world) (c0 : TokenContext)
               (name : option token) (pre : list token) (v2 : token)
               (c' : TokenContext) (w' : world),
           TokenContext_init (parseable_tokens text) = (c0, Ok tt) ->
           is_node_name name = true ->
           serves c0 (node_tokens name (pre ++ [v2])) c' ->
           clauses_world (fst (named_node None name w)) pre
                         (snd (named_node None name w)) = Some w' ->
           version_clauses pre = 1 ->
           is_version_kind (kind v2) = true ->
           parse depth text w
           = (mkState (parser (no_parser w)) w' [],
              Raise (second_version_error v2 text)))
    /\ (forall (n : nat) (s : spec) (lc : option string) (hv : bool)
               (ws : list string) (st : state) (pre : list token) (v2 : token)
               (c' : TokenContext) (w' : world),
           serves (ctx (parser st)) (pre ++ [v2]) c' ->
           clauses_world s pre (wld st) = Some w' ->
           version_clauses pre = (if hv then 0 else 1) ->
           is_version_kind (kind v2) = true ->
           List.length pre < n ->
           node_loop n s lc hv ws st
           = (mkState (mkParser (literal_str (parser st)) c'
                                (parsed_toolchains (parser st))) w' (emitted st),
              Raise (second_version_error v2 (literal_str (parser st)))))
    /\ (forall (n : nat) (s : spec) (lc : option string) (hv : bool)
               (ws : list string) (st : state) (x : exn),
           snd (node_loop n s lc hv ws st) = Raise x -> multiple_versions x ->
           (if hv then 1 else 2)
           <= version_clauses (clause_run (ctx (parser st))))
    /\ (forall (init : option spec) (root : bool) (st : state) (x : exn),
           snd (SpecNodeParser_parse init root st) = Raise x ->
           multiple_versions x ->
           2 <= version_clauses (node_clauses (ctx (parser st)))).
Proof.
  intros C. split; [|split; [|split; [|split]]].
  - intros init root st name pre v2 c' w' Hname Hs Hw Hv K2. split.
    + exact (@SpecNodeParser_parse_second_version C init root st name pre v2 c' w'
               Hname Hs Hw Hv K2).
    + reflexivity.
  - intros depth text w c0 name pre v2 c' w' Hinit Hname Hs Hw Hv K2.
    exact (@parse_second_version C depth text w c0 name pre v2 c' w'
             Hinit Hname Hs Hw Hv K2).
  - intros n s lc hv ws st pre v2 c' w' Hs Hw Hv K2 Hn.
    exact (@node_loop_second_version C pre n s lc hv ws st v2 c' w' Hs Hw Hv K2 Hn).
  - intros n s lc hv ws st x E Hx.
    pose proof (node_loop_enough n s lc hv ws (c0 := ctx (parser st)) st eq_refl) as H.
    destruct (node_loop n s lc hv ws st) as [st' [a|y]]; simpl in E; [discriminate|].
    injection E as ->. exact (H Hx).
  - intros init root st x E Hx.
    pose proof (SpecNodeParser_parse_enough init root (c0 := ctx (parser st)) st eq_refl) as H.
    destruct (SpecNodeParser_parse init root st) as [st' [a|y]]; simpl in E;
      [discriminate|].
    injection E as ->. exact (H Hx).
Qed.

Ltac serving :=
  cbn [serves node_tokens app];
  repeat (split; [reflexivity|eexists; split; [vm_compute; reflexivity|]]);
  reflexivity.

(** The amended C2 on ["foo@1.0@2.0"], the whole parse, and on the node
    [bar +x @1.0 @2.0] of [foo ^bar +x @1.0 @2.0], where the node parser is
    started after the sigil; and the converse on the same two errors. *)
Lemma C2_multiple_versions_witness :
  let text := "foo@1.0@2.0" in
  let foo := mkToken UNQUALIFIED_PACKAGE_NAME "foo" 0 3 None in
  let v1 := mkToken VERSION "@1.0" 3 7 None in
  let v2 := mkToken VERSION "@2.0" 7 11 None in
  let c0 := fst (@TokenContext_init Ref.collaborators (parseable_tokens text)) in
  let text' := "foo ^bar +x @1.0 @2.0" in
  let bar := mkToken UNQUALIFIED_PACKAGE_NAME "bar" 5 8 None in
  let x := mkToken BOOL_VARIANT "+x" 9 11 None in
  let v1' := mkToken VERSION "@1.0" 12 16 None in
  let v2' := mkToken VERSION "@2.0" 17 21 None in
  let c1 := fst (@advance Ref.collaborators
                   (fst (@advance Ref.collaborators
                           (fst (@TokenContext_init Ref.collaborators
                                   (parseable_tokens text')))))) in
  let st1 := @mkState Ref.collaborators (mkParser text' c1 [])
               [Ref.mkNode (Some "foo") None None [] None []] [] in
  @parse Ref.collaborators 0 text []
  = (@mkState Ref.collaborators (parser (@no_parser Ref.collaborators []))
       [Ref.mkNode (Some "foo") None (Some "1.0") [] None []] [],
     Raise (@second_version_error Ref.collaborators v2 text))
  /\ snd (@SpecNodeParser_parse Ref.collaborators None false st1)
     = Raise (@second_version_error Ref.collaborators v2' text')
  /\ snd (@node_loop Ref.collaborators 3 0 None false []
            (@mkState Ref.collaborators
               (mkParser text (fst (@advance Ref.collaborators c0)) []) [Ref.empty_node] []))
     = Raise (@second_version_error Ref.collaborators v2 text)
  /\ 2 <= version_clauses (clause_run (fst (@advance Ref.collaborators c0)))
  /\ 2 <= version_clauses (node_clauses c0).
Proof.
  intros text foo v1 v2 c0 text' bar x v1' v2' c1 st1.
  destruct (@C2_multiple_versions Ref.collaborators)
    as (Hnode & Hparse & Hloop & Hruns & Hclauses).
  split; [|split; [|split; [|split]]].
  - apply (Hparse 0 text [] c0 (Some foo) [v1] v2
             (mkContext (mkStream text []) (Some v2) None []));
      [reflexivity|reflexivity|serving|reflexivity|reflexivity|reflexivity].
  - destruct (Hnode None false st1 (Some bar) [x; v1'] v2'
                (mkContext (mkStream text' []) (Some v2') None [])
                [Ref.mkNode (Some "foo") None None [] None [];
                 Ref.mkNode (Some "bar") None (Some "1.0")
                            [("x", (VBool true, false, true))] None []])
      as [E _];
      [reflexivity|serving|reflexivity|reflexivity|reflexivity|].
    rewrite E. reflexivity.
  - rewrite (Hloop 3 0 None false []
               (@mkState Ref.collaborators
                  (mkParser text (fst (@advance Ref.collaborators c0)) [])
                  [Ref.empty_node] [])
               [v1] v2 (mkContext (mkStream text []) (Some v2) None [])
               [Ref.mkNode None None (Some "1.0") [] None []]);
      [reflexivity|serving|reflexivity|reflexivity|reflexivity|vm_compute; lia].
  - apply (Hruns 3 0 None false []
             (@mkState Ref.collaborators
                (mkParser text (fst (@advance Ref.collaborators c0)) [])
                [Ref.empty_node] [])
             (@second_version_error Ref.collaborators v2 text));
      [vm_compute; reflexivity|].
    exists (Some v2), text. reflexivity.
  - apply (Hclauses (Some 0) true
             (@mkState Ref.collaborators (mkParser text c0 []) [Ref.empty_node] [])
             (@second_version_error Ref.collaborators v2 text));
      [vm_compute; reflexivity|].
    exists (Some v2), text. reflexivity.
Defined.
